(** * Stock analytics C modules: a shallow embedding and its verification

    The three C translation units [stock_span.c], [segment_tree.c] and
    [sliding_window.c] are embedded function by function.

    - [double] is IEEE 754 binary64: Rocq's primitive [float] with its
      operations, so rounding, infinities and NaN behave as on the machine.
    - [size_t] is a 64-bit unsigned integer: a [Z] whose wrap-around is
      written out with [sz] wherever the C expression could wrap.
    - [int] is a 32-bit signed integer; the cast from [size_t] is [to_int].
    - A pointer argument is an [option]: [None] is [NULL], [Some v] a valid
      pointer to a location that currently holds [v].
    - A heap array obtained from [malloc] is a [list (option T)]: a slot is
      [None] until the program stores to it.  Reading outside an array or
      reading a slot that was never written is undefined behaviour in C and
      the result [Fault] here.
    - [malloc] may fail: every call consumes one answer of an allocation
      oracle carried by the monad.
    - Loops whose trip count is not fixed run on fuel; running out of fuel is
      the separate result [OutOfFuel], and the theorems show it is never
      reached. *)

From Stdlib Require Import ZArith List Floats Lia String Bool Permutation Sorted.
From stdpp Require Import base list.
Import ListNotations.
Open Scope Z_scope.
Set Warnings "-inexact-float".

(** ** Machine integers *)

Definition SIZE_MAX_plus_1 : Z := 2 ^ 64.

(** Wrap-around of [size_t] arithmetic. *)
Definition sz (z : Z) : Z := z mod SIZE_MAX_plus_1.

(** The cast [(int) x] of a [size_t]: reduction to 32 bits, two's complement. *)
Definition to_int (z : Z) : Z :=
  let r := z mod 2 ^ 32 in if r <? 2 ^ 31 then r else r - 2 ^ 32.

(** [(double) n] for a [size_t] [n] (exact below 2^53; [of_uint63] below 2^63). *)
Definition double_of_size_t (n : Z) : float := PrimFloat.of_uint63 (Uint63.of_Z n).

(** [#define MAX_ARRAY_SIZE 10000000] (the same in the three units). *)
Definition MAX_ARRAY_SIZE : Z := 10000000.

(** [isnan(x) || isinf(x)], the test of the three validation loops. *)
Definition isnan (x : float) : bool := PrimFloat.is_nan x.
Definition isinf (x : float) : bool := PrimFloat.is_infinity x.

(** C comparison operators on [double]. *)
Definition dlt (x y : float) : bool := PrimFloat.ltb x y.
Definition dle (x y : float) : bool := PrimFloat.leb x y.
Definition dgt (x y : float) : bool := PrimFloat.ltb y x.
Definition dge (x y : float) : bool := PrimFloat.leb y x.

(** ** Pointers and C strings *)

Definition ptr (A : Type) : Type := option A.

(** [strncpy(dst, src, n)] followed by a terminating NUL at [dst[n]]: the
    C string left in [dst] is [src] cut to [n] characters. *)
Definition strncpy_terminated (src : string) (n : Z) : string :=
  String.substring 0 (Z.to_nat n) src.

(** [setError]: the three units define it identically. *)
Definition setError (err_buf : ptr string) (err_buf_len : Z) (msg : string)
  : ptr string :=
  match err_buf with
  | Some old =>
      if 0 <? err_buf_len
      then Some (strncpy_terminated msg (sz (err_buf_len - 1)))
      else Some old
  | None => None
  end.

(** ** Data structures of the three units *)

(** [TreeNode] of segment_tree.c. *)
Record TreeNode : Type := mkTreeNode {
  tn_min : float;
  tn_max : float;
  tn_sum : float;
  tn_sum_sq : float;
  tn_count : Z
}.

(** [SegmentTree] of segment_tree.c; [st_nodes] is the malloc'ed node array. *)
Record SegmentTree : Type := mkSegmentTree {
  st_nodes : list (option TreeNode);
  st_length : Z;
  st_tree_size : Z
}.

(** [WindowStats] of sliding_window.c; [pattern] is the [char[32]] label. *)
Record WindowStats : Type := mkWindowStats {
  ws_max : float;
  ws_min : float;
  ws_avg : float;
  ws_pattern : string
}.

(** [WindowResult] of sliding_window.c. *)
Record WindowResult : Type := mkWindowResult {
  wr_windows : list (option WindowStats);
  wr_num_windows : Z;
  wr_window_size : Z
}.

(** [Deque] of sliding_window.c: a circular buffer of indices. *)
Record Deque : Type := mkDeque {
  dq_indices : list (option Z);
  dq_front : Z;
  dq_back : Z;
  dq_capacity : Z
}.

(** [IndexStack] of stock_span.c. *)
Record IndexStack : Type := mkIndexStack {
  stk_data : list (option Z);
  stk_top : Z;
  stk_capacity : Z
}.

(** ** Execution monad *)

(** Ghost events, recorded for the safety analysis of the deques: every deque
    primitive logs the deque it is about to work on, and the analyzer logs
    both deques at the moment a window's extrema are read off their fronts.
    Events never influence a computed value. *)
Inductive deque_op : Type :=
| OpPushBack (idx : Z)
| OpPopBack
| OpPopFront
| OpFront
| OpBack.

Inductive event : Type :=
| EvDeque (op : deque_op) (dq : Deque)
| EvWindow (i : Z) (max_dq min_dq : Deque).

Record world : Type := mkWorld {
  oracle : list bool;    (* answers of the coming malloc calls; exhausted = success *)
  trace : list event     (* ghost log, most recent event last *)
}.

(** The world in which every allocation succeeds and nothing is logged yet. *)
Definition w0 : world := {| oracle := []; trace := [] |}.

Inductive outcome (A : Type) : Type :=
| Ok (a : A)
| Fault
| OutOfFuel.
Arguments Ok {A} a.
Arguments Fault {A}.
Arguments OutOfFuel {A}.

Definition M (A : Type) : Type := world -> outcome (A * world).

Definition ret {A} (a : A) : M A := fun w => Ok (a, w).

Definition bind {A B} (m : M A) (k : A -> M B) : M B :=
  fun w => match m w with
           | Ok (a, w') => k a w'
           | Fault => Fault
           | OutOfFuel => OutOfFuel
           end.

Definition fault {A} : M A := fun _ => Fault.
Definition out_of_fuel {A} : M A := fun _ => OutOfFuel.

Declare Scope monad_scope.
Delimit Scope monad_scope with monad.
Notation "x <- m ;; k" := (bind m (fun x => k))
  (at level 20, m at level 99, k at level 200, only parsing) : monad_scope.
Notation "' pat <- m ;; k" := (bind m (fun x => match x with pat => k end))
  (at level 20, pat pattern, m at level 99, k at level 200, only parsing)
  : monad_scope.
Open Scope monad_scope.

(** [malloc]: [true] when the allocation succeeds. *)
Definition malloc : M bool :=
  fun w => match oracle w with
           | [] => Ok (true, w)
           | b :: rest => Ok (b, {| oracle := rest; trace := trace w |})
           end.

(** [sizeof] of the element types the units allocate arrays of (LP64:
    4-byte [int], 8-byte [size_t] and [double]; [TreeNode] is four doubles
    and a [size_t], [WindowStats] three doubles and a [char[32]]). *)
Definition sizeof_int : Z := 4.
Definition sizeof_size_t : Z := 8.
Definition sizeof_TreeNode : Z := 40.
Definition sizeof_WindowStats : Z := 56.

(** [malloc(n * size)] for an array of elements of [size] bytes.  The byte
    count is a [size_t] product and wraps, so the block has room for
    [sz (n * size) / size] elements, which is [n] only when the product
    does not wrap.  [None] is the NULL result. *)
Definition malloc_array {T} (size n : Z) : M (option (list (option T))) :=
  b <- malloc ;;
  ret (if b then Some (replicate (Z.to_nat (sz (n * size) / size)) None)
       else None).

Definition log (e : event) : M unit :=
  fun w => Ok (tt, {| oracle := oracle w; trace := trace w ++ [e] |}).

(** [a[i]] as an rvalue. *)
Definition load {T} (a : list (option T)) (i : Z) : M T :=
  if i <? 0 then fault
  else match a !! Z.to_nat i with
       | Some (Some v) => ret v
       | _ => fault
       end.

(** [a[i] = v]. *)
Definition store {T} (a : list (option T)) (i : Z) (v : T) : M (list (option T)) :=
  if (0 <=? i) && (i <? Z.of_nat (length a))
  then ret (<[Z.to_nat i := Some v]> a)
  else fault.

(** [prices[i]] on the caller's (initialised) input array. *)
Definition load_price (prices : list float) (i : Z) : M float :=
  if i <? 0 then fault
  else match prices !! Z.to_nat i with
       | Some p => ret p
       | None => fault
       end.

(** [a % b] on [size_t]; a zero divisor is undefined behaviour. *)
Definition sz_rem (a b : Z) : M Z :=
  if b =? 0 then fault else ret (a mod b).

(** [for (size_t i = lo; i < lo + n; i++) body], no early exit. *)
Fixpoint for_up {S} (n : nat) (i : Z) (body : Z -> S -> M S) (s : S) : M S :=
  match n with
  | O => ret s
  | Datatypes.S n' => s' <- body i s ;; for_up n' (i + 1) body s'
  end.

(** [for (size_t i = hi; i > hi - n; i--) body]. *)
Fixpoint for_down {S} (n : nat) (i : Z) (body : Z -> S -> M S) (s : S) : M S :=
  match n with
  | O => ret s
  | Datatypes.S n' => s' <- body i s ;; for_down n' (i - 1) body s'
  end.

(** [while (cond) body] on fuel. *)
Fixpoint while {S} (fuel : nat) (cond : S -> M bool) (body : S -> M S) (s : S)
  : M S :=
  match fuel with
  | O => out_of_fuel
  | Datatypes.S fuel' =>
      b <- cond s ;;
      if b then s' <- body s ;; while fuel' cond body s' else ret s
  end.

(** The validation loop shared by the three entry points:
    [for (i = 0; i < length; i++) if (isnan(prices[i]) || isinf(prices[i])) return -4;]
    answers [true] when some price is rejected. *)
Fixpoint has_invalid_price (n : nat) (i : Z) (prices : list float) : M bool :=
  match n with
  | O => ret false
  | Datatypes.S n' =>
      p <- load_price prices i ;;
      if isnan p || isinf p then ret true
      else has_invalid_price n' (i + 1) prices
  end.

(** * stock_span.c *)

Module StockSpan.

(** [createStack]: two allocations; the struct is released again when the
    data array cannot be obtained. *)
Definition createStack (capacity : Z) : M (option IndexStack) :=
  got_stack <- malloc ;;
  if negb got_stack then ret None
  else
    data <- malloc_array sizeof_size_t capacity ;;
    match data with
    | None => ret None
    | Some data =>
        ret (Some {| stk_data := data; stk_top := 0; stk_capacity := capacity |})
    end.

Definition isEmpty (stack : IndexStack) : bool := stk_top stack =? 0.

(** [stack->data[stack->top++] = value] *)
Definition push (stack : IndexStack) (value : Z) : M IndexStack :=
  data <- store (stk_data stack) (stk_top stack) value ;;
  ret {| stk_data := data;
         stk_top := sz (stk_top stack + 1);
         stk_capacity := stk_capacity stack |}.

(** [return stack->data[--stack->top]] *)
Definition pop (stack : IndexStack) : M (Z * IndexStack) :=
  let top := sz (stk_top stack - 1) in
  v <- load (stk_data stack) top ;;
  ret (v, {| stk_data := stk_data stack;
             stk_top := top;
             stk_capacity := stk_capacity stack |}).

(** [return stack->data[stack->top - 1]] *)
Definition peek (stack : IndexStack) : M Z :=
  load (stk_data stack) (sz (stk_top stack - 1)).

(** [!isEmpty(stack) && prices[peek(stack)] <= prices[i]] *)
Definition pop_cond (prices : list float) (i : Z) (stack : IndexStack) : M bool :=
  if isEmpty stack then ret false
  else
    j <- peek stack ;;
    pj <- load_price prices j ;;
    pi <- load_price prices i ;;
    ret (dle pj pi).

Definition pop_body (stack : IndexStack) : M IndexStack :=
  '(_, stack') <- pop stack ;;
  ret stack'.

(** One iteration of the main loop, on the pair (stack, spans). *)
Definition span_step (prices : list float) (i : Z)
    (s : IndexStack * list (option Z)) : M (IndexStack * list (option Z)) :=
  let '(stack, spans) := s in
  stack <- while (S (Z.to_nat (stk_top stack))) (pop_cond prices i) pop_body stack ;;
  span <- (if isEmpty stack then ret (to_int (sz (i + 1)))
           else j <- peek stack ;; ret (to_int (sz (i - j)))) ;;
  spans <- store spans i span ;;
  stack <- push stack i ;;
  ret (stack, spans).

(** [calculateStockSpan]: the result is the returned status, the content of
    [*out_spans] after the call and the content of the error buffer. *)
Definition calculateStockSpan (prices : ptr (list float)) (length : Z)
    (out_spans : ptr (option (list (option Z))))
    (err_buf : ptr string) (err_buf_len : Z)
  : M (Z * ptr (option (list (option Z))) * ptr string) :=
  match prices, out_spans with
  | Some prices, Some _ =>
      if (length =? 0) || (MAX_ARRAY_SIZE <? length) then
        ret (-2, out_spans, setError err_buf err_buf_len "Invalid array length")
      else
        bad <- has_invalid_price (Z.to_nat length) 0 prices ;;
        if bad then
          ret (-4, out_spans,
               setError err_buf err_buf_len "Invalid price value (NaN or infinite)")
        else
          spans <- malloc_array sizeof_int length ;;
          match spans with
          | None =>
              ret (-3, Some None,
                   setError err_buf err_buf_len
                     "Memory allocation failed for spans array")
          | Some spans =>
              stack <- createStack length ;;
              match stack with
              | None =>
                  ret (-3, Some None,
                       setError err_buf err_buf_len
                         "Memory allocation failed for stack")
              | Some stack =>
                  '(_, spans) <-
                     for_up (Z.to_nat length) 0 (span_step prices) (stack, spans) ;;
                  ret (0, Some (Some spans), err_buf)
              end
          end
  | _, _ =>
      ret (-1, out_spans, setError err_buf err_buf_len "NULL pointer argument")
  end.

End StockSpan.

(** * segment_tree.c *)

Module SegTree.

Local Open Scope float_scope.

(** [DBL_MAX] of <float.h>. *)
Definition DBL_MAX : float := 0x1.fffffffffffffp+1023.

(** [mergeNodes] *)
Definition mergeNodes (left right : TreeNode) : TreeNode :=
  {| tn_min := if dlt (tn_min left) (tn_min right) then tn_min left else tn_min right;
     tn_max := if dgt (tn_max left) (tn_max right) then tn_max left else tn_max right;
     tn_sum := tn_sum left + tn_sum right;
     tn_sum_sq := tn_sum_sq left + tn_sum_sq right;
     tn_count := sz (tn_count left + tn_count right) |}.

(** The leaf written for one price. *)
Definition leafNode (p : float) : TreeNode :=
  {| tn_min := p; tn_max := p; tn_sum := p; tn_sum_sq := p * p; tn_count := 1 |}.

(** Body of the leaf loop: [idx = length + i; nodes[idx] = leaf of prices[i]]. *)
Definition leaf_step (prices : list float) (length : Z) (i : Z)
    (nodes : list (option TreeNode)) : M (list (option TreeNode)) :=
  let idx := sz (length + i) in
  p <- load_price prices i ;;
  store nodes idx (leafNode p).

(** Body of the internal loop:
    [nodes[i] = mergeNodes(&nodes[2*i], &nodes[2*i + 1])]. *)
Definition internal_step (i : Z) (nodes : list (option TreeNode))
  : M (list (option TreeNode)) :=
  l <- load nodes (sz (2 * i)) ;;
  r <- load nodes (sz (sz (2 * i) + 1)) ;;
  store nodes i (mergeNodes l r).

(** [buildSegmentTree]: status, content of [*out_tree_handle], error buffer. *)
Definition buildSegmentTree (prices : ptr (list float)) (length : Z)
    (out_tree_handle : ptr (option SegmentTree))
    (err_buf : ptr string) (err_buf_len : Z)
  : M (Z * ptr (option SegmentTree) * ptr string) :=
  match prices, out_tree_handle with
  | Some prices, Some _ =>
      if (length =? 0)%Z || (MAX_ARRAY_SIZE <? length)%Z then
        ret (-2, out_tree_handle,
             setError err_buf err_buf_len "Invalid array length")%Z
      else
        bad <- has_invalid_price (Z.to_nat length) 0 prices ;;
        if bad then
          ret (-4, out_tree_handle,
               setError err_buf err_buf_len "Invalid price value")%Z
        else
          got_tree <- malloc ;;
          if negb got_tree then
            ret (-3, out_tree_handle,
                 setError err_buf err_buf_len "Memory allocation failed")%Z
          else
            let tree_size := sz (2 * length) in
            nodes <- malloc_array sizeof_TreeNode tree_size ;;
            match nodes with
            | None =>
                ret (-3, out_tree_handle,
                     setError err_buf err_buf_len
                       "Memory allocation failed for tree nodes")%Z
            | Some nodes =>
                nodes <- for_up (Z.to_nat length) 0 (leaf_step prices length) nodes ;;
                nodes <- for_down (Z.to_nat (length - 1)) (sz (length - 1))
                           internal_step nodes ;;
                ret (0%Z,
                     Some (Some {| st_nodes := nodes;
                                   st_length := length;
                                   st_tree_size := tree_size |}),
                     err_buf)
            end
  | _, _ =>
      ret (-1, out_tree_handle,
           setError err_buf err_buf_len "NULL pointer argument")%Z
  end.

(** State of the query loop: [left], [right], [result], [first]. *)
Definition qstate : Type := Z * Z * TreeNode * bool.

Definition include (nodes : list (option TreeNode)) (idx : Z)
    (result : TreeNode) (first : bool) : M (TreeNode * bool) :=
  node <- load nodes idx ;;
  ret (if first then node else mergeNodes result node, false).

Definition query_cond (s : qstate) : M bool :=
  let '(left_, right_, _, _) := s in ret (left_ <=? right_)%Z.

Definition query_body (nodes : list (option TreeNode)) (s : qstate) : M qstate :=
  let '(left_, right_, result, first) := s in
  '(left_, result, first) <-
     (if (left_ mod 2 =? 1)%Z then
        '(result, first) <- include nodes left_ result first ;;
        ret (sz (left_ + 1), result, first)
      else ret (left_, result, first)) ;;
  '(right_, result, first) <-
     (if (right_ mod 2 =? 0)%Z then
        '(result, first) <- include nodes right_ result first ;;
        ret (sz (right_ - 1), result, first)
      else ret (right_, result, first)) ;;
  ret ((left_ / 2)%Z, (right_ / 2)%Z, result, first).

(** The accumulator before the loop. *)
Definition initial_result : TreeNode :=
  {| tn_min := DBL_MAX; tn_max := - DBL_MAX; tn_sum := 0; tn_sum_sq := 0;
     tn_count := 0 |}.

(** The four statistic outputs: [out_min], [out_max], [out_avg], [out_variance]. *)
Record query_outputs : Type := mkOutputs {
  out_min : ptr float;
  out_max : ptr float;
  out_avg : ptr float;
  out_variance : ptr float
}.

(** [*out = v] when [out] is not NULL. *)
Definition write_if_present (out : ptr float) (v : float) : ptr float :=
  match out with Some _ => Some v | None => None end.

(** The "compute outputs" block. *)
Definition compute_outputs (result : TreeNode) (outs : query_outputs) : query_outputs :=
  let count := double_of_size_t (tn_count result) in
  {| out_min := write_if_present (out_min outs) (tn_min result);
     out_max := write_if_present (out_max outs) (tn_max result);
     out_avg := write_if_present (out_avg outs)
                  (if (0 <? tn_count result)%Z then tn_sum result / count else 0);
     out_variance :=
       if (0 <? tn_count result)%Z then
         let mean := tn_sum result / count in
         write_if_present (out_variance outs)
           (tn_sum_sq result / count - mean * mean)
       else write_if_present (out_variance outs) 0 |}.

(** [querySegmentTree]: status, statistic outputs, error buffer. *)
Definition querySegmentTree (tree_handle : ptr SegmentTree) (ql qr : Z)
    (outs : query_outputs) (err_buf : ptr string) (err_buf_len : Z)
  : M (Z * query_outputs * ptr string) :=
  match tree_handle with
  | None => ret (-1, outs, setError err_buf err_buf_len "NULL tree handle")%Z
  | Some tree =>
      if (qr <? ql)%Z || (st_length tree <=? qr)%Z then
        ret (-2, outs, setError err_buf err_buf_len "Invalid query range")%Z
      else
        let left_ := sz (ql + st_length tree) in
        let right_ := sz (qr + st_length tree) in
        '(_, _, result, _) <-
           while 65 query_cond (query_body (st_nodes tree))
             (left_, right_, initial_result, true) ;;
        ret (0%Z, compute_outputs result outs, err_buf)
  end.

(** [bruteForceRange] of the test harness: the direct scan the tree is
    compared with. *)
Fixpoint bruteForce_loop (prices : list float) (n : nat) (i : Z)
    (acc : float * float * float) : M (float * float * float) :=
  match n with
  | O => ret acc
  | S n' =>
      let '(mn, mx, sum) := acc in
      p <- load_price prices i ;;
      bruteForce_loop prices n' (i + 1)
        (if dlt p mn then p else mn, if dgt p mx then p else mx, sum + p)
  end.

Definition bruteForceRange (prices : list float) (start end_ : Z)
  : M (float * float * float) :=
  p <- load_price prices start ;;
  '(mn, mx, sum) <-
     bruteForce_loop prices (Z.to_nat (end_ - start)) (start + 1) (p, p, p) ;;
  ret (mn, mx, sum / double_of_size_t (sz (sz (end_ - start) + 1))).

(** The comparison [testSegmentTree] of the test harness makes between a
    query and the direct scan,
    [fabs(tree_min - bf_min) > 1e-9 || fabs(tree_max - bf_max) > 1e-9 ||
     fabs(tree_avg - bf_avg) > 1e-6]; [true] is reported as a mismatch. *)
Definition query_mismatch (tree_min tree_max tree_avg bf_min bf_max bf_avg : float)
  : bool :=
  dgt (PrimFloat.abs (tree_min - bf_min)) 1e-9
  || dgt (PrimFloat.abs (tree_max - bf_max)) 1e-9
  || dgt (PrimFloat.abs (tree_avg - bf_avg)) 1e-6.

End SegTree.

(** * sliding_window.c *)

Module SlidingWindow.

Local Open Scope float_scope.

(** [createDeque]: two allocations, as [createStack]. *)
Definition createDeque (capacity : Z) : M (option Deque) :=
  got_dq <- malloc ;;
  if negb got_dq then ret None
  else
    indices <- malloc_array sizeof_size_t capacity ;;
    match indices with
    | None => ret None
    | Some indices =>
        ret (Some {| dq_indices := indices; dq_front := 0; dq_back := 0;
                     dq_capacity := capacity |})
    end.

Definition isEmpty (dq : Deque) : bool := (dq_front dq =? dq_back dq)%Z.

(** [dq->indices[dq->back] = idx; dq->back = (dq->back + 1) % dq->capacity] *)
Definition pushBack (dq : Deque) (idx : Z) : M Deque :=
  _ <- log (EvDeque (OpPushBack idx) dq) ;;
  indices <- store (dq_indices dq) (dq_back dq) idx ;;
  back <- sz_rem (sz (dq_back dq + 1)) (dq_capacity dq) ;;
  ret {| dq_indices := indices; dq_front := dq_front dq; dq_back := back;
         dq_capacity := dq_capacity dq |}.

(** [dq->back = (dq->back - 1 + dq->capacity) % dq->capacity] *)
Definition popBack (dq : Deque) : M Deque :=
  _ <- log (EvDeque OpPopBack dq) ;;
  back <- sz_rem (sz (sz (dq_back dq - 1) + dq_capacity dq)) (dq_capacity dq) ;;
  ret {| dq_indices := dq_indices dq; dq_front := dq_front dq; dq_back := back;
         dq_capacity := dq_capacity dq |}.

(** [dq->front = (dq->front + 1) % dq->capacity] *)
Definition popFront (dq : Deque) : M Deque :=
  _ <- log (EvDeque OpPopFront dq) ;;
  front <- sz_rem (sz (dq_front dq + 1)) (dq_capacity dq) ;;
  ret {| dq_indices := dq_indices dq; dq_front := front; dq_back := dq_back dq;
         dq_capacity := dq_capacity dq |}.

(** [return dq->indices[dq->front]] *)
Definition front (dq : Deque) : M Z :=
  _ <- log (EvDeque OpFront dq) ;;
  load (dq_indices dq) (dq_front dq).

(** [idx = (dq->back - 1 + dq->capacity) % dq->capacity; return dq->indices[idx]] *)
Definition back (dq : Deque) : M Z :=
  _ <- log (EvDeque OpBack dq) ;;
  idx <- sz_rem (sz (sz (dq_back dq - 1) + dq_capacity dq)) (dq_capacity dq) ;;
  load (dq_indices dq) idx.

(** [classifyPattern]: the C string left in [pattern]. *)
Definition classifyPattern (first last variance mean : float) (pattern_len : Z)
  : string :=
  let change_pct := PrimFloat.abs ((last - first) / first) in
  let cv := PrimFloat.sqrt variance / PrimFloat.abs mean in
  if dgt change_pct 0.05 && dgt last first then
    strncpy_terminated "bullish" (sz (pattern_len - 1))
  else if dgt change_pct 0.05 && dlt last first then
    strncpy_terminated "bearish" (sz (pattern_len - 1))
  else if dgt cv 0.1 then
    strncpy_terminated "volatile" (sz (pattern_len - 1))
  else
    strncpy_terminated "stable" (sz (pattern_len - 1)).

(** [sizeof(result->windows[i].pattern)] *)
Definition PATTERN_SIZE : Z := 32.

(** [!isEmpty(max_dq) && prices[back(max_dq)] <= prices[i]] *)
Definition max_back_cond (prices : list float) (i : Z) (dq : Deque) : M bool :=
  if isEmpty dq then ret false
  else
    b <- back dq ;;
    pb <- load_price prices b ;;
    pi <- load_price prices i ;;
    ret (dle pb pi).

(** [!isEmpty(min_dq) && prices[back(min_dq)] >= prices[i]] *)
Definition min_back_cond (prices : list float) (i : Z) (dq : Deque) : M bool :=
  if isEmpty dq then ret false
  else
    b <- back dq ;;
    pb <- load_price prices b ;;
    pi <- load_price prices i ;;
    ret (dge pb pi).

(** [!isEmpty(dq) && front(dq) <= out_idx] *)
Definition front_cond (out_idx : Z) (dq : Deque) : M bool :=
  if isEmpty dq then ret false
  else
    f <- front dq ;;
    ret (f <=? out_idx)%Z.

(** Fuel of the deque loops: every iteration removes an entry. *)
Definition dq_fuel (dq : Deque) : nat := S (Z.to_nat (dq_capacity dq)).

(** "Maintain max deque": pop dominated backs, push [i]. *)
Definition enter_max (prices : list float) (i : Z) (dq : Deque) : M Deque :=
  dq <- while (dq_fuel dq) (max_back_cond prices i) popBack dq ;;
  pushBack dq i.

(** "Maintain min deque". *)
Definition enter_min (prices : list float) (i : Z) (dq : Deque) : M Deque :=
  dq <- while (dq_fuel dq) (min_back_cond prices i) popBack dq ;;
  pushBack dq i.

(** "Remove elements outside window". *)
Definition expire (out_idx : Z) (dq : Deque) : M Deque :=
  while (dq_fuel dq) (front_cond out_idx) popFront dq.

(** The running state of the analysis. *)
Record wstate : Type := mkWState {
  max_dq : Deque;
  min_dq : Deque;
  sum : float;
  sum_sq : float;
  windows : list (option WindowStats)
}.

(** Body of the first-window loop. *)
Definition first_window_step (prices : list float) (i : Z) (s : wstate) : M wstate :=
  p <- load_price prices i ;;
  let sum := sum s + p in
  let sum_sq := sum_sq s + p * p in
  max_dq <- enter_max prices i (max_dq s) ;;
  min_dq <- enter_min prices i (min_dq s) ;;
  ret {| max_dq := max_dq; min_dq := min_dq; sum := sum; sum_sq := sum_sq;
         windows := windows s |}.

(** "Store window result" for window [i], whose last position is [last_idx]. *)
Definition store_window (prices : list float) (windowSize i last_idx : Z)
    (s : wstate) : M wstate :=
  let avg := sum s / double_of_size_t windowSize in
  let variance := (sum_sq s / double_of_size_t windowSize) - (avg * avg) in
  _ <- log (EvWindow i (max_dq s) (min_dq s)) ;;
  fmax <- front (max_dq s) ;;
  mx <- load_price prices fmax ;;
  fmin <- front (min_dq s) ;;
  mn <- load_price prices fmin ;;
  first <- load_price prices i ;;
  last <- load_price prices last_idx ;;
  windows <- store (windows s) i
               {| ws_max := mx; ws_min := mn; ws_avg := avg;
                  ws_pattern := classifyPattern first last variance avg PATTERN_SIZE |} ;;
  ret {| max_dq := max_dq s; min_dq := min_dq s; sum := sum s; sum_sq := sum_sq s;
         windows := windows |}.

(** Body of the slide loop. *)
Definition slide_step (prices : list float) (windowSize : Z) (i : Z) (s : wstate)
  : M wstate :=
  let out_idx := sz (i - 1) in
  let in_idx := sz (sz (i + windowSize) - 1) in
  po <- load_price prices out_idx ;;
  pin <- load_price prices in_idx ;;
  let sum := sum s - po + pin in
  let sum_sq := sum_sq s - (po * po) + (pin * pin) in
  max_dq <- expire out_idx (max_dq s) ;;
  min_dq <- expire out_idx (min_dq s) ;;
  max_dq <- enter_max prices in_idx max_dq ;;
  min_dq <- enter_min prices in_idx min_dq ;;
  store_window prices windowSize i in_idx
    {| max_dq := max_dq; min_dq := min_dq; sum := sum; sum_sq := sum_sq;
       windows := windows s |}.

(** [analyzeSlidingWindow]: status, content of [*out_window_result_handle],
    error buffer. *)
Definition analyzeSlidingWindow (prices : ptr (list float)) (length windowSize : Z)
    (out_window_result_handle : ptr (option WindowResult))
    (err_buf : ptr string) (err_buf_len : Z)
  : M (Z * ptr (option WindowResult) * ptr string) :=
  match prices, out_window_result_handle with
  | Some prices, Some _ =>
      if (length =? 0)%Z || (MAX_ARRAY_SIZE <? length)%Z
         || (windowSize =? 0)%Z || (length <? windowSize)%Z then
        ret (-2, out_window_result_handle,
             setError err_buf err_buf_len "Invalid length or window size")%Z
      else
        bad <- has_invalid_price (Z.to_nat length) 0 prices ;;
        if bad then
          ret (-4, out_window_result_handle,
               setError err_buf err_buf_len "Invalid price value")%Z
        else
          let num_windows := sz (sz (length - windowSize) + 1) in
          got_result <- malloc ;;
          if negb got_result then
            ret (-3, out_window_result_handle,
                 setError err_buf err_buf_len "Memory allocation failed")%Z
          else
            windows <- malloc_array sizeof_WindowStats num_windows ;;
            match windows with
            | None =>
                ret (-3, out_window_result_handle,
                     setError err_buf err_buf_len
                       "Memory allocation failed for windows")%Z
            | Some windows =>
                max_dq <- createDeque (sz (windowSize + 1)) ;;
                min_dq <- createDeque (sz (windowSize + 1)) ;;
                match max_dq, min_dq with
                | Some max_dq, Some min_dq =>
                    s <- for_up (Z.to_nat windowSize) 0 (first_window_step prices)
                           {| max_dq := max_dq; min_dq := min_dq;
                              sum := 0; sum_sq := 0; windows := windows |} ;;
                    s <- store_window prices windowSize 0 (sz (windowSize - 1)) s ;;
                    s <- for_up (Z.to_nat (num_windows - 1)) 1
                           (slide_step prices windowSize) s ;;
                    ret (0%Z,
                         Some (Some {| wr_windows := SlidingWindow.windows s;
                                       wr_num_windows := num_windows;
                                       wr_window_size := windowSize |}),
                         err_buf)
                | _, _ =>
                    ret (-3, out_window_result_handle,
                         setError err_buf err_buf_len
                           "Memory allocation failed for deques")%Z
                end
            end
  | _, _ =>
      ret (-1, out_window_result_handle,
           setError err_buf err_buf_len "NULL pointer argument")%Z
  end.

(** The outputs of [getWindowResult]. *)
Record window_outputs : Type := mkWindowOutputs {
  out_max : ptr float;
  out_min : ptr float;
  out_avg : ptr float;
  out_pattern : ptr string
}.

Definition write_if_present {A} (out : ptr A) (v : A) : ptr A :=
  match out with Some _ => Some v | None => None end.

(** [getWindowResult]: status, outputs, error buffer. *)
Definition getWindowResult (window_handle : ptr WindowResult) (idx : Z)
    (outs : window_outputs) (out_pattern_len : Z)
    (err_buf : ptr string) (err_len : Z)
  : M (Z * window_outputs * ptr string) :=
  match window_handle with
  | None => ret (-1, outs, setError err_buf err_len "NULL window handle")%Z
  | Some result =>
      if (wr_num_windows result <=? idx)%Z then
        ret (-2, outs, setError err_buf err_len "Window index out of bounds")%Z
      else
        stats <- load (wr_windows result) idx ;;
        ret (0%Z,
             {| out_max := write_if_present (out_max outs) (ws_max stats);
                out_min := write_if_present (out_min outs) (ws_min stats);
                out_avg := write_if_present (out_avg outs) (ws_avg stats);
                out_pattern :=
                  if (0 <? out_pattern_len)%Z then
                    write_if_present (out_pattern outs)
                      (strncpy_terminated (ws_pattern stats) (sz (out_pattern_len - 1)))
                  else out_pattern outs |},
             err_buf)
  end.

End SlidingWindow.
(** * Specification vocabulary

    The predicates and reference functions the theorems are stated with.
    Nothing below is executed by the program: the program is the four
    sections above. *)

(** A price the validation loops accept. *)
Definition valid_price (p : float) : bool := negb (isnan p || isinf p).

(** [prices[k]] for a [size_t] index, with a default where the theorems never look. *)
Definition price (prices : list float) (k : Z) : float :=
  default 0%float (prices !! Z.to_nat k).

(** The next [k] allocations succeed. *)
Definition allocs_succeed (k : nat) (w : world) : Prop :=
  Forall (fun b => b = true) (take k (oracle w)).

(** ** Stock span *)

Module StockSpanSpec.
Import StockSpan.

(** Direct scan: the number of consecutive positions [j-1], [j-2], ... whose
    price is [<= x]. *)
Fixpoint run_back (prices : list float) (x : float) (j : nat) : nat :=
  match j with
  | O => O
  | S j' =>
      match prices !! j' with
      | Some p => if dle p x then S (run_back prices x j') else O
      | None => O
      end
  end.

(** [span_spec prices i]: the number of consecutive positions ending at [i]
    (inclusive) whose price is [<= prices[i]]. *)
Definition span_spec (prices : list float) (i : nat) : nat :=
  match prices !! i with
  | Some x => run_back prices x (S i)
  | None => O
  end.

(** [b] is the nearest position before [i] whose price is strictly greater
    than [prices[i]] ([-1] when there is none). *)
Definition blocker (prices : list float) (i b : Z) : Prop :=
  -1 <= b < i /\
  (forall k, b < k < i -> dle (price prices k) (price prices i) = true) /\
  (0 <= b -> dle (price prices b) (price prices i) = false).

(** The indices on the stack, top first: each one is blocked by the next. *)
Fixpoint chain (prices : list float) (items : list Z) : Prop :=
  match items with
  | [] => True
  | a :: rest => 0 <= a /\ blocker prices a (hd (-1) rest) /\ chain prices rest
  end.

(** The stack object [stack] holds [items] (top first). *)
Definition stack_rep (stack : IndexStack) (items : list Z) : Prop :=
  stk_top stack = Z.of_nat (length items) /\
  take (length items) (stk_data stack) = map Some (rev items) /\
  Z.of_nat (length (stk_data stack)) = stk_capacity stack /\
  stk_capacity stack < 2 ^ 64.

Definition all_valid (prices : list float) : Prop :=
  forallb valid_price prices = true.

Definition pop_inv (prices : list float) (i : Z) (w : world)
    (stack : IndexStack) (w' : world) : Prop :=
  w' = w /\
  exists items,
    stack_rep stack items /\ chain prices items /\ hd (-1) items < i /\
    (forall k, hd (-1) items < k < i ->
       dle (price prices k) (price prices i) = true).

Definition pop_post (prices : list float) (i : Z) (w : world)
    (stack : IndexStack) (w' : world) : Prop :=
  w' = w /\
  exists items,
    stack_rep stack items /\ chain prices items /\
    blocker prices i (hd (-1) items).

Definition span_inv (prices : list float) (w : world) (i : Z)
    (s : IndexStack * list (option Z)) (w' : world) : Prop :=
  w' = w /\
  exists items,
    stack_rep (fst s) items /\ chain prices items /\ hd (-1) items = i - 1 /\
    stk_capacity (fst s) = Z.of_nat (length prices) /\
    length (snd s) = length prices /\
    (forall k, 0 <= k < i ->
       exists b, blocker prices k b /\
                 snd s !! Z.to_nat k = Some (Some (k - b))).

(** The example of the specification. *)
Definition example_prices : list float := [100; 80; 60; 70; 60; 75; 85]%float.
Definition example_spans : list (option Z) :=
  [Some 1; Some 1; Some 1; Some 2; Some 1; Some 4; Some 6].

End StockSpanSpec.

(** ** Segment tree *)

Module SegTreeSpec.
Import SegTree StockSpanSpec.

(** A merge expression: the order and association in which [mergeNodes]
    combines leaves.  Floating-point sums depend on it. *)
Inductive mexp : Type :=
| MLeaf (i : Z)
| MMerge (a b : mexp).

Fixpoint eval (prices : list float) (e : mexp) : TreeNode :=
  match e with
  | MLeaf i => leafNode (price prices i)
  | MMerge a b => mergeNodes (eval prices a) (eval prices b)
  end.

(** The positions of the price sequence an expression aggregates. *)
Fixpoint leaves (e : mexp) : list Z :=
  match e with
  | MLeaf i => [i]
  | MMerge a b => leaves a ++ leaves b
  end.

(** [node_shape n k e]: in the implicit tree over [n] prices, array slot [k]
    holds the aggregate described by [e]. *)
Inductive node_shape (n : Z) : Z -> mexp -> Prop :=
| shape_leaf k : n <= k < 2 * n -> node_shape n k (MLeaf (k - n))
| shape_node k a b :
    1 <= k < n -> node_shape n (2 * k) a -> node_shape n (2 * k + 1) b ->
    node_shape n k (MMerge a b).

(** The node array of a tree built over [prices]. *)
Definition built (prices : list float) (tree : SegmentTree) : Prop :=
  let n := Z.of_nat (length prices) in
  st_length tree = n /\
  st_tree_size tree = 2 * n /\
  Z.of_nat (length (st_nodes tree)) = 2 * n /\
  (forall i, 0 <= i < n ->
     st_nodes tree !! Z.to_nat (n + i) = Some (Some (leafNode (price prices i)))) /\
  (forall k, 1 <= k < n ->
     exists l r,
       st_nodes tree !! Z.to_nat (2 * k) = Some (Some l) /\
       st_nodes tree !! Z.to_nat (2 * k + 1) = Some (Some r) /\
       st_nodes tree !! Z.to_nat k = Some (Some (mergeNodes l r))).

(** The positions [lo, lo+1, ..., lo+len-1]. *)
Definition positions (lo : Z) (len : nat) : list Z :=
  map (fun k => lo + Z.of_nat k) (seq 0 len).

Definition leaves_done (prices : list float) (i : Z)
    (nodes : list (option TreeNode)) : Prop :=
  let n := Z.of_nat (length prices) in
  Z.of_nat (length nodes) = 2 * n /\
  forall j, 0 <= j < i ->
    nodes !! Z.to_nat (n + j) = Some (Some (leafNode (price prices j))).

Definition internal_done (prices : list float) (i : Z)
    (nodes : list (option TreeNode)) : Prop :=
  let n := Z.of_nat (length prices) in
  leaves_done prices n nodes /\
  forall k, i < k < n ->
    exists l r,
      nodes !! Z.to_nat (2 * k) = Some (Some l) /\
      nodes !! Z.to_nat (2 * k + 1) = Some (Some r) /\
      nodes !! Z.to_nat k = Some (Some (mergeNodes l r)).

(** [range_cover n lo hi L]: the nodes in slots [lo..hi] together aggregate
    the positions [L] (the slots' leaves, slot by slot). *)
Inductive range_cover (n : Z) : Z -> Z -> list Z -> Prop :=
| rc_empty lo hi : hi < lo -> range_cover n lo hi []
| rc_cons lo hi e L :
    lo <= hi -> node_shape n lo e -> range_cover n (lo + 1) hi L ->
    range_cover n lo hi (leaves e ++ L).

(** What the accumulator holds: nothing yet, or the aggregate of [acc]. *)
Definition accumulated (prices : list float) (result : TreeNode) (first : bool)
    (acc : list Z) : Prop :=
  if first then acc = []
  else exists e, result = eval prices e /\ leaves e = acc.

Definition query_inv (prices : list float) (target : list Z) (w : world)
    (s : qstate) (w' : world) : Prop :=
  let '(left_, right_, result, first) := s in
  w' = w /\ 1 <= left_ /\ right_ < 2 * Z.of_nat (length prices) /\
  exists acc rem,
    accumulated prices result first acc /\
    range_cover (Z.of_nat (length prices)) left_ right_ rem /\
    Permutation (acc ++ rem) target.

Definition query_post (prices : list float) (target : list Z) (w : world)
    (s : qstate) (w' : world) : Prop :=
  let '(_, _, result, first) := s in
  w' = w /\
  exists acc, accumulated prices result first acc /\ Permutation acc target.

(** [v] is a minimum of [prices[lo..hi]]: the price at some position of the
    range, and below every price of the range. *)
Definition is_min (prices : list float) (lo hi : Z) (v : float) : Prop :=
  (exists j, lo <= j <= hi /\ v = price prices j) /\
  (forall j, lo <= j <= hi -> dle v (price prices j) = true).

Definition is_max (prices : list float) (lo hi : Z) (v : float) : Prop :=
  (exists j, lo <= j <= hi /\ v = price prices j) /\
  (forall j, lo <= j <= hi -> dle (price prices j) v = true).

(** The tree built over three prices, with its never-written slot 0. *)
Definition tree3 : SegmentTree :=
  {| st_nodes :=
       [None;
        Some (mergeNodes (mergeNodes (leafNode 2) (leafNode 3)) (leafNode 1));
        Some (mergeNodes (leafNode 2) (leafNode 3));
        Some (leafNode 1); Some (leafNode 2); Some (leafNode 3)];
     st_length := 3;
     st_tree_size := 6 |}.

(** The floating-point sum (of the prices, of their squares) an expression
    computes: every leaf once, added in the expression's association. *)
Fixpoint fsum (prices : list float) (e : mexp) : float :=
  match e with
  | MLeaf i => price prices i
  | MMerge a b => (fsum prices a + fsum prices b)%float
  end.

Fixpoint fsum_sq (prices : list float) (e : mexp) : float :=
  match e with
  | MLeaf i => (price prices i * price prices i)%float
  | MMerge a b => (fsum_sq prices a + fsum_sq prices b)%float
  end.

(** Two small prices followed by a large one. *)
Definition uneven_prices : list float := [1; 1; 1e16]%float.

End SegTreeSpec.

(** ** Monotonic deques *)

Module DequeSpec.
Import SlidingWindow.

(** [w'] is [w] after some more events, all satisfying [P]; the allocation
    oracle is untouched. *)
Definition extends (P : event -> Prop) (w w' : world) : Prop :=
  oracle w' = oracle w /\
  exists evs, trace w' = trace w ++ evs /\ Forall P evs.

(** [w] with one more event. *)
Definition logged (w : world) (e : event) : world :=
  {| oracle := oracle w; trace := trace w ++ [e] |}.

(** The circular buffer [dq] of capacity [cap] holds [items], most recently
    pushed first.  [F] and [B] are the numbers of entries ever removed from
    the front and ever added at the back (minus those removed there): the
    buffer's [front] and [back] are these counters modulo the capacity. *)
Definition dq_rep (cap : Z) (dq : Deque) (items : list Z) : Prop :=
  dq_capacity dq = cap /\ 1 <= cap < 2 ^ 63 /\
  Z.of_nat (length (dq_indices dq)) = cap /\
  exists F B,
    0 <= F /\ B - F = Z.of_nat (length items) /\ B - F < cap /\
    dq_front dq = F mod cap /\ dq_back dq = B mod cap /\
    forall k v, items !! k = Some v ->
      dq_indices dq !! Z.to_nat ((B - 1 - Z.of_nat k) mod cap) = Some (Some v).

(** The slots of the buffer that hold live entries. *)
Definition live_slots (dq : Deque) : list Z :=
  map (fun k => (dq_back dq - 1 - Z.of_nat k) mod dq_capacity dq)
      (seq 0 (Z.to_nat ((dq_back dq - dq_front dq) mod dq_capacity dq))).

(** The newest index of [items] is at most [hi]. *)
Definition bounded (hi : Z) (items : list Z) : Prop :=
  match items with [] => True | b :: _ => b <= hi end.

(** [items] (newest first) are strictly decreasing indices of [lo..hi]. *)
Definition in_range (lo hi : Z) (items : list Z) : Prop :=
  StronglySorted (fun a b => b < a) items /\
  forall j, In j items -> lo <= j <= hi.

(** What the safety analysis asks of every logged event, for window size
    [W] (the deques have capacity [W + 1]):
    - a deque primitive runs on a well-formed buffer whose live entries are
      strictly increasing indices spanning less than [W] positions (so at
      most [W] of them); a pop or a read finds the deque non-empty; a push
      extends the run on the right and keeps it within [W] positions;
    - when a window's extrema are read, both deques are non-empty and every
      entry is an index of that window. *)
Definition safe_event (W : Z) (ev : event) : Prop :=
  match ev with
  | EvDeque op dq =>
      exists lo hi items,
        dq_rep (W + 1) dq items /\ in_range lo hi items /\ hi - lo < W /\
        match op with
        | OpPushBack idx => hi < idx < lo + W
        | _ => items <> []
        end
  | EvWindow i mx mn =>
      exists imx imn,
        dq_rep (W + 1) mx imx /\ dq_rep (W + 1) mn imn /\
        imx <> [] /\ imn <> [] /\
        in_range i (i + W - 1) imx /\ in_range i (i + W - 1) imn
  end.

Section Mono.

Variable prices : list float.

(** [le x y]: the candidate [x] is dominated by [y] ([x <= y] for the deque
    of maxima, [x >= y] for the deque of minima). *)
Variable le : float -> float -> bool.

(** The position after the newest entry's predecessor: where the newest
    entry's run of dominated positions begins. *)
Definition run_start (lo : Z) (items : list Z) : Z :=
  match items with [] => lo | a :: _ => a + 1 end.

(** The deque invariant for the window starting at [lo]: every entry
    dominates the positions between its predecessor and itself, and is
    strictly dominated by no later entry. *)
Fixpoint mono (lo : Z) (items : list Z) : Prop :=
  match items with
  | [] => True
  | b :: rest =>
      run_start lo rest <= b /\
      (forall t, run_start lo rest <= t <= b ->
         le (price prices t) (price prices b) = true) /\
      match rest with
      | [] => True
      | a :: _ => le (price prices a) (price prices b) = false
      end /\
      mono lo rest
  end.

Variable W : Z.

(** The pop condition and the "maintain deque" block, for either deque. *)
Definition back_cond (i : Z) (dq : Deque) : M bool :=
  if isEmpty dq then ret false
  else
    b <- back dq ;;
    pb <- load_price prices b ;;
    pi <- load_price prices i ;;
    ret (le pb pi).

Definition enter (i : Z) (dq : Deque) : M Deque :=
  dq <- while (dq_fuel dq) (back_cond i) popBack dq ;;
  pushBack dq i.

(** The deque covers the window that starts at [lo], up to (excluding)
    position [next], the next one to enter. *)
Definition dq_inv (lo next : Z) (dq : Deque) : Prop :=
  exists items,
    dq_rep (W + 1) dq items /\ mono lo items /\ run_start lo items = next.

Definition back_loop_inv (lo i : Z) (w0 : world) (dq : Deque) (w : world) : Prop :=
  extends (safe_event W) w0 w /\
  exists items,
    dq_rep (W + 1) dq items /\ mono lo items /\ bounded (i - 1) items /\
    (forall t, run_start lo items <= t <= i ->
       le (price prices t) (price prices i) = true).

Definition back_loop_post (lo i : Z) (w0 : world) (dq : Deque) (w : world) : Prop :=
  extends (safe_event W) w0 w /\
  exists items,
    dq_rep (W + 1) dq items /\ mono lo items /\ bounded (i - 1) items /\
    (forall t, run_start lo items <= t <= i ->
       le (price prices t) (price prices i) = true) /\
    match items with
    | [] => True
    | b :: _ => le (price prices b) (price prices i) = false
    end.

(** "Remove elements outside window": everything up to [out_idx] leaves. *)
Definition expire_inv (lo next out_idx : Z) (w0 : world) (dq : Deque) (w : world)
  : Prop :=
  extends (safe_event W) w0 w /\
  exists lo1 items,
    lo <= lo1 <= out_idx + 1 /\
    dq_rep (W + 1) dq items /\ mono lo1 items /\
    match items with [] => next <= out_idx + 1 | b :: _ => b = next - 1 end.

Definition expire_post (next out_idx : Z) (w0 : world) (dq : Deque) (w : world)
  : Prop :=
  extends (safe_event W) w0 w /\ dq_inv (out_idx + 1) next dq.

End Mono.

End DequeSpec.

(** ** Sliding window *)

Module WindowSpec.
Import SlidingWindow DequeSpec.
Import StockSpanSpec (all_valid).
Import SegTreeSpec (is_min, is_max).

(** The running sums as the code computes them, in its order of operations:
    after the first [i] prices of the first window, *)
Fixpoint first_sums (prices : list float) (i : nat) : float * float :=
  match i with
  | O => (0, 0)%float
  | S k =>
      let '(s, q) := first_sums prices k in
      let p := price prices (Z.of_nat k) in
      (s + p, q + p * p)%float
  end.

(** and when window [k] is stored: each slide subtracts the price that
    leaves and adds the one that enters. *)
Fixpoint run_sums (prices : list float) (W : Z) (k : nat) : float * float :=
  match k with
  | O => first_sums prices (Z.to_nat W)
  | S j =>
      let '(s, q) := run_sums prices W j in
      let po := price prices (Z.of_nat j) in
      let pin := price prices (Z.of_nat j + W) in
      (s - po + pin, q - po * po + pin * pin)%float
  end.

Definition window_avg (prices : list float) (W : Z) (k : nat) : float :=
  (fst (run_sums prices W k) / double_of_size_t W)%float.

Definition window_variance (prices : list float) (W : Z) (k : nat) : float :=
  (snd (run_sums prices W k) / double_of_size_t W
   - window_avg prices W k * window_avg prices W k)%float.

(** What is stored for window [k]. *)
Definition stored_window (prices : list float) (W k : Z) (st : WindowStats) : Prop :=
  is_max prices k (k + W - 1) (ws_max st) /\
  is_min prices k (k + W - 1) (ws_min st) /\
  ws_avg st = window_avg prices W (Z.to_nat k) /\
  ws_pattern st =
    classifyPattern (price prices k) (price prices (k + W - 1))
      (window_variance prices W (Z.to_nat k)) (window_avg prices W (Z.to_nat k))
      PATTERN_SIZE.

Section Analysis.

Variable prices : list float.
Variable W : Z.

Let n := Z.of_nat (length prices).
Let num_windows := n - W + 1.

(** State of the analysis once position [next - 1] has entered the window
    that starts at [lo]. *)
Definition deques_inv (lo next : Z) (s : wstate) : Prop :=
  dq_inv prices dle W lo next (max_dq s) /\
  dq_inv prices dge W lo next (min_dq s).

Definition first_inv (w0 : world) (i : Z) (s : wstate) (w : world) : Prop :=
  extends (safe_event W) w0 w /\
  deques_inv 0 i s /\
  (sum s, sum_sq s) = first_sums prices (Z.to_nat i) /\
  Z.of_nat (length (windows s)) = num_windows /\
  (forall j, windows s !! j = None \/ windows s !! j = Some None).

Definition slide_inv (w0 : world) (k : Z) (s : wstate) (w : world) : Prop :=
  extends (safe_event W) w0 w /\
  deques_inv k (k + W) s /\
  (sum s, sum_sq s) = run_sums prices W (Z.to_nat k) /\
  Z.of_nat (length (windows s)) = num_windows /\
  forall j, 0 <= j <= k ->
    exists st, windows s !! Z.to_nat j = Some (Some st) /\
               stored_window prices W j st.

End Analysis.

(** Three windows of width 3 over five prices. *)
Definition five_prices : list float := [100; 80; 60; 70; 60]%float.

(** What holds when a deque primitive [op] is about to run on [dq], in the
    analysis with window size [W]: the buffer has [W + 1] slots and [front]
    and [back] point into it; it holds the indices [items], at most [W] of
    them, all inside one window of [W] consecutive positions; a push finds
    fewer than [W] entries and writes to a slot that holds no live entry;
    a pop or a read finds an entry. *)
Definition deque_event_ok (W : Z) (op : deque_op) (dq : Deque) : Prop :=
  exists items,
    dq_rep (W + 1) dq items /\
    Z.of_nat (length items) <= W /\
    Z.of_nat (length (dq_indices dq)) = W + 1 /\
    0 <= dq_front dq < W + 1 /\ 0 <= dq_back dq < W + 1 /\
    (exists lo, forall j, In j items -> lo <= j < lo + W) /\
    match op with
    | OpPushBack idx =>
        Z.of_nat (length items) < W /\ ~ In (dq_back dq) (live_slots dq)
    | _ => items <> []
    end.

(** When the extrema of window [i] are read off the fronts, both deques are
    non-empty and hold only indices of that window. *)
Definition window_event_ok (W i : Z) (mx mn : Deque) : Prop :=
  exists imx imn,
    dq_rep (W + 1) mx imx /\ dq_rep (W + 1) mn imn /\
    imx <> [] /\ imn <> [] /\
    (forall j, In j imx -> i <= j <= i + W - 1) /\
    (forall j, In j imn -> i <= j <= i + W - 1).

Definition event_ok (W : Z) (ev : event) : Prop :=
  match ev with
  | EvDeque op dq => deque_event_ok W op dq
  | EvWindow i mx mn => window_event_ok W i mx mn
  end.

(** The classification as the specification words it, with
    [changePct = |last - first| / first]. *)
Definition pattern_claimed (first last variance mean : float) : string :=
  let changePct := (PrimFloat.abs (last - first) / first)%float in
  if (0.05 <? changePct)%float && (first <? last)%float then "bullish"
  else if (0.05 <? changePct)%float && (last <? first)%float then "bearish"
  else
    let cv := (PrimFloat.sqrt variance / PrimFloat.abs mean)%float in
    if (0.1 <? cv)%float then "volatile" else "stable".

(** The same with [changePct = |(last - first) / first|]. *)
Definition pattern_spec (first last variance mean : float) : string :=
  let changePct := PrimFloat.abs ((last - first) / first)%float in
  if (0.05 <? changePct)%float && (first <? last)%float then "bullish"
  else if (0.05 <? changePct)%float && (last <? first)%float then "bearish"
  else
    let cv := (PrimFloat.sqrt variance / PrimFloat.abs mean)%float in
    if (0.1 <? cv)%float then "volatile" else "stable".

(** Strictly positive prices whose running sum cancels to zero. *)
Definition cancelling_prices : list float := [1e16; 1; 1; 0.5; 0.5]%float.

(** Three equal prices. *)
Definition tenths : list float := [0.1; 0.1; 0.1]%float.

(** What an output location holds after a call that writes [v] to it when
    its pointer is not NULL. *)
Definition written {A} (out : ptr A) (v : A) : ptr A :=
  match out with
  | Some _ => Some v
  | None => None
  end.

End WindowSpec.

(** ** Status codes *)

Module StatusSpec.
Import StockSpanSpec.

Definition is_null {A} (p : ptr A) : bool :=
  match p with None => true | Some _ => false end.

(** [length == 0 || length > MAX_ARRAY_SIZE] *)
Definition invalid_length (n : Z) : bool := (n =? 0) || (MAX_ARRAY_SIZE <? n).

(** Some price is NaN or infinite. *)
Definition has_bad_price (prices : list float) : bool :=
  negb (forallb valid_price prices).

(** One of the next [k] allocations fails. *)
Definition alloc_fails (k : nat) (w : world) : bool :=
  negb (forallb (fun b => b) (take k (oracle w))).

(** The documented status codes, in the order the entry points test for
    them: -1 null argument, -2 invalid length, window size or range,
    -4 NaN or infinite price, -3 allocation failure, 0 success. *)
Definition documented_status
    (null_arg invalid_size invalid_value alloc_failure : bool) : Z :=
  if null_arg then -1
  else if invalid_size then -2
  else if invalid_value then -4
  else if alloc_failure then -3
  else 0.

(** A rejected call leaves the caller without an output: the output cell
    holds what it held or NULL; and a call rejected by validation (-1, -2,
    -4) has not touched the cell or the allocator at all. *)
Definition rejection {A} (status : Z) (out out' : ptr (option A)) (w w' : world)
  : Prop :=
  (status <> 0 -> out' = out \/ out' = Some None) /\
  (status = -1 \/ status = -2 \/ status = -4 -> out' = out /\ w' = w).

(** [length == 0 || length > MAX_ARRAY_SIZE || windowSize == 0 || windowSize > length] *)
Definition invalid_window (n W : Z) : bool :=
  invalid_length n || (W =? 0) || (n <? W).

(** [tree_handle] is NULL or the handle stored by a successful build. *)
Definition tree_handle_ok (tree_handle : ptr SegmentTree) : Prop :=
  forall tree, tree_handle = Some tree ->
    exists prices out eb el w e w',
      SegTree.buildSegmentTree (Some prices) (Z.of_nat (List.length prices)) out eb el w
      = Ok ((0, Some (Some tree), e), w').

(** [window_handle] is NULL or the handle stored by a successful analysis. *)
Definition window_handle_ok (window_handle : ptr WindowResult) : Prop :=
  forall result, window_handle = Some result ->
    exists prices W out eb el w e w',
      0 <= W /\
      SlidingWindow.analyzeSlidingWindow (Some prices) (Z.of_nat (List.length prices)) W
        out eb el w = Ok ((0, Some (Some result), e), w').

(** [ql > qr || qr >= tree->length] *)
Definition invalid_range (tree_handle : ptr SegmentTree) (ql qr : Z) : bool :=
  match tree_handle with
  | Some tree => (qr <? ql) || (st_length tree <=? qr)
  | None => false
  end.

(** [idx >= result->num_windows] *)
Definition invalid_index (window_handle : ptr WindowResult) (idx : Z) : bool :=
  match window_handle with
  | Some result => wr_num_windows result <=? idx
  | None => false
  end.

End StatusSpec.
(** * Vocabulary of the further properties *)

(** ** Drivers for the index stack of stock_span.c *)

Module StockSpanDrivers.
Import StockSpan.

(** [push(stack, v)] for every [v] of [vs], in order. *)
Fixpoint push_all (vs : list Z) (stack : IndexStack) : M IndexStack :=
  match vs with
  | [] => ret stack
  | v :: vs' => stack' <- push stack v ;; push_all vs' stack'
  end.

(** [n] times [pop(stack)]; the popped values, first popped first. *)
Fixpoint pop_all (n : nat) (stack : IndexStack) : M (list Z * IndexStack) :=
  match n with
  | O => ret ([], stack)
  | S n' =>
      '(v, stack') <- pop stack ;;
      '(vs, stack'') <- pop_all n' stack' ;;
      ret (v :: vs, stack'')
  end.

End StockSpanDrivers.

(** ** Drivers for the deque of sliding_window.c *)

Module DequeDrivers.
Import SlidingWindow.

(** [pushBack(dq, v)] for every [v] of [vs], in order. *)
Fixpoint pushBack_all (vs : list Z) (dq : Deque) : M Deque :=
  match vs with
  | [] => ret dq
  | v :: vs' => dq' <- pushBack dq v ;; pushBack_all vs' dq'
  end.

(** [n] times [front(dq)] then [popFront(dq)]; the values read, in order. *)
Fixpoint drain_front (n : nat) (dq : Deque) : M (list Z * Deque) :=
  match n with
  | O => ret ([], dq)
  | S n' =>
      v <- front dq ;;
      dq' <- popFront dq ;;
      '(vs, dq'') <- drain_front n' dq' ;;
      ret (v :: vs, dq'')
  end.

(** [n] times [back(dq)] then [popBack(dq)]; the values read, in order. *)
Fixpoint drain_back (n : nat) (dq : Deque) : M (list Z * Deque) :=
  match n with
  | O => ret ([], dq)
  | S n' =>
      v <- back dq ;;
      dq' <- popBack dq ;;
      '(vs, dq'') <- drain_back n' dq' ;;
      ret (v :: vs, dq'')
  end.

End DequeDrivers.

(** ** Counting the deque primitives of a run *)

Module CostSpec.

(** The number of deque primitives ([pushBack], [popBack], [popFront],
    [front], [back]) recorded in a log. *)
Fixpoint deque_ops (evs : list event) : Z :=
  match evs with
  | [] => 0
  | EvDeque _ _ :: rest => 1 + deque_ops rest
  | EvWindow _ _ _ :: rest => deque_ops rest
  end.

(** The number of entries a circular buffer holds, read off its fields. *)
Definition occupancy (dq : Deque) : Z :=
  (dq_back dq - dq_front dq) mod dq_capacity dq.

(** The fields of a buffer are in range. *)
Definition deque_wf (dq : Deque) : Prop :=
  1 <= dq_capacity dq < 2 ^ 63 /\
  0 <= dq_front dq < dq_capacity dq /\
  0 <= dq_back dq < dq_capacity dq.

(** The potential of the running state: two primitives for every entry
    still in a deque. *)
Definition potential_ok (C : Z) (s : SlidingWindow.wstate) (w : world) : Prop :=
  deque_wf (SlidingWindow.max_dq s) /\ deque_wf (SlidingWindow.min_dq s) /\
  deque_ops (trace w) + 2 * occupancy (SlidingWindow.max_dq s) + 2 * occupancy (SlidingWindow.min_dq s) <= C.

End CostSpec.

(** ** The diagnostics of the entry points *)

Module MessageSpec.

(** The answer of the [k]-th coming allocation (an exhausted oracle
    answers yes). *)
Definition alloc_answer (k : nat) (w : world) : bool := nth k (oracle w) true.

(** The text [calculateStockSpan] reports with each failure status; for -3
    it tells the spans array from the stack. *)
Definition span_message (status : Z) (w : world) : string :=
  if status =? -1 then "NULL pointer argument"
  else if status =? -2 then "Invalid array length"
  else if status =? -4 then "Invalid price value (NaN or infinite)"
  else if alloc_answer 0 w then "Memory allocation failed for stack"
  else "Memory allocation failed for spans array".

(** The text of [buildSegmentTree]. *)
Definition build_message (status : Z) (w : world) : string :=
  if status =? -1 then "NULL pointer argument"
  else if status =? -2 then "Invalid array length"
  else if status =? -4 then "Invalid price value"
  else if alloc_answer 0 w then "Memory allocation failed for tree nodes"
  else "Memory allocation failed".

(** The text of [querySegmentTree]. *)
Definition query_message (status : Z) : string :=
  if status =? -1 then "NULL tree handle" else "Invalid query range".

(** The text of [analyzeSlidingWindow]. *)
Definition analyze_message (status : Z) (w : world) : string :=
  if status =? -1 then "NULL pointer argument"
  else if status =? -2 then "Invalid length or window size"
  else if status =? -4 then "Invalid price value"
  else if negb (alloc_answer 0 w) then "Memory allocation failed"
  else if negb (alloc_answer 1 w) then "Memory allocation failed for windows"
  else "Memory allocation failed for deques".

(** The text of [getWindowResult]. *)
Definition get_message (status : Z) : string :=
  if status =? -1 then "NULL window handle" else "Window index out of bounds".

(** The error buffer after a call that ended with [status]: untouched on
    success, [setError] of the message otherwise. *)
Definition reported (status : Z) (err_buf : ptr string) (err_buf_len : Z)
    (msg : string) : ptr string :=
  if status =? 0 then err_buf else setError err_buf err_buf_len msg.

End MessageSpec.
(** * Ordering of binary64 values

    [<=] on doubles is the comparison of the IEEE 754 specification
    ([SFcompare] through [leb_spec]).  Away from NaN it is a total preorder,
    which is all the stack and deque arguments need. *)

Section FloatOrder.

Lemma is_nan_false_iff (x : float) :
  PrimFloat.is_nan x = false <-> Prim2SF x <> S754_nan.
Proof.
  unfold PrimFloat.is_nan. rewrite FloatAxioms.eqb_spec. unfold SFeqb.
  destruct (Prim2SF x) as [s| s | |s m e]; simpl.
  - split; [discriminate|reflexivity].
  - destruct s; simpl; split; try discriminate; reflexivity.
  - split; [discriminate| congruence].
  - destruct s; rewrite Z.compare_refl, Pos.compare_cont_refl; simpl;
      split; try discriminate; reflexivity.
Qed.

Lemma SFleb_total s1 s2 :
  s1 <> S754_nan -> s2 <> S754_nan -> SFleb s1 s2 = true \/ SFleb s2 s1 = true.
Proof.
  unfold SFleb. intros H1 H2.
  destruct s1 as [a|a| |a m1 e1], s2 as [b|b| |b m2 e2]; try congruence; simpl;
    repeat match goal with x : bool |- _ => destruct x end; simpl; auto.
  all: rewrite ?Pos.compare_cont_spec; simpl.
  all: destruct (Z.compare_spec e1 e2), (Z.compare_spec e2 e1); try lia; simpl; auto.
  all: destruct (Pos.compare_spec m1 m2), (Pos.compare_spec m2 m1); try lia; simpl; auto.
Qed.

Lemma SFltb_SFleb s1 s2 :
  s1 <> S754_nan -> s2 <> S754_nan -> SFltb s1 s2 = negb (SFleb s2 s1).
Proof.
  unfold SFleb, SFltb. intros H1 H2.
  destruct s1 as [a|a| |a m1 e1], s2 as [b|b| |b m2 e2]; try congruence; simpl;
    repeat match goal with x : bool |- _ => destruct x end; simpl; auto.
  all: rewrite ?Pos.compare_cont_spec; simpl.
  all: destruct (Z.compare_spec e1 e2), (Z.compare_spec e2 e1); try lia; simpl; auto.
  all: destruct (Pos.compare_spec m1 m2), (Pos.compare_spec m2 m1); try lia; simpl; auto.
Qed.

Lemma SFleb_trans s1 s2 s3 :
  SFleb s1 s2 = true -> SFleb s2 s3 = true -> SFleb s1 s3 = true.
Proof.
  unfold SFleb.
  destruct s1 as [a|a| |a m1 e1], s2 as [b|b| |b m2 e2], s3 as [c|c| |c m3 e3];
    simpl; try discriminate;
    repeat match goal with x : bool |- _ => destruct x end;
    simpl; auto; try discriminate.
  all: destruct (Z.compare_spec e1 e2), (Z.compare_spec e2 e3), (Z.compare_spec e1 e3);
    try lia; try discriminate; auto.
  all: rewrite !Pos.compare_cont_spec; simpl.
  all: destruct (Pos.compare_spec m1 m2), (Pos.compare_spec m2 m3), (Pos.compare_spec m1 m3);
    simpl; try lia; try discriminate; auto.
Qed.

Lemma valid_price_not_nan p : valid_price p = true -> Prim2SF p <> S754_nan.
Proof.
  unfold valid_price, isnan. intros H. apply is_nan_false_iff.
  destruct (PrimFloat.is_nan p); [discriminate|reflexivity].
Qed.

Lemma dle_total x y :
  valid_price x = true -> valid_price y = true -> dle x y = true \/ dle y x = true.
Proof.
  intros Hx Hy. unfold dle. rewrite !leb_spec.
  apply SFleb_total; apply valid_price_not_nan; assumption.
Qed.

Lemma dle_refl x : valid_price x = true -> dle x x = true.
Proof. intros Hx. destruct (dle_total x x Hx Hx); assumption. Qed.

Lemma dle_trans x y z : dle x y = true -> dle y z = true -> dle x z = true.
Proof. unfold dle. rewrite !leb_spec. apply SFleb_trans. Qed.

Lemma dlt_dle x y :
  valid_price x = true -> valid_price y = true -> dlt x y = negb (dle y x).
Proof.
  intros Hx Hy. unfold dlt, dle. rewrite ltb_spec, leb_spec.
  apply SFltb_SFleb; apply valid_price_not_nan; assumption.
Qed.

Lemma dgt_dle x y :
  valid_price x = true -> valid_price y = true -> dgt x y = negb (dle x y).
Proof. intros Hx Hy. unfold dgt. apply (dlt_dle y x Hy Hx). Qed.

Lemma dle_false_flip x y :
  valid_price x = true -> valid_price y = true -> dle x y = false -> dle y x = true.
Proof. intros Hx Hy H. destruct (dle_total x y Hx Hy); congruence. Qed.

(** [x <= y] and [y <= x] make [x == y] (the two zeros compare equal). *)
Lemma SFleb_antisym s1 s2 :
  SFleb s1 s2 = true -> SFleb s2 s1 = true -> SFeqb s1 s2 = true.
Proof.
  unfold SFleb, SFeqb.
  destruct s1 as [a|a| |a m1 e1], s2 as [b|b| |b m2 e2]; simpl; try discriminate;
    repeat match goal with x : bool |- _ => destruct x end;
    simpl; auto; try discriminate.
  all: rewrite ?Pos.compare_cont_spec; simpl.
  all: destruct (Z.compare_spec e1 e2), (Z.compare_spec e2 e1); try lia; simpl;
    auto; try discriminate.
  all: destruct (Pos.compare_spec m1 m2), (Pos.compare_spec m2 m1); try lia; simpl;
    auto; try discriminate.
Qed.

Lemma dle_antisym x y :
  dle x y = true -> dle y x = true -> PrimFloat.eqb x y = true.
Proof.
  unfold dle. rewrite !leb_spec, FloatAxioms.eqb_spec. apply SFleb_antisym.
Qed.

End FloatOrder.

(** * Division by one is exact

    [x / 1.0 = x] for every double, from the IEEE 754 specification of the
    division ([div_spec]): the quotient's mantissa is the dividend's, and
    rounding leaves a canonical mantissa alone. *)

Lemma div_eucl_exact a b : 0 < b -> Z.div_eucl (a * b) b = (a, 0).
Proof.
  intros Hb. rewrite (surjective_pairing (Z.div_eucl (a * b) b)).
  change (fst (Z.div_eucl (a * b) b)) with ((a * b) / b).
  change (snd (Z.div_eucl (a * b) b)) with ((a * b) mod b).
  rewrite Z.div_mul, Z.mod_mul by lia. reflexivity.
Qed.

Lemma shr_fexp_canonical m e :
  Z.max (Z.pos (digits2_pos m) + e - 53) (-1074) = e ->
  shr_fexp prec emax (Z.pos m) e loc_Exact
  = ({| shr_m := Z.pos m; shr_r := false; shr_s := false |}, e).
Proof.
  intros H. unfold shr_fexp, fexp, emin.
  change prec with 53. change emax with 1024.
  change (Zdigits2 (Z.pos m)) with (Z.pos (digits2_pos m)).
  change (3 - 1024 - 53) with (-1074).
  rewrite H, Z.sub_diag. reflexivity.
Qed.

Lemma binary_round_aux_canonical s m e :
  Z.max (Z.pos (digits2_pos m) + e - 53) (-1074) = e -> e <= 971 ->
  binary_round_aux prec emax s (Z.pos m) e loc_Exact = S754_finite s m e.
Proof.
  intros H He. unfold binary_round_aux.
  rewrite (shr_fexp_canonical m e H).
  cbv [shr_m loc_of_shr_record round_nearest_even].
  rewrite (shr_fexp_canonical m e H). cbv [shr_m].
  change (emax - prec) with 971.
  destruct (e <=? 971) eqn:E; [reflexivity|]. apply Z.leb_gt in E. lia.
Qed.

Lemma binary_round_aux_double s m e :
  Z.pos (digits2_pos m) = 53 -> -1074 < e <= 971 ->
  binary_round_aux prec emax s (Z.pos m~0) (e - 1) loc_Exact = S754_finite s m e.
Proof.
  intros HD He. unfold binary_round_aux.
  assert (E1 : shr_fexp prec emax (Z.pos m~0) (e - 1) loc_Exact
               = ({| shr_m := Z.pos m; shr_r := false; shr_s := false |}, e)).
  { unfold shr_fexp, fexp, emin. change prec with 53. change emax with 1024.
    change (Zdigits2 (Z.pos m~0)) with (Z.pos (Pos.succ (digits2_pos m))).
    rewrite Pos2Z.inj_succ, HD. change (3 - 1024 - 53) with (-1074).
    replace (Z.max (Z.succ 53 + (e - 1) - 53) (-1074) - (e - 1)) with 1 by lia.
    cbv [shr shr_record_of_loc iter_pos shr_1 orb].
    replace (e - 1 + 1) with e by lia. reflexivity. }
  rewrite E1. cbv [shr_m loc_of_shr_record round_nearest_even].
  rewrite shr_fexp_canonical by (rewrite HD; lia). cbv [shr_m].
  change (emax - prec) with 971.
  destruct (e <=? 971) eqn:E; [reflexivity|]. apply Z.leb_gt in E. lia.
Qed.

Lemma SFdiv_one s m e :
  valid_binary (S754_finite s m e) = true ->
  SF64div (S754_finite s m e) (S754_finite false 4503599627370496 (-52))
  = S754_finite s m e.
Proof.
  unfold valid_binary, SpecFloat.valid_binary, bounded, canonical_mantissa, fexp, emin.
  change prec with 53. change emax with 1024. intros H.
  apply andb_prop in H. destruct H as (H1 & H2).
  apply Z.eqb_eq in H1. apply Z.leb_le in H2.
  change (3 - 1024 - 53) with (-1074) in H1. change (1024 - 53) with 971 in H2.
  unfold SF64div, SFdiv, SFdiv_core_binary, fexp, emin.
  change prec with 53. change emax with 1024.
  change (Zdigits2 (Z.pos 4503599627370496)) with 53.
  change (Zdigits2 (Z.pos m)) with (Z.pos (digits2_pos m)).
  change (3 - 1024 - 53) with (-1074).
  rewrite xorb_false_r.
  set (D := Z.pos (digits2_pos m)) in *.
  destruct (Z.eq_dec e (-1074)) as [->|Hne].
  - replace (Z.min (Z.max (D + -1074 - (53 + -52) - 53) (-1074)) (-1074 - -52))
      with (-1074) by lia.
    change (-1074 - -52 - -1074) with 52.
    rewrite Z.shiftl_mul_pow2 by lia.
    change (2 ^ 52) with 4503599627370496.
    rewrite div_eucl_exact by lia.
    change (new_location 4503599627370496 0) with loc_Exact.
    apply binary_round_aux_canonical; [exact H1|lia].
  - assert (HD : D = 53) by lia.
    replace (Z.min (Z.max (D + e - (53 + -52) - 53) (-1074)) (e - -52))
      with (e - 1) by lia.
    replace (e - -52 - (e - 1)) with 53 by lia.
    rewrite Z.shiftl_mul_pow2 by lia.
    replace (Z.pos m * 2 ^ 53) with (Z.pos m~0 * 4503599627370496) by lia.
    rewrite div_eucl_exact by lia.
    change (new_location 4503599627370496 0) with loc_Exact.
    apply binary_round_aux_double; [exact HD|lia].
Qed.

Lemma div_one (x : float) : (x / 1)%float = x.
Proof.
  apply Prim2SF_inj. rewrite div_spec.
  change (Prim2SF 1) with (S754_finite false 4503599627370496 (-52)).
  pose proof (Prim2SF_valid x) as Hv.
  destruct (Prim2SF x) as [s|s| |s m e]; try reflexivity.
  - destruct s; reflexivity.
  - destruct s; reflexivity.
  - apply SFdiv_one. exact Hv.
Qed.

(** * Machine integers *)

Lemma sz_small z : 0 <= z < 2 ^ 64 -> sz z = z.
Proof. intros H. unfold sz, SIZE_MAX_plus_1. apply Z.mod_small. lia. Qed.

Lemma to_int_small z : 0 <= z < 2 ^ 31 -> to_int z = z.
Proof.
  intros H. unfold to_int. rewrite (Z.mod_small z) by lia.
  destruct (z <? 2 ^ 31) eqn:E; [reflexivity|]. apply Z.ltb_ge in E. lia.
Qed.

(** * Running the monad *)

Lemma bind_ok {A B} (m : M A) (k : A -> M B) w a w' :
  m w = Ok (a, w') -> bind m k w = k a w'.
Proof. unfold bind. intros ->. reflexivity. Qed.

Lemma bind_inv {A B} (m : M A) (k : A -> M B) w b w'' :
  bind m k w = Ok (b, w'') ->
  exists a w', m w = Ok (a, w') /\ k a w' = Ok (b, w'').
Proof.
  unfold bind. destruct (m w) as [[a w']| |]; try discriminate. eauto.
Qed.

Lemma load_ok {T} (a : list (option T)) i v w :
  0 <= i -> a !! Z.to_nat i = Some (Some v) -> load a i w = Ok (v, w).
Proof.
  intros Hi H. unfold load. destruct (i <? 0) eqn:E; [apply Z.ltb_lt in E; lia|].
  rewrite H. reflexivity.
Qed.

Lemma store_ok {T} (a : list (option T)) i v w :
  0 <= i < Z.of_nat (length a) ->
  store a i v w = Ok (<[Z.to_nat i := Some v]> a, w).
Proof.
  intros Hi. unfold store.
  destruct (0 <=? i) eqn:E1; [|apply Z.leb_gt in E1; lia].
  destruct (i <? Z.of_nat (length a)) eqn:E2; [|apply Z.ltb_ge in E2; lia].
  reflexivity.
Qed.

Lemma load_price_ok prices i w :
  0 <= i < Z.of_nat (length prices) ->
  load_price prices i w = Ok (price prices i, w).
Proof.
  intros Hi. unfold load_price, price.
  destruct (i <? 0) eqn:E; [apply Z.ltb_lt in E; lia|].
  destruct (prices !! Z.to_nat i) eqn:L; [reflexivity|].
  apply lookup_ge_None in L. lia.
Qed.

Lemma malloc_ok k w :
  allocs_succeed (S k) w ->
  exists w', malloc w = Ok (true, w') /\ allocs_succeed k w' /\ trace w' = trace w.
Proof.
  unfold allocs_succeed, malloc. intros H. destruct (oracle w) as [|b rest] eqn:E.
  - exists w. rewrite E. split; [reflexivity|]. split; [|reflexivity].
    destruct k; constructor.
  - simpl in H. inversion H; subst. eexists. split; [reflexivity|]. simpl. auto.
Qed.

(** A successful allocation says the oracle's next answer was not a failure. *)
Lemma malloc_inv w b w' :
  malloc w = Ok (b, w') ->
  trace w' = trace w /\
  (b = true -> forall k, allocs_succeed k w' -> allocs_succeed (S k) w).
Proof.
  unfold malloc, allocs_succeed. destruct (oracle w) as [|b0 rest] eqn:E; intros H;
    inversion H; subst; clear H.
  - split; [reflexivity|]. intros _ k _. constructor.
  - split; [reflexivity|]. intros -> k Hk. simpl in *.
    constructor; [reflexivity|exact Hk].
Qed.

(** An element count whose byte count does not wrap gets its slots. *)
Lemma malloc_slots size n :
  0 < size -> 0 <= n -> n * size < 2 ^ 64 -> sz (n * size) / size = n.
Proof.
  intros Hs Hn Hb. unfold sz, SIZE_MAX_plus_1.
  rewrite Z.mod_small by nia. apply Z.div_mul. lia.
Qed.

Lemma malloc_array_ok {T} size n k w :
  0 < size -> 0 <= n -> n * size < 2 ^ 64 ->
  allocs_succeed (S k) w ->
  exists w', malloc_array (T := T) size n w
             = Ok (Some (replicate (Z.to_nat n) None), w')
             /\ allocs_succeed k w' /\ trace w' = trace w.
Proof.
  intros Hs Hn Hb H. destruct (malloc_ok k w H) as (w' & E & Hok & Ht).
  exists w'. unfold malloc_array. rewrite (bind_ok _ _ _ _ _ E).
  rewrite malloc_slots by assumption. auto.
Qed.

Lemma malloc_array_inv {T} size n w (r : option (list (option T))) w' :
  malloc_array size n w = Ok (r, w') ->
  trace w' = trace w /\
  (r <> None -> forall k, allocs_succeed k w' -> allocs_succeed (S k) w).
Proof.
  unfold malloc_array. intros H. apply bind_inv in H.
  destruct H as (b & w1 & Em & Er). inversion Er; subst; clear Er.
  destruct (malloc_inv _ _ _ Em) as (Ht & Hs). split; [exact Ht|].
  destruct b; [intros _; apply Hs; reflexivity|congruence].
Qed.

Lemma allocs_succeed_0 w : allocs_succeed 0 w.
Proof. unfold allocs_succeed. rewrite take_0. constructor. Qed.

(** The validation loop returns, and says whether a price is rejected. *)
Lemma has_invalid_price_spec prices n i w :
  0 <= i -> i + Z.of_nat n <= Z.of_nat (length prices) ->
  has_invalid_price n i prices w =
    Ok (negb (forallb valid_price (take n (drop (Z.to_nat i) prices))), w).
Proof.
  revert i. induction n as [|n IH]; intros i Hi Hn; simpl.
  - reflexivity.
  - rewrite (bind_ok _ _ _ _ _ (load_price_ok prices i w ltac:(lia))).
    unfold price. destruct (prices !! Z.to_nat i) as [p|] eqn:L.
    2:{ apply lookup_ge_None in L. lia. }
    rewrite (drop_S _ _ _ L). simpl. unfold valid_price at 1.
    destruct (isnan p || isinf p); simpl; [reflexivity|].
    rewrite IH by lia. replace (Z.to_nat (i + 1)) with (S (Z.to_nat i)) by lia.
    reflexivity.
Qed.

(** Invariant rule for counted loops. *)
Lemma for_up_inv {S} (I : Z -> S -> world -> Prop) body n i0 :
  (forall k s w, 0 <= k < Z.of_nat n -> I (i0 + k) s w ->
     exists s' w', body (i0 + k) s w = Ok (s', w') /\ I (i0 + k + 1) s' w') ->
  forall s w, I i0 s w ->
  exists s' w', for_up n i0 body s w = Ok (s', w') /\ I (i0 + Z.of_nat n) s' w'.
Proof.
  revert i0. induction n as [|n IH]; intros i0 Hstep s w HI.
  - exists s, w. simpl. rewrite Z.add_0_r. auto.
  - destruct (Hstep 0 s w ltac:(lia)) as (s1 & w1 & E & HI1).
    { replace (i0 + 0) with i0 by lia. exact HI. }
    replace (i0 + 0) with i0 in * by lia.
    destruct (IH (i0 + 1)) with (s := s1) (w := w1) as (s2 & w2 & E2 & HI2).
    + intros k s' w' Hk HIk.
      replace (i0 + 1 + k) with (i0 + (k + 1)) in * by lia.
      destruct (Hstep (k + 1) s' w' ltac:(lia) HIk) as (s'' & w'' & Hb & HI'').
      exists s'', w''. split; [exact Hb|].
      replace (i0 + 1 + k + 1) with (i0 + (k + 1) + 1) by lia. exact HI''.
    + exact HI1.
    + exists s2, w2. simpl. rewrite (bind_ok _ _ _ _ _ E). split; [exact E2|].
      replace (i0 + Z.of_nat (Datatypes.S n)) with (i0 + 1 + Z.of_nat n) by lia. exact HI2.
Qed.

Lemma for_down_inv {S} (I : Z -> S -> world -> Prop) body n i0 :
  (forall k s w, 0 <= k < Z.of_nat n -> I (i0 - k) s w ->
     exists s' w', body (i0 - k) s w = Ok (s', w') /\ I (i0 - k - 1) s' w') ->
  forall s w, I i0 s w ->
  exists s' w', for_down n i0 body s w = Ok (s', w') /\ I (i0 - Z.of_nat n) s' w'.
Proof.
  revert i0. induction n as [|n IH]; intros i0 Hstep s w HI.
  - exists s, w. simpl. rewrite Z.sub_0_r. auto.
  - destruct (Hstep 0 s w ltac:(lia)) as (s1 & w1 & E & HI1).
    { replace (i0 - 0) with i0 by lia. exact HI. }
    replace (i0 - 0) with i0 in * by lia.
    destruct (IH (i0 - 1)) with (s := s1) (w := w1) as (s2 & w2 & E2 & HI2).
    + intros k s' w' Hk HIk.
      replace (i0 - 1 - k) with (i0 - (k + 1)) in * by lia.
      destruct (Hstep (k + 1) s' w' ltac:(lia) HIk) as (s'' & w'' & Hb & HI'').
      exists s'', w''. split; [exact Hb|].
      replace (i0 - 1 - k - 1) with (i0 - (k + 1) - 1) by lia. exact HI''.
    + exact HI1.
    + exists s2, w2. simpl. rewrite (bind_ok _ _ _ _ _ E). split; [exact E2|].
      replace (i0 - Z.of_nat (Datatypes.S n)) with (i0 - 1 - Z.of_nat n) by lia. exact HI2.
Qed.

(** Invariant rule for [while]: a loop whose body decreases a measure below
    the fuel terminates normally, in a state where the condition is false. *)
Lemma while_inv {S} (I Q : S -> world -> Prop) (measure : S -> nat) cond body :
  (forall s w, I s w ->
     exists b w1, cond s w = Ok (b, w1) /\
       (b = true -> exists s' w', body s w1 = Ok (s', w') /\ I s' w'
                                  /\ (measure s' < measure s)%nat) /\
       (b = false -> Q s w1)) ->
  forall fuel s w, I s w -> (measure s < fuel)%nat ->
  exists s' w', while fuel cond body s w = Ok (s', w') /\ Q s' w'.
Proof.
  intros Hstep. induction fuel as [|fuel IH]; intros s w HI Hm; [lia|].
  destruct (Hstep s w HI) as (b & w1 & Ec & Hb & Hq). simpl.
  rewrite (bind_ok _ _ _ _ _ Ec). destruct b.
  - destruct (Hb eq_refl) as (s' & w' & Eb & HI' & Hlt).
    rewrite (bind_ok _ _ _ _ _ Eb). apply IH; [exact HI'|lia].
  - exists s, w1. auto.
Qed.
(** * stock_span.c: the spans are the dominance runs *)

Module StockSpanProofs.
Import StockSpan StockSpanSpec.

Lemma all_valid_price prices k :
  all_valid prices -> 0 <= k < Z.of_nat (length prices) ->
  valid_price (price prices k) = true.
Proof.
  intros H Hk. unfold price.
  destruct (prices !! Z.to_nat k) as [p|] eqn:L.
  - simpl. unfold all_valid in H. rewrite forallb_forall in H. apply H.
    apply list_elem_of_In. eapply list_elem_of_lookup_2. exact L.
  - apply lookup_ge_None in L. lia.
Qed.

Lemma run_back_blocked prices x (j : nat) (b : Z) :
  (Z.of_nat j <= Z.of_nat (length prices)) ->
  -1 <= b < Z.of_nat j ->
  (forall k, b < k < Z.of_nat j -> dle (price prices k) x = true) ->
  (0 <= b -> dle (price prices b) x = false) ->
  Z.of_nat (run_back prices x j) = Z.of_nat j - b - 1.
Proof.
  induction j as [|j IH]; intros Hlen Hb Hle Hgt; [simpl; lia|].
  simpl. destruct (prices !! j) as [p|] eqn:L.
  2:{ apply lookup_ge_None in L. lia. }
  assert (Hp : price prices (Z.of_nat j) = p).
  { unfold price. rewrite Nat2Z.id, L. reflexivity. }
  destruct (Z.eq_dec b (Z.of_nat j)) as [->|Hne].
  - rewrite <- Hp, Hgt by lia. lia.
  - rewrite <- Hp, Hle by lia. rewrite Nat2Z.inj_succ, IH; try lia.
    + intros k Hk. apply Hle. lia.
    + exact Hgt.
Qed.

Lemma blocker_span prices i b :
  all_valid prices -> 0 <= i < Z.of_nat (length prices) ->
  blocker prices i b ->
  Z.of_nat (span_spec prices (Z.to_nat i)) = i - b.
Proof.
  intros Hv Hi (Hb & Hle & Hgt). unfold span_spec.
  destruct (prices !! Z.to_nat i) as [x|] eqn:L.
  2:{ apply lookup_ge_None in L. lia. }
  assert (Hx : price prices i = x) by (unfold price; rewrite L; reflexivity).
  rewrite (run_back_blocked prices x (S (Z.to_nat i)) b); try lia.
  - intros k Hk. destruct (Z.eq_dec k i) as [->|Hne].
    + rewrite Hx. apply dle_refl. rewrite <- Hx. apply all_valid_price; assumption.
    + rewrite <- Hx. apply Hle. lia.
  - rewrite <- Hx. exact Hgt.
Qed.

Lemma chain_length prices items :
  chain prices items -> Z.of_nat (length items) <= hd (-1) items + 1.
Proof.
  induction items as [|a rest IH]; simpl; [lia|].
  intros (Ha & (Hb & _) & Hc). specialize (IH Hc). lia.
Qed.

(** ** The stack primitives on the array representation *)

Lemma stack_isEmpty_rep stack items :
  stack_rep stack items -> isEmpty stack = match items with [] => true | _ => false end.
Proof.
  intros (Ht & _). unfold isEmpty. rewrite Ht. destruct items; reflexivity.
Qed.

Lemma stack_rep_top_slot stack a rest :
  stack_rep stack (a :: rest) ->
  sz (stk_top stack - 1) = Z.of_nat (length rest) /\
  stk_data stack !! length rest = Some (Some a).
Proof.
  intros (Ht & Hd & Hl & Hc). simpl length in *.
  assert (Hlen : (S (length rest) <= length (stk_data stack))%nat).
  { assert (E := f_equal length Hd).
    rewrite length_take, length_map, length_rev in E. cbn [length] in E. lia. }
  split.
  - rewrite Ht, sz_small; lia.
  - assert (E : take (S (length rest)) (stk_data stack) !! length rest
                = Some (Some a)).
    { rewrite Hd. simpl. rewrite map_app. simpl.
      rewrite lookup_app_r; rewrite length_map, length_rev; [|lia].
      rewrite Nat.sub_diag. reflexivity. }
    rewrite lookup_take_lt in E by lia. exact E.
Qed.

Lemma peek_rep stack a rest w :
  stack_rep stack (a :: rest) -> peek stack w = Ok (a, w).
Proof.
  intros H. destruct (stack_rep_top_slot _ _ _ H) as (E & L).
  unfold peek. rewrite E. apply load_ok; [lia|]. rewrite Nat2Z.id. exact L.
Qed.

Lemma pop_rep stack a rest w :
  stack_rep stack (a :: rest) ->
  exists stack', pop stack w = Ok ((a, stack'), w) /\ stack_rep stack' rest.
Proof.
  intros H. destruct (stack_rep_top_slot _ _ _ H) as (E & L).
  destruct H as (Ht & Hd & Hl & Hc).
  eexists. unfold pop. rewrite E.
  assert (El : load (stk_data stack) (Z.of_nat (length rest)) w = Ok (a, w)).
  { apply load_ok; [lia|]. rewrite Nat2Z.id. exact L. }
  rewrite (bind_ok _ _ _ _ _ El).
  split; [reflexivity|]. repeat split; simpl; try assumption.
  simpl in Hd. rewrite map_app in Hd.
  assert (E2 := f_equal (take (length rest)) Hd).
  rewrite take_take, Nat.min_l in E2 by lia.
  rewrite take_app_length' in E2 by (rewrite length_map, length_rev; reflexivity).
  exact E2.
Qed.

Lemma push_rep stack items v w :
  stack_rep stack items -> Z.of_nat (length items) < stk_capacity stack ->
  exists stack', push stack v w = Ok (stack', w) /\ stack_rep stack' (v :: items).
Proof.
  intros (Ht & Hd & Hl & Hc) Hroom.
  eexists. unfold push.
  assert (Es : store (stk_data stack) (stk_top stack) v w
               = Ok (<[Z.to_nat (stk_top stack) := Some v]> (stk_data stack), w)).
  { apply store_ok. lia. }
  rewrite (bind_ok _ _ _ _ _ Es).
  split; [reflexivity|]. repeat split; simpl; try assumption.
  - rewrite Ht, sz_small; lia.
  - rewrite Ht, Nat2Z.id. rewrite map_app. simpl.
    rewrite <- Hd.
    assert (Hlt : (length items < length (stk_data stack))%nat) by lia.
    rewrite (take_S_r _ _ (Some v)).
    + rewrite take_insert_ge by lia. reflexivity.
    + apply list_lookup_insert_eq. exact Hlt.
  - rewrite length_insert. exact Hl.
Qed.

(** ** The inner loop: popping down to the blocker *)

Lemma pop_loop prices i stack w :
  all_valid prices -> 0 <= i < Z.of_nat (length prices) ->
  pop_inv prices i w stack w ->
  exists stack' w',
    while (S (Z.to_nat (stk_top stack))) (pop_cond prices i) pop_body stack w
      = Ok (stack', w') /\
    pop_post prices i w stack' w'.
Proof.
  intros Hv Hi HI.
  apply (while_inv (pop_inv prices i w) (pop_post prices i w)
           (fun s => Z.to_nat (stk_top s))); [|exact HI|lia].
  clear stack HI. intros stack w1 (-> & items & Hrep & Hch & Hlt & Hle).
  unfold pop_cond. rewrite (stack_isEmpty_rep _ _ Hrep).
  destruct items as [|a rest].
  - exists false, w. split; [reflexivity|]. split; [discriminate|]. intros _.
    split; [reflexivity|]. exists []. split; [exact Hrep|]. split; [exact I|].
    simpl in *. split; [lia|]. split; [exact Hle|lia].
  - simpl in Hlt, Hle. destruct Hch as (Ha & Hbl & Hch).
    rewrite (bind_ok _ _ _ _ _ (peek_rep _ _ _ w Hrep)).
    rewrite (bind_ok _ _ _ _ _ (load_price_ok prices a w ltac:(lia))).
    rewrite (bind_ok _ _ _ _ _ (load_price_ok prices i w ltac:(lia))).
    exists (dle (price prices a) (price prices i)), w.
    split; [reflexivity|]. split.
    + intros Hpop. destruct (pop_rep _ _ _ w Hrep) as (stack' & Ep & Hrep').
      exists stack', w. split.
      { unfold pop_body. rewrite (bind_ok _ _ _ _ _ Ep). reflexivity. }
      split.
      * split; [reflexivity|]. exists rest.
        split; [exact Hrep'|]. split; [exact Hch|]. split.
        { destruct Hbl as (Hb & _). lia. }
        intros k Hk. destruct Hbl as (Hb & Hbetween & _).
        destruct (Z_lt_le_dec a k) as [Hak|Hka]; [apply Hle; lia|].
        destruct (Z.eq_dec k a) as [->|Hne]; [exact Hpop|].
        eapply dle_trans; [apply Hbetween; lia|exact Hpop].
      * destruct Hrep as (Ht & _), Hrep' as (Ht' & _). rewrite Ht, Ht'.
        simpl length. lia.
    + intros Hstop. split; [reflexivity|]. exists (a :: rest).
      split; [exact Hrep|]. split; [simpl; auto|].
      simpl. split; [lia|]. split; [exact Hle|]. intros _. exact Hstop.
Qed.

(** The loops never touch the stack's capacity field. *)
Lemma pop_loop_capacity prices i fuel stack w stack' w' :
  while fuel (pop_cond prices i) pop_body stack w = Ok (stack', w') ->
  stk_capacity stack' = stk_capacity stack.
Proof.
  revert stack w. induction fuel as [|fuel IH]; intros stack w; simpl; [discriminate|].
  intros E. apply bind_inv in E. destruct E as (b & w2 & Ec & E).
  destruct b.
  - apply bind_inv in E. destruct E as (s2 & w3 & Eb & E).
    rewrite (IH _ _ E). unfold pop_body, pop in Eb.
    apply bind_inv in Eb. destruct Eb as ((v & s3) & w4 & Eb & Er).
    apply bind_inv in Eb. destruct Eb as (v' & w5 & _ & Eb).
    inversion Eb; subst. inversion Er; subst. reflexivity.
  - inversion E; subst. reflexivity.
Qed.

(** ** One iteration of the main loop *)

Lemma span_step_inv prices w i s :
  all_valid prices -> Z.of_nat (length prices) <= MAX_ARRAY_SIZE ->
  0 <= i < Z.of_nat (length prices) ->
  span_inv prices w i s w ->
  exists s' w', span_step prices i s w = Ok (s', w') /\ span_inv prices w (i + 1) s' w'.
Proof.
  intros Hv Hmax Hi (_ & items & Hrep & Hch & Hhd & Hcap & Hlen & Hsp).
  destruct s as (stack, spans). simpl in *.
  destruct (pop_loop prices i stack w Hv Hi) as (stack1 & w1 & Ew & Hpost).
  { split; [reflexivity|]. exists items.
    split; [exact Hrep|]. split; [exact Hch|]. split; [lia|]. intros k Hk. lia. }
  destruct Hpost as (-> & items1 & Hrep1 & Hch1 & Hbl).
  rewrite (bind_ok _ _ _ _ _ Ew).
  assert (Hspan : exists span,
             (if isEmpty stack1 then ret (to_int (sz (i + 1)))
              else bind (peek stack1) (fun j => ret (to_int (sz (i - j))))) w
             = Ok (span, w) /\
             span = i - hd (-1) items1).
  { unfold MAX_ARRAY_SIZE in Hmax.
    rewrite (stack_isEmpty_rep _ _ Hrep1). destruct items1 as [|a rest]; simpl hd.
    - eexists. split; [reflexivity|]. rewrite sz_small, to_int_small; lia.
    - rewrite (bind_ok _ _ _ _ _ (peek_rep _ _ _ w Hrep1)).
      eexists. split; [reflexivity|]. simpl in Hbl. destruct Hbl as (Hb & _).
      destruct Hch1 as (Ha & _). rewrite sz_small, to_int_small; lia. }
  destruct Hspan as (span & Espan & Hspan). rewrite (bind_ok _ _ _ _ _ Espan).
  rewrite (bind_ok _ _ _ _ _ (store_ok spans i span w ltac:(lia))).
  assert (Hcap1 : stk_capacity stack1 = Z.of_nat (length prices)).
  { rewrite (pop_loop_capacity _ _ _ _ _ _ _ Ew). exact Hcap. }
  destruct (push_rep stack1 items1 i w Hrep1) as (stack2 & Epush & Hrep2).
  { assert (Hl := chain_length _ _ Hch1). destruct Hbl as (Hb & _). lia. }
  rewrite (bind_ok _ _ _ _ _ Epush).
  eexists (stack2, _), w. split; [reflexivity|].
  split; [reflexivity|]. exists (i :: items1). simpl.
  split; [exact Hrep2|]. split; [auto with zarith|]. split; [lia|].
  split; [|split].
  - unfold push in Epush. apply bind_inv in Epush.
    destruct Epush as (d & w2 & _ & Er). inversion Er; subst. simpl. exact Hcap1.
  - rewrite length_insert. exact Hlen.
  - intros k Hk. destruct (Z.eq_dec k i) as [->|Hne].
    + exists (hd (-1) items1). split; [exact Hbl|].
      rewrite list_lookup_insert_eq by lia. rewrite Hspan. reflexivity.
    + rewrite list_lookup_insert_ne by lia. apply Hsp. lia.
Qed.

(** ** The whole function *)

Lemma createStack_ok capacity k w :
  allocs_succeed (S (S k)) w -> 0 <= capacity < 2 ^ 61 ->
  exists stack w',
    createStack capacity w = Ok (Some stack, w') /\ allocs_succeed k w' /\
    stack_rep stack [] /\ stk_capacity stack = capacity.
Proof.
  intros Hok Hcap. unfold createStack.
  destruct (malloc_ok _ w Hok) as (w1 & E1 & Hok1 & _).
  rewrite (bind_ok _ _ _ _ _ E1). simpl.
  destruct (malloc_array_ok (T := Z) sizeof_size_t capacity _ w1
              ltac:(reflexivity) ltac:(lia) ltac:(unfold sizeof_size_t; lia) Hok1)
    as (w2 & E2 & Hok2 & _).
  rewrite (bind_ok _ _ _ _ _ E2).
  eexists _, w2. split; [reflexivity|]. split; [exact Hok2|].
  split; [|reflexivity]. unfold stack_rep. simpl.
  rewrite length_replicate. repeat split; try lia.
Qed.

Lemma all_valid_forallb prices n :
  all_valid prices -> forallb valid_price (take n (drop 0 prices)) = true.
Proof.
  unfold all_valid. rewrite drop_0, !forallb_forall. intros H x Hx. apply H.
  apply list_elem_of_In. apply list_elem_of_In in Hx.
  exact (subseteq_take n prices x Hx).
Qed.

Lemma calculateStockSpan_run prices out err_buf err_buf_len w :
  all_valid prices ->
  1 <= Z.of_nat (length prices) <= MAX_ARRAY_SIZE ->
  allocs_succeed 3 w ->
  exists spans w',
    calculateStockSpan (Some prices) (Z.of_nat (length prices)) (Some out)
      err_buf err_buf_len w
    = Ok ((0, Some (Some spans), err_buf), w') /\
    length spans = length prices /\
    forall i, 0 <= i < Z.of_nat (length prices) ->
      exists b, blocker prices i b /\ spans !! Z.to_nat i = Some (Some (i - b)).
Proof.
  intros Hv Hlen Hok. unfold calculateStockSpan.
  destruct (Z.of_nat (length prices) =? 0) eqn:E0; [apply Z.eqb_eq in E0; lia|].
  destruct (MAX_ARRAY_SIZE <? Z.of_nat (length prices)) eqn:E1;
    [apply Z.ltb_lt in E1; lia|]. change (false || false) with false. cbv iota.
  rewrite Nat2Z.id.
  rewrite (bind_ok _ _ _ _ _
             (has_invalid_price_spec prices (length prices) 0 w ltac:(lia) ltac:(lia))).
  rewrite all_valid_forallb by assumption. change (negb true) with false. cbv iota.
  destruct (malloc_array_ok (T := Z) sizeof_int (Z.of_nat (length prices)) _ w
              ltac:(reflexivity) ltac:(lia)
              ltac:(unfold sizeof_int, MAX_ARRAY_SIZE in *; lia) Hok)
    as (w1 & E2 & Hok1 & _).
  rewrite Nat2Z.id in E2. rewrite (bind_ok _ _ _ _ _ E2).
  destruct (createStack_ok (Z.of_nat (length prices)) _ w1 Hok1) as
    (stack & w2 & E3 & Hok2 & Hrep & Hcap).
  { unfold MAX_ARRAY_SIZE in Hlen. lia. }
  rewrite (bind_ok _ _ _ _ _ E3).
  destruct (for_up_inv (span_inv prices w2) (span_step prices)
              (length prices) 0) with
    (s := (stack, replicate (length prices) (@None Z)))
    (w := w2) as ((stack' & spans) & w3 & E4 & HI).
  - intros k s w' Hk HI. assert (w' = w2) as -> by (destruct HI; assumption).
    replace (0 + k + 1) with (k + 1) by lia. replace (0 + k) with k in * by lia.
    apply span_step_inv; try assumption; lia.
  - split; [reflexivity|]. exists []. simpl.
    split; [exact Hrep|]. split; [exact I|]. split; [reflexivity|].
    split; [exact Hcap|]. split; [rewrite length_replicate; lia|].
    intros k Hk. lia.
  - rewrite (bind_ok _ _ _ _ _ E4).
    destruct HI as (-> & items & _ & _ & _ & _ & Hl & Hsp). simpl in *.
    exists spans, w2. split; [reflexivity|]. split; [exact Hl|].
    intros i Hi. apply Hsp. lia.
Qed.

(** C2: for every valid price sequence (all elements finite, length between 1
    and [MAX_ARRAY_SIZE]) and a successful allocation, [calculateStockSpan]
    returns status 0 and stores an array of the input's length in which
    [span[i]] is the number of consecutive positions ending at [i]
    (inclusive) whose price is [<= price[i]]; that run reaches back exactly
    to the nearest strictly greater predecessor [b] (or to the start of the
    array, [b = -1]), equal prices being counted into the run.  On the prices
    [100, 80, 60, 70, 60, 75, 85] the spans are [1, 1, 1, 2, 1, 4, 6]. *)
Theorem calculateStockSpan_correct :
  (forall (prices : list float) out err_buf err_buf_len (w : world),
     all_valid prices ->
     1 <= Z.of_nat (length prices) <= MAX_ARRAY_SIZE ->
     allocs_succeed 3 w ->
     exists spans w',
       calculateStockSpan (Some prices) (Z.of_nat (length prices)) (Some out)
         err_buf err_buf_len w
       = Ok ((0, Some (Some spans), err_buf), w') /\
       length spans = length prices /\
       forall i, 0 <= i < Z.of_nat (length prices) ->
         spans !! Z.to_nat i = Some (Some (Z.of_nat (span_spec prices (Z.to_nat i)))) /\
         exists b, -1 <= b < i /\
           Z.of_nat (span_spec prices (Z.to_nat i)) = i - b /\
           (forall k, b < k <= i -> dle (price prices k) (price prices i) = true) /\
           (0 <= b -> dgt (price prices b) (price prices i) = true)) /\
  calculateStockSpan (Some example_prices) 7 (Some None) None 0 w0
  = Ok ((0, Some (Some example_spans), None), w0).
Proof.
  split; [|vm_compute; reflexivity].
  intros prices out err_buf err_buf_len w Hv Hlen Hok.
  destruct (calculateStockSpan_run prices out err_buf err_buf_len w Hv Hlen Hok)
    as (spans & w' & E & Hl & Hsp).
  exists spans, w'. split; [exact E|]. split; [exact Hl|].
  intros i Hi. destruct (Hsp i Hi) as (b & Hbl & Hs).
  rewrite (blocker_span prices i b Hv Hi Hbl). split; [exact Hs|].
  exists b. destruct Hbl as (Hb & Hle & Hgt).
  split; [exact Hb|]. split; [reflexivity|]. split.
  - intros k Hk. destruct (Z.eq_dec k i) as [->|Hne].
    + apply dle_refl. apply all_valid_price; assumption.
    + apply Hle. lia.
  - intros Hb0. rewrite dgt_dle; try (apply all_valid_price; [assumption|lia]).
    rewrite Hgt by assumption. reflexivity.
Qed.

Lemma calculateStockSpan_correct_witness :
  exists spans w',
    calculateStockSpan (Some example_prices) 7 (Some None) None 0 w0
    = Ok ((0, Some (Some spans), None), w') /\
    length spans = 7%nat /\
    forall i, 0 <= i < 7 ->
      spans !! Z.to_nat i
      = Some (Some (Z.of_nat (span_spec example_prices (Z.to_nat i)))) /\
      exists b, -1 <= b < i /\
        Z.of_nat (span_spec example_prices (Z.to_nat i)) = i - b /\
        (forall k, b < k <= i ->
           dle (price example_prices k) (price example_prices i) = true) /\
        (0 <= b -> dgt (price example_prices b) (price example_prices i) = true).
Proof.
  apply (proj1 calculateStockSpan_correct example_prices None None 0 w0).
  - vm_compute. reflexivity.
  - vm_compute. split; discriminate.
  - constructor.
Defined.

End StockSpanProofs.
(** * segment_tree.c: layout of the built tree and range queries *)

Module SegTreeProofs.
Import SegTree StockSpanSpec StockSpanProofs SegTreeSpec.

(** ** Building *)

Lemma leaf_step_inv prices i nodes w :
  Z.of_nat (length prices) <= MAX_ARRAY_SIZE ->
  0 <= i < Z.of_nat (length prices) ->
  leaves_done prices i nodes ->
  exists nodes',
    leaf_step prices (Z.of_nat (length prices)) i nodes w = Ok (nodes', w) /\
    leaves_done prices (i + 1) nodes'.
Proof.
  intros Hmax Hi (Hlen & Hdone). unfold MAX_ARRAY_SIZE in Hmax. unfold leaf_step.
  rewrite sz_small by lia.
  rewrite (bind_ok _ _ _ _ _ (load_price_ok prices i w Hi)).
  eexists. split; [apply store_ok; lia|].
  split; [rewrite length_insert; exact Hlen|].
  intros j Hj. destruct (Z.eq_dec j i) as [->|Hne].
  - apply list_lookup_insert_eq. lia.
  - rewrite list_lookup_insert_ne by lia. apply Hdone. lia.
Qed.

Lemma internal_step_inv prices i nodes w :
  Z.of_nat (length prices) <= MAX_ARRAY_SIZE ->
  1 <= i < Z.of_nat (length prices) ->
  internal_done prices i nodes ->
  exists nodes',
    internal_step i nodes w = Ok (nodes', w) /\
    internal_done prices (i - 1) nodes'.
Proof.
  intros Hmax Hi ((Hlen & Hleaves) & Hint). unfold MAX_ARRAY_SIZE in Hmax.
  set (n := Z.of_nat (length prices)) in *.
  assert (Hchild : forall c, i < c < 2 * n -> exists v, nodes !! Z.to_nat c = Some (Some v)).
  { intros c Hc. destruct (Z_lt_le_dec c n) as [Hlt|Hge].
    - destruct (Hint c ltac:(lia)) as (l & r & _ & _ & E). eauto.
    - specialize (Hleaves (c - n) ltac:(lia)).
      replace (n + (c - n)) with c in Hleaves by lia. eauto. }
  destruct (Hchild (2 * i) ltac:(lia)) as (l & El).
  destruct (Hchild (2 * i + 1) ltac:(lia)) as (r & Er).
  unfold internal_step. rewrite !sz_small by lia.
  rewrite (bind_ok _ _ _ _ _ (load_ok nodes (2 * i) l w ltac:(lia) El)).
  rewrite (bind_ok _ _ _ _ _ (load_ok nodes (2 * i + 1) r w ltac:(lia) Er)).
  eexists. split; [apply store_ok; lia|].
  split; [split|].
  - rewrite length_insert. exact Hlen.
  - intros j Hj. rewrite list_lookup_insert_ne by lia. apply Hleaves. exact Hj.
  - intros k Hk. destruct (Z.eq_dec k i) as [->|Hne].
    + exists l, r. rewrite !list_lookup_insert_ne by lia.
      rewrite list_lookup_insert_eq by lia. auto.
    + destruct (Hint k ltac:(lia)) as (l' & r' & E1 & E2 & E3).
      exists l', r'. rewrite !list_lookup_insert_ne by lia. auto.
Qed.

Lemma buildSegmentTree_run prices out err_buf err_buf_len w :
  all_valid prices ->
  1 <= Z.of_nat (length prices) <= MAX_ARRAY_SIZE ->
  allocs_succeed 2 w ->
  exists tree w',
    buildSegmentTree (Some prices) (Z.of_nat (length prices)) (Some out)
      err_buf err_buf_len w
    = Ok ((0, Some (Some tree), err_buf), w') /\
    built prices tree.
Proof.
  intros Hv Hlen Hok. unfold buildSegmentTree.
  destruct (Z.of_nat (length prices) =? 0) eqn:E0; [apply Z.eqb_eq in E0; lia|].
  destruct (MAX_ARRAY_SIZE <? Z.of_nat (length prices)) eqn:E1;
    [apply Z.ltb_lt in E1; lia|]. change (false || false) with false. cbv iota.
  rewrite Nat2Z.id.
  rewrite (bind_ok _ _ _ _ _
             (has_invalid_price_spec prices (length prices) 0 w ltac:(lia) ltac:(lia))).
  rewrite all_valid_forallb by assumption. change (negb true) with false. cbv iota.
  destruct (malloc_ok _ w Hok) as (w1 & Em & Hok1 & _).
  rewrite (bind_ok _ _ _ _ _ Em). change (negb true) with false. cbv iota.
  unfold MAX_ARRAY_SIZE in Hlen.
  rewrite (sz_small (2 * _)) by lia. rewrite (sz_small (_ - 1)) by lia.
  destruct (malloc_array_ok (T := TreeNode) sizeof_TreeNode
              (2 * Z.of_nat (length prices)) _ w1
              ltac:(reflexivity) ltac:(lia) ltac:(unfold sizeof_TreeNode; lia) Hok1)
    as (w2 & E2 & Hok2 & _).
  rewrite (bind_ok _ _ _ _ _ E2).
  destruct (for_up_inv (fun i nodes w' => w' = w2 /\ leaves_done prices i nodes)
              (leaf_step prices (Z.of_nat (length prices))) (length prices) 0)
    with (s := replicate (Z.to_nat (2 * Z.of_nat (length prices))) (@None TreeNode))
         (w := w2) as (nodes1 & w3 & E3 & -> & Hleaves).
  { intros k s w' Hk (-> & HI). replace (0 + k + 1) with (k + 1) by lia.
    replace (0 + k) with k in * by lia.
    destruct (leaf_step_inv prices k s w2) as (nodes' & E & HI');
      try assumption; try (unfold MAX_ARRAY_SIZE; lia).
    exists nodes', w2. auto. }
  { split; [reflexivity|]. split; [rewrite length_replicate; lia|]. intros j Hj. lia. }
  rewrite (bind_ok _ _ _ _ _ E3). simpl Z.add in Hleaves.
  destruct (for_down_inv (fun i nodes w' => w' = w2 /\ internal_done prices i nodes)
              internal_step (Z.to_nat (Z.of_nat (length prices) - 1))
              (Z.of_nat (length prices) - 1))
    with (s := nodes1) (w := w2) as (nodes2 & w4 & E4 & -> & Hint).
  { intros k s w' Hk (-> & HI).
    destruct (internal_step_inv prices (Z.of_nat (length prices) - 1 - k) s w2)
      as (nodes' & E & HI'); try assumption; try (unfold MAX_ARRAY_SIZE; lia).
    exists nodes', w2. auto. }
  { split; [reflexivity|]. split; [exact Hleaves|]. intros k Hk. lia. }
  rewrite (bind_ok _ _ _ _ _ E4).
  eexists _, w2. split; [reflexivity|].
  rewrite Z2Nat.id in Hint by lia.
  replace (Z.of_nat (length prices) - 1 - (Z.of_nat (length prices) - 1)) with 0 in Hint by lia.
  destruct Hint as ((Hl & Hlv) & Hin).
  unfold built. simpl. repeat split; try assumption; try reflexivity.
  intros k Hk. apply Hin. lia.
Qed.

(** ** Shapes of the built nodes *)

Lemma node_shape_fun n k e1 :
  node_shape n k e1 -> forall e2, node_shape n k e2 -> e1 = e2.
Proof.
  induction 1 as [k Hk|k a b Hk Ha IHa Hb IHb]; intros e2 H2; inversion H2; subst;
    try lia; try reflexivity.
  f_equal; auto.
Qed.

Lemma built_shape prices tree :
  built prices tree ->
  forall k, 1 <= k < 2 * Z.of_nat (length prices) ->
    exists e, node_shape (Z.of_nat (length prices)) k e /\
              st_nodes tree !! Z.to_nat k = Some (Some (eval prices e)).
Proof.
  intros (_ & _ & Hlen & Hleaf & Hint).
  set (n := Z.of_nat (length prices)) in *.
  assert (H : forall (d : nat) k, 1 <= k -> 2 * n - k <= Z.of_nat d -> k < 2 * n ->
            exists e, node_shape n k e /\
                      st_nodes tree !! Z.to_nat k = Some (Some (eval prices e))).
  { induction d as [|d IH]; intros k Hk1 Hd Hk2; [lia|].
    destruct (Z_lt_le_dec k n) as [Hlt|Hge].
    - destruct (IH (2 * k) ltac:(lia) ltac:(lia) ltac:(lia)) as (e1 & S1 & E1).
      destruct (IH (2 * k + 1) ltac:(lia) ltac:(lia) ltac:(lia)) as (e2 & S2 & E2).
      destruct (Hint k ltac:(lia)) as (l & r & El & Er & Ek).
      exists (MMerge e1 e2). split; [constructor; [lia|assumption..]|].
      rewrite Ek. simpl. congruence.
    - exists (MLeaf (k - n)). split; [constructor; lia|].
      specialize (Hleaf (k - n) ltac:(lia)).
      replace (n + (k - n)) with k in Hleaf by lia. exact Hleaf. }
  intros k Hk. apply (H (Z.to_nat (2 * n))); lia.
Qed.

Lemma shape_leaves_bound n k e :
  node_shape n k e -> 1 <= k -> Z.of_nat (length (leaves e)) * k < 2 * n.
Proof.
  induction 1 as [k Hk|k a b Hk Ha IHa Hb IHb]; intros Hk1; simpl.
  - lia.
  - rewrite length_app, Nat2Z.inj_add.
    specialize (IHa ltac:(lia)). specialize (IHb ltac:(lia)). nia.
Qed.

Lemma leaves_nonempty e : leaves e <> [].
Proof.
  induction e as [i|a IHa b IHb]; simpl; [discriminate|].
  intros H. apply app_eq_nil in H. destruct H. auto.
Qed.

(** ** What a merge expression evaluates to *)

Lemma eval_count prices e :
  Z.of_nat (length (leaves e)) < 2 ^ 64 ->
  tn_count (eval prices e) = Z.of_nat (length (leaves e)).
Proof.
  induction e as [i|a IHa b IHb]; simpl; intros H; [reflexivity|].
  rewrite length_app, Nat2Z.inj_add in *.
  rewrite IHa, IHb by lia. apply sz_small. lia.
Qed.

(** The minimum field is the price of one of the leaves and is below all. *)
Lemma eval_min prices e :
  (forall i, In i (leaves e) -> valid_price (price prices i) = true) ->
  (exists i, In i (leaves e) /\ tn_min (eval prices e) = price prices i) /\
  (forall i, In i (leaves e) -> dle (tn_min (eval prices e)) (price prices i) = true).
Proof.
  induction e as [i|a IHa b IHb]; simpl; intros Hv.
  - split; [exists i; auto|]. intros j [<-|[]]. apply dle_refl. apply Hv. auto.
  - destruct IHa as ((ia & Hia & Ea) & Ha); [intros; apply Hv, in_or_app; auto|].
    destruct IHb as ((ib & Hib & Eb) & Hb); [intros; apply Hv, in_or_app; auto|].
    assert (Va : valid_price (tn_min (eval prices a)) = true)
      by (rewrite Ea; apply Hv, in_or_app; auto).
    assert (Vb : valid_price (tn_min (eval prices b)) = true)
      by (rewrite Eb; apply Hv, in_or_app; auto).
    rewrite (dlt_dle _ _ Va Vb).
    destruct (dle (tn_min (eval prices b)) (tn_min (eval prices a))) eqn:E; simpl.
    + split; [exists ib; split; [apply in_or_app; auto|exact Eb]|].
      intros j Hj. apply in_app_or in Hj. destruct Hj as [Hj|Hj]; [|auto].
      eapply dle_trans; [exact E|auto].
    + apply dle_false_flip in E; try assumption.
      split; [exists ia; split; [apply in_or_app; auto|exact Ea]|].
      intros j Hj. apply in_app_or in Hj. destruct Hj as [Hj|Hj]; [auto|].
      eapply dle_trans; [exact E|auto].
Qed.

(** The maximum field is the price of one of the leaves and is above all. *)
Lemma eval_max prices e :
  (forall i, In i (leaves e) -> valid_price (price prices i) = true) ->
  (exists i, In i (leaves e) /\ tn_max (eval prices e) = price prices i) /\
  (forall i, In i (leaves e) -> dle (price prices i) (tn_max (eval prices e)) = true).
Proof.
  induction e as [i|a IHa b IHb]; simpl; intros Hv.
  - split; [exists i; auto|]. intros j [<-|[]]. apply dle_refl. apply Hv. auto.
  - destruct IHa as ((ia & Hia & Ea) & Ha); [intros; apply Hv, in_or_app; auto|].
    destruct IHb as ((ib & Hib & Eb) & Hb); [intros; apply Hv, in_or_app; auto|].
    assert (Va : valid_price (tn_max (eval prices a)) = true)
      by (rewrite Ea; apply Hv, in_or_app; auto).
    assert (Vb : valid_price (tn_max (eval prices b)) = true)
      by (rewrite Eb; apply Hv, in_or_app; auto).
    rewrite (dgt_dle _ _ Va Vb).
    destruct (dle (tn_max (eval prices a)) (tn_max (eval prices b))) eqn:E; simpl.
    + split; [exists ib; split; [apply in_or_app; auto|exact Eb]|].
      intros j Hj. apply in_app_or in Hj. destruct Hj as [Hj|Hj]; [|auto].
      eapply dle_trans; [|exact E]. auto.
    + apply dle_false_flip in E; try assumption.
      split; [exists ia; split; [apply in_or_app; auto|exact Ea]|].
      intros j Hj. apply in_app_or in Hj. destruct Hj as [Hj|Hj]; [auto|].
      eapply dle_trans; [|exact E]. auto.
Qed.

(** ** Tiling of a range by tree nodes *)

Lemma range_cover_empty n lo hi L : range_cover n lo hi L -> hi < lo -> L = [].
Proof. intros H Hlt. inversion H; subst; [reflexivity|lia]. Qed.

Lemma positions_S lo len : positions lo (S len) = lo :: positions (lo + 1) len.
Proof.
  unfold positions. simpl. rewrite Z.add_0_r. f_equal.
  rewrite <- seq_shift, map_map. apply map_ext. intros k. lia.
Qed.

Lemma length_positions lo len : length (positions lo len) = len.
Proof. unfold positions. rewrite length_map, length_seq. reflexivity. Qed.

Lemma in_positions lo len i :
  In i (positions lo len) <-> lo <= i < lo + Z.of_nat len.
Proof.
  unfold positions. rewrite in_map_iff. split.
  - intros (k & <- & Hk). apply in_seq in Hk. lia.
  - intros Hi. exists (Z.to_nat (i - lo)). split; [lia|]. apply in_seq. lia.
Qed.

(** At the leaf level the slots [lo..hi] are the positions [lo-n..hi-n]. *)
Lemma range_cover_leaves n lo (len : nat) :
  n <= lo -> lo + Z.of_nat len <= 2 * n ->
  range_cover n lo (lo + Z.of_nat len - 1) (positions (lo - n) len).
Proof.
  revert lo. induction len as [|len IH]; intros lo Hlo Hhi.
  - apply rc_empty. lia.
  - rewrite positions_S.
    change ((lo - n) :: positions (lo - n + 1) len)
      with (leaves (MLeaf (lo - n)) ++ positions (lo - n + 1) len).
    apply rc_cons; [lia|constructor; lia|].
    replace (lo - n + 1) with (lo + 1 - n) by lia.
    replace (lo + Z.of_nat (S len) - 1) with (lo + 1 + Z.of_nat len - 1) by lia.
    apply IH; lia.
Qed.

Lemma range_cover_peel_right n lo hi L :
  range_cover n lo hi L -> lo <= hi ->
  exists e L', node_shape n hi e /\ range_cover n lo (hi - 1) L' /\
               Permutation L (L' ++ leaves e).
Proof.
  induction 1 as [lo hi Hlt|lo hi e L Hle He Hrest IH]; intros Hlo; [lia|].
  destruct (Z.eq_dec lo hi) as [->|Hne].
  - exists e, []. split; [exact He|]. split; [apply rc_empty; lia|].
    rewrite (range_cover_empty _ _ _ _ Hrest) by lia. rewrite app_nil_r. reflexivity.
  - destruct (IH ltac:(lia)) as (e' & L' & He' & Hc & Hp).
    exists e', (leaves e ++ L'). split; [exact He'|]. split.
    + apply rc_cons; [lia|exact He|exact Hc].
    + rewrite <- app_assoc. apply Permutation_app_head. exact Hp.
Qed.

(** Going one level up: an even-to-odd run of slots is the run of its parents. *)
Lemma range_cover_halve n (d : nat) lo hi L :
  hi - lo < Z.of_nat d ->
  2 <= lo -> lo mod 2 = 0 -> hi mod 2 = 1 -> hi < 2 * n ->
  range_cover n lo hi L ->
  range_cover n (lo / 2) (hi / 2) L.
Proof.
  revert lo L. induction d as [|d IH]; intros lo L Hd Hlo Heven Hodd Hhi Hc.
  - assert (hi < lo) by lia. rewrite (range_cover_empty _ _ _ _ Hc) by lia.
    apply rc_empty. apply Z.div_lt_upper_bound; [lia|].
    assert (lo = 2 * (lo / 2)) by (rewrite (Z.div_mod lo 2) at 1; lia).
    assert (hi = 2 * (hi / 2) + 1) by (rewrite (Z.div_mod hi 2) at 1; lia). lia.
  - assert (Hlo2 : lo = 2 * (lo / 2)) by (rewrite (Z.div_mod lo 2) at 1; lia).
    assert (Hhi2 : hi = 2 * (hi / 2) + 1) by (rewrite (Z.div_mod hi 2) at 1; lia).
    inversion Hc as [? ? Hlt|? ? e1 L1 Hle He1 Hc1]; subst.
    + apply rc_empty. lia.
    + assert (Hne : lo <> hi) by (intros ->; lia).
      inversion Hc1 as [? ? Hlt|? ? e2 L2 Hle2 He2 Hc2]; subst; [lia|].
      rewrite app_assoc.
      change (leaves e1 ++ leaves e2) with (leaves (MMerge e1 e2)).
      apply rc_cons.
      * lia.
      * constructor; [lia| |].
        -- rewrite <- Hlo2. exact He1.
        -- rewrite <- Hlo2. exact He2.
      * replace (lo / 2 + 1) with ((lo + 2) / 2)
          by (rewrite Hlo2 at 1; replace (2 * (lo / 2) + 2) with ((lo / 2 + 1) * 2) by lia;
              apply Z.div_mul; lia).
        apply IH; try lia.
        -- replace (lo + 2) with (lo + 1 * 2) by lia. rewrite Z.mod_add; lia.
        -- replace (lo + 2) with (lo + 1 + 1) by lia. exact Hc2.
Qed.

(** ** The query loop *)

Lemma include_ok nodes idx node result first w :
  0 <= idx -> nodes !! Z.to_nat idx = Some (Some node) ->
  include nodes idx result first w
  = Ok ((if first then node else mergeNodes result node, false), w).
Proof.
  intros Hi H. unfold include. rewrite (bind_ok _ _ _ _ _ (load_ok nodes idx node w Hi H)).
  reflexivity.
Qed.

Lemma accumulated_include prices result first acc e :
  accumulated prices result first acc ->
  accumulated prices (if first then eval prices e else mergeNodes result (eval prices e))
    false (acc ++ leaves e).
Proof.
  unfold accumulated. destruct first.
  - intros ->. exists e. auto.
  - intros (e0 & -> & <-). exists (MMerge e0 e). auto.
Qed.

Lemma query_body_inv prices tree target w s :
  built prices tree ->
  Z.of_nat (length prices) <= MAX_ARRAY_SIZE ->
  query_inv prices target w s w ->
  (let '(left_, right_, _, _) := s in left_ <= right_) ->
  exists s', query_body (st_nodes tree) s w = Ok (s', w) /\
             query_inv prices target w s' w /\
             (Z.log2 (2 * (snd (fst (fst s'))) + 1)
              < Z.log2 (2 * (snd (fst (fst s))) + 1)).
Proof.
  intros Hb Hmax HI Hle. destruct s as (((l, r), result), first).
  destruct HI as (_ & Hl & Hr & acc & rem & Hacc & Hc & Hp).
  unfold MAX_ARRAY_SIZE in Hmax. set (n := Z.of_nat (length prices)) in *.
  unfold query_body.
  (* left end *)
  assert (Hleft : exists l1 result1 first1 acc1 rem1,
            (if l mod 2 =? 1
             then bind (include (st_nodes tree) l result first)
                    (fun x => let '(result0, first0) := x in
                              ret (sz (l + 1), result0, first0))
             else ret (l, result, first)) w
            = Ok ((l1, result1, first1), w) /\
            l1 mod 2 = 0 /\ l <= l1 <= l + 1 /\ (l1 = l + 1 -> l mod 2 = 1) /\
            accumulated prices result1 first1 acc1 /\
            range_cover n l1 r rem1 /\ Permutation (acc1 ++ rem1) target).
  { destruct (l mod 2 =? 1) eqn:E.
    - apply Z.eqb_eq in E.
      inversion Hc as [? ? Hlt|? ? e L1 _ He Hc1]; subst; [lia|].
      destruct (built_shape prices tree Hb l ltac:(lia)) as (e' & He' & El).
      rewrite (node_shape_fun _ _ _ He' _ He) in El.
      rewrite (bind_ok _ _ _ _ _ (include_ok _ l _ result first w ltac:(lia) El)).
      rewrite sz_small by lia.
      eexists _, _, _, (acc ++ leaves e), L1. split; [reflexivity|].
      split; [rewrite <- Zplus_mod_idemp_l, E; reflexivity|].
      split; [lia|]. split; [auto|].
      split; [apply accumulated_include; exact Hacc|].
      split; [exact Hc1|]. rewrite <- app_assoc. exact Hp.
    - apply Z.eqb_neq in E.
      exists l, result, first, acc, rem. split; [reflexivity|].
      assert (l mod 2 = 0) by (pose proof (Z.mod_pos_bound l 2); lia).
      repeat split; try assumption; lia. }
  destruct Hleft as (l1 & result1 & first1 & acc1 & rem1 & E1 & Hl1 & Hl1b & Hl1c
                     & Hacc1 & Hc1 & Hp1).
  rewrite (bind_ok _ _ _ _ _ E1). cbv beta iota.
  (* right end *)
  assert (Hright : exists r2 result2 first2 acc2 rem2,
            (if r mod 2 =? 0
             then bind (include (st_nodes tree) r result1 first1)
                    (fun x => let '(result0, first0) := x in
                              ret (sz (r - 1), result0, first0))
             else ret (r, result1, first1)) w
            = Ok ((r2, result2, first2), w) /\
            r2 mod 2 = 1 /\ r - 1 <= r2 <= r /\
            accumulated prices result2 first2 acc2 /\
            range_cover n l1 r2 rem2 /\ Permutation (acc2 ++ rem2) target).
  { destruct (r mod 2 =? 0) eqn:E.
    - apply Z.eqb_eq in E.
      assert (Hl1r : l1 <= r).
      { destruct (Z.eq_dec l1 (l + 1)) as [Heq|Hne]; [|lia].
        specialize (Hl1c Heq). assert (l <> r) by (intros ->; lia). lia. }
      destruct (range_cover_peel_right _ _ _ _ Hc1 Hl1r) as (e & L' & He & Hc2 & Hp2).
      destruct (built_shape prices tree Hb r ltac:(lia)) as (e' & He' & Er).
      rewrite (node_shape_fun _ _ _ He' _ He) in Er.
      rewrite (bind_ok _ _ _ _ _ (include_ok _ r _ result1 first1 w ltac:(lia) Er)).
      rewrite sz_small by lia.
      eexists _, _, _, (acc1 ++ leaves e), L'. split; [reflexivity|].
      split.
      { replace (r - 1) with (r + (-1) * 2 + 1) by lia.
        rewrite <- Zplus_mod_idemp_l, Z.mod_add, E by lia. reflexivity. }
      split; [lia|].
      split; [apply accumulated_include; exact Hacc1|].
      split; [exact Hc2|].
      rewrite <- Hp1. rewrite <- app_assoc. apply Permutation_app_head.
      rewrite Hp2. apply Permutation_app_comm.
    - apply Z.eqb_neq in E.
      exists r, result1, first1, acc1, rem1. split; [reflexivity|].
      assert (r mod 2 = 1) by (pose proof (Z.mod_pos_bound r 2); lia).
      repeat split; try assumption; lia. }
  destruct Hright as (r2 & result2 & first2 & acc2 & rem2 & E2 & Hr2 & Hr2b
                      & Hacc2 & Hc2 & Hp2).
  rewrite (bind_ok _ _ _ _ _ E2). cbv beta iota.
  eexists. split; [reflexivity|].
  assert (Hl1' : l1 = 2 * (l1 / 2)) by (rewrite (Z.div_mod l1 2) at 1; lia).
  assert (Hr2' : r2 = 2 * (r2 / 2) + 1) by (rewrite (Z.div_mod r2 2) at 1; lia).
  split.
  - split; [reflexivity|]. split; [lia|]. split; [lia|].
    exists acc2, rem2. split; [exact Hacc2|]. split; [|exact Hp2].
    apply (range_cover_halve n (Z.to_nat (r2 - l1 + 1))); try assumption; lia.
  - simpl.
    assert (0 <= r2 / 2) by lia.
    assert (Hd : Z.log2 (2 * (2 * (r2 / 2) + 1)) = Z.succ (Z.log2 (2 * (r2 / 2) + 1)))
      by (apply Z.log2_double; lia).
    assert (Hm : Z.log2 (2 * (2 * (r2 / 2) + 1)) <= Z.log2 (2 * r + 1))
      by (apply Z.log2_le_mono; lia).
    lia.
Qed.

Lemma query_loop prices tree ql qr w :
  built prices tree ->
  Z.of_nat (length prices) <= MAX_ARRAY_SIZE ->
  0 <= ql <= qr -> qr < Z.of_nat (length prices) ->
  exists s' w',
    while 65 query_cond (query_body (st_nodes tree))
      (ql + Z.of_nat (length prices), qr + Z.of_nat (length prices),
       initial_result, true) w
    = Ok (s', w') /\
    query_post prices (positions ql (Z.to_nat (qr - ql + 1))) w s' w'.
Proof.
  intros Hb Hmax Hq Hqr.
  set (n := Z.of_nat (length prices)) in *.
  set (target := positions ql (Z.to_nat (qr - ql + 1))).
  apply (while_inv (query_inv prices target w) (query_post prices target w)
           (fun s => Z.to_nat (Z.log2 (2 * (snd (fst (fst s))) + 1)))).
  - intros s w1 HI. assert (w1 = w) as ->.
    { destruct s as (((l, r), result), first). destruct HI. assumption. }
    destruct s as (((l, r), result), first) eqn:Es.
    exists (l <=? r), w. split; [reflexivity|]. split.
    + intros Hle. apply Z.leb_le in Hle.
      destruct (query_body_inv prices tree target w s Hb Hmax) as (s' & Eb & HI' & Hdec).
      * rewrite Es. exact HI.
      * rewrite Es. exact Hle.
      * rewrite Es in *. exists s', w. split; [exact Eb|]. split; [exact HI'|].
        simpl in Hdec. simpl snd at 2.
        assert (0 <= Z.log2 (2 * snd (fst (fst s')) + 1)) by apply Z.log2_nonneg.
        lia.
    + intros Hgt. apply Z.leb_gt in Hgt.
      destruct HI as (_ & Hl & Hr & acc & rem & Hacc & Hc & Hp).
      split; [reflexivity|]. exists acc. split; [exact Hacc|].
      rewrite (range_cover_empty _ _ _ _ Hc Hgt), app_nil_r in Hp. exact Hp.
  - split; [reflexivity|]. split; [lia|]. split; [lia|].
    exists [], target. split; [reflexivity|]. split; [|reflexivity].
    unfold target.
    pose proof (range_cover_leaves n (ql + n) (Z.to_nat (qr - ql + 1))
                  ltac:(lia) ltac:(lia)) as H.
    replace (ql + n + Z.of_nat (Z.to_nat (qr - ql + 1)) - 1) with (qr + n) in H by lia.
    replace (ql + n - n) with ql in H by lia. exact H.
  - simpl. unfold MAX_ARRAY_SIZE in Hmax.
    assert (Z.log2 (2 * (qr + n) + 1) < 65).
    { apply Z.log2_lt_pow2; lia. }
    assert (0 <= Z.log2 (2 * (qr + n) + 1)) by apply Z.log2_nonneg.
    lia.
Qed.

(** ** The direct scan *)

(** Two minima of a range are [==]. *)
Lemma is_min_unique prices lo hi v1 v2 :
  is_min prices lo hi v1 -> is_min prices lo hi v2 -> PrimFloat.eqb v1 v2 = true.
Proof.
  intros ((j1 & Hj1 & E1) & H1) ((j2 & Hj2 & E2) & H2).
  apply dle_antisym; [rewrite E2; auto|rewrite E1; auto].
Qed.

Lemma is_max_unique prices lo hi v1 v2 :
  is_max prices lo hi v1 -> is_max prices lo hi v2 -> PrimFloat.eqb v1 v2 = true.
Proof.
  intros ((j1 & Hj1 & E1) & H1) ((j2 & Hj2 & E2) & H2).
  apply dle_antisym; [rewrite E1; auto|rewrite E2; auto].
Qed.

Lemma bruteForce_loop_spec prices lo (n : nat) i mn mx sum w :
  all_valid prices -> 0 <= lo < i -> i + Z.of_nat n <= Z.of_nat (length prices) ->
  is_min prices lo (i - 1) mn -> is_max prices lo (i - 1) mx ->
  exists mn' mx' sum',
    bruteForce_loop prices n i (mn, mx, sum) w = Ok ((mn', mx', sum'), w) /\
    is_min prices lo (i + Z.of_nat n - 1) mn' /\
    is_max prices lo (i + Z.of_nat n - 1) mx'.
Proof.
  intros Hv. revert i mn mx sum.
  induction n as [|n IH]; intros i mn mx sum Hi Hn Hmin Hmax.
  - exists mn, mx, sum. simpl. rewrite Z.add_0_r. auto.
  - simpl bruteForce_loop.
    rewrite (bind_ok _ _ _ _ _ (load_price_ok prices i w ltac:(lia))).
    set (p := price prices i).
    assert (Vp : valid_price p = true) by (apply all_valid_price; [assumption|lia]).
    destruct Hmin as ((jm & Hjm & Em) & Hmn), Hmax as ((jx & Hjx & Ex) & Hmx).
    assert (Vmn : valid_price mn = true)
      by (rewrite Em; apply all_valid_price; [assumption|lia]).
    assert (Vmx : valid_price mx = true)
      by (rewrite Ex; apply all_valid_price; [assumption|lia]).
    destruct (IH (i + 1) (if dlt p mn then p else mn) (if dgt p mx then p else mx)
                (sum + p)%float ltac:(lia) ltac:(lia))
      as (mn' & mx' & sum' & E & Hmin' & Hmax').
    + replace (i + 1 - 1) with i by lia. rewrite (dlt_dle _ _ Vp Vmn).
      destruct (dle mn p) eqn:E; simpl.
      * split; [exists jm; split; [lia|exact Em]|].
        intros j Hj. destruct (Z.eq_dec j i) as [->|Hne]; [exact E|]. apply Hmn. lia.
      * apply dle_false_flip in E; try assumption.
        split; [exists i; split; [lia|reflexivity]|].
        intros j Hj. destruct (Z.eq_dec j i) as [->|Hne]; [apply dle_refl; exact Vp|].
        eapply dle_trans; [exact E|]. apply Hmn. lia.
    + replace (i + 1 - 1) with i by lia. rewrite (dgt_dle _ _ Vp Vmx).
      destruct (dle p mx) eqn:E; simpl.
      * split; [exists jx; split; [lia|exact Ex]|].
        intros j Hj. destruct (Z.eq_dec j i) as [->|Hne]; [exact E|]. apply Hmx. lia.
      * apply dle_false_flip in E; try assumption.
        split; [exists i; split; [lia|reflexivity]|].
        intros j Hj. destruct (Z.eq_dec j i) as [->|Hne]; [apply dle_refl; exact Vp|].
        eapply dle_trans; [|exact E]. apply Hmx. lia.
    + exists mn', mx', sum'. split; [exact E|].
      replace (i + Z.of_nat (S n) - 1) with (i + 1 + Z.of_nat n - 1) by lia. auto.
Qed.

Lemma bruteForceRange_spec prices lo hi w :
  all_valid prices -> 0 <= lo <= hi -> hi < Z.of_nat (length prices) ->
  exists mn mx avg,
    bruteForceRange prices lo hi w = Ok ((mn, mx, avg), w) /\
    is_min prices lo hi mn /\ is_max prices lo hi mx.
Proof.
  intros Hv Hlo Hhi. unfold bruteForceRange.
  rewrite (bind_ok _ _ _ _ _ (load_price_ok prices lo w ltac:(lia))).
  assert (Vp : valid_price (price prices lo) = true)
    by (apply all_valid_price; [assumption|lia]).
  destruct (bruteForce_loop_spec prices lo (Z.to_nat (hi - lo)) (lo + 1)
              (price prices lo) (price prices lo) (price prices lo) w Hv)
    as (mn & mx & sum & E & Hmin & Hmax); try lia.
  - replace (lo + 1 - 1) with lo by lia. split; [exists lo; split; [lia|reflexivity]|].
    intros j Hj. replace j with lo by lia. apply dle_refl. exact Vp.
  - replace (lo + 1 - 1) with lo by lia. split; [exists lo; split; [lia|reflexivity]|].
    intros j Hj. replace j with lo by lia. apply dle_refl. exact Vp.
  - rewrite (bind_ok _ _ _ _ _ E).
    replace (lo + 1 + Z.of_nat (Z.to_nat (hi - lo)) - 1) with hi in * by lia.
    eexists mn, mx, _. split; [reflexivity|]. auto.
Qed.

(** ** Successful builds *)

Lemma buildSegmentTree_success prices out_tree_handle err_buf err_buf_len w r e w' :
  buildSegmentTree (Some prices) (Z.of_nat (length prices)) out_tree_handle
    err_buf err_buf_len w = Ok ((0, r, e), w') ->
  all_valid prices /\ 1 <= Z.of_nat (length prices) <= MAX_ARRAY_SIZE /\
  exists tree, r = Some (Some tree) /\ built prices tree.
Proof.
  intros H. pose proof H as H0. unfold buildSegmentTree in H.
  destruct out_tree_handle as [out|]; [|inversion H].
  destruct (Z.of_nat (length prices) =? 0) eqn:E0; [inversion H|].
  destruct (MAX_ARRAY_SIZE <? Z.of_nat (length prices)) eqn:E1; [inversion H|].
  simpl orb in H. cbv iota in H. rewrite Nat2Z.id in H.
  apply Z.eqb_neq in E0. apply Z.ltb_ge in E1.
  apply bind_inv in H. destruct H as (bad & w1 & Ebad & H).
  assert (w1 = w /\ bad = negb (forallb valid_price prices)) as (-> & Hbad).
  { rewrite has_invalid_price_spec in Ebad by lia.
    rewrite drop_0, firstn_all in Ebad. inversion Ebad; auto. }
  destruct bad; [inversion H|].
  assert (Hv : all_valid prices).
  { unfold all_valid. destruct (forallb valid_price prices); [reflexivity|discriminate]. }
  apply bind_inv in H. destruct H as (got & w2 & Em & H).
  destruct got; [|inversion H]. simpl negb in H. cbv iota in H.
  apply bind_inv in H. destruct H as (nodes & w3 & Ea & H).
  destruct nodes as [nodes|]; [|inversion H].
  assert (Hs : allocs_succeed 2 w).
  { apply (proj2 (malloc_inv _ _ _ Em) eq_refl).
    apply (proj2 (malloc_array_inv _ _ _ _ _ Ea)); [discriminate|].
    apply allocs_succeed_0. }
  split; [exact Hv|]. split; [lia|].
  destruct (buildSegmentTree_run prices out err_buf err_buf_len w Hv ltac:(lia) Hs)
    as (tree & w'' & Erun & Hb).
  rewrite Erun in H0. inversion H0; subst. exists tree. auto.
Qed.

(** ** The layout of a built tree *)

(** C5: whenever [buildSegmentTree] succeeds on a price sequence of length
    [n], the handle it stores points to a tree whose node array has exactly
    [2*n] entries; leaf [i] of the sequence is at array index [n + i] with
    [min = max = sum = price[i]], [sum_sq = price[i] * price[i]] and
    [count = 1]; and for every internal index [1 <= k < n], node [k] is the
    merge of nodes [2k] and [2k+1]: the lesser [min], the greater [max], the
    sum of the sums, the sum of the squares' sums, the sum of the counts. *)
Theorem buildSegmentTree_layout prices out_tree_handle err_buf err_buf_len w r e w' :
  buildSegmentTree (Some prices) (Z.of_nat (length prices)) out_tree_handle
    err_buf err_buf_len w = Ok ((0, r, e), w') ->
  let n := Z.of_nat (length prices) in
  exists tree,
    r = Some (Some tree) /\
    st_length tree = n /\
    Z.of_nat (length (st_nodes tree)) = 2 * n /\
    (forall i, 0 <= i < n ->
       st_nodes tree !! Z.to_nat (n + i)
       = Some (Some {| tn_min := price prices i;
                       tn_max := price prices i;
                       tn_sum := price prices i;
                       tn_sum_sq := (price prices i * price prices i)%float;
                       tn_count := 1 |})) /\
    (forall k, 1 <= k < n ->
       exists node l r,
         st_nodes tree !! Z.to_nat k = Some (Some node) /\
         st_nodes tree !! Z.to_nat (2 * k) = Some (Some l) /\
         st_nodes tree !! Z.to_nat (2 * k + 1) = Some (Some r) /\
         node = mergeNodes l r /\
         tn_min node = (if dlt (tn_min l) (tn_min r) then tn_min l else tn_min r) /\
         tn_max node = (if dgt (tn_max l) (tn_max r) then tn_max l else tn_max r) /\
         tn_sum node = (tn_sum l + tn_sum r)%float /\
         tn_sum_sq node = (tn_sum_sq l + tn_sum_sq r)%float /\
         tn_count node = tn_count l + tn_count r).
Proof.
  intros H n. destruct (buildSegmentTree_success _ _ _ _ _ _ _ _ H)
    as (Hv & Hlen & tree & -> & Hb).
  exists tree. split; [reflexivity|].
  pose proof Hb as (Hl & _ & Hn & Hleaf & Hint).
  split; [exact Hl|]. split; [exact Hn|]. split; [exact Hleaf|].
  intros k Hk. destruct (Hint k Hk) as (l & r & El & Er & Ek).
  exists (mergeNodes l r), l, r. repeat (split; [first [assumption|reflexivity]|]).
  unfold MAX_ARRAY_SIZE in Hlen. fold n in Hlen.
  destruct (built_shape prices tree Hb (2 * k) ltac:(lia)) as (e1 & S1 & E1).
  destruct (built_shape prices tree Hb (2 * k + 1) ltac:(lia)) as (e2 & S2 & E2).
  assert (l = eval prices e1) as -> by congruence.
  assert (r = eval prices e2) as -> by congruence.
  pose proof (shape_leaves_bound _ _ _ S1 ltac:(lia)) as B1.
  pose proof (shape_leaves_bound _ _ _ S2 ltac:(lia)) as B2.
  fold n in B1, B2.
  simpl. rewrite !eval_count by nia. apply sz_small. nia.
Qed.

Lemma buildSegmentTree_layout_witness :
  exists tree,
    Some (Some tree3) = Some (Some tree) /\
    st_length tree = 3 /\
    Z.of_nat (length (st_nodes tree)) = 2 * 3 /\
    (forall i, 0 <= i < 3 ->
       st_nodes tree !! Z.to_nat (3 + i)
       = Some (Some {| tn_min := price [1; 2; 3]%float i;
                       tn_max := price [1; 2; 3]%float i;
                       tn_sum := price [1; 2; 3]%float i;
                       tn_sum_sq := (price [1; 2; 3]%float i * price [1; 2; 3]%float i)%float;
                       tn_count := 1 |})) /\
    (forall k, 1 <= k < 3 ->
       exists node l r,
         st_nodes tree !! Z.to_nat k = Some (Some node) /\
         st_nodes tree !! Z.to_nat (2 * k) = Some (Some l) /\
         st_nodes tree !! Z.to_nat (2 * k + 1) = Some (Some r) /\
         node = mergeNodes l r /\
         tn_min node = (if dlt (tn_min l) (tn_min r) then tn_min l else tn_min r) /\
         tn_max node = (if dgt (tn_max l) (tn_max r) then tn_max l else tn_max r) /\
         tn_sum node = (tn_sum l + tn_sum r)%float /\
         tn_sum_sq node = (tn_sum_sq l + tn_sum_sq r)%float /\
         tn_count node = tn_count l + tn_count r).
Proof.
  apply (buildSegmentTree_layout [1; 2; 3]%float (Some None) None 0 w0
           (Some (Some tree3)) None w0).
  vm_compute. reflexivity.
Defined.

(** ** Range queries *)

Lemma eval_sum prices e : tn_sum (eval prices e) = fsum prices e.
Proof. induction e as [i|a IHa b IHb]; simpl; congruence. Qed.

Lemma eval_sum_sq prices e : tn_sum_sq (eval prices e) = fsum_sq prices e.
Proof. induction e as [i|a IHa b IHb]; simpl; congruence. Qed.

Lemma leaves_singleton e i : leaves e = [i] -> e = MLeaf i.
Proof.
  destruct e as [j|a b]; simpl; [congruence|].
  intros H. assert (E := f_equal length H). rewrite length_app in E. simpl in E.
  pose proof (leaves_nonempty a). pose proof (leaves_nonempty b).
  destruct (leaves a), (leaves b); simpl in *; try congruence; lia.
Qed.

(** The accumulator after the loop, for a valid range of a built tree. *)
Lemma query_result prices tree ql qr w :
  built prices tree ->
  Z.of_nat (length prices) <= MAX_ARRAY_SIZE ->
  0 <= ql <= qr -> qr < Z.of_nat (length prices) ->
  exists l r e,
    while 65 query_cond (query_body (st_nodes tree))
      (sz (ql + st_length tree), sz (qr + st_length tree), initial_result, true) w
    = Ok ((l, r, eval prices e, false), w) /\
    Permutation (leaves e) (positions ql (Z.to_nat (qr - ql + 1))).
Proof.
  intros Hb Hmax Hq Hqr. pose proof Hb as (Hl & _).
  rewrite Hl. unfold MAX_ARRAY_SIZE in Hmax. rewrite !sz_small by lia.
  destruct (query_loop prices tree ql qr w Hb Hmax Hq Hqr) as (s' & w' & E & Hpost).
  destruct s' as (((l, r), result), first).
  destruct Hpost as (-> & acc & Hacc & Hp).
  destruct first; simpl in Hacc.
  - subst acc. apply Permutation_nil in Hp.
    assert (Hlen := f_equal length Hp). rewrite length_positions in Hlen.
    simpl in Hlen. lia.
  - destruct Hacc as (e & -> & <-). exists l, r, e. auto.
Qed.

(** What a query on a built tree computes.  For a tree built by a
    successful [buildSegmentTree] over [prices] and every range
    [0 <= ql <= qr < n], [querySegmentTree] returns status 0; the reported
    min and max are the extrema of [prices[ql..qr]] and are [==] to those of
    the harness's direct scan [bruteForceRange]; the accumulated node
    aggregates exactly the positions [ql..qr], each once ([leaves e] is a
    permutation of them), so that [avg = sum / count] and
    [variance = sum_sq / count - avg * avg] with [count = qr - ql + 1] and
    [sum], [sum_sq] the floating-point sums of the range's prices and
    squared prices, added in the tree's tiling order rather than left to
    right; a single-element range [ql = qr] returns that element as min, max
    and avg. *)
Lemma querySegmentTree_range prices out_tree_handle eb0 el0 wb tree eb1 wb'
    ql qr o1 o2 o3 o4 err_buf err_buf_len w :
  buildSegmentTree (Some prices) (Z.of_nat (length prices)) out_tree_handle
    eb0 el0 wb = Ok ((0, Some (Some tree), eb1), wb') ->
  0 <= ql <= qr -> qr < Z.of_nat (length prices) ->
  exists e mn' mx' avg',
    let node := eval prices e in
    let count := double_of_size_t (qr - ql + 1) in
    let avg := (fsum prices e / count)%float in
    let variance := (fsum_sq prices e / count - avg * avg)%float in
    Permutation (leaves e) (positions ql (Z.to_nat (qr - ql + 1))) /\
    querySegmentTree (Some tree) ql qr
      (mkOutputs (Some o1) (Some o2) (Some o3) (Some o4)) err_buf err_buf_len w
    = Ok ((0, mkOutputs (Some (tn_min node)) (Some (tn_max node))
                (Some avg) (Some variance), err_buf), w) /\
    is_min prices ql qr (tn_min node) /\
    is_max prices ql qr (tn_max node) /\
    bruteForceRange prices ql qr w = Ok ((mn', mx', avg'), w) /\
    PrimFloat.eqb (tn_min node) mn' = true /\
    PrimFloat.eqb (tn_max node) mx' = true /\
    (ql = qr ->
     tn_min node = price prices ql /\ tn_max node = price prices ql /\
     avg = price prices ql).
Proof.
  intros Hbuild Hq Hqr.
  destruct (buildSegmentTree_success _ _ _ _ _ _ _ _ Hbuild)
    as (Hv & Hlen & tree' & Et & Hb).
  inversion Et; subst tree'; clear Et.
  destruct (query_result prices tree ql qr w Hb ltac:(lia) Hq Hqr)
    as (l & r & e & Eloop & Hp).
  destruct (bruteForceRange_spec prices ql qr w Hv Hq Hqr)
    as (mn' & mx' & avg' & Ebf & Hmin' & Hmax').
  exists e, mn', mx', avg'. cbv zeta.
  assert (Hin : forall i, In i (leaves e) <-> ql <= i <= qr).
  { intros i. rewrite <- list_elem_of_In, Hp, list_elem_of_In, in_positions. lia. }
  assert (Hvl : forall i, In i (leaves e) -> valid_price (price prices i) = true).
  { intros i Hi. apply Hin in Hi. apply all_valid_price; [assumption|lia]. }
  assert (Hcount : tn_count (eval prices e) = qr - ql + 1).
  { unfold MAX_ARRAY_SIZE in Hlen. assert (Hl := Permutation_length Hp).
    rewrite length_positions in Hl. rewrite eval_count; lia. }
  assert (Hmin : is_min prices ql qr (tn_min (eval prices e))).
  { destruct (eval_min prices e Hvl) as ((i & Hi & Ei) & Hle).
    split; [exists i; split; [apply Hin; exact Hi|exact Ei]|].
    intros j Hj. apply Hle, Hin. exact Hj. }
  assert (Hmax : is_max prices ql qr (tn_max (eval prices e))).
  { destruct (eval_max prices e Hvl) as ((i & Hi & Ei) & Hle).
    split; [exists i; split; [apply Hin; exact Hi|exact Ei]|].
    intros j Hj. apply Hle, Hin. exact Hj. }
  split; [exact Hp|]. split.
  { unfold querySegmentTree. pose proof Hb as (Hl & _). rewrite Hl.
    destruct (qr <? ql) eqn:E1; [apply Z.ltb_lt in E1; lia|].
    destruct (Z.of_nat (length prices) <=? qr) eqn:E2; [apply Z.leb_le in E2; lia|].
    change (false || false) with false. cbv iota. rewrite <- Hl.
    rewrite (bind_ok _ _ _ _ _ Eloop). cbv beta iota.
    unfold compute_outputs, ret. simpl out_min. simpl out_max. simpl out_avg.
    simpl out_variance. unfold write_if_present.
    rewrite Hcount, eval_sum, eval_sum_sq.
    destruct (0 <? qr - ql + 1) eqn:E3; [reflexivity|apply Z.ltb_ge in E3; lia]. }
  split; [exact Hmin|]. split; [exact Hmax|]. split; [exact Ebf|].
  split; [exact (is_min_unique _ _ _ _ _ Hmin Hmin')|].
  split; [exact (is_max_unique _ _ _ _ _ Hmax Hmax')|].
  intros <-. replace (ql - ql + 1) with 1 in * by lia.
  change (Z.to_nat 1) with 1%nat in Hp. change (positions ql 1) with [ql + 0] in Hp.
  rewrite Z.add_0_r in Hp. apply Permutation_sym, Permutation_length_1_inv in Hp.
  apply leaves_singleton in Hp. subst e. simpl.
  split; [reflexivity|]. split; [reflexivity|].
  change (double_of_size_t 1) with 1%float. apply div_one.
Qed.

Lemma querySegmentTree_range_witness :
  exists e mn' mx' avg',
    let node := eval [1; 2; 3]%float e in
    let count := double_of_size_t (2 - 1 + 1) in
    let avg := (fsum [1; 2; 3]%float e / count)%float in
    let variance := (fsum_sq [1; 2; 3]%float e / count - avg * avg)%float in
    Permutation (leaves e) (positions 1 (Z.to_nat (2 - 1 + 1))) /\
    querySegmentTree (Some tree3) 1 2
      (mkOutputs (Some 0%float) (Some 0%float) (Some 0%float) (Some 0%float)) None 0 w0
    = Ok ((0, mkOutputs (Some (tn_min node)) (Some (tn_max node))
                (Some avg) (Some variance), None), w0) /\
    is_min [1; 2; 3]%float 1 2 (tn_min node) /\
    is_max [1; 2; 3]%float 1 2 (tn_max node) /\
    bruteForceRange [1; 2; 3]%float 1 2 w0 = Ok ((mn', mx', avg'), w0) /\
    PrimFloat.eqb (tn_min node) mn' = true /\
    PrimFloat.eqb (tn_max node) mx' = true /\
    (1 = 2 ->
     tn_min node = price [1; 2; 3]%float 1 /\ tn_max node = price [1; 2; 3]%float 1 /\
     avg = price [1; 2; 3]%float 1).
Proof.
  apply (querySegmentTree_range [1; 2; 3]%float (Some None) None 0 w0 tree3 None w0
           1 2 0%float 0%float 0%float 0%float None 0 w0).
  - vm_compute. reflexivity.
  - lia.
  - simpl. lia.
Defined.

(** C1 fails on the code: over the valid prices [1, 1, 1e16] the full-range
    query succeeds and reports the extrema of the direct scan, but its
    average is [(1 + (1 + 1e16)) / 3 = 3333333333333333.5], the two small
    prices being lost in the tree's node for positions 1..2, while the
    direct scan [bruteForceRange] gets [((1 + 1) + 1e16) / 3 =
    3333333333333334], which is the mean.  The two differ by [0.5], far
    above the [1e-6] the harness allows: its comparison reports a
    mismatch. *)
Theorem querySegmentTree_off_scan :
  all_valid uneven_prices /\
  exists tree mn mx avg var mn' mx' avg',
    buildSegmentTree (Some uneven_prices) 3 (Some None) None 0 w0
    = Ok ((0, Some (Some tree), None), w0) /\
    querySegmentTree (Some tree) 0 2
      (mkOutputs (Some 0%float) (Some 0%float) (Some 0%float) (Some 0%float)) None 0 w0
    = Ok ((0, mkOutputs (Some mn) (Some mx) (Some avg) (Some var), None), w0) /\
    bruteForceRange uneven_prices 0 2 w0 = Ok ((mn', mx', avg'), w0) /\
    mn = mn' /\ mx = mx' /\
    avg = 3333333333333333.5%float /\ avg' = 3333333333333334%float /\
    PrimFloat.abs (avg - avg') = 0.5%float /\
    query_mismatch mn mx avg mn' mx' avg' = true.
Proof.
  split; [vm_compute; reflexivity|].
  do 8 eexists. split; [vm_compute; reflexivity|].
  split; [vm_compute; reflexivity|].
  split; [vm_compute; reflexivity|].
  repeat split; vm_compute; reflexivity.
Qed.

(** ** The query does not depend on the world *)

Lemma query_body_any_world nodes s w s' w' :
  query_body nodes s w = Ok (s', w') ->
  w' = w /\ forall w2, query_body nodes s w2 = Ok (s', w2).
Proof.
  destruct s as (((l, r), result), first).
  unfold query_body, include, load, bind, ret, fault.
  repeat match goal with
         | |- context [if ?c then _ else _] => destruct c
         | |- context [match ?x with Some _ => _ | None => _ end] => destruct x
         end;
    intros H; inversion H; subst; split; reflexivity.
Qed.

Lemma query_loop_any_world nodes fuel s w s' w' :
  while fuel query_cond (query_body nodes) s w = Ok (s', w') ->
  w' = w /\ forall w2, while fuel query_cond (query_body nodes) s w2 = Ok (s', w2).
Proof.
  revert s w. induction fuel as [|fuel IH]; intros s w; simpl; [discriminate|].
  intros H. apply bind_inv in H. destruct H as (b & w1 & Ec & H).
  assert (w1 = w /\ forall w2, query_cond s w2 = Ok (b, w2)) as (-> & Hc).
  { destruct s as (((l, r), result), first). unfold query_cond, ret in *.
    inversion Ec; subst. auto. }
  destruct b.
  - apply bind_inv in H. destruct H as (s1 & w2 & Eb & H).
    destruct (query_body_any_world _ _ _ _ _ Eb) as (-> & Hb).
    destruct (IH _ _ H) as (-> & Hw). split; [reflexivity|].
    intros w2. rewrite (bind_ok _ _ _ _ _ (Hc w2)), (bind_ok _ _ _ _ _ (Hb w2)).
    apply Hw.
  - inversion H; subst. split; [reflexivity|]. intros w2.
    rewrite (bind_ok _ _ _ _ _ (Hc w2)). reflexivity.
Qed.

(** The accumulator after the loop, the same in every world. *)
Lemma query_result_any_world prices tree ql qr :
  built prices tree ->
  Z.of_nat (length prices) <= MAX_ARRAY_SIZE ->
  0 <= ql <= qr -> qr < Z.of_nat (length prices) ->
  exists l r e,
    Permutation (leaves e) (positions ql (Z.to_nat (qr - ql + 1))) /\
    forall w,
      while 65 query_cond (query_body (st_nodes tree))
        (sz (ql + st_length tree), sz (qr + st_length tree), initial_result, true) w
      = Ok ((l, r, eval prices e, false), w).
Proof.
  intros Hb Hmax Hq Hqr.
  destruct (query_result prices tree ql qr w0 Hb Hmax Hq Hqr) as (l & r & e & E & Hp).
  exists l, r, e. split; [exact Hp|]. intros w.
  apply (query_loop_any_world _ _ _ _ _ _ E).
Qed.

End SegTreeProofs.
(** * sliding_window.c: the deques *)

Module DequeProofs.
Import SlidingWindow DequeSpec.

(** ** Arithmetic of the circular indices *)

Lemma mod_eq_small a b c :
  0 < c -> 0 <= b - a < c -> a mod c = b mod c -> a = b.
Proof.
  intros Hc Hd H.
  assert (E : (b - a) mod c = 0).
  { rewrite Zminus_mod, H, Z.sub_diag. apply Z.mod_0_l. lia. }
  rewrite Z.mod_small in E by lia. lia.
Qed.

Lemma mod_shift_neq x d c : 0 < d < c -> (x - d) mod c <> x mod c.
Proof.
  intros Hd H. assert (x - d = x); [|lia].
  apply (mod_eq_small _ _ c); [lia|lia|exact H].
Qed.

(** [(back - 1 + capacity) % capacity] in [size_t] arithmetic: the wrap of
    [back - 1] at [back = 0] is undone by adding the capacity. *)
Lemma sz_pred_mod b c :
  0 <= b < c -> c < 2 ^ 63 ->
  sz (sz (b - 1) + c) mod c = (b - 1) mod c.
Proof.
  intros Hb Hc. destruct (Z.eq_dec b 0) as [->|Hne].
  - unfold sz, SIZE_MAX_plus_1. change (0 - 1) with (-1).
    replace (-1 mod 2 ^ 64) with (2 ^ 64 - 1) by reflexivity.
    replace (2 ^ 64 - 1 + c) with (c - 1 + 1 * 2 ^ 64) by lia.
    rewrite Z.mod_add by lia. rewrite (Z.mod_small (c - 1) (2 ^ 64)) by lia.
    rewrite Z.mod_small by lia.
    replace (-1) with (c - 1 + (-1) * c) by lia. rewrite Z.mod_add by lia.
    rewrite Z.mod_small; lia.
  - rewrite (sz_small (b - 1)) by lia. rewrite sz_small by lia.
    replace (b - 1 + c) with (b - 1 + 1 * c) by lia. apply Z.mod_add. lia.
Qed.

Lemma sz_succ_mod b c : 0 <= b < c -> c < 2 ^ 63 -> sz (b + 1) mod c = (b + 1) mod c.
Proof. intros Hb Hc. rewrite sz_small by lia. reflexivity. Qed.

Lemma sz_rem_ok a b w : b <> 0 -> sz_rem a b w = Ok (a mod b, w).
Proof.
  intros Hb. unfold sz_rem. destruct (b =? 0) eqn:E; [apply Z.eqb_eq in E; lia|].
  reflexivity.
Qed.

Lemma log_ok e w : log e w = Ok (tt, logged w e).
Proof. reflexivity. Qed.

(** ** The primitives on the representation *)

Lemma dq_rep_length cap dq items :
  dq_rep cap dq items ->
  (dq_back dq - dq_front dq) mod dq_capacity dq = Z.of_nat (length items).
Proof.
  intros (Hc & Hcap & Hl & F & B & HF & HL & HLc & Hf & Hb & Hs).
  rewrite Hc, Hf, Hb, <- Zminus_mod, HL. apply Z.mod_small. lia.
Qed.

Lemma deque_isEmpty_rep cap dq items :
  dq_rep cap dq items ->
  isEmpty dq = match items with [] => true | _ => false end.
Proof.
  intros H. pose proof (dq_rep_length _ _ _ H) as HL.
  destruct H as (Hc & Hcap & Hl & F & B & HF & HLen & HLc & Hf & Hb & Hs).
  unfold isEmpty. destruct (dq_front dq =? dq_back dq) eqn:E.
  - apply Z.eqb_eq in E. rewrite E, Z.sub_diag, Z.mod_0_l in HL by lia.
    destruct items; [reflexivity|simpl in HL; lia].
  - apply Z.eqb_neq in E. destruct items; [|reflexivity].
    exfalso. apply E. simpl in HLen. rewrite Hf, Hb. f_equal. lia.
Qed.

Lemma back_rep cap dq b rest w :
  dq_rep cap dq (b :: rest) ->
  back dq w = Ok (b, logged w (EvDeque OpBack dq)).
Proof.
  intros (Hc & Hcap & Hl & F & B & HF & HLen & HLc & Hf & Hb & Hs).
  unfold back. rewrite (bind_ok _ _ _ _ _ (log_ok _ w)).
  rewrite (bind_ok _ _ _ _ _ (sz_rem_ok _ (dq_capacity dq) _ ltac:(lia))).
  rewrite Hc, Hb. rewrite sz_pred_mod by (try apply Z.mod_pos_bound; lia).
  rewrite Zminus_mod_idemp_l.
  apply load_ok; [apply Z.mod_pos_bound; lia|].
  specialize (Hs 0%nat b eq_refl). rewrite Z.sub_0_r in Hs. exact Hs.
Qed.

Lemma front_rep cap dq items a w :
  dq_rep cap dq items -> last items = Some a ->
  front dq w = Ok (a, logged w (EvDeque OpFront dq)).
Proof.
  intros (Hc & Hcap & Hl & F & B & HF & HLen & HLc & Hf & Hb & Hs) Hlast.
  unfold front. rewrite (bind_ok _ _ _ _ _ (log_ok _ w)).
  rewrite Hf. apply load_ok; [apply Z.mod_pos_bound; lia|].
  rewrite last_lookup in Hlast.
  assert (Hpos : (0 < length items)%nat).
  { destruct items; [discriminate|simpl; lia]. }
  specialize (Hs _ _ Hlast).
  replace (B - 1 - Z.of_nat (Nat.pred (length items))) with F in Hs by lia.
  exact Hs.
Qed.

Lemma popBack_rep cap dq b rest w :
  dq_rep cap dq (b :: rest) ->
  exists dq', popBack dq w = Ok (dq', logged w (EvDeque OpPopBack dq)) /\
              dq_rep cap dq' rest.
Proof.
  intros (Hc & Hcap & Hl & F & B & HF & HLen & HLc & Hf & Hb & Hs).
  eexists. unfold popBack. rewrite (bind_ok _ _ _ _ _ (log_ok _ w)).
  rewrite (bind_ok _ _ _ _ _ (sz_rem_ok _ (dq_capacity dq) _ ltac:(lia))).
  split; [reflexivity|].
  split; [exact Hc|]. split; [exact Hcap|]. split; [exact Hl|].
  exists F, (B - 1). simpl in *.
  split; [lia|]. split; [lia|]. split; [lia|]. split; [exact Hf|]. split.
  - rewrite Hc, Hb. rewrite sz_pred_mod by (try apply Z.mod_pos_bound; lia).
    apply Zminus_mod_idemp_l.
  - intros k v Hk. specialize (Hs (S k) v Hk).
    replace (B - 1 - 1 - Z.of_nat k) with (B - 1 - Z.of_nat (S k)) by lia. exact Hs.
Qed.

Lemma popFront_rep cap dq items a w :
  dq_rep cap dq items -> last items = Some a ->
  exists dq', popFront dq w = Ok (dq', logged w (EvDeque OpPopFront dq)) /\
              dq_rep cap dq' (removelast items).
Proof.
  intros (Hc & Hcap & Hl & F & B & HF & HLen & HLc & Hf & Hb & Hs) Hlast.
  assert (Hpos : (0 < length items)%nat).
  { destruct items; [discriminate|simpl; lia]. }
  eexists. unfold popFront. rewrite (bind_ok _ _ _ _ _ (log_ok _ w)).
  rewrite (bind_ok _ _ _ _ _ (sz_rem_ok _ (dq_capacity dq) _ ltac:(lia))).
  split; [reflexivity|].
  split; [exact Hc|]. split; [exact Hcap|]. split; [exact Hl|].
  exists (F + 1), B. simpl.
  assert (Hrl : length (removelast items) = Nat.pred (length items)).
  { rewrite removelast_firstn_len, length_take. lia. }
  split; [lia|]. split; [lia|]. split; [lia|]. split.
  - rewrite Hc, Hf. rewrite sz_succ_mod by (try apply Z.mod_pos_bound; lia).
    apply Zplus_mod_idemp_l.
  - split; [exact Hb|]. intros k v Hk. apply Hs.
    rewrite removelast_firstn_len in Hk. apply lookup_take_Some in Hk.
    destruct Hk as (Hk & _). exact Hk.
Qed.

Lemma pushBack_rep cap dq items idx w :
  dq_rep cap dq items -> Z.of_nat (length items) < cap - 1 ->
  exists dq', pushBack dq idx w = Ok (dq', logged w (EvDeque (OpPushBack idx) dq)) /\
              dq_rep cap dq' (idx :: items).
Proof.
  intros (Hc & Hcap & Hl & F & B & HF & HLen & HLc & Hf & Hb & Hs) Hroom.
  assert (Hbk : 0 <= dq_back dq < cap) by (rewrite Hb; apply Z.mod_pos_bound; lia).
  eexists. unfold pushBack. rewrite (bind_ok _ _ _ _ _ (log_ok _ w)).
  rewrite (bind_ok _ _ _ _ _ (store_ok (dq_indices dq) (dq_back dq) idx _ ltac:(lia))).
  rewrite (bind_ok _ _ _ _ _ (sz_rem_ok _ (dq_capacity dq) _ ltac:(lia))).
  split; [reflexivity|].
  split; [exact Hc|]. split; [exact Hcap|].
  split; [simpl; rewrite length_insert; exact Hl|].
  exists F, (B + 1). simpl.
  split; [lia|]. split; [lia|]. split; [lia|]. split; [exact Hf|]. split.
  - rewrite Hc, Hb. rewrite sz_succ_mod by (try apply Z.mod_pos_bound; lia).
    apply Zplus_mod_idemp_l.
  - intros k v Hk. destruct k as [|k]; simpl in Hk.
    + inversion Hk; subst v.
      replace (B + 1 - 1 - Z.of_nat 0) with B by lia. rewrite <- Hb.
      apply list_lookup_insert_eq. lia.
    + replace (B + 1 - 1 - Z.of_nat (S k)) with (B - (1 + Z.of_nat k)) by lia.
      assert (Hk' : (k < length items)%nat) by (eapply lookup_lt_Some; exact Hk).
      rewrite list_lookup_insert_ne.
      * specialize (Hs k v Hk).
        replace (B - 1 - Z.of_nat k) with (B - (1 + Z.of_nat k)) in Hs by lia. exact Hs.
      * rewrite Hb. intros E. apply Z2Nat.inj in E; try (apply Z.mod_pos_bound; lia).
        symmetry in E. revert E. apply mod_shift_neq. lia.
Qed.

(** A push never lands on a live slot. *)
Lemma push_slot_free cap dq items :
  dq_rep cap dq items -> Z.of_nat (length items) < cap - 1 ->
  ~ In (dq_back dq) (live_slots dq).
Proof.
  intros H Hroom Hin. pose proof (dq_rep_length _ _ _ H) as HL.
  destruct H as (Hc & Hcap & Hl & F & B & HF & HLen & HLc & Hf & Hb & Hs).
  unfold live_slots in Hin. rewrite HL, Nat2Z.id in Hin.
  apply in_map_iff in Hin. destruct Hin as (k & E & Hk). apply in_seq in Hk.
  rewrite Hc, Hb in E.
  replace (B mod cap - 1 - Z.of_nat k) with (B mod cap - (1 + Z.of_nat k)) in E by lia.
  rewrite Zminus_mod_idemp_l in E.
  revert E. apply mod_shift_neq. lia.
Qed.

(** ** Monotonic deques *)

Lemma in_range_length lo hi items :
  in_range lo hi items -> Z.of_nat (length items) <= Z.max 0 (hi - lo + 1).
Proof.
  intros (Hs & Hin). revert hi Hin.
  induction Hs as [|b rest Hs IH Hb]; intros hi Hin; simpl length; [lia|].
  assert (Hbr : lo <= b <= hi) by (apply Hin; left; reflexivity).
  specialize (IH (b - 1)). rewrite Nat2Z.inj_succ.
  assert (Z.of_nat (length rest) <= Z.max 0 (b - 1 - lo + 1)); [|lia].
  apply IH. intros j Hj. rewrite Forall_forall in Hb.
  specialize (Hb j ltac:(apply list_elem_of_In; exact Hj)).
  specialize (Hin j ltac:(right; exact Hj)). lia.
Qed.

Lemma extends_refl P w : extends P w w.
Proof. split; [reflexivity|]. exists []. rewrite app_nil_r. split; [reflexivity|constructor]. Qed.

Lemma extends_trans P w1 w2 w3 : extends P w1 w2 -> extends P w2 w3 -> extends P w1 w3.
Proof.
  intros (Ho1 & evs1 & Ht1 & Hf1) (Ho2 & evs2 & Ht2 & Hf2).
  split; [congruence|]. exists (evs1 ++ evs2).
  split; [rewrite Ht2, Ht1, app_assoc; reflexivity|].
  apply Forall_app; auto.
Qed.

Lemma extends_logged P w e : P e -> extends P w (logged w e).
Proof.
  intros H. split; [reflexivity|]. exists [e]. split; [reflexivity|].
  constructor; [exact H|constructor].
Qed.

Section Mono.

Variable prices : list float.

(** [le x y]: the candidate [x] is dominated by [y] ([x <= y] for the deque
    of maxima, [x >= y] for the deque of minima). *)
Variable le : float -> float -> bool.
Hypothesis le_trans :
  forall x y z, le x y = true -> le y z = true -> le x z = true.
Hypothesis le_total :
  forall x y, valid_price x = true -> valid_price y = true ->
    le x y = true \/ le y x = true.
Hypothesis prices_valid : StockSpanSpec.all_valid prices.

Local Abbreviation mono := (DequeSpec.mono prices le).

Lemma mono_lower lo items : mono lo items -> forall j, In j items -> lo <= j.
Proof.
  induction items as [|b rest IH]; simpl; [tauto|].
  intros (Hb & _ & _ & Hm) j [<-|Hj].
  - destruct rest as [|a rest']; simpl in Hb; [lia|].
    specialize (IH Hm a ltac:(left; reflexivity)). lia.
  - apply IH; assumption.
Qed.

Lemma mono_sorted lo items :
  mono lo items -> StronglySorted (fun a b => b < a) items.
Proof.
  induction items as [|b rest IH]; simpl; [constructor|].
  intros (Hb & _ & _ & Hm). specialize (IH Hm). constructor; [exact IH|].
  destruct rest as [|a rest']; [constructor|].
  simpl in Hb. inversion IH as [|? ? Hs Ha]; subst.
  constructor; [lia|]. rewrite Forall_forall in *. intros j Hj.
  specialize (Ha j Hj). lia.
Qed.

Lemma mono_in_range lo hi items :
  mono lo items -> bounded hi items -> in_range lo hi items.
Proof.
  intros Hm Hb. split; [apply (mono_sorted lo); exact Hm|].
  intros j Hj. split; [apply (mono_lower lo items Hm); exact Hj|].
  pose proof (mono_sorted _ _ Hm) as Hs.
  destruct items as [|b rest]; [destruct Hj|]. simpl in Hb.
  destruct Hj as [<-|Hj]; [lia|].
  inversion Hs as [|? ? _ Ha]; subst. rewrite Forall_forall in Ha.
  specialize (Ha j ltac:(apply list_elem_of_In; exact Hj)). lia.
Qed.

(** Dropping the oldest entry [a]: the window now starts after [a]. *)
Lemma mono_removelast lo items a :
  mono lo items -> last items = Some a -> mono (a + 1) (removelast items).
Proof.
  induction items as [|b rest IH]; [discriminate|].
  intros (Hb & Hle & Hgt & Hm) Hlast.
  destruct rest as [|c rest'].
  - simpl. exact I.
  - change (last (b :: c :: rest')) with (last (c :: rest')) in Hlast.
    specialize (IH Hm Hlast).
    change (removelast (b :: c :: rest')) with (b :: removelast (c :: rest')).
    destruct rest' as [|d rest''].
    + simpl in Hlast. inversion Hlast; subst c. simpl in *. auto.
    + change (removelast (c :: d :: rest'')) with (c :: removelast (d :: rest'')) in *.
      simpl in Hb, Hle. simpl. split; [exact Hb|]. split; [exact Hle|].
      split; [exact Hgt|]. exact IH.
Qed.

(** Moving the window start up to [lo'], when no entry is left behind. *)
Lemma mono_raise lo lo' items :
  mono lo items -> lo <= lo' ->
  (forall a, last items = Some a -> lo' <= a) ->
  mono lo' items.
Proof.
  induction items as [|b rest IH]; [auto|].
  intros (Hb & Hle & Hgt & Hm) Hlo Hlast.
  destruct rest as [|c rest'].
  - simpl in *. specialize (Hlast b eq_refl).
    split; [lia|]. split; [|auto]. intros t Ht. apply Hle. lia.
  - simpl. simpl in Hb, Hle. split; [exact Hb|]. split; [exact Hle|].
    split; [exact Hgt|]. apply IH; [exact Hm|exact Hlo|].
    intros a Ha. apply Hlast. exact Ha.
Qed.

(** The oldest entry dominates the whole window. *)
Lemma mono_front_dominates lo items a :
  mono lo items -> last items = Some a ->
  (forall j, In j items -> valid_price (price prices j) = true) ->
  forall t, lo <= t <= hd lo items -> le (price prices t) (price prices a) = true.
Proof.
  induction items as [|b rest IH]; [discriminate|].
  intros (Hb & Hle & Hgt & Hm) Hlast Hv t Ht. simpl in Ht.
  destruct rest as [|c rest'].
  - simpl in Hlast. inversion Hlast; subst a. apply Hle. simpl. lia.
  - change (last (b :: c :: rest')) with (last (c :: rest')) in Hlast.
    assert (Hca : forall t, lo <= t <= c -> le (price prices t) (price prices a) = true).
    { intros t' Ht'. apply IH; try assumption.
      intros j Hj. apply Hv. right. exact Hj. }
    destruct (Z_le_gt_dec t c) as [Htc|Htc]; [apply Hca; lia|].
    apply (le_trans _ (price prices b)); [apply Hle; simpl; lia|].
    apply (le_trans _ (price prices c)).
    + destruct (le_total (price prices c) (price prices b)) as [H|H];
        [apply Hv; right; left; reflexivity|apply Hv; left; reflexivity| |exact H].
      congruence.
    + apply Hca. pose proof (mono_lower lo _ Hm c ltac:(left; reflexivity)). lia.
Qed.

(** *** The loops over one deque *)

Variable W : Z.
Hypothesis W_range : 1 <= W < 2 ^ 62.

Local Abbreviation back_cond := (DequeSpec.back_cond prices le).
Local Abbreviation enter := (DequeSpec.enter prices le).
Local Abbreviation dq_inv := (DequeSpec.dq_inv prices le W).
Local Abbreviation back_loop_inv := (DequeSpec.back_loop_inv prices le W).
Local Abbreviation back_loop_post := (DequeSpec.back_loop_post prices le W).
Local Abbreviation expire_inv := (DequeSpec.expire_inv prices le W).
Local Abbreviation expire_post := (DequeSpec.expire_post prices le W).

Lemma dq_inv_bounded lo next items :
  run_start lo items = next -> bounded (next - 1) items.
Proof. destruct items; simpl; [auto|lia]. Qed.

Lemma le_refl x : valid_price x = true -> le x x = true.
Proof. intros Hx. destruct (le_total x x Hx Hx); assumption. Qed.

Lemma back_loop lo i dq w :
  0 <= lo <= i -> i < lo + W -> i < Z.of_nat (length prices) ->
  back_loop_inv lo i w dq w ->
  exists dq' w',
    while (dq_fuel dq) (back_cond i) popBack dq w = Ok (dq', w') /\
    back_loop_post lo i w dq' w'.
Proof.
  intros Hlo HW Hn HI.
  assert (Hfuel : (Z.to_nat ((dq_back dq - dq_front dq) mod dq_capacity dq)
                   < dq_fuel dq)%nat).
  { destruct HI as (_ & items & Hrep & _). pose proof Hrep as (Hc & Hcap & _).
    unfold dq_fuel. rewrite Hc.
    pose proof (Z.mod_pos_bound (dq_back dq - dq_front dq) (W + 1) ltac:(lia)). lia. }
  revert Hfuel. generalize (dq_fuel dq). intros fuel Hfuel.
  apply (while_inv (back_loop_inv lo i w) (back_loop_post lo i w)
           (fun d => Z.to_nat ((dq_back d - dq_front d) mod dq_capacity d)));
    [|exact HI|exact Hfuel].
  clear dq HI Hfuel. intros dq w1 (Hext & items & Hrep & Hm & Hb & Hcov).
  unfold back_cond. rewrite (deque_isEmpty_rep _ _ _ Hrep).
  destruct items as [|b rest].
  - exists false, w1. split; [reflexivity|]. split; [discriminate|]. intros _.
    split; [exact Hext|]. exists []. auto.
  - pose proof (mono_in_range lo (i - 1) _ Hm Hb) as Hir.
    assert (Hbr : lo <= b <= i - 1) by (apply Hir; left; reflexivity).
    assert (Hsafe : forall op, op <> OpPushBack i ->
              (forall idx, op <> OpPushBack idx) ->
              safe_event W (EvDeque op dq)).
    { intros op _ Hop. exists lo, (i - 1), (b :: rest).
      split; [exact Hrep|]. split; [exact Hir|]. split; [lia|].
      destruct op; try discriminate. exfalso. eapply Hop. reflexivity. }
    rewrite (bind_ok _ _ _ _ _ (back_rep _ _ _ _ w1 Hrep)).
    rewrite (bind_ok _ _ _ _ _ (load_price_ok prices b _ ltac:(lia))).
    rewrite (bind_ok _ _ _ _ _ (load_price_ok prices i _ ltac:(lia))).
    eexists _, _. split; [reflexivity|].
    assert (Hext1 : extends (safe_event W) w (logged w1 (EvDeque OpBack dq))).
    { eapply extends_trans; [exact Hext|]. apply extends_logged.
      apply Hsafe; [discriminate|intros idx; discriminate]. }
    split.
    + intros Hpop. destruct (popBack_rep _ _ _ _ (logged w1 (EvDeque OpBack dq)) Hrep)
        as (dq' & Ep & Hrep').
      eexists _, _. split; [exact Ep|]. split.
      * split.
        { eapply extends_trans; [exact Hext1|]. apply extends_logged.
          apply Hsafe; [discriminate|intros idx; discriminate]. }
        destruct Hm as (Hb1 & Hle & Hgt & Hm').
        exists rest. split; [exact Hrep'|]. split; [exact Hm'|]. split.
        { destruct rest as [|c rest']; simpl; [auto|]. simpl in Hb1. lia. }
        intros t Ht. destruct (Z_le_gt_dec t b) as [Htb|Htb].
        -- apply (le_trans _ (price prices b)); [apply Hle; lia|exact Hpop].
        -- apply Hcov. simpl. lia.
      * rewrite (dq_rep_length _ _ _ Hrep), (dq_rep_length _ _ _ Hrep').
        simpl length. lia.
    + intros Hstop. split; [exact Hext1|]. exists (b :: rest). auto.
Qed.

(** "Maintain deque": position [i] enters. *)
Lemma enter_spec lo i dq w :
  0 <= lo <= i -> i < lo + W -> i < Z.of_nat (length prices) ->
  dq_inv lo i dq ->
  exists dq' w',
    enter i dq w = Ok (dq', w') /\ extends (safe_event W) w w' /\
    dq_inv lo (i + 1) dq'.
Proof.
  intros Hlo HW Hn (items & Hrep & Hm & Hrs).
  assert (Vi : valid_price (price prices i) = true)
    by (apply StockSpanProofs.all_valid_price; [exact prices_valid|lia]).
  destruct (back_loop lo i dq w Hlo HW Hn) as (dq1 & w1 & E1 & Hpost).
  { split; [apply extends_refl|]. exists items. split; [exact Hrep|].
    split; [exact Hm|]. split; [apply (dq_inv_bounded lo); lia|].
    intros t Ht. replace t with i by lia. apply le_refl. exact Vi. }
  destruct Hpost as (Hext & items1 & Hrep1 & Hm1 & Hb1 & Hcov & Hgt).
  pose proof (mono_in_range lo (i - 1) _ Hm1 Hb1) as Hir.
  pose proof (in_range_length _ _ _ Hir) as Hlen.
  destruct (pushBack_rep _ _ _ i w1 Hrep1 ltac:(lia)) as (dq2 & E2 & Hrep2).
  exists dq2, (logged w1 (EvDeque (OpPushBack i) dq1)).
  split; [unfold enter; rewrite (bind_ok _ _ _ _ _ E1); exact E2|].
  split.
  - eapply extends_trans; [exact Hext|]. apply extends_logged.
    exists lo, (i - 1), items1. split; [exact Hrep1|]. split; [exact Hir|].
    split; lia.
  - exists (i :: items1). split; [exact Hrep2|]. split; [|reflexivity].
    simpl. split.
    { destruct items1 as [|b rest]; simpl in *; lia. }
    split; [exact Hcov|]. split; [exact Hgt|exact Hm1].
Qed.

Lemma last_in {A} (l : list A) a : last l = Some a -> In a l.
Proof.
  intros H. rewrite last_lookup in H. apply list_elem_of_In.
  eapply list_elem_of_lookup_2. exact H.
Qed.

Lemma expire_spec lo next out_idx dq w :
  0 <= lo -> lo <= out_idx + 1 <= next -> next - 1 - lo < W ->
  dq_inv lo next dq ->
  exists dq' w',
    expire out_idx dq w = Ok (dq', w') /\ expire_post next out_idx w dq' w'.
Proof.
  intros Hlo Hout HW (items & Hrep & Hm & Hrs).
  assert (Hfuel : (Z.to_nat ((dq_back dq - dq_front dq) mod dq_capacity dq)
                   < dq_fuel dq)%nat).
  { pose proof Hrep as (Hc & Hcap & _). unfold dq_fuel. rewrite Hc.
    pose proof (Z.mod_pos_bound (dq_back dq - dq_front dq) (W + 1) ltac:(lia)). lia. }
  unfold expire. revert Hfuel. generalize (dq_fuel dq). intros fuel Hfuel.
  apply (while_inv (expire_inv lo next out_idx w) (expire_post next out_idx w)
           (fun d => Z.to_nat ((dq_back d - dq_front d) mod dq_capacity d)));
    [| |exact Hfuel].
  2:{ split; [apply extends_refl|]. exists lo, items.
      split; [lia|]. split; [exact Hrep|]. split; [exact Hm|].
      destruct items; simpl in Hrs; lia. }
  clear dq items Hrep Hm Hrs Hfuel.
  intros dq w1 (Hext & lo1 & items & Hlo1 & Hrep & Hm & Hhd).
  unfold front_cond. rewrite (deque_isEmpty_rep _ _ _ Hrep).
  destruct (last items) as [a|] eqn:Hlast.
  2:{ apply last_None in Hlast. subst items.
      exists false, w1. split; [reflexivity|]. split; [discriminate|]. intros _.
      split; [exact Hext|]. exists []. split; [exact Hrep|]. split; [exact I|].
      simpl. lia. }
  assert (Hne : items <> []) by (intros ->; discriminate).
  assert (Hb : bounded (next - 1) items) by (destruct items; simpl; [auto|lia]).
  pose proof (mono_in_range lo1 (next - 1) _ Hm Hb) as Hir.
  assert (Har : lo1 <= a <= next - 1) by (apply Hir, last_in; exact Hlast).
  assert (Hsafe : forall op, (forall idx, op <> OpPushBack idx) ->
            safe_event W (EvDeque op dq)).
  { intros op Hop. exists lo1, (next - 1), items.
    split; [exact Hrep|]. split; [exact Hir|]. split; [lia|].
    destruct op; try exact Hne. exfalso. eapply Hop. reflexivity. }
  destruct items as [|b rest]; [congruence|].
  rewrite (bind_ok _ _ _ _ _ (front_rep _ _ _ _ w1 Hrep Hlast)).
  eexists _, _. split; [reflexivity|].
  assert (Hext1 : extends (safe_event W) w (logged w1 (EvDeque OpFront dq))).
  { eapply extends_trans; [exact Hext|]. apply extends_logged.
    apply Hsafe. intros idx; discriminate. }
  split.
  - intros Hpop. apply Z.leb_le in Hpop.
    destruct (popFront_rep _ _ _ _ (logged w1 (EvDeque OpFront dq)) Hrep Hlast)
      as (dq' & Ep & Hrep').
    eexists _, _. split; [exact Ep|]. split.
    + split.
      { eapply extends_trans; [exact Hext1|]. apply extends_logged.
        apply Hsafe. intros idx; discriminate. }
      exists (a + 1), (removelast (b :: rest)).
      split; [lia|]. split; [exact Hrep'|].
      split; [apply (mono_removelast lo1); assumption|].
      destruct rest as [|c rest'].
      * simpl in Hlast. inversion Hlast; subst a. simpl. lia.
      * simpl. exact Hhd.
    + rewrite (dq_rep_length _ _ _ Hrep), (dq_rep_length _ _ _ Hrep').
      rewrite removelast_firstn_len, length_take. simpl length. lia.
  - intros Hstop. apply Z.leb_gt in Hstop.
    split; [exact Hext1|]. exists (b :: rest). split; [exact Hrep|]. split.
    + apply (mono_raise lo1); [exact Hm|lia|].
      intros a' Ha'. rewrite Hlast in Ha'. inversion Ha'; subst. lia.
    + simpl. lia.
Qed.

End Mono.

End DequeProofs.

(** * sliding_window.c: the analysis *)

Module WindowProofs.
Import SlidingWindow DequeSpec DequeProofs WindowSpec.
Import StockSpanSpec (all_valid).
Import StockSpanProofs (all_valid_price, all_valid_forallb).
Import SegTreeSpec (is_min, is_max).

(** The two deques are the two instances of the generic monotonic deque. *)
Lemma enter_max_eq prices i dq : enter_max prices i dq = enter prices dle i dq.
Proof. reflexivity. Qed.

Lemma enter_min_eq prices i dq : enter_min prices i dq = enter prices dge i dq.
Proof. reflexivity. Qed.

Lemma dge_trans x y z : dge x y = true -> dge y z = true -> dge x z = true.
Proof. unfold dge. intros H1 H2. exact (dle_trans z y x H2 H1). Qed.

Lemma dge_total x y :
  valid_price x = true -> valid_price y = true -> dge x y = true \/ dge y x = true.
Proof. unfold dge. intros Hx Hy. destruct (dle_total x y Hx Hy); auto. Qed.

Section Analysis.

Variable prices : list float.
Variable W : Z.
Hypothesis prices_valid : all_valid prices.
Hypothesis W_range : 1 <= W <= Z.of_nat (length prices).
Hypothesis length_range : Z.of_nat (length prices) <= MAX_ARRAY_SIZE.

Let n := Z.of_nat (length prices).
Let num_windows := n - W + 1.

Local Abbreviation deques_inv := (WindowSpec.deques_inv prices W).
Local Abbreviation first_inv := (WindowSpec.first_inv prices W).
Local Abbreviation slide_inv := (WindowSpec.slide_inv prices W).

Lemma W_small : 1 <= W < 2 ^ 62.
Proof using W_range length_range. unfold MAX_ARRAY_SIZE in length_range. lia. Qed.

Lemma enter_both lo i s w :
  0 <= lo <= i -> i < lo + W -> i < n ->
  deques_inv lo i s ->
  exists mx mn w',
    bind (enter_max prices i (max_dq s))
      (fun mx => bind (enter_min prices i (min_dq s))
                   (fun mn => ret (mx, mn))) w = Ok ((mx, mn), w') /\
    extends (safe_event W) w w' /\
    dq_inv prices dle W lo (i + 1) mx /\ dq_inv prices dge W lo (i + 1) mn.
Proof using prices_valid W_range length_range.
  intros Hlo HW Hn (Hmx & Hmn).
  destruct (enter_spec prices dle dle_trans dle_total prices_valid W W_small
              lo i (max_dq s) w Hlo HW Hn Hmx) as (mx & w1 & E1 & X1 & I1).
  destruct (enter_spec prices dge dge_trans dge_total prices_valid W W_small
              lo i (min_dq s) w1 Hlo HW Hn Hmn) as (mn & w2 & E2 & X2 & I2).
  exists mx, mn, w2. rewrite enter_max_eq, enter_min_eq.
  rewrite (bind_ok _ _ _ _ _ E1), (bind_ok _ _ _ _ _ E2).
  split; [reflexivity|]. split; [eapply extends_trans; eassumption|]. auto.
Qed.

(** ** The first window *)

Lemma first_window_step_inv w0 i s w :
  0 <= i < W -> first_inv w0 i s w ->
  exists s' w', first_window_step prices i s w = Ok (s', w') /\
                first_inv w0 (i + 1) s' w'.
Proof using prices_valid W_range length_range.
  intros Hi (Hext & Hdq & Hsums & Hlen & Hwin).
  unfold first_window_step.
  rewrite (bind_ok _ _ _ _ _ (load_price_ok prices i w ltac:(lia))).
  destruct (enter_both 0 i s w ltac:(lia) ltac:(lia) ltac:(unfold n; lia) Hdq)
    as (mx & mn & w' & E & X & I1 & I2).
  apply bind_inv in E. destruct E as (mx' & w1 & E1 & E).
  apply bind_inv in E. destruct E as (mn' & w2 & E2 & E).
  inversion E; subst mx' mn' w2; clear E.
  rewrite (bind_ok _ _ _ _ _ E1), (bind_ok _ _ _ _ _ E2).
  eexists _, w'. split; [reflexivity|].
  split; [eapply extends_trans; eassumption|]. split; [split; assumption|].
  simpl. split; [|auto].
  replace (Z.to_nat (i + 1)) with (S (Z.to_nat i)) by lia. simpl.
  rewrite <- Hsums. rewrite Z2Nat.id by lia. reflexivity.
Qed.

(** ** Storing a window *)

Lemma dq_inv_front (le : float -> float -> bool) k dq :
  (forall x y z, le x y = true -> le y z = true -> le x z = true) ->
  (forall x y, valid_price x = true -> valid_price y = true ->
     le x y = true \/ le y x = true) ->
  0 <= k -> k + W <= n ->
  dq_inv prices le W k (k + W) dq ->
  exists items a,
    dq_rep (W + 1) dq items /\ last items = Some a /\
    in_range k (k + W - 1) items /\ k <= a <= k + W - 1 /\
    forall t, k <= t <= k + W - 1 -> le (price prices t) (price prices a) = true.
Proof using prices_valid W_range length_range.
  intros Htrans Htotal Hk Hn (items & Hrep & Hm & Hrs).
  destruct (last items) as [a|] eqn:Hlast.
  2:{ apply last_None in Hlast. subst items. simpl in Hrs. lia. }
  pose proof (mono_in_range prices le k (k + W - 1) items Hm) as Hir.
  assert (Hb : bounded (k + W - 1) items) by (destruct items; simpl in *; [auto|lia]).
  specialize (Hir Hb).
  exists items, a. split; [exact Hrep|]. split; [exact Hlast|]. split; [exact Hir|].
  split; [apply Hir, last_in; exact Hlast|].
  intros t Ht.
  apply (mono_front_dominates prices le Htrans Htotal k items a Hm Hlast).
  - intros j Hj. apply Hir in Hj. apply all_valid_price; [exact prices_valid|].
    unfold n in Hn. lia.
  - destruct items as [|b rest]; [discriminate|]. simpl in *. lia.
Qed.

Lemma store_window_spec k s w :
  0 <= k < num_windows ->
  deques_inv k (k + W) s ->
  (sum s, sum_sq s) = run_sums prices W (Z.to_nat k) ->
  Z.of_nat (length (windows s)) = num_windows ->
  exists st w',
    store_window prices W k (k + W - 1) s w
    = Ok ({| max_dq := max_dq s; min_dq := min_dq s; sum := sum s;
             sum_sq := sum_sq s;
             windows := <[Z.to_nat k := Some st]> (windows s) |}, w') /\
    extends (safe_event W) w w' /\
    stored_window prices W k st.
Proof using prices_valid W_range length_range.
  intros Hk (Hmx & Hmn) Hsums Hlen. unfold num_windows in *.
  destruct (dq_inv_front dle k (max_dq s) dle_trans dle_total)
    as (imx & amx & Rmx & Lmx & IRmx & Hamx & Dmx); try lia; [exact Hmx|].
  destruct (dq_inv_front dge k (min_dq s) dge_trans dge_total)
    as (imn & amn & Rmn & Lmn & IRmn & Hamn & Dmn); try lia; [exact Hmn|].
  unfold store_window.
  rewrite (bind_ok _ _ _ _ _ (log_ok _ w)).
  rewrite (bind_ok _ _ _ _ _ (front_rep _ _ _ _ _ Rmx Lmx)).
  rewrite (bind_ok _ _ _ _ _ (load_price_ok prices amx _ ltac:(unfold n in *; lia))).
  rewrite (bind_ok _ _ _ _ _ (front_rep _ _ _ _ _ Rmn Lmn)).
  rewrite (bind_ok _ _ _ _ _ (load_price_ok prices amn _ ltac:(unfold n in *; lia))).
  rewrite (bind_ok _ _ _ _ _ (load_price_ok prices k _ ltac:(unfold n in *; lia))).
  rewrite (bind_ok _ _ _ _ _ (load_price_ok prices (k + W - 1) _ ltac:(unfold n in *; lia))).
  match goal with
  | |- context [store (windows s) k ?st] =>
      rewrite (bind_ok _ _ _ _ _ (store_ok (windows s) k st _ ltac:(lia)));
      exists st
  end.
  eexists. split; [reflexivity|].
  assert (Hne : forall (l : list Z) a, last l = Some a -> l <> [])
    by (intros l a H ->; discriminate).
  assert (Sw : safe_event W (EvWindow k (max_dq s) (min_dq s))).
  { exists imx, imn. split; [exact Rmx|]. split; [exact Rmn|].
    split; [eauto|]. split; [eauto|]. split; assumption. }
  assert (Sf1 : safe_event W (EvDeque OpFront (max_dq s))).
  { exists k, (k + W - 1), imx. split; [exact Rmx|]. split; [exact IRmx|].
    split; [lia|eauto]. }
  assert (Sf2 : safe_event W (EvDeque OpFront (min_dq s))).
  { exists k, (k + W - 1), imn. split; [exact Rmn|]. split; [exact IRmn|].
    split; [lia|eauto]. }
  split.
  - split; [reflexivity|]. exists [EvWindow k (max_dq s) (min_dq s);
                                  EvDeque OpFront (max_dq s);
                                  EvDeque OpFront (min_dq s)].
    split; [simpl; rewrite <- !app_assoc; reflexivity|].
    repeat constructor; assumption.
  - assert (E1 : sum s = fst (run_sums prices W (Z.to_nat k))) by (rewrite <- Hsums; reflexivity).
    assert (E2 : sum_sq s = snd (run_sums prices W (Z.to_nat k))) by (rewrite <- Hsums; reflexivity).
    unfold stored_window, window_variance, window_avg. simpl. rewrite <- E1, <- E2.
    split; [|split; [|split; reflexivity]].
    + split; [exists amx; split; [lia|reflexivity]|]. exact Dmx.
    + split; [exists amn; split; [lia|reflexivity]|]. exact Dmn.
Qed.

(** ** Sliding *)

Lemma expire_both lo next out_idx s w :
  0 <= lo -> lo <= out_idx + 1 <= next -> next - 1 - lo < W ->
  deques_inv lo next s ->
  exists mx mn w',
    bind (expire out_idx (max_dq s))
      (fun mx => bind (expire out_idx (min_dq s))
                   (fun mn => ret (mx, mn))) w = Ok ((mx, mn), w') /\
    extends (safe_event W) w w' /\
    dq_inv prices dle W (out_idx + 1) next mx /\
    dq_inv prices dge W (out_idx + 1) next mn.
Proof using prices_valid W_range length_range.
  intros Hlo Hout HW (Hmx & Hmn).
  destruct (expire_spec prices dle W W_small lo next out_idx (max_dq s) w
              Hlo Hout HW Hmx) as (mx & w1 & E1 & X1 & I1).
  destruct (expire_spec prices dge W W_small lo next out_idx (min_dq s) w1
              Hlo Hout HW Hmn) as (mn & w2 & E2 & X2 & I2).
  exists mx, mn, w2.
  rewrite (bind_ok _ _ _ _ _ E1), (bind_ok _ _ _ _ _ E2).
  split; [reflexivity|]. split; [eapply extends_trans; eassumption|]. auto.
Qed.

Lemma slide_step_inv w0 i s w :
  1 <= i < num_windows -> slide_inv w0 (i - 1) s w ->
  exists s' w', slide_step prices W i s w = Ok (s', w') /\ slide_inv w0 i s' w'.
Proof using prices_valid W_range length_range.
  intros Hi (Hext & Hdq & Hsums & Hlen & Hst). unfold num_windows in *.
  pose proof W_small as HW. unfold MAX_ARRAY_SIZE in length_range.
  unfold slide_step.
  rewrite (sz_small (i - 1)) by lia. rewrite (sz_small (i + W)) by (unfold n in *; lia).
  rewrite (sz_small (i + W - 1)) by (unfold n in *; lia).
  rewrite (bind_ok _ _ _ _ _ (load_price_ok prices (i - 1) w ltac:(unfold n in *; lia))).
  rewrite (bind_ok _ _ _ _ _ (load_price_ok prices (i + W - 1) w ltac:(unfold n in *; lia))).
  destruct (expire_both (i - 1) (i - 1 + W) (i - 1) s w ltac:(lia) ltac:(lia) ltac:(lia) Hdq)
    as (mx & mn & w1 & E & X1 & I1 & I2).
  apply bind_inv in E. destruct E as (mx' & wa & E1 & E).
  apply bind_inv in E. destruct E as (mn' & wb & E2 & E).
  inversion E; subst mx' mn' wb; clear E.
  rewrite (bind_ok _ _ _ _ _ E1), (bind_ok _ _ _ _ _ E2).
  replace (i - 1 + 1) with i in I1, I2 by lia.
  replace (i - 1 + W) with (i + W - 1) in I1, I2 by lia.
  set (s1 := {| max_dq := mx; min_dq := mn; sum := sum s; sum_sq := sum_sq s;
                windows := windows s |}).
  destruct (enter_both i (i + W - 1) s1 w1 ltac:(lia) ltac:(lia) ltac:(unfold n; lia))
    as (mx2 & mn2 & w2 & E & X2 & I3 & I4); [split; assumption|].
  apply bind_inv in E. destruct E as (mx' & wc & E3 & E).
  apply bind_inv in E. destruct E as (mn' & wd & E4 & E).
  inversion E; subst mx' mn' wd; clear E. simpl in E3, E4.
  rewrite (bind_ok _ _ _ _ _ E3), (bind_ok _ _ _ _ _ E4).
  replace (i + W - 1 + 1) with (i + W) in I3, I4 by lia.
  match goal with
  | |- context [store_window prices W i (i + W - 1) ?s2] =>
      destruct (store_window_spec i s2 w2) as (st & w3 & E5 & X3 & Hstored)
  end.
  - unfold num_windows. lia.
  - split; assumption.
  - simpl. replace (Z.to_nat i) with (S (Z.to_nat (i - 1))) by lia. simpl.
    rewrite <- Hsums. rewrite Z2Nat.id by lia.
    replace (i - 1 + W) with (i + W - 1) by lia. reflexivity.
  - simpl. exact Hlen.
  - rewrite E5. eexists _, w3. split; [reflexivity|].
    split; [repeat (eapply extends_trans; [eassumption|]); apply extends_refl|].
    split; [split; assumption|]. simpl.
    split.
    { replace (Z.to_nat i) with (S (Z.to_nat (i - 1))) by lia. simpl.
      rewrite <- Hsums. rewrite Z2Nat.id by lia.
      replace (i - 1 + W) with (i + W - 1) by lia. reflexivity. }
    split; [rewrite length_insert; exact Hlen|].
    intros j Hj. destruct (Z.eq_dec j i) as [->|Hne].
    + exists st. split; [apply list_lookup_insert_eq; lia|exact Hstored].
    + rewrite list_lookup_insert_ne by lia. apply Hst. lia.
Qed.

End Analysis.

(** ** The whole function *)

Lemma createDeque_ok capacity k w :
  allocs_succeed (S (S k)) w -> 1 <= capacity < 2 ^ 61 ->
  exists dq w',
    createDeque capacity w = Ok (Some dq, w') /\ allocs_succeed k w' /\
    trace w' = trace w /\ dq_rep capacity dq [].
Proof.
  intros Hok Hcap. unfold createDeque.
  destruct (malloc_ok _ w Hok) as (w1 & E1 & Hok1 & T1).
  rewrite (bind_ok _ _ _ _ _ E1). simpl.
  destruct (malloc_array_ok (T := Z) sizeof_size_t capacity _ w1
              ltac:(reflexivity) ltac:(lia) ltac:(unfold sizeof_size_t; lia) Hok1)
    as (w2 & E2 & Hok2 & T2).
  rewrite (bind_ok _ _ _ _ _ E2).
  eexists _, w2. split; [reflexivity|]. split; [exact Hok2|].
  split; [congruence|].
  split; [reflexivity|]. split; [lia|].
  split; [simpl; rewrite length_replicate; lia|].
  exists 0, 0. simpl. rewrite Z.mod_0_l by lia.
  repeat split; try lia. intros k' v Hk. rewrite lookup_nil in Hk. discriminate.
Qed.

Lemma createDeque_inv capacity w r w' :
  createDeque capacity w = Ok (r, w') ->
  trace w' = trace w /\
  (r <> None -> forall k, allocs_succeed k w' -> allocs_succeed (S (S k)) w).
Proof.
  unfold createDeque. intros H. apply bind_inv in H.
  destruct H as (b & w1 & Em & H). destruct (malloc_inv _ _ _ Em) as (T1 & S1).
  destruct b; simpl in H.
  - apply bind_inv in H. destruct H as (ind & w2 & Ea & H).
    destruct (malloc_array_inv _ _ _ _ _ Ea) as (T2 & S2).
    destruct ind as [ind|]; inversion H; subst; clear H.
    + split; [congruence|]. intros _ k Hk. apply S1; [reflexivity|].
      apply S2; [discriminate|exact Hk].
    + split; [congruence|]. congruence.
  - inversion H; subst. split; [exact T1|]. congruence.
Qed.

Lemma dq_inv_empty prices le W dq :
  dq_rep (W + 1) dq [] -> dq_inv prices le W 0 0 dq.
Proof. intros H. exists []. split; [exact H|]. split; [exact I|reflexivity]. Qed.

Lemma analyzeSlidingWindow_run prices W out err_buf err_buf_len w :
  all_valid prices ->
  1 <= W <= Z.of_nat (length prices) ->
  Z.of_nat (length prices) <= MAX_ARRAY_SIZE ->
  allocs_succeed 6 w ->
  exists result w' evs,
    analyzeSlidingWindow (Some prices) (Z.of_nat (length prices)) W (Some out)
      err_buf err_buf_len w
    = Ok ((0, Some (Some result), err_buf), w') /\
    trace w' = trace w ++ evs /\ Forall (safe_event W) evs /\
    wr_num_windows result = Z.of_nat (length prices) - W + 1 /\
    wr_window_size result = W /\
    Z.of_nat (length (wr_windows result)) = Z.of_nat (length prices) - W + 1 /\
    forall j, 0 <= j < Z.of_nat (length prices) - W + 1 ->
      exists st, wr_windows result !! Z.to_nat j = Some (Some st) /\
                 stored_window prices W j st.
Proof.
  intros Hv HW Hmax Hok. set (n := Z.of_nat (length prices)) in *.
  pose proof Hmax as Hmax'. unfold MAX_ARRAY_SIZE in Hmax'.
  unfold analyzeSlidingWindow. fold n.
  destruct (n =? 0) eqn:E0; [apply Z.eqb_eq in E0; lia|].
  destruct (MAX_ARRAY_SIZE <? n) eqn:E1; [apply Z.ltb_lt in E1; lia|].
  destruct (W =? 0) eqn:E2; [apply Z.eqb_eq in E2; lia|].
  destruct (n <? W) eqn:E3; [apply Z.ltb_lt in E3; lia|].
  change (false || false || false || false) with false. cbv iota.
  unfold n at 1. rewrite Nat2Z.id.
  rewrite (bind_ok _ _ _ _ _
             (has_invalid_price_spec prices (length prices) 0 w ltac:(lia) ltac:(lia))).
  rewrite all_valid_forallb by assumption. change (negb true) with false. cbv iota.
  destruct (malloc_ok _ w Hok) as (w1 & Em & Hok1 & T1).
  rewrite (bind_ok _ _ _ _ _ Em). change (negb true) with false. cbv iota.
  rewrite (sz_small (n - W)) by lia. rewrite (sz_small (n - W + 1)) by lia.
  rewrite (sz_small (W + 1)) by lia. rewrite (sz_small (W - 1)) by lia.
  destruct (malloc_array_ok (T := WindowStats) sizeof_WindowStats (n - W + 1) _ w1
              ltac:(reflexivity) ltac:(lia) ltac:(unfold sizeof_WindowStats; lia) Hok1)
    as (w2 & Ea & Hok2 & T2).
  rewrite (bind_ok _ _ _ _ _ Ea).
  destruct (createDeque_ok (W + 1) _ w2 Hok2 ltac:(lia)) as (mx & w3 & Ec1 & Hok3 & T3 & R1).
  rewrite (bind_ok _ _ _ _ _ Ec1).
  destruct (createDeque_ok (W + 1) _ w3 Hok3 ltac:(lia)) as (mn & w4 & Ec2 & Hok4 & T4 & R2).
  rewrite (bind_ok _ _ _ _ _ Ec2).
  (* first window *)
  destruct (for_up_inv (first_inv prices W w4) (first_window_step prices)
              (Z.to_nat W) 0)
    with (s := {| max_dq := mx; min_dq := mn; sum := 0%float; sum_sq := 0%float;
                  windows := replicate (Z.to_nat (n - W + 1)) (@None WindowStats) |})
         (w := w4) as (s1 & w5 & E5 & HI1).
  { intros k s w' Hk HI. replace (0 + k + 1) with (k + 1) by lia.
    replace (0 + k) with k in * by lia.
    apply (first_window_step_inv prices W Hv HW Hmax w4 k s w'); [lia|exact HI]. }
  { split; [apply extends_refl|]. split.
    - split; apply dq_inv_empty; assumption.
    - simpl. split; [reflexivity|]. split; [rewrite length_replicate; fold n; lia|].
      intros j. destruct (replicate (Z.to_nat (n - W + 1)) None !! j) as [x|] eqn:L; [|auto].
      apply lookup_replicate in L. destruct L as (-> & _). auto. }
  rewrite (bind_ok _ _ _ _ _ E5).
  rewrite Z2Nat.id in HI1 by lia. replace (0 + W) with W in HI1 by lia.
  destruct HI1 as (X1 & Hdq1 & Hsums1 & Hlen1 & _).
  destruct (store_window_spec prices W Hv HW Hmax 0 s1 w5) as (st0 & w6 & E6 & X2 & Hst0);
    try assumption; try (fold n; lia).
  replace (0 + W - 1) with (W - 1) in E6 by lia.
  rewrite (bind_ok _ _ _ _ _ E6).
  (* slide *)
  match type of E6 with
  | _ = Ok (?s2, _) =>
      destruct (for_up_inv (fun i => slide_inv prices W w4 (i - 1)) (slide_step prices W)
                  (Z.to_nat (n - W + 1 - 1)) 1)
        with (s := s2) (w := w6) as (s3 & w7 & E7 & HI3)
  end.
  { intros k s w' Hk HI. replace (1 + k + 1 - 1) with (1 + k) by lia.
    apply (slide_step_inv prices W Hv HW Hmax w4 (1 + k) s w'); [fold n; lia|exact HI]. }
  { replace (1 - 1) with 0 by lia. split; [eapply extends_trans; eassumption|].
    simpl. split; [exact Hdq1|]. split; [exact Hsums1|].
    split; [rewrite length_insert; exact Hlen1|].
    intros j Hj. replace j with 0 by lia. exists st0.
    split; [apply list_lookup_insert_eq; fold n in Hlen1; lia|exact Hst0]. }
  rewrite (bind_ok _ _ _ _ _ E7).
  rewrite Z2Nat.id in HI3 by lia.
  replace (1 + (n - W + 1 - 1) - 1) with (n - W) in HI3 by lia.
  destruct HI3 as ((Ho & evs & Ht & Hsafe) & _ & _ & Hlen3 & Hst3).
  eexists _, w7, evs. split; [reflexivity|].
  split; [rewrite Ht; congruence|]. split; [exact Hsafe|].
  simpl. split; [reflexivity|]. split; [reflexivity|]. split; [exact Hlen3|].
  intros j Hj. apply Hst3. lia.
Qed.

(** A successful call had valid arguments and six successful allocations. *)
Lemma analyzeSlidingWindow_success prices W out_handle err_buf err_buf_len w r e w' :
  analyzeSlidingWindow (Some prices) (Z.of_nat (length prices)) W out_handle
    err_buf err_buf_len w = Ok ((0, r, e), w') ->
  0 <= W ->
  all_valid prices /\ 1 <= W <= Z.of_nat (length prices) /\
  Z.of_nat (length prices) <= MAX_ARRAY_SIZE /\ allocs_succeed 6 w /\
  exists out, out_handle = Some out.
Proof.
  intros H HW0. unfold analyzeSlidingWindow in H.
  destruct out_handle as [out|]; [|inversion H].
  destruct (Z.of_nat (length prices) =? 0) eqn:E0; [inversion H|].
  destruct (MAX_ARRAY_SIZE <? Z.of_nat (length prices)) eqn:E1; [inversion H|].
  destruct (W =? 0) eqn:E2; [inversion H|].
  destruct (Z.of_nat (length prices) <? W) eqn:E3; [inversion H|].
  simpl orb in H. cbv iota in H. rewrite Nat2Z.id in H.
  apply Z.eqb_neq in E0, E2. apply Z.ltb_ge in E1, E3.
  apply bind_inv in H. destruct H as (bad & w1 & Ebad & H).
  assert (w1 = w /\ bad = negb (forallb valid_price prices)) as (-> & Hbad).
  { rewrite has_invalid_price_spec in Ebad by lia.
    rewrite drop_0, firstn_all in Ebad. inversion Ebad; auto. }
  destruct bad; [inversion H|].
  assert (Hv : all_valid prices).
  { unfold all_valid. destruct (forallb valid_price prices); [reflexivity|discriminate]. }
  apply bind_inv in H. destruct H as (got & w2 & Em & H).
  destruct got; [|inversion H]. simpl negb in H. cbv iota in H.
  apply bind_inv in H. destruct H as (wins & w3 & Ea & H).
  destruct wins as [wins|]; [|inversion H].
  apply bind_inv in H. destruct H as (mx & w4 & Ec1 & H).
  apply bind_inv in H. destruct H as (mn & w5 & Ec2 & H).
  destruct mx as [mx|]; [|inversion H]. destruct mn as [mn|]; [|inversion H].
  split; [exact Hv|]. split; [lia|]. split; [lia|]. split; [|eauto].
  apply (proj2 (malloc_inv _ _ _ Em) eq_refl).
  apply (proj2 (malloc_array_inv _ _ _ _ _ Ea)); [discriminate|].
  apply (proj2 (createDeque_inv _ _ _ _ Ec1)); [discriminate|].
  apply (proj2 (createDeque_inv _ _ _ _ Ec2)); [discriminate|].
  apply allocs_succeed_0.
Qed.

(** C6: for every valid price sequence of length [n] (finite prices,
    [1 <= n <= MAX_ARRAY_SIZE]) and window size [1 <= w <= n],
    [analyzeSlidingWindow] succeeds (its allocations succeeding) and
    produces exactly [n - w + 1] records, record [j] being the one of the
    window that starts at position [j]; whenever [w == 0] or [w > n] it
    returns -2 instead, allocates nothing and leaves the caller's handle as
    it was. *)
Theorem analyzeSlidingWindow_count :
  (forall prices W out err_buf err_buf_len w,
     all_valid prices ->
     1 <= Z.of_nat (length prices) <= MAX_ARRAY_SIZE ->
     1 <= W <= Z.of_nat (length prices) ->
     allocs_succeed 6 w ->
     exists result w',
       analyzeSlidingWindow (Some prices) (Z.of_nat (length prices)) W (Some out)
         err_buf err_buf_len w
       = Ok ((0, Some (Some result), err_buf), w') /\
       wr_num_windows result = Z.of_nat (length prices) - W + 1 /\
       Z.of_nat (length (wr_windows result)) = Z.of_nat (length prices) - W + 1 /\
       forall j, 0 <= j < Z.of_nat (length prices) - W + 1 ->
         exists st, wr_windows result !! Z.to_nat j = Some (Some st) /\
                    stored_window prices W j st) /\
  (forall prices W out err_buf err_buf_len w,
     W = 0 \/ Z.of_nat (length prices) < W ->
     analyzeSlidingWindow (Some prices) (Z.of_nat (length prices)) W (Some out)
       err_buf err_buf_len w
     = Ok ((-2, Some out,
            setError err_buf err_buf_len "Invalid length or window size"), w)).
Proof.
  split.
  - intros prices W out err_buf err_buf_len w Hv Hn HW Hok.
    destruct (analyzeSlidingWindow_run prices W out err_buf err_buf_len w Hv HW
                ltac:(lia) Hok)
      as (result & w' & evs & E & _ & _ & Hnum & _ & Hlen & Hst).
    exists result, w'. auto.
  - intros prices W out err_buf err_buf_len w HW. unfold analyzeSlidingWindow.
    destruct (Z.of_nat (length prices) =? 0); [reflexivity|].
    destruct (MAX_ARRAY_SIZE <? Z.of_nat (length prices)); [reflexivity|].
    destruct HW as [->|HW]; [reflexivity|].
    destruct (W =? 0); [reflexivity|].
    apply Z.ltb_lt in HW. rewrite HW. reflexivity.
Qed.

Lemma analyzeSlidingWindow_count_witness :
  (exists result w',
     analyzeSlidingWindow (Some five_prices) 5 3 (Some None) None 0 w0
     = Ok ((0, Some (Some result), None), w') /\
     wr_num_windows result = 5 - 3 + 1 /\
     Z.of_nat (length (wr_windows result)) = 5 - 3 + 1 /\
     forall j, 0 <= j < 5 - 3 + 1 ->
       exists st, wr_windows result !! Z.to_nat j = Some (Some st) /\
                  stored_window five_prices 3 j st) /\
  analyzeSlidingWindow (Some five_prices) 5 6 (Some None) None 0 w0
  = Ok ((-2, Some None, setError None 0 "Invalid length or window size"), w0).
Proof.
  split.
  - apply (proj1 analyzeSlidingWindow_count five_prices 3 None None 0 w0).
    + vm_compute. reflexivity.
    + vm_compute. split; discriminate.
    + vm_compute. split; discriminate.
    + constructor.
  - apply (proj2 analyzeSlidingWindow_count five_prices 6 None None 0 w0).
    right. vm_compute. reflexivity.
Defined.

(** ** Safety of the deques *)

Lemma safe_event_ok W ev : 1 <= W -> safe_event W ev -> event_ok W ev.
Proof.
  intros HW. destruct ev as [op dq|i mx mn]; simpl.
  - intros (lo & hi & items & Hrep & Hir & Hspan & Hop).
    pose proof (in_range_length _ _ _ Hir) as Hlen.
    pose proof Hrep as (Hc & Hcap & Hl & F & B & HF & HLen & HLc & Hf & Hb & Hs).
    exists items. split; [exact Hrep|]. split; [lia|]. split; [exact Hl|].
    split; [rewrite Hf; apply Z.mod_pos_bound; lia|].
    split; [rewrite Hb; apply Z.mod_pos_bound; lia|].
    split.
    { exists lo. intros j Hj. destruct Hir as (_ & Hin). specialize (Hin j Hj). lia. }
    destruct op; try exact Hop.
    assert (Z.of_nat (length items) < W) by lia.
    split; [assumption|]. apply (push_slot_free (W + 1) dq items Hrep). lia.
  - intros (imx & imn & R1 & R2 & N1 & N2 & (_ & I1) & (_ & I2)).
    exists imx, imn. auto 10.
Qed.

(** C8: in every successful run of [analyzeSlidingWindow] (deques of
    circular capacity [windowSize + 1]), each deque holds at most
    [windowSize] indices whenever one of its primitives runs, and both are
    non-empty when their fronts are read for a window's min and max; every
    [pushBack], [popBack], [popFront], [front] and [back] works on a
    well-formed buffer with [front] and [back] inside it, a push never
    writes over a live entry, pops and reads find an entry, and the stored
    indices always lie inside one window of [windowSize] consecutive
    positions, the window being read when its extrema are read.  No access
    leaves an array: the run ends normally. *)
Theorem deques_safe prices W out_handle err_buf err_buf_len w r e w' :
  analyzeSlidingWindow (Some prices) (Z.of_nat (length prices)) W out_handle
    err_buf err_buf_len w = Ok ((0, r, e), w') ->
  0 <= W ->
  exists evs, trace w' = trace w ++ evs /\ Forall (event_ok W) evs.
Proof.
  intros H HW0.
  destruct (analyzeSlidingWindow_success _ _ _ _ _ _ _ _ _ H HW0)
    as (Hv & HW & Hmax & Hok & out & ->).
  destruct (analyzeSlidingWindow_run prices W out err_buf err_buf_len w Hv HW Hmax Hok)
    as (result & w'' & evs & E & Ht & Hsafe & _).
  rewrite E in H. inversion H; subst. exists evs. split; [exact Ht|].
  eapply Forall_impl; [exact Hsafe|]. intros ev. apply safe_event_ok. lia.
Qed.

Lemma deques_safe_witness :
  exists r e w' evs,
    analyzeSlidingWindow (Some five_prices) 5 3 (Some None) None 0 w0
    = Ok ((0, r, e), w') /\
    trace w' = trace w0 ++ evs /\ Forall (event_ok 3) evs.
Proof.
  assert (E : exists r e w',
             analyzeSlidingWindow (Some five_prices) (Z.of_nat (length five_prices)) 3
               (Some None) None 0 w0 = Ok ((0, r, e), w'))
    by (do 3 eexists; vm_compute; reflexivity).
  destruct E as (r & e & w' & E).
  destruct (deques_safe five_prices 3 (Some None) None 0 w0 r e w' E ltac:(lia))
    as (evs & Ht & Hf).
  exists r, e, w', evs. split; [exact E|]. split; [exact Ht|exact Hf].
Defined.

(** What a successful analysis has stored. *)
Lemma stored_windows prices W out_handle err_buf err_buf_len w r e w' :
  analyzeSlidingWindow (Some prices) (Z.of_nat (length prices)) W out_handle
    err_buf err_buf_len w = Ok ((0, r, e), w') ->
  0 <= W ->
  exists result,
    r = Some (Some result) /\
    wr_num_windows result = Z.of_nat (length prices) - W + 1 /\
    forall j, 0 <= j < wr_num_windows result ->
      exists st, wr_windows result !! Z.to_nat j = Some (Some st) /\
                 stored_window prices W j st.
Proof.
  intros H HW0.
  destruct (analyzeSlidingWindow_success _ _ _ _ _ _ _ _ _ H HW0)
    as (Hv & HW & Hmax & Hok & out & ->).
  destruct (analyzeSlidingWindow_run prices W out err_buf err_buf_len w Hv HW Hmax Hok)
    as (result & w'' & evs & E & _ & _ & Hnum & _ & _ & Hst).
  rewrite E in H. inversion H; subst. exists result. split; [reflexivity|].
  split; [exact Hnum|]. intros j Hj. apply Hst. lia.
Qed.

(** ** Pattern classification *)

Lemma classifyPattern_spec first last variance mean :
  classifyPattern first last variance mean PATTERN_SIZE
  = pattern_spec first last variance mean.
Proof.
  unfold classifyPattern, pattern_spec, dgt, dlt.
  repeat match goal with |- context [if ?c then _ else _] => destruct c end;
    reflexivity.
Qed.

(** [x == y] excludes [y < x]. *)
Lemma eqb_not_ltb x y : PrimFloat.eqb x y = true -> PrimFloat.ltb y x = false.
Proof.
  rewrite FloatAxioms.eqb_spec, ltb_spec. unfold SFeqb, SFltb.
  destruct (Prim2SF x) as [a|a| |a m1 e1], (Prim2SF y) as [b|b| |b m2 e2];
    simpl; try discriminate;
    repeat match goal with x : bool |- _ => destruct x end;
    simpl; auto; try discriminate.
  all: rewrite ?Pos.compare_cont_spec; simpl.
  all: destruct (Z.compare_spec e1 e2), (Z.compare_spec e2 e1); try lia; simpl;
    auto; try discriminate.
  all: destruct (Pos.compare_spec m1 m2), (Pos.compare_spec m2 m1); try lia; simpl;
    auto; try discriminate.
Qed.

(** C4 (amended): for every window [j] of a successful analysis, with
    [first] the price at the window start, [last] the price at the window
    end and [mean], [variance] the window's running average and variance,
    the stored pattern is [pattern_spec first last variance mean]:
    [changePct = |(last - first) / first|]; bullish if [changePct > 0.05]
    and [last > first]; bearish if [changePct > 0.05] and [last < first];
    otherwise, with [cv = sqrt(variance) / |mean|], volatile if [cv > 0.1]
    and stable if not.  The comparisons are strict: [changePct == 0.05]
    rules out bullish and bearish, and [cv == 0.1] rules out volatile. *)
Theorem stored_pattern prices W out_handle err_buf err_buf_len w r e w' :
  analyzeSlidingWindow (Some prices) (Z.of_nat (length prices)) W out_handle
    err_buf err_buf_len w = Ok ((0, r, e), w') ->
  0 <= W ->
  exists result,
    r = Some (Some result) /\
    (forall j, 0 <= j < wr_num_windows result ->
       exists st,
         wr_windows result !! Z.to_nat j = Some (Some st) /\
         ws_avg st = window_avg prices W (Z.to_nat j) /\
         ws_pattern st =
           pattern_spec (price prices j) (price prices (j + W - 1))
             (window_variance prices W (Z.to_nat j))
             (window_avg prices W (Z.to_nat j))) /\
    (forall first last variance mean,
       PrimFloat.eqb (PrimFloat.abs ((last - first) / first)) 0.05 = true ->
       pattern_spec first last variance mean
       = if (0.1 <? PrimFloat.sqrt variance / PrimFloat.abs mean)%float
         then "volatile"%string else "stable"%string)%float /\
    (forall first last variance mean,
       PrimFloat.eqb (PrimFloat.sqrt variance / PrimFloat.abs mean)%float 0.1%float = true ->
       pattern_spec first last variance mean <> "volatile"%string).
Proof.
  intros H HW0.
  destruct (stored_windows _ _ _ _ _ _ _ _ _ H HW0) as (result & -> & Hnum & Hst).
  exists result. split; [reflexivity|].
  split; [|split].
  - intros j Hj. destruct (Hst j Hj) as (st & L & _ & _ & Ha & Hp).
    exists st. split; [exact L|]. split; [exact Ha|].
    rewrite Hp. apply classifyPattern_spec.
  - intros first last variance mean Heq. unfold pattern_spec.
    rewrite (eqb_not_ltb _ _ Heq). reflexivity.
  - intros first last variance mean Heq. unfold pattern_spec.
    rewrite (eqb_not_ltb _ _ Heq).
    repeat match goal with |- context [if ?c then _ else _] => destruct c end;
      discriminate.
Qed.

Lemma stored_pattern_witness :
  exists r e w' result,
    analyzeSlidingWindow (Some five_prices) 5 3 (Some None) None 0 w0
    = Ok ((0, r, e), w') /\
    r = Some (Some result) /\
    (forall j, 0 <= j < wr_num_windows result ->
       exists st,
         wr_windows result !! Z.to_nat j = Some (Some st) /\
         ws_avg st = window_avg five_prices 3 (Z.to_nat j) /\
         ws_pattern st =
           pattern_spec (price five_prices j) (price five_prices (j + 3 - 1))
             (window_variance five_prices 3 (Z.to_nat j))
             (window_avg five_prices 3 (Z.to_nat j))).
Proof.
  assert (E : exists r e w',
             analyzeSlidingWindow (Some five_prices) (Z.of_nat (length five_prices)) 3
               (Some None) None 0 w0 = Ok ((0, r, e), w'))
    by (do 3 eexists; vm_compute; reflexivity).
  destruct E as (r & e & w' & E).
  destruct (stored_pattern five_prices 3 (Some None) None 0 w0 r e w' E ltac:(lia))
    as (result & Hr & Hp & _).
  exists r, e, w', result. split; [exact E|]. split; [exact Hr|exact Hp].
Defined.

(** C4 as stated fails on a window that starts at a negative price: over
    [-100, -90] the code stores "bullish" ([|(-90 + 100) / -100| = 0.1]),
    while [|last - first| / first = 10 / -100] is negative and the claimed
    rule falls through to "stable". *)
Lemma pattern_negative_first :
  exists result st w',
    analyzeSlidingWindow (Some [-100; -90]%float) 2 2 (Some None) None 0 w0
    = Ok ((0, Some (Some result), None), w') /\
    wr_windows result !! 0%nat = Some (Some st) /\
    ws_pattern st = "bullish"%string /\
    pattern_claimed (price [-100; -90]%float 0) (price [-100; -90]%float 1)
      (window_variance [-100; -90]%float 2 0) (window_avg [-100; -90]%float 2 0)
    = "stable"%string.
Proof.
  do 3 eexists. split; [vm_compute; reflexivity|].
  split; [vm_compute; reflexivity|]. split; vm_compute; reflexivity.
Qed.

(** ** Divisors of the classification *)

(** [0 < x] excludes [x == 0]. *)
Lemma positive_nonzero x : dgt x 0%float = true -> PrimFloat.eqb x 0%float = false.
Proof.
  unfold dgt. intros H.
  destruct (PrimFloat.eqb x 0%float) eqn:E; [|reflexivity].
  rewrite (eqb_not_ltb _ _ E) in H. discriminate.
Qed.

(** A quotient by [+0] is NaN or infinite, whatever is divided. *)
Lemma div_zero_undefined x :
  PrimFloat.is_nan (x / 0)%float = true \/
  PrimFloat.is_infinity (x / 0)%float = true.
Proof.
  unfold PrimFloat.is_nan, PrimFloat.is_infinity.
  rewrite !FloatAxioms.eqb_spec, abs_spec, div_spec.
  change (Prim2SF 0) with (S754_zero false).
  change (Prim2SF infinity) with (S754_infinity false).
  destruct (Prim2SF x) as [s|s| |s m e]; simpl; auto; destruct s; auto.
Qed.

Lemma pattern_spec_labels first last variance mean :
  In (pattern_spec first last variance mean)
     ["bullish"; "bearish"; "volatile"; "stable"]%string.
Proof.
  unfold pattern_spec.
  repeat match goal with |- context [if ?c then _ else _] => destruct c end;
    simpl; auto.
Qed.

(** [classifyPattern] divides by the window's first price and by the
    absolute value of the window mean without a guard.  For every
    successful analysis of strictly positive prices the first divisor is
    nonzero in every window, and the stored pattern is always exactly one of
    bullish, bearish, volatile, stable, whatever the mean and the variance
    came out as. *)
Lemma classification_total prices W out_handle err_buf err_buf_len w r e w' :
  analyzeSlidingWindow (Some prices) (Z.of_nat (length prices)) W out_handle
    err_buf err_buf_len w = Ok ((0, r, e), w') ->
  0 <= W ->
  (forall p, In p prices -> dgt p 0%float = true) ->
  exists result,
    r = Some (Some result) /\
    forall j, 0 <= j < wr_num_windows result ->
      exists st,
        wr_windows result !! Z.to_nat j = Some (Some st) /\
        PrimFloat.eqb (price prices j) 0%float = false /\
        In (ws_pattern st) ["bullish"; "bearish"; "volatile"; "stable"]%string.
Proof.
  intros H HW0 Hpos.
  destruct (stored_windows _ _ _ _ _ _ _ _ _ H HW0) as (result & -> & Hnum & Hst).
  exists result. split; [reflexivity|].
  intros j Hj. destruct (Hst j Hj) as (st & L & _ & _ & _ & Hpat).
  exists st. split; [exact L|]. split.
  - apply positive_nonzero, Hpos. unfold price.
    destruct (prices !! Z.to_nat j) as [p|] eqn:Lp.
    + simpl. apply list_elem_of_In. eapply list_elem_of_lookup_2. exact Lp.
    + apply lookup_ge_None in Lp.
      destruct (analyzeSlidingWindow_success _ _ _ _ _ _ _ _ _ H HW0) as (_ & HW & _).
      rewrite Hnum in Hj. lia.
  - rewrite Hpat, classifyPattern_spec. apply pattern_spec_labels.
Qed.

Lemma classification_total_witness :
  exists r e w' result,
    analyzeSlidingWindow (Some five_prices) 5 3 (Some None) None 0 w0
    = Ok ((0, r, e), w') /\
    r = Some (Some result) /\
    forall j, 0 <= j < wr_num_windows result ->
      exists st,
        wr_windows result !! Z.to_nat j = Some (Some st) /\
        PrimFloat.eqb (price five_prices j) 0%float = false /\
        In (ws_pattern st) ["bullish"; "bearish"; "volatile"; "stable"]%string.
Proof.
  assert (E : exists r e w',
             analyzeSlidingWindow (Some five_prices) (Z.of_nat (length five_prices)) 3
               (Some None) None 0 w0 = Ok ((0, r, e), w'))
    by (do 3 eexists; vm_compute; reflexivity).
  destruct E as (r & e & w' & E).
  destruct (classification_total five_prices 3 (Some None) None 0 w0 r e w' E
              ltac:(lia)) as (result & Hr & Hp).
  { intros p Hp. simpl in Hp.
    repeat (destruct Hp as [<-|Hp]; [vm_compute; reflexivity|]). destruct Hp. }
  exists r, e, w', result. split; [exact E|]. split; [exact Hr|exact Hp].
Defined.

(** C10 fails on the code: all of [1e16, 1, 1, 0.5, 0.5] are strictly
    positive and the analysis with window size 3 succeeds, yet the mean
    stored for the third window [1, 0.5, 0.5] is [0]: the running sum
    [1e16 + 1 + 1] rounds to [1e16], sliding leaves [1e16 - 1e16 + 0.5 =
    0.5], then [0.5 - 1 + 0.5 = 0].  So the divisor [|mean|] is zero and
    [cv = sqrt(variance) / |mean|] is NaN or infinite whatever the variance
    is; and the stored mean lies below the stored minimum [0.5], the
    condition [min > avg] the repository's harness reports as an error. *)
Theorem mean_divisor_zero :
  all_valid cancelling_prices /\
  forallb (fun p => dgt p 0%float) cancelling_prices = true /\
  exists result st w',
    analyzeSlidingWindow (Some cancelling_prices) 5 3 (Some None) None 0 w0
    = Ok ((0, Some (Some result), None), w') /\
    wr_windows result !! 2%nat = Some (Some st) /\
    ws_min st = 0.5%float /\ ws_max st = 1%float /\ ws_avg st = 0%float /\
    dgt (ws_min st) (ws_avg st) = true /\
    PrimFloat.eqb (PrimFloat.abs (ws_avg st)) 0%float = true /\
    forall variance,
      let cv := (PrimFloat.sqrt variance / PrimFloat.abs (ws_avg st))%float in
      PrimFloat.is_nan cv = true \/ PrimFloat.is_infinity cv = true.
Proof.
  split; [vm_compute; reflexivity|].
  split; [vm_compute; reflexivity|].
  do 3 eexists. split; [vm_compute; reflexivity|].
  split; [vm_compute; reflexivity|].
  do 5 (split; [vm_compute; reflexivity|]).
  intros variance. cbn [ws_avg]. change (PrimFloat.abs 0) with 0%float.
  apply div_zero_undefined.
Qed.

(** ** Ordering of the stored statistics *)

(** The stored [min] and [max] are the window's extrema: prices of the
    window, bounding every price of the window. *)
Lemma stored_extrema prices W out_handle err_buf err_buf_len w r e w' :
  analyzeSlidingWindow (Some prices) (Z.of_nat (length prices)) W out_handle
    err_buf err_buf_len w = Ok ((0, r, e), w') ->
  0 <= W ->
  exists result,
    r = Some (Some result) /\
    forall j, 0 <= j < wr_num_windows result ->
      exists st,
        wr_windows result !! Z.to_nat j = Some (Some st) /\
        is_max prices j (j + W - 1) (ws_max st) /\
        is_min prices j (j + W - 1) (ws_min st).
Proof.
  intros H HW0.
  destruct (stored_windows _ _ _ _ _ _ _ _ _ H HW0) as (result & -> & Hnum & Hst).
  exists result. split; [reflexivity|].
  intros j Hj. destruct (Hst j Hj) as (st & L & Hx & Hn & _).
  exists st. auto.
Qed.

(** C3 fails on the code: for the single window of [0.1, 0.1, 0.1] the
    stored [max] and [min] are [0.1], but the stored average is
    [(0.1 + 0.1 + 0.1) / 3 = 0.10000000000000002]: [avg <= max] is false,
    the very condition the repository's harness reports as an error. *)
Theorem window_avg_above_max :
  exists result st w',
    analyzeSlidingWindow (Some tenths) 3 3 (Some None) None 0 w0
    = Ok ((0, Some (Some result), None), w') /\
    wr_windows result !! 0%nat = Some (Some st) /\
    ws_max st = 0.1%float /\ ws_min st = 0.1%float /\
    ws_avg st = ((0 + 0.1 + 0.1 + 0.1) / 3)%float /\
    dle (ws_avg st) (ws_max st) = false /\
    dgt (ws_avg st) (ws_max st) = true.
Proof.
  do 3 eexists. split; [vm_compute; reflexivity|].
  split; [vm_compute; reflexivity|].
  repeat split; vm_compute; reflexivity.
Qed.

(** ** Optional output pointers *)

(** The query on a built tree, for any selection of output pointers. *)
Lemma query_any_outputs prices tree ql qr :
  SegTreeSpec.built prices tree ->
  Z.of_nat (length prices) <= MAX_ARRAY_SIZE ->
  0 <= ql <= qr -> qr < Z.of_nat (length prices) ->
  exists mn mx avg var,
    forall outs err_buf err_buf_len w,
      SegTree.querySegmentTree (Some tree) ql qr outs err_buf err_buf_len w
      = Ok ((0,
             {| SegTree.out_min := written (SegTree.out_min outs) mn;
                SegTree.out_max := written (SegTree.out_max outs) mx;
                SegTree.out_avg := written (SegTree.out_avg outs) avg;
                SegTree.out_variance := written (SegTree.out_variance outs) var |},
             err_buf), w).
Proof.
  intros Hb Hlen Hq Hqr.
  destruct (SegTreeProofs.query_result_any_world prices tree ql qr Hb Hlen Hq Hqr)
    as (l & r & ex & Hp & Hloop).
  set (node := SegTreeSpec.eval prices ex) in *.
  set (count := double_of_size_t (tn_count node)).
  exists (tn_min node), (tn_max node), (tn_sum node / count)%float,
    (tn_sum_sq node / count - tn_sum node / count * (tn_sum node / count))%float.
  intros outs err_buf err_buf_len w.
  assert (Hcount : tn_count node = qr - ql + 1).
  { unfold MAX_ARRAY_SIZE in Hlen. assert (Hl := Permutation_length Hp).
    rewrite SegTreeProofs.length_positions in Hl.
    unfold node. rewrite SegTreeProofs.eval_count; lia. }
  unfold SegTree.querySegmentTree. pose proof Hb as (Hl & _). rewrite Hl.
  destruct (qr <? ql) eqn:E1; [apply Z.ltb_lt in E1; lia|].
  destruct (Z.of_nat (length prices) <=? qr) eqn:E2; [apply Z.leb_le in E2; lia|].
  change (false || false) with false. cbv iota. rewrite <- Hl.
  rewrite (bind_ok _ _ _ _ _ (Hloop w)). cbv beta iota.
  unfold SegTree.compute_outputs, ret. fold count.
  destruct (0 <? tn_count node) eqn:E3; [reflexivity|apply Z.ltb_ge in E3; lia].
Qed.

(** The accessor on a stored window, for any selection of output pointers. *)
Lemma get_any_outputs result idx st :
  0 <= idx < wr_num_windows result ->
  wr_windows result !! Z.to_nat idx = Some (Some st) ->
  forall outs out_pattern_len err_buf err_len w,
    getWindowResult (Some result) idx outs out_pattern_len err_buf err_len w
    = Ok ((0,
           {| out_max := written (out_max outs) (ws_max st);
              out_min := written (out_min outs) (ws_min st);
              out_avg := written (out_avg outs) (ws_avg st);
              out_pattern :=
                if 0 <? out_pattern_len
                then written (out_pattern outs)
                       (strncpy_terminated (ws_pattern st)
                          (sz (out_pattern_len - 1)))
                else out_pattern outs |},
           err_buf), w).
Proof.
  intros Hidx L outs out_pattern_len err_buf err_len w. unfold getWindowResult.
  destruct (wr_num_windows result <=? idx) eqn:E1; [apply Z.leb_le in E1; lia|].
  rewrite (bind_ok _ _ _ _ _ (load_ok _ idx st w ltac:(lia) L)). reflexivity.
Qed.

(** C9: [querySegmentTree] and [getWindowResult] accept NULL for any of
    their statistic output pointers.  On a built tree and a valid range, and
    on the result of a successful analysis and a valid window index, they
    return 0, store the statistic through every pointer that is not NULL and
    nothing through a NULL one, leave the error buffer and the allocator
    alone, and the values stored ([mn], [mx], [avg], [var]; the fields of
    [st]) are the same whichever pointers are supplied.  The pattern is
    copied, cut to [out_pattern_len - 1] characters, when [out_pattern] is
    not NULL and [out_pattern_len > 0]. *)
Theorem optional_outputs :
  (forall prices out_tree_handle eb0 el0 wb tree eb1 wb' ql qr,
     SegTree.buildSegmentTree (Some prices) (Z.of_nat (length prices))
       out_tree_handle eb0 el0 wb = Ok ((0, Some (Some tree), eb1), wb') ->
     0 <= ql <= qr -> qr < Z.of_nat (length prices) ->
     exists mn mx avg var,
       forall outs err_buf err_buf_len w,
         SegTree.querySegmentTree (Some tree) ql qr outs err_buf err_buf_len w
         = Ok ((0,
                {| SegTree.out_min := written (SegTree.out_min outs) mn;
                   SegTree.out_max := written (SegTree.out_max outs) mx;
                   SegTree.out_avg := written (SegTree.out_avg outs) avg;
                   SegTree.out_variance := written (SegTree.out_variance outs) var |},
                err_buf), w)) /\
  (forall prices W out_handle eb0 el0 wa result eb1 wa' idx,
     analyzeSlidingWindow (Some prices) (Z.of_nat (length prices)) W out_handle
       eb0 el0 wa = Ok ((0, Some (Some result), eb1), wa') ->
     0 <= W -> 0 <= idx < wr_num_windows result ->
     exists st,
       wr_windows result !! Z.to_nat idx = Some (Some st) /\
       forall outs out_pattern_len err_buf err_len w,
         getWindowResult (Some result) idx outs out_pattern_len err_buf err_len w
         = Ok ((0,
                {| out_max := written (out_max outs) (ws_max st);
                   out_min := written (out_min outs) (ws_min st);
                   out_avg := written (out_avg outs) (ws_avg st);
                   out_pattern :=
                     if 0 <? out_pattern_len
                     then written (out_pattern outs)
                            (strncpy_terminated (ws_pattern st)
                               (sz (out_pattern_len - 1)))
                     else out_pattern outs |},
                err_buf), w)).
Proof.
  split.
  - intros prices out_tree_handle eb0 el0 wb tree eb1 wb' ql qr Hbuild Hq Hqr.
    destruct (SegTreeProofs.buildSegmentTree_success _ _ _ _ _ _ _ _ Hbuild)
      as (Hv & Hlen & tree' & Et & Hb).
    inversion Et; subst tree'; clear Et.
    apply (query_any_outputs prices tree ql qr Hb ltac:(lia) Hq Hqr).
  - intros prices W out_handle eb0 el0 wa result eb1 wa' idx H HW0 Hidx.
    destruct (stored_windows _ _ _ _ _ _ _ _ _ H HW0) as (result' & Er & Hnum & Hst).
    inversion Er; subst result'; clear Er.
    destruct (Hst idx Hidx) as (st & L & _).
    exists st. split; [exact L|]. apply get_any_outputs; assumption.
Qed.

Lemma optional_outputs_witness :
  (exists mn mx avg var,
     forall outs err_buf err_buf_len w,
       SegTree.querySegmentTree (Some SegTreeSpec.tree3) 1 2 outs err_buf err_buf_len w
       = Ok ((0,
              {| SegTree.out_min := written (SegTree.out_min outs) mn;
                 SegTree.out_max := written (SegTree.out_max outs) mx;
                 SegTree.out_avg := written (SegTree.out_avg outs) avg;
                 SegTree.out_variance := written (SegTree.out_variance outs) var |},
              err_buf), w)) /\
  (exists result st,
     wr_windows result !! Z.to_nat 1 = Some (Some st) /\
     forall outs out_pattern_len err_buf err_len w,
       getWindowResult (Some result) 1 outs out_pattern_len err_buf err_len w
       = Ok ((0,
              {| out_max := written (out_max outs) (ws_max st);
                 out_min := written (out_min outs) (ws_min st);
                 out_avg := written (out_avg outs) (ws_avg st);
                 out_pattern :=
                   if 0 <? out_pattern_len
                   then written (out_pattern outs)
                          (strncpy_terminated (ws_pattern st)
                             (sz (out_pattern_len - 1)))
                   else out_pattern outs |},
              err_buf), w)).
Proof.
  split.
  - apply (proj1 optional_outputs [1; 2; 3]%float (Some None) None 0 w0
             SegTreeSpec.tree3 None w0 1 2).
    + vm_compute. reflexivity.
    + lia.
    + vm_compute. reflexivity.
  - assert (E : exists result e w',
               analyzeSlidingWindow (Some five_prices) (Z.of_nat (length five_prices)) 3
                 (Some None) None 0 w0 = Ok ((0, Some (Some result), e), w')
               /\ wr_num_windows result = 3)
      by (do 3 eexists; split; vm_compute; reflexivity).
    destruct E as (result & e & w' & E & Hn).
    destruct (proj2 optional_outputs five_prices 3 (Some None) None 0 w0 result e w' 1 E
                ltac:(lia) ltac:(lia)) as (st & L & Hget).
    exists result, st. split; [exact L|exact Hget].
Defined.

End WindowProofs.
(** * Status codes *)

Module StatusProofs.
Import StockSpanSpec StockSpanProofs StatusSpec.

Lemma alloc_fails_false k w : alloc_fails k w = false -> allocs_succeed k w.
Proof.
  unfold alloc_fails, allocs_succeed. intros H.
  apply negb_false_iff in H. rewrite forallb_forall in H.
  apply Forall_forall. intros b Hb. apply list_elem_of_In in Hb.
  specialize (H b Hb). exact H.
Qed.

Lemma has_bad_price_false prices : has_bad_price prices = false -> all_valid prices.
Proof. unfold has_bad_price, all_valid. intros H. apply negb_false_iff in H. exact H. Qed.

Lemma validation_result prices w :
  has_invalid_price (length prices) 0 prices w = Ok (has_bad_price prices, w).
Proof.
  rewrite has_invalid_price_spec by lia. rewrite drop_0, firstn_all. reflexivity.
Qed.

(** ** calculateStockSpan *)

Lemma span_alloc_failure prices out err_buf err_buf_len w :
  invalid_length (Z.of_nat (length prices)) = false ->
  has_bad_price prices = false ->
  alloc_fails 3 w = true ->
  exists err' w',
    StockSpan.calculateStockSpan (Some prices) (Z.of_nat (length prices))
      (Some out) err_buf err_buf_len w
    = Ok ((-3, Some None, err'), w').
Proof.
  intros Hlen Hbad Hfail. unfold StockSpan.calculateStockSpan.
  unfold invalid_length in Hlen. rewrite Hlen. rewrite Nat2Z.id.
  rewrite (bind_ok _ _ _ _ _ (validation_result prices w)). rewrite Hbad.
  unfold alloc_fails in Hfail. destruct w as [orc tr]. cbn [oracle] in Hfail.
  unfold StockSpan.createStack.
  destruct orc as [|[|] [|[|] [|[|] rest]]]; try discriminate Hfail;
    unfold bind, malloc_array, bind, malloc, ret; cbn [oracle trace negb];
    eexists _, _; reflexivity.
Qed.

Lemma span_status prices length out_spans err_buf err_buf_len w :
  (forall ps, prices = Some ps -> length = Z.of_nat (List.length ps)) ->
  exists out' err' w',
    StockSpan.calculateStockSpan prices length out_spans err_buf err_buf_len w
    = Ok ((documented_status (is_null prices || is_null out_spans)
             (invalid_length length) (has_bad_price (default [] prices))
             (alloc_fails 3 w), out', err'), w') /\
    rejection
      (documented_status (is_null prices || is_null out_spans)
         (invalid_length length) (has_bad_price (default [] prices))
         (alloc_fails 3 w)) out_spans out' w w'.
Proof.
  intros Hwf. unfold rejection.
  destruct prices as [ps|]; [|eexists _, _, _; split; [reflexivity|simpl; auto]].
  destruct out_spans as [out|]; [|eexists _, _, _; split; [reflexivity|simpl; auto]].
  rewrite (Hwf ps eq_refl). simpl is_null. simpl orb. simpl default.
  unfold documented_status.
  destruct (invalid_length (Z.of_nat (List.length ps))) eqn:Hlen.
  { eexists _, _, _. split.
    { unfold StockSpan.calculateStockSpan. unfold invalid_length in Hlen.
    rewrite Hlen. reflexivity. }
    split; auto. }
  destruct (has_bad_price ps) eqn:Hbad.
  { eexists _, _, _. split.
    { unfold StockSpan.calculateStockSpan. unfold invalid_length in Hlen.
    rewrite Hlen, Nat2Z.id.
    rewrite (bind_ok _ _ _ _ _ (validation_result ps w)). rewrite Hbad. reflexivity. }
    split; auto. }
  destruct (alloc_fails 3 w) eqn:Hfail.
  { destruct (span_alloc_failure ps out err_buf err_buf_len w Hlen Hbad Hfail)
      as (err' & w' & E).
    exists (Some None), err', w'. split; [exact E|].
    split; [auto|]. intros [H|[H|H]]; discriminate. }
  unfold invalid_length in Hlen. apply orb_false_iff in Hlen. destruct Hlen as (H0 & H1).
  apply Z.eqb_neq in H0. apply Z.ltb_ge in H1.
  destruct (calculateStockSpan_run ps out err_buf err_buf_len w
              (has_bad_price_false _ Hbad) ltac:(lia) (alloc_fails_false _ _ Hfail))
    as (spans & w' & E & _).
  eexists _, _, _. split; [exact E|]. split; [congruence|].
  intros [H|[H|H]]; discriminate.
Qed.

(** ** buildSegmentTree *)

Lemma build_alloc_failure prices out err_buf err_buf_len w :
  invalid_length (Z.of_nat (length prices)) = false ->
  has_bad_price prices = false ->
  alloc_fails 2 w = true ->
  exists err' w',
    SegTree.buildSegmentTree (Some prices) (Z.of_nat (length prices))
      (Some out) err_buf err_buf_len w
    = Ok ((-3, Some out, err'), w').
Proof.
  intros Hlen Hbad Hfail. unfold SegTree.buildSegmentTree.
  unfold invalid_length in Hlen. rewrite Hlen. rewrite Nat2Z.id.
  rewrite (bind_ok _ _ _ _ _ (validation_result prices w)). rewrite Hbad.
  unfold alloc_fails in Hfail. destruct w as [orc tr]. cbn [oracle] in Hfail.
  destruct orc as [|[|] [|[|] rest]]; try discriminate Hfail;
    unfold bind, malloc_array, bind, malloc, ret; cbn [oracle trace negb];
    eexists _, _; reflexivity.
Qed.

Lemma build_status prices length out_tree_handle err_buf err_buf_len w :
  (forall ps, prices = Some ps -> length = Z.of_nat (List.length ps)) ->
  exists out' err' w',
    SegTree.buildSegmentTree prices length out_tree_handle err_buf err_buf_len w
    = Ok ((documented_status (is_null prices || is_null out_tree_handle)
             (invalid_length length) (has_bad_price (default [] prices))
             (alloc_fails 2 w), out', err'), w') /\
    rejection
      (documented_status (is_null prices || is_null out_tree_handle)
         (invalid_length length) (has_bad_price (default [] prices))
         (alloc_fails 2 w)) out_tree_handle out' w w'.
Proof.
  intros Hwf. unfold rejection.
  destruct prices as [ps|]; [|eexists _, _, _; split; [reflexivity|simpl; auto]].
  destruct out_tree_handle as [out|];
    [|eexists _, _, _; split; [reflexivity|simpl; auto]].
  rewrite (Hwf ps eq_refl). simpl is_null. simpl orb. simpl default.
  unfold documented_status.
  destruct (invalid_length (Z.of_nat (List.length ps))) eqn:Hlen.
  { eexists _, _, _. split.
    { unfold SegTree.buildSegmentTree. unfold invalid_length in Hlen.
    rewrite Hlen. reflexivity. }
    split; auto. }
  destruct (has_bad_price ps) eqn:Hbad.
  { eexists _, _, _. split.
    { unfold SegTree.buildSegmentTree. unfold invalid_length in Hlen.
    rewrite Hlen, Nat2Z.id.
    rewrite (bind_ok _ _ _ _ _ (validation_result ps w)). rewrite Hbad. reflexivity. }
    split; auto. }
  destruct (alloc_fails 2 w) eqn:Hfail.
  { destruct (build_alloc_failure ps out err_buf err_buf_len w Hlen Hbad Hfail)
      as (err' & w' & E).
    exists (Some out), err', w'. split; [exact E|].
    split; [auto|]. intros [H|[H|H]]; discriminate. }
  unfold invalid_length in Hlen. apply orb_false_iff in Hlen. destruct Hlen as (H0 & H1).
  apply Z.eqb_neq in H0. apply Z.ltb_ge in H1.
  destruct (SegTreeProofs.buildSegmentTree_run ps out err_buf err_buf_len w
              (has_bad_price_false _ Hbad) ltac:(lia) (alloc_fails_false _ _ Hfail))
    as (tree & w' & E & _).
  eexists _, _, _. split; [exact E|]. split; [congruence|].
  intros [H|[H|H]]; discriminate.
Qed.

(** A failing build never writes the handle cell. *)
Lemma build_never_nulls prices length out_tree_handle err_buf err_buf_len w st out' err' w' :
  SegTree.buildSegmentTree prices length out_tree_handle err_buf err_buf_len w
  = Ok ((st, out', err'), w') ->
  st <> 0 -> out' = out_tree_handle.
Proof.
  unfold SegTree.buildSegmentTree. intros H Hst.
  destruct prices as [ps|]; [|inversion H; reflexivity].
  destruct out_tree_handle as [out|]; [|inversion H; reflexivity].
  destruct ((length =? 0) || (MAX_ARRAY_SIZE <? length)); [inversion H; reflexivity|].
  apply bind_inv in H. destruct H as (bad & w1 & _ & H).
  destruct bad; [inversion H; reflexivity|].
  apply bind_inv in H. destruct H as (got & w2 & _ & H).
  destruct got; simpl in H; [|inversion H; reflexivity].
  apply bind_inv in H. destruct H as (nodes & w3 & _ & H).
  destruct nodes as [nodes|]; [|inversion H; reflexivity].
  apply bind_inv in H. destruct H as (n1 & w4 & _ & H).
  apply bind_inv in H. destruct H as (n2 & w5 & _ & H).
  inversion H; subst. congruence.
Qed.

(** ** analyzeSlidingWindow *)

Lemma analyze_alloc_failure prices W out err_buf err_buf_len w :
  invalid_window (Z.of_nat (length prices)) W = false ->
  has_bad_price prices = false ->
  alloc_fails 6 w = true ->
  exists err' w',
    SlidingWindow.analyzeSlidingWindow (Some prices) (Z.of_nat (length prices)) W
      (Some out) err_buf err_buf_len w
    = Ok ((-3, Some out, err'), w').
Proof.
  intros Hlen Hbad Hfail. unfold SlidingWindow.analyzeSlidingWindow.
  unfold invalid_window, invalid_length in Hlen. rewrite Hlen. rewrite Nat2Z.id.
  rewrite (bind_ok _ _ _ _ _ (validation_result prices w)). rewrite Hbad.
  unfold alloc_fails in Hfail. destruct w as [orc tr]. cbn [oracle] in Hfail.
  unfold SlidingWindow.createDeque.
  destruct orc as [|[|] [|[|] [|[|] [|[|] [|[|] [|[|] rest]]]]]];
    try discriminate Hfail;
    unfold bind, malloc_array, bind, malloc, ret; cbn [oracle trace negb];
    eexists _, _; reflexivity.
Qed.

Lemma analyze_status prices length W out_handle err_buf err_buf_len w :
  (forall ps, prices = Some ps -> length = Z.of_nat (List.length ps)) ->
  0 <= W ->
  exists out' err' w',
    SlidingWindow.analyzeSlidingWindow prices length W out_handle
      err_buf err_buf_len w
    = Ok ((documented_status (is_null prices || is_null out_handle)
             (invalid_window length W) (has_bad_price (default [] prices))
             (alloc_fails 6 w), out', err'), w') /\
    rejection
      (documented_status (is_null prices || is_null out_handle)
         (invalid_window length W) (has_bad_price (default [] prices))
         (alloc_fails 6 w)) out_handle out' w w'.
Proof.
  intros Hwf HW0. unfold rejection.
  destruct prices as [ps|]; [|eexists _, _, _; split; [reflexivity|simpl; auto]].
  destruct out_handle as [out|]; [|eexists _, _, _; split; [reflexivity|simpl; auto]].
  rewrite (Hwf ps eq_refl). simpl is_null. simpl orb. simpl default.
  unfold documented_status.
  destruct (invalid_window (Z.of_nat (List.length ps)) W) eqn:Hlen.
  { eexists _, _, _. split.
    { unfold SlidingWindow.analyzeSlidingWindow.
    unfold invalid_window, invalid_length in Hlen. rewrite Hlen. reflexivity. }
    split; auto. }
  destruct (has_bad_price ps) eqn:Hbad.
  { eexists _, _, _. split.
    { unfold SlidingWindow.analyzeSlidingWindow.
    unfold invalid_window, invalid_length in Hlen. rewrite Hlen, Nat2Z.id.
    rewrite (bind_ok _ _ _ _ _ (validation_result ps w)). rewrite Hbad. reflexivity. }
    split; auto. }
  destruct (alloc_fails 6 w) eqn:Hfail.
  { destruct (analyze_alloc_failure ps W out err_buf err_buf_len w Hlen Hbad Hfail)
      as (err' & w' & E).
    exists (Some out), err', w'. split; [exact E|].
    split; [auto|]. intros [H|[H|H]]; discriminate. }
  unfold invalid_window, invalid_length in Hlen.
  repeat (apply orb_false_iff in Hlen; destruct Hlen as (Hlen & ?)).
  repeat match goal with
         | H : (_ =? _) = false |- _ => apply Z.eqb_neq in H
         | H : (_ <? _) = false |- _ => apply Z.ltb_ge in H
         end.
  destruct (WindowProofs.analyzeSlidingWindow_run ps W out err_buf err_buf_len w
              (has_bad_price_false _ Hbad) ltac:(lia) ltac:(lia)
              (alloc_fails_false _ _ Hfail))
    as (result & w' & evs & E & _).
  eexists _, _, _. split; [exact E|]. split; [congruence|].
  intros [H'|[H'|H']]; discriminate.
Qed.

(** A failing analysis never writes the handle cell. *)
Lemma analyze_never_nulls prices length W out_handle err_buf err_buf_len w st out' err' w' :
  SlidingWindow.analyzeSlidingWindow prices length W out_handle err_buf err_buf_len w
  = Ok ((st, out', err'), w') ->
  st <> 0 -> out' = out_handle.
Proof.
  unfold SlidingWindow.analyzeSlidingWindow. intros H Hst.
  destruct prices as [ps|]; [|inversion H; reflexivity].
  destruct out_handle as [out|]; [|inversion H; reflexivity].
  destruct ((length =? 0) || (MAX_ARRAY_SIZE <? length) || (W =? 0) || (length <? W));
    [inversion H; reflexivity|].
  apply bind_inv in H. destruct H as (bad & w1 & _ & H).
  destruct bad; [inversion H; reflexivity|].
  apply bind_inv in H. destruct H as (got & w2 & _ & H).
  destruct got; simpl in H; [|inversion H; reflexivity].
  apply bind_inv in H. destruct H as (wins & w3 & _ & H).
  destruct wins as [wins|]; [|inversion H; reflexivity].
  apply bind_inv in H. destruct H as (mx & w4 & _ & H).
  apply bind_inv in H. destruct H as (mn & w5 & _ & H).
  destruct mx as [mx|]; [|inversion H; reflexivity].
  destruct mn as [mn|]; [|inversion H; reflexivity].
  apply bind_inv in H. destruct H as (s1 & w6 & _ & H).
  apply bind_inv in H. destruct H as (s2 & w7 & _ & H).
  apply bind_inv in H. destruct H as (s3 & w8 & _ & H).
  inversion H; subst. congruence.
Qed.

(** ** The accessors *)

Lemma query_status tree_handle ql qr outs err_buf err_buf_len w :
  tree_handle_ok tree_handle -> 0 <= ql ->
  exists outs' err',
    SegTree.querySegmentTree tree_handle ql qr outs err_buf err_buf_len w
    = Ok ((documented_status (is_null tree_handle)
             (invalid_range tree_handle ql qr) false false, outs', err'), w) /\
    (documented_status (is_null tree_handle)
       (invalid_range tree_handle ql qr) false false <> 0 -> outs' = outs).
Proof.
  intros Hok Hql. destruct tree_handle as [tree|];
    [|eexists _, _; split; [reflexivity|auto]].
  unfold documented_status. simpl is_null. cbv iota. simpl invalid_range.
  destruct ((qr <? ql) || (st_length tree <=? qr)) eqn:Hr.
  { eexists _, _. split.
    { unfold SegTree.querySegmentTree. rewrite Hr. reflexivity. }
    auto. }
  destruct (Hok tree eq_refl) as (prices & out & eb & el & wb & e & wb' & Hbuild).
  destruct (SegTreeProofs.buildSegmentTree_success _ _ _ _ _ _ _ _ Hbuild)
    as (_ & _ & tree' & Et & Hb).
  inversion Et; subst tree'. pose proof Hb as (Hl & _).
  apply orb_false_iff in Hr. destruct Hr as (H1 & H2).
  apply Z.ltb_ge in H1. apply Z.leb_gt in H2. rewrite Hl in H2.
  destruct (SegTreeProofs.buildSegmentTree_success _ _ _ _ _ _ _ _ Hbuild)
    as (_ & Hlen & _).
  destruct (WindowProofs.query_any_outputs prices tree ql qr Hb ltac:(lia) ltac:(lia) H2)
    as (mn & mx & avg & var & Hq).
  eexists _, _. split; [apply Hq|]. intros H. congruence.
Qed.

Lemma get_status window_handle idx outs out_pattern_len err_buf err_len w :
  window_handle_ok window_handle -> 0 <= idx ->
  exists outs' err',
    SlidingWindow.getWindowResult window_handle idx outs out_pattern_len
      err_buf err_len w
    = Ok ((documented_status (is_null window_handle)
             (invalid_index window_handle idx) false false, outs', err'), w) /\
    (documented_status (is_null window_handle)
       (invalid_index window_handle idx) false false <> 0 -> outs' = outs).
Proof.
  intros Hok Hidx. destruct window_handle as [result|];
    [|eexists _, _; split; [reflexivity|auto]].
  unfold documented_status. simpl is_null. cbv iota. simpl invalid_index.
  destruct (wr_num_windows result <=? idx) eqn:Hr.
  { eexists _, _. split.
    { unfold SlidingWindow.getWindowResult. rewrite Hr. reflexivity. }
    auto. }
  destruct (Hok result eq_refl) as (prices & W & out & eb & el & wa & e & wa' & HW & Hrun).
  apply Z.leb_gt in Hr.
  destruct (WindowProofs.stored_windows _ _ _ _ _ _ _ _ _ Hrun HW)
    as (result' & Er & Hnum & Hst).
  inversion Er; subst result'; clear Er.
  destruct (Hst idx ltac:(lia)) as (st & L & _).
  eexists _, _. split; [apply (WindowProofs.get_any_outputs result idx st); [lia|exact L]|].
  intros H. congruence.
Qed.

(** ** All operations *)

(** C7: every operation returns the documented status code: 0 on success,
    -1 on a null required argument, -2 on an invalid length, window size,
    query range or window index (an empty sequence, [windowSize = 0] and
    [ql > qr] among them), -4 when a price is NaN or infinite, -3 when an
    allocation fails.  A call rejected with -1, -2 or -4 has reserved no
    memory and has not touched the caller's output cell; a call that fails
    with -3 leaves the cell as it was or NULL; the accessors leave their
    outputs untouched when they reject.  No rejected call stores an output
    handle or span array for the caller. *)
Theorem status_codes :
  (forall prices length out_spans err_buf err_buf_len w,
     (forall ps, prices = Some ps -> length = Z.of_nat (List.length ps)) ->
     let status :=
       documented_status (is_null prices || is_null out_spans)
         (invalid_length length) (has_bad_price (default [] prices))
         (alloc_fails 3 w) in
     exists out' err' w',
       StockSpan.calculateStockSpan prices length out_spans err_buf err_buf_len w
       = Ok ((status, out', err'), w') /\
       rejection status out_spans out' w w') /\
  (forall prices length out_tree_handle err_buf err_buf_len w,
     (forall ps, prices = Some ps -> length = Z.of_nat (List.length ps)) ->
     let status :=
       documented_status (is_null prices || is_null out_tree_handle)
         (invalid_length length) (has_bad_price (default [] prices))
         (alloc_fails 2 w) in
     exists out' err' w',
       SegTree.buildSegmentTree prices length out_tree_handle err_buf err_buf_len w
       = Ok ((status, out', err'), w') /\
       rejection status out_tree_handle out' w w' /\
       (status <> 0 -> out' = out_tree_handle)) /\
  (forall prices length W out_handle err_buf err_buf_len w,
     (forall ps, prices = Some ps -> length = Z.of_nat (List.length ps)) ->
     0 <= W ->
     let status :=
       documented_status (is_null prices || is_null out_handle)
         (invalid_window length W) (has_bad_price (default [] prices))
         (alloc_fails 6 w) in
     exists out' err' w',
       SlidingWindow.analyzeSlidingWindow prices length W out_handle
         err_buf err_buf_len w
       = Ok ((status, out', err'), w') /\
       rejection status out_handle out' w w' /\
       (status <> 0 -> out' = out_handle)) /\
  (forall tree_handle ql qr outs err_buf err_buf_len w,
     tree_handle_ok tree_handle -> 0 <= ql ->
     let status :=
       documented_status (is_null tree_handle) (invalid_range tree_handle ql qr)
         false false in
     exists outs' err',
       SegTree.querySegmentTree tree_handle ql qr outs err_buf err_buf_len w
       = Ok ((status, outs', err'), w) /\
       (status <> 0 -> outs' = outs)) /\
  (forall window_handle idx outs out_pattern_len err_buf err_len w,
     window_handle_ok window_handle -> 0 <= idx ->
     let status :=
       documented_status (is_null window_handle) (invalid_index window_handle idx)
         false false in
     exists outs' err',
       SlidingWindow.getWindowResult window_handle idx outs out_pattern_len
         err_buf err_len w
       = Ok ((status, outs', err'), w) /\
       (status <> 0 -> outs' = outs)).
Proof.
  split; [|split; [|split; [|split]]].
  - intros prices length out_spans err_buf err_buf_len w Hwf status.
    apply span_status. exact Hwf.
  - intros prices length out err_buf err_buf_len w Hwf status.
    destruct (build_status prices length out err_buf err_buf_len w Hwf)
      as (out' & err' & w' & E & Hrej).
    exists out', err', w'. split; [exact E|]. split; [exact Hrej|].
    fold status in E, Hrej. intros Hst.
    destruct (build_never_nulls _ _ _ _ _ _ _ _ _ _ E Hst). reflexivity.
  - intros prices length W out err_buf err_buf_len w Hwf HW status.
    destruct (analyze_status prices length W out err_buf err_buf_len w Hwf HW)
      as (out' & err' & w' & E & Hrej).
    exists out', err', w'. split; [exact E|]. split; [exact Hrej|].
    fold status in E, Hrej. intros Hst.
    destruct (analyze_never_nulls _ _ _ _ _ _ _ _ _ _ _ E Hst). reflexivity.
  - intros tree_handle ql qr outs err_buf err_buf_len w Hok Hql status.
    apply query_status; assumption.
  - intros window_handle idx outs out_pattern_len err_buf err_len w Hok Hidx status.
    apply get_status; assumption.
Qed.

(** The rejection scenarios of the specification: an empty sequence, a
    sequence containing NaN, [windowSize = 0], [ql > qr], and a NULL handle. *)
Lemma status_codes_witness :
  (exists out' err' w',
     StockSpan.calculateStockSpan (Some []) 0 (Some None) None 0 w0
     = Ok ((-2, out', err'), w') /\
     rejection (-2) (Some None) out' w0 w') /\
  (exists out' err' w',
     SegTree.buildSegmentTree (Some [1; PrimFloat.nan]%float) 2 (Some None) None 0 w0
     = Ok ((-4, out', err'), w') /\
     rejection (-4) (Some None) out' w0 w' /\
     (-4 <> 0 -> out' = Some None)) /\
  (exists out' err' w',
     SlidingWindow.analyzeSlidingWindow (Some [1; 2; 3]%float) 3 0 (Some None) None 0 w0
     = Ok ((-2, out', err'), w') /\
     rejection (-2) (Some None) out' w0 w' /\
     (-2 <> 0 -> out' = Some None)) /\
  (exists outs' err',
     SegTree.querySegmentTree (Some SegTreeSpec.tree3) 2 1
       (SegTree.mkOutputs None None None None) None 0 w0
     = Ok ((-2, outs', err'), w0) /\
     (-2 <> 0 -> outs' = SegTree.mkOutputs None None None None)) /\
  (exists outs' err',
     SlidingWindow.getWindowResult None 0
       (SlidingWindow.mkWindowOutputs None None None None) 0 None 0 w0
     = Ok ((-1, outs', err'), w0) /\
     (-1 <> 0 -> outs' = SlidingWindow.mkWindowOutputs None None None None)).
Proof.
  destruct status_codes as (Hspan & Hbuild & Han & Hq & Hg).
  split; [|split; [|split; [|split]]].
  - apply (Hspan (Some []) 0 (Some None) None 0 w0).
    intros ps H. inversion H. reflexivity.
  - apply (Hbuild (Some [1; PrimFloat.nan]%float) 2 (Some None) None 0 w0).
    intros ps H. inversion H. reflexivity.
  - apply (Han (Some [1; 2; 3]%float) 3 0 (Some None) None 0 w0).
    + intros ps H. inversion H. reflexivity.
    + lia.
  - apply (Hq (Some SegTreeSpec.tree3) 2 1 (SegTree.mkOutputs None None None None)
             None 0 w0); [|lia].
    intros tree H. inversion H; subst tree.
    exists [1; 2; 3]%float, (Some None), None, 0, w0, None, w0.
    vm_compute. reflexivity.
  - apply (Hg None 0 (SlidingWindow.mkWindowOutputs None None None None) 0 None 0 w0);
      [|lia].
    intros result H. discriminate H.
Defined.

End StatusProofs.
(** * Loop rules for runs that are known to complete *)

Lemma for_up_post {St} (P : Z -> St -> world -> Prop) (body : Z -> St -> M St) n :
  forall i0 s w s' w',
    (forall k s w s' w', 0 <= k < Z.of_nat n ->
       body (i0 + k) s w = Ok (s', w') -> P (i0 + k) s w -> P (i0 + k + 1) s' w') ->
    for_up n i0 body s w = Ok (s', w') ->
    P i0 s w -> P (i0 + Z.of_nat n) s' w'.
Proof.
  induction n as [|n IH]; intros i0 s w s' w' Hstep Hrun HP.
  - simpl in Hrun. inversion Hrun; subst. rewrite Z.add_0_r. exact HP.
  - simpl in Hrun. apply bind_inv in Hrun. destruct Hrun as (s1 & w1 & E1 & Hrun).
    replace (i0 + Z.of_nat (S n)) with (i0 + 1 + Z.of_nat n) by lia.
    apply (IH (i0 + 1) s1 w1 s' w'); [|exact Hrun|].
    + intros k s2 w2 s3 w3 Hk Hb HP2.
      replace (i0 + 1 + k) with (i0 + (k + 1)) in * by lia.
      replace (i0 + (k + 1) + 1) with (i0 + (k + 1) + 1) by lia.
      apply (Hstep (k + 1) s2 w2 s3 w3); [lia|exact Hb|exact HP2].
    + specialize (Hstep 0 s w s1 w1 ltac:(lia)).
      rewrite Z.add_0_r in Hstep. apply Hstep; assumption.
Qed.

Lemma for_down_post {St} (P : Z -> St -> world -> Prop) (body : Z -> St -> M St) n :
  forall i0 s w s' w',
    (forall k s w s' w', 0 <= k < Z.of_nat n ->
       body (i0 - k) s w = Ok (s', w') -> P (i0 - k) s w -> P (i0 - k - 1) s' w') ->
    for_down n i0 body s w = Ok (s', w') ->
    P i0 s w -> P (i0 - Z.of_nat n) s' w'.
Proof.
  induction n as [|n IH]; intros i0 s w s' w' Hstep Hrun HP.
  - simpl in Hrun. inversion Hrun; subst. rewrite Z.sub_0_r. exact HP.
  - simpl in Hrun. apply bind_inv in Hrun. destruct Hrun as (s1 & w1 & E1 & Hrun).
    replace (i0 - Z.of_nat (S n)) with (i0 - 1 - Z.of_nat n) by lia.
    apply (IH (i0 - 1) s1 w1 s' w'); [|exact Hrun|].
    + intros k s2 w2 s3 w3 Hk Hb HP2.
      replace (i0 - 1 - k) with (i0 - (k + 1)) in * by lia.
      apply (Hstep (k + 1) s2 w2 s3 w3); [lia|exact Hb|exact HP2].
    + specialize (Hstep 0 s w s1 w1 ltac:(lia)).
      rewrite Z.sub_0_r in Hstep. apply Hstep; assumption.
Qed.

Lemma while_post {St} (P Q : St -> world -> Prop) (cond : St -> M bool)
    (body : St -> M St) :
  (forall s w b w1, cond s w = Ok (b, w1) -> P s w ->
     (b = false -> Q s w1) /\
     (b = true -> forall s' w', body s w1 = Ok (s', w') -> P s' w')) ->
  forall fuel s w s' w',
    while fuel cond body s w = Ok (s', w') -> P s w -> Q s' w'.
Proof.
  intros Hstep. induction fuel as [|fuel IH]; intros s w s' w' Hrun HP.
  - discriminate Hrun.
  - simpl in Hrun. apply bind_inv in Hrun. destruct Hrun as (b & w1 & Ec & Hrun).
    destruct (Hstep s w b w1 Ec HP) as (Hf & Ht). destruct b.
    + apply bind_inv in Hrun. destruct Hrun as (s1 & w2 & Eb & Hrun).
      apply (IH s1 w2 s' w' Hrun). apply (Ht eq_refl s1 w2 Eb).
    + inversion Hrun; subst. apply Hf. reflexivity.
Qed.
(** * stock_span.c: shape of the spans, and the index stack *)

Module StockSpanFacts.
Import StockSpan StockSpanSpec StockSpanProofs.

(** ** The spans *)

(** X1: what the harness checks of every span: it is positive and at most the
    number of positions up to its own; the first span is 1. *)
Theorem span_bounds prices out err_buf err_buf_len w :
  all_valid prices ->
  1 <= Z.of_nat (length prices) <= MAX_ARRAY_SIZE ->
  allocs_succeed 3 w ->
  exists spans w',
    calculateStockSpan (Some prices) (Z.of_nat (length prices)) (Some out)
      err_buf err_buf_len w
    = Ok ((0, Some (Some spans), err_buf), w') /\
    spans !! 0%nat = Some (Some 1) /\
    forall i, 0 <= i < Z.of_nat (length prices) ->
      exists s, spans !! Z.to_nat i = Some (Some s) /\ 1 <= s <= i + 1.
Proof.
  intros Hv Hlen Hok.
  destruct (calculateStockSpan_run prices out err_buf err_buf_len w Hv Hlen Hok)
    as (spans & w' & E & _ & Hsp).
  exists spans, w'. split; [exact E|]. split.
  - destruct (Hsp 0 ltac:(lia)) as (b & (Hb & _) & L).
    replace b with (-1) in L by lia. exact L.
  - intros i Hi. destruct (Hsp i Hi) as (b & (Hb & _) & L).
    exists (i - b). split; [exact L|lia].
Qed.

Lemma span_bounds_witness :
  exists spans w',
    calculateStockSpan (Some example_prices) 7 (Some None) None 0 w0
    = Ok ((0, Some (Some spans), None), w') /\
    spans !! 0%nat = Some (Some 1) /\
    forall i, 0 <= i < 7 ->
      exists s, spans !! Z.to_nat i = Some (Some s) /\ 1 <= s <= i + 1.
Proof.
  apply (span_bounds example_prices None None 0 w0).
  - vm_compute. reflexivity.
  - vm_compute. split; discriminate.
  - constructor.
Defined.

(** X2: the span reaches back to the start of the array exactly at a running
    maximum: [span[i] = i + 1] if and only if no earlier price is strictly
    greater than [prices[i]]. *)
Theorem span_full_iff_running_max prices out err_buf err_buf_len w :
  all_valid prices ->
  1 <= Z.of_nat (length prices) <= MAX_ARRAY_SIZE ->
  allocs_succeed 3 w ->
  exists spans w',
    calculateStockSpan (Some prices) (Z.of_nat (length prices)) (Some out)
      err_buf err_buf_len w
    = Ok ((0, Some (Some spans), err_buf), w') /\
    forall i, 0 <= i < Z.of_nat (length prices) ->
      (spans !! Z.to_nat i = Some (Some (i + 1)) <->
       forall k, 0 <= k < i -> dgt (price prices k) (price prices i) = false).
Proof.
  intros Hv Hlen Hok.
  destruct (calculateStockSpan_run prices out err_buf err_buf_len w Hv Hlen Hok)
    as (spans & w' & E & _ & Hsp).
  exists spans, w'. split; [exact E|].
  intros i Hi. destruct (Hsp i Hi) as (b & (Hb & Hle & Hgt) & L).
  assert (Hvp : forall k, 0 <= k <= i -> valid_price (price prices k) = true)
    by (intros k Hk; apply all_valid_price; [assumption|lia]).
  split.
  - intros L'. rewrite L in L'. assert (b = -1) as -> by (inversion L'; lia).
    intros k Hk. rewrite dgt_dle by (apply Hvp; lia).
    rewrite Hle by lia. reflexivity.
  - intros Hall. destruct (Z.eq_dec b (-1)) as [->|Hne].
    + rewrite L. replace (i - -1) with (i + 1) by lia. reflexivity.
    + exfalso. specialize (Hall b ltac:(lia)).
      rewrite dgt_dle, Hgt in Hall by (first [apply Hvp; lia | lia]).
      discriminate.
Qed.

Lemma span_full_iff_running_max_witness :
  exists spans w',
    calculateStockSpan (Some example_prices) 7 (Some None) None 0 w0
    = Ok ((0, Some (Some spans), None), w') /\
    forall i, 0 <= i < 7 ->
      (spans !! Z.to_nat i = Some (Some (i + 1)) <->
       forall k, 0 <= k < i ->
         dgt (price example_prices k) (price example_prices i) = false).
Proof.
  apply (span_full_iff_running_max example_prices None None 0 w0).
  - vm_compute. reflexivity.
  - vm_compute. split; discriminate.
  - constructor.
Defined.

(** X3: from one day to the next: after a fall in price the span restarts at 1;
    otherwise the run of the day before is carried over and the span grows
    by at least one. *)
Theorem span_step_relation prices out err_buf err_buf_len w :
  all_valid prices ->
  1 <= Z.of_nat (length prices) <= MAX_ARRAY_SIZE ->
  allocs_succeed 3 w ->
  exists spans w',
    calculateStockSpan (Some prices) (Z.of_nat (length prices)) (Some out)
      err_buf err_buf_len w
    = Ok ((0, Some (Some spans), err_buf), w') /\
    forall i, 1 <= i < Z.of_nat (length prices) ->
      exists s_prev s,
        spans !! Z.to_nat (i - 1) = Some (Some s_prev) /\
        spans !! Z.to_nat i = Some (Some s) /\
        (dgt (price prices (i - 1)) (price prices i) = true -> s = 1) /\
        (dle (price prices (i - 1)) (price prices i) = true -> s_prev + 1 <= s).
Proof.
  intros Hv Hlen Hok.
  destruct (calculateStockSpan_run prices out err_buf err_buf_len w Hv Hlen Hok)
    as (spans & w' & E & _ & Hsp).
  exists spans, w'. split; [exact E|].
  intros i Hi.
  destruct (Hsp (i - 1) ltac:(lia)) as (b' & (Hb' & Hle' & Hgt') & L').
  destruct (Hsp i ltac:(lia)) as (b & (Hb & Hle & Hgt) & L).
  assert (Hvp : forall k, 0 <= k <= i -> valid_price (price prices k) = true)
    by (intros k Hk; apply all_valid_price; [assumption|lia]).
  exists (i - 1 - b'), (i - b). split; [exact L'|]. split; [exact L|]. split.
  - intros Hfall. rewrite dgt_dle in Hfall by (apply Hvp; lia).
    destruct (Z.eq_dec b (i - 1)) as [->|Hne]; [lia|].
    rewrite Hle in Hfall by lia. discriminate.
  - intros Hstep.
    assert (b <> i - 1) by (intros ->; rewrite Hgt in Hstep by lia; discriminate).
    destruct (Z_le_gt_dec b b') as [Hbb|Hbb]; [lia|]. exfalso.
    assert (Hd : dle (price prices b) (price prices i) = true).
    { apply dle_trans with (price prices (i - 1)); [apply Hle'; lia|exact Hstep]. }
    rewrite Hgt in Hd by lia. discriminate.
Qed.

Lemma span_step_relation_witness :
  exists spans w',
    calculateStockSpan (Some example_prices) 7 (Some None) None 0 w0
    = Ok ((0, Some (Some spans), None), w') /\
    forall i, 1 <= i < 7 ->
      exists s_prev s,
        spans !! Z.to_nat (i - 1) = Some (Some s_prev) /\
        spans !! Z.to_nat i = Some (Some s) /\
        (dgt (price example_prices (i - 1)) (price example_prices i) = true -> s = 1) /\
        (dle (price example_prices (i - 1)) (price example_prices i) = true ->
         s_prev + 1 <= s).
Proof.
  apply (span_step_relation example_prices None None 0 w0).
  - vm_compute. reflexivity.
  - vm_compute. split; discriminate.
  - constructor.
Defined.

End StockSpanFacts.

(** ** The index stack *)

Module IndexStackFacts.
Import StockSpan StockSpanSpec StockSpanProofs StockSpanDrivers.

Lemma createStack_inv capacity w stack w' :
  0 <= capacity < 2 ^ 61 ->
  createStack capacity w = Ok (Some stack, w') ->
  stack = {| stk_data := replicate (Z.to_nat capacity) None;
             stk_top := 0; stk_capacity := capacity |}.
Proof.
  intros Hc. unfold createStack, malloc_array, bind, ret. intros H.
  destruct (malloc w) as [[[|] w1]| |]; simpl in H; try discriminate.
  destruct (malloc w1) as [[[|] w2]| |]; simpl in H; try discriminate.
  inversion H.
  rewrite malloc_slots by (unfold sizeof_size_t; lia). reflexivity.
Qed.

Lemma created_rep capacity :
  0 <= capacity < 2 ^ 64 ->
  stack_rep {| stk_data := replicate (Z.to_nat capacity) None;
               stk_top := 0; stk_capacity := capacity |} [].
Proof.
  intros Hc. unfold stack_rep. simpl. rewrite length_replicate.
  split; [reflexivity|]. split; [apply take_0|]. split; lia.
Qed.

Lemma push_all_rep vs : forall stack items w,
  stack_rep stack items ->
  Z.of_nat (length items) + Z.of_nat (length vs) <= stk_capacity stack ->
  exists stack',
    push_all vs stack w = Ok (stack', w) /\ stack_rep stack' (rev vs ++ items) /\
    stk_capacity stack' = stk_capacity stack.
Proof.
  induction vs as [|v vs IH]; intros stack items w Hrep Hlen.
  - exists stack. simpl. auto.
  - simpl length in Hlen.
    destruct (push_rep stack items v w Hrep ltac:(lia)) as (s1 & E1 & Hrep1).
    assert (Hcap : stk_capacity s1 = stk_capacity stack).
    { unfold push, bind, ret in E1.
      destruct (store (stk_data stack) (stk_top stack) v w) as [[d w1]| |];
        inversion E1. reflexivity. }
    destruct (IH s1 (v :: items) w Hrep1) as (s2 & E2 & Hrep2 & Hcap2).
    { simpl length. lia. }
    exists s2. simpl. rewrite (bind_ok _ _ _ _ _ E1).
    split; [exact E2|]. split; [|congruence].
    rewrite <- app_assoc. exact Hrep2.
Qed.

Lemma pop_all_rep popped : forall stack rest w,
  stack_rep stack (popped ++ rest) ->
  exists stack',
    pop_all (length popped) stack w = Ok ((popped, stack'), w) /\
    stack_rep stack' rest.
Proof.
  induction popped as [|a popped IH]; intros stack rest w Hrep.
  - exists stack. simpl. auto.
  - destruct (pop_rep stack a (popped ++ rest) w Hrep) as (s1 & E1 & Hrep1).
    destruct (IH s1 rest w Hrep1) as (s2 & E2 & Hrep2).
    exists s2. simpl. rewrite (bind_ok _ _ _ _ _ E1). cbv beta iota.
    rewrite (bind_ok _ _ _ _ _ E2). split; [reflexivity|exact Hrep2].
Qed.

(** X4: the stack of stock_span.c is a LIFO of fixed capacity without checks of
    its own.  On a stack obtained from [createStack capacity], for a
    capacity whose byte count [capacity * sizeof(size_t)] does not wrap
    ([capacity < 2^61]): [pop] and
    [peek] index out of bounds while it is empty; any [vs] of at most
    [capacity] values can be pushed; the stack is then non-empty unless [vs]
    is, a further push indexes out of bounds once [capacity] values are on
    it, and popping [length vs] times returns the values last pushed first
    and leaves the stack empty. *)
Theorem stack_round_trip capacity vs v w stack w1 :
  0 <= capacity < 2 ^ 61 ->
  createStack capacity w = Ok (Some stack, w1) ->
  Z.of_nat (length vs) <= capacity ->
  pop stack w1 = Fault /\ peek stack w1 = Fault /\
  exists s1,
    push_all vs stack w1 = Ok (s1, w1) /\
    isEmpty s1 = match vs with [] => true | _ => false end /\
    (Z.of_nat (length vs) = capacity -> push s1 v w1 = Fault) /\
    exists s2,
      pop_all (length vs) s1 w1 = Ok ((rev vs, s2), w1) /\
      isEmpty s2 = true.
Proof.
  intros Hc Hcreate Hlen. apply createStack_inv in Hcreate; [|exact Hc].
  subst stack.
  pose proof (created_rep capacity ltac:(lia)) as Hrep.
  assert (Hempty : forall i, 0 <= i -> capacity <= i ->
            load (replicate (Z.to_nat capacity) (@None Z)) i w1 = Fault).
  { intros i Hi Hci. unfold load.
    destruct (i <? 0) eqn:E; [apply Z.ltb_lt in E; lia|].
    rewrite (proj2 (lookup_ge_None _ _)); [reflexivity|].
    rewrite length_replicate. lia. }
  assert (Hs : sz (0 - 1) = 2 ^ 64 - 1) by reflexivity.
  split.
  { unfold pop, bind. cbn [stk_top stk_data]. rewrite Hs, Hempty by lia.
    reflexivity. }
  split.
  { unfold peek. cbn [stk_top stk_data]. rewrite Hs. apply Hempty; lia. }
  destruct (push_all_rep vs _ [] w1 Hrep) as (s1 & E1 & Hrep1 & Hcap1).
  { simpl. lia. }
  rewrite app_nil_r in Hrep1. exists s1. split; [exact E1|]. split.
  { rewrite (stack_isEmpty_rep _ _ Hrep1).
    destruct vs as [|a vs]; [reflexivity|]. simpl.
    destruct (rev vs ++ [a]) eqn:E; [|reflexivity].
    apply app_eq_nil in E. destruct E; discriminate. }
  split.
  { intros Hfull. unfold push, bind, store.
    destruct Hrep1 as (Htop & _ & Hdata & _). rewrite length_rev in Htop.
    simpl in Hcap1.
    replace (stk_top s1 <? Z.of_nat (length (stk_data s1))) with false;
      [rewrite andb_false_r; reflexivity|].
    symmetry. apply Z.ltb_ge. lia. }
  destruct (pop_all_rep (rev vs) s1 [] w1) as (s2 & E2 & Hrep2).
  { rewrite app_nil_r. exact Hrep1. }
  rewrite length_rev in E2. exists s2. split; [exact E2|].
  rewrite (stack_isEmpty_rep _ _ Hrep2). reflexivity.
Qed.

Lemma stack_round_trip_witness :
  exists stack s1 s2,
    createStack 3 w0 = Ok (Some stack, w0) /\
    pop stack w0 = Fault /\ peek stack w0 = Fault /\
    push_all [4; 5; 6] stack w0 = Ok (s1, w0) /\
    isEmpty s1 = false /\
    push s1 7 w0 = Fault /\
    pop_all 3 s1 w0 = Ok (([6; 5; 4], s2), w0) /\
    isEmpty s2 = true.
Proof.
  assert (E : exists stack, createStack 3 w0 = Ok (Some stack, w0))
    by (eexists; vm_compute; reflexivity).
  destruct E as (stack & E).
  destruct (stack_round_trip 3 [4; 5; 6] 7 w0 stack w0 ltac:(lia) E ltac:(simpl; lia))
    as (Hpop & Hpeek & s1 & E1 & He1 & Hfull & s2 & E2 & He2).
  exists stack, s1, s2. repeat split; try assumption.
  apply Hfull. reflexivity.
Defined.

End IndexStackFacts.
(** * segment_tree.c: what the nodes hold, and the cost of a query *)

Module SegTreeFacts.
Import SegTree StockSpanSpec StockSpanProofs SegTreeSpec SegTreeProofs.

(** ** Every level of the implicit tree covers the whole sequence *)

(** The slots [lo .. 2*lo - 1] partition the leaves, for every [lo] between
    1 and [n]: going from [lo + 1] to [lo] replaces the slots [2*lo] and
    [2*lo + 1] by their parent. *)
Lemma antichain_cover n (d : nat) :
  1 <= n - Z.of_nat d ->
  exists L,
    range_cover n (n - Z.of_nat d) (2 * (n - Z.of_nat d) - 1) L /\
    Permutation L (positions 0 (Z.to_nat n)).
Proof.
  induction d as [|d IH]; intros Hlo.
  - exists (positions 0 (Z.to_nat n)). split; [|reflexivity].
    pose proof (range_cover_leaves n n (Z.to_nat n) ltac:(lia) ltac:(lia)) as H.
    replace (n + Z.of_nat (Z.to_nat n) - 1) with (2 * (n - Z.of_nat 0) - 1) in H by lia.
    replace (n - n) with 0 in H by lia.
    replace (n - Z.of_nat 0) with n by lia.
    replace (2 * (n - Z.of_nat 0) - 1) with (2 * n - 1) in H by lia. exact H.
  - destruct (IH ltac:(lia)) as (L & Hc & Hp).
    set (lo := n - Z.of_nat (S d)) in *.
    replace (n - Z.of_nat d) with (lo + 1) in Hc by lia.
    replace (2 * (lo + 1) - 1) with (2 * lo + 1) in Hc by lia.
    destruct (range_cover_peel_right _ _ _ _ Hc ltac:(lia)) as (eb & L1 & Heb & Hc1 & Hp1).
    replace (2 * lo + 1 - 1) with (2 * lo) in Hc1 by lia.
    destruct (range_cover_peel_right _ _ _ _ Hc1 ltac:(lia)) as (ea & L2 & Hea & Hc2 & Hp2).
    exists (leaves (MMerge ea eb) ++ L2). split.
    + apply rc_cons; [lia| |exact Hc2].
      apply shape_node; [lia|exact Hea|exact Heb].
    + rewrite <- Hp, Hp1, Hp2. simpl.
      rewrite (Permutation_app_comm (leaves ea ++ leaves eb) L2).
      rewrite app_assoc. reflexivity.
Qed.

Lemma cover_segment n lo hi L k :
  range_cover n lo hi L -> lo <= k <= hi ->
  exists e L1 L2, node_shape n k e /\ L = L1 ++ leaves e ++ L2.
Proof.
  induction 1 as [lo hi Hlt|lo hi e L Hle He Hrest IH]; intros Hk; [lia|].
  destruct (Z.eq_dec lo k) as [->|Hne].
  - exists e, [], L. split; [exact He|reflexivity].
  - destruct (IH ltac:(lia)) as (e' & L1 & L2 & He' & ->).
    exists e', (leaves e ++ L1), L2. split; [exact He'|].
    rewrite <- app_assoc. reflexivity.
Qed.

Lemma NoDup_positions lo len : NoDup (positions lo len).
Proof.
  unfold positions. apply NoDup_fmap_2; [|apply NoDup_seq].
  intros a b Hab. lia.
Qed.

(** The positions a node aggregates are distinct positions of the sequence. *)
Lemma shape_leaves_distinct n k e :
  1 <= k < 2 * n -> node_shape n k e ->
  List.NoDup (leaves e) /\ forall i, In i (leaves e) -> 0 <= i < n.
Proof.
  intros Hk He.
  set (lo := Z.min k n).
  destruct (antichain_cover n (Z.to_nat (n - lo)) ltac:(lia)) as (L & Hc & Hp).
  replace (n - Z.of_nat (Z.to_nat (n - lo))) with lo in Hc by lia.
  destruct (cover_segment _ _ _ _ k Hc ltac:(lia)) as (e' & L1 & L2 & He' & ->).
  rewrite (node_shape_fun _ _ _ He _ He').
  assert (Hnd : NoDup (L1 ++ leaves e' ++ L2)).
  { rewrite Hp. apply NoDup_positions. }
  split.
  - apply NoDup_ListNoDup.
    apply NoDup_app in Hnd. destruct Hnd as (_ & _ & Hnd).
    apply NoDup_app in Hnd. destruct Hnd as (Hnd & _). exact Hnd.
  - intros i Hi.
    assert (Hin : In i (positions 0 (Z.to_nat n))).
    { apply list_elem_of_In. rewrite <- Hp. apply list_elem_of_In.
      apply in_or_app. right. apply in_or_app. left. exact Hi. }
    apply in_positions in Hin. lia.
Qed.

Lemma root_shape n :
  1 <= n ->
  exists e, node_shape n 1 e /\ Permutation (leaves e) (positions 0 (Z.to_nat n)).
Proof.
  intros Hn.
  destruct (antichain_cover n (Z.to_nat (n - 1)) ltac:(lia)) as (L & Hc & Hp).
  replace (n - Z.of_nat (Z.to_nat (n - 1))) with 1 in Hc by lia.
  change (2 * 1 - 1) with 1 in Hc.
  inversion Hc as [|lo hi e L' Hle He Hrest]; subst; [lia|].
  rewrite (range_cover_empty _ _ _ _ Hrest) in Hp by lia.
  rewrite app_nil_r in Hp. exists e. auto.
Qed.

(** ** Slot 0 is never written *)

Lemma store_other {T} (a : list (option T)) i v w a' w' (j : nat) :
  store a i v w = Ok (a', w') -> Z.to_nat i <> j -> a' !! j = a !! j.
Proof.
  unfold store, ret. destruct ((0 <=? i) && (i <? Z.of_nat (length a))); [|discriminate].
  intros H Hne. inversion H; subst. apply list_lookup_insert_ne. exact Hne.
Qed.

Lemma build_slot0 prices out_tree_handle err_buf err_buf_len w tree e w' :
  buildSegmentTree (Some prices) (Z.of_nat (length prices)) out_tree_handle
    err_buf err_buf_len w = Ok ((0, Some (Some tree), e), w') ->
  st_nodes tree !! 0%nat = Some None.
Proof.
  intros H. unfold buildSegmentTree in H.
  destruct out_tree_handle as [out|]; [|inversion H].
  destruct (Z.of_nat (length prices) =? 0) eqn:E0; [inversion H|].
  destruct (MAX_ARRAY_SIZE <? Z.of_nat (length prices)) eqn:E1; [inversion H|].
  simpl orb in H. cbv iota in H.
  apply Z.eqb_neq in E0. apply Z.ltb_ge in E1. unfold MAX_ARRAY_SIZE in E1.
  apply bind_inv in H. destruct H as (bad & w1 & _ & H).
  destruct bad; [inversion H|].
  apply bind_inv in H. destruct H as (got & w2 & _ & H).
  destruct got; [|inversion H]. simpl negb in H. cbv iota in H.
  apply bind_inv in H. destruct H as (nodes & w3 & Ea & H).
  destruct nodes as [nodes|]; [|inversion H].
  apply bind_inv in H. destruct H as (nodes1 & w4 & Eleaf & H).
  apply bind_inv in H. destruct H as (nodes2 & w5 & Eint & H).
  inversion H; subst. simpl.
  assert (H0 : nodes !! 0%nat = Some None).
  { unfold malloc_array, bind, ret in Ea.
    destruct (malloc w2) as [[[|] wx]| |]; inversion Ea; subst.
    apply lookup_replicate_2. rewrite (sz_small (2 * _)) by lia.
    rewrite malloc_slots by (unfold sizeof_TreeNode; lia). lia. }
  assert (H1 : nodes1 !! 0%nat = Some None).
  { refine (for_up_post (fun _ nd _ => nd !! 0%nat = Some None) _ _ _ _ _ _ _
              _ Eleaf H0).
    intros k s wa s' wb Hk Hb HP. unfold leaf_step in Hb.
    apply bind_inv in Hb. destruct Hb as (p & wc & _ & Hb).
    rewrite (store_other _ _ _ _ _ _ 0%nat Hb); [exact HP|].
    rewrite sz_small by lia. lia. }
  refine (for_down_post (fun _ nd _ => nd !! 0%nat = Some None) _ _ _ _ _ _ _
            _ Eint H1).
  intros k s wa s' wb Hk Hb HP. unfold internal_step in Hb.
  apply bind_inv in Hb. destruct Hb as (l & wc & _ & Hb).
  apply bind_inv in Hb. destruct Hb as (r & wd & _ & Hb).
  rewrite (store_other _ _ _ _ _ _ 0%nat Hb); [exact HP|].
  rewrite sz_small by lia. lia.
Qed.

(** ** The nodes of a built tree *)

(** X5: the root, slot 1, summarises the whole sequence whatever its length:
    it aggregates every position exactly once, so its count is [n], its
    [min] and [max] are the extrema of all prices, and its sums are the
    floating-point sums of all prices and of all squares, added in the
    association of the tree. *)
Theorem tree_root prices out_tree_handle err_buf err_buf_len w tree e w' :
  buildSegmentTree (Some prices) (Z.of_nat (length prices)) out_tree_handle
    err_buf err_buf_len w = Ok ((0, Some (Some tree), e), w') ->
  let n := Z.of_nat (length prices) in
  exists root ex,
    st_nodes tree !! 1%nat = Some (Some root) /\
    Permutation (leaves ex) (positions 0 (length prices)) /\
    tn_count root = n /\
    is_min prices 0 (n - 1) (tn_min root) /\
    is_max prices 0 (n - 1) (tn_max root) /\
    tn_sum root = fsum prices ex /\
    tn_sum_sq root = fsum_sq prices ex.
Proof.
  intros H n.
  destruct (buildSegmentTree_success _ _ _ _ _ _ _ _ H) as (Hv & Hlen & tree' & Et & Hb).
  inversion Et; subst tree'; clear Et. fold n in Hlen.
  destruct (root_shape n ltac:(lia)) as (ex & Hs & Hp).
  unfold n in Hp. rewrite Nat2Z.id in Hp.
  destruct (built_shape prices tree Hb 1 ltac:(lia)) as (e1 & Hs1 & L1).
  rewrite (node_shape_fun _ _ _ Hs1 _ Hs) in L1.
  exists (eval prices ex), ex. split; [exact L1|]. split; [exact Hp|].
  assert (Hin : forall i, In i (leaves ex) <-> 0 <= i <= n - 1).
  { intros i. rewrite <- list_elem_of_In, Hp, list_elem_of_In, in_positions. lia. }
  assert (Hvl : forall i, In i (leaves ex) -> valid_price (price prices i) = true).
  { intros i Hi. apply Hin in Hi. apply all_valid_price; [assumption|lia]. }
  split.
  { unfold MAX_ARRAY_SIZE in Hlen. assert (Hl := Permutation_length Hp).
    rewrite length_positions in Hl. rewrite eval_count; lia. }
  split.
  { destruct (eval_min prices ex Hvl) as ((i & Hi & Ei) & Hle).
    split; [exists i; split; [apply Hin; exact Hi|exact Ei]|].
    intros j Hj. apply Hle, Hin. exact Hj. }
  split.
  { destruct (eval_max prices ex Hvl) as ((i & Hi & Ei) & Hle).
    split; [exists i; split; [apply Hin; exact Hi|exact Ei]|].
    intros j Hj. apply Hle, Hin. exact Hj. }
  split; [apply eval_sum|apply eval_sum_sq].
Qed.

Lemma tree_root_witness :
  exists root ex,
    st_nodes tree3 !! 1%nat = Some (Some root) /\
    Permutation (leaves ex) (positions 0 3) /\
    tn_count root = 3 /\
    is_min [1; 2; 3]%float 0 (3 - 1) (tn_min root) /\
    is_max [1; 2; 3]%float 0 (3 - 1) (tn_max root) /\
    tn_sum root = fsum [1; 2; 3]%float ex /\
    tn_sum_sq root = fsum_sq [1; 2; 3]%float ex.
Proof.
  apply (tree_root [1; 2; 3]%float (Some None) None 0 w0 tree3 None w0).
  vm_compute. reflexivity.
Defined.

(** X6: every slot from 1 to [2n - 1] of a built tree holds the aggregate of a
    non-empty set of distinct positions of the sequence: its count is their
    number, its [min] and [max] are prices at positions of the set that
    bound every price of the set, and [min <= max].  Slot 0 is allocated
    but never written. *)
Theorem tree_nodes_sound prices out_tree_handle err_buf err_buf_len w tree e w' :
  buildSegmentTree (Some prices) (Z.of_nat (length prices)) out_tree_handle
    err_buf err_buf_len w = Ok ((0, Some (Some tree), e), w') ->
  let n := Z.of_nat (length prices) in
  st_nodes tree !! 0%nat = Some None /\
  forall k, 1 <= k < 2 * n ->
    exists node L,
      st_nodes tree !! Z.to_nat k = Some (Some node) /\
      L <> [] /\ List.NoDup L /\ (forall i, In i L -> 0 <= i < n) /\
      tn_count node = Z.of_nat (length L) /\
      (exists i, In i L /\ tn_min node = price prices i) /\
      (exists i, In i L /\ tn_max node = price prices i) /\
      (forall i, In i L ->
         dle (tn_min node) (price prices i) = true /\
         dle (price prices i) (tn_max node) = true) /\
      dle (tn_min node) (tn_max node) = true.
Proof.
  intros H n. split; [exact (build_slot0 _ _ _ _ _ _ _ _ H)|].
  destruct (buildSegmentTree_success _ _ _ _ _ _ _ _ H) as (Hv & Hlen & tree' & Et & Hb).
  inversion Et; subst tree'; clear Et. fold n in Hlen.
  intros k Hk.
  destruct (built_shape prices tree Hb k Hk) as (ex & Hs & Lk).
  destruct (shape_leaves_distinct n k ex Hk Hs) as (Hnd & Hrange).
  assert (Hvl : forall i, In i (leaves ex) -> valid_price (price prices i) = true).
  { intros i Hi. apply Hrange in Hi. apply all_valid_price; [assumption|exact Hi]. }
  destruct (eval_min prices ex Hvl) as ((i & Hi & Ei) & Hmin).
  destruct (eval_max prices ex Hvl) as ((j & Hj & Ej) & Hmax).
  exists (eval prices ex), (leaves ex).
  split; [exact Lk|]. split; [apply leaves_nonempty|]. split; [exact Hnd|].
  split; [exact Hrange|]. split.
  { unfold MAX_ARRAY_SIZE in Hlen.
    pose proof (shape_leaves_bound _ _ _ Hs ltac:(lia)) as Hbd. fold n in Hbd.
    apply eval_count. nia. }
  split; [exists i; auto|]. split; [exists j; auto|]. split.
  { intros t Ht. split; [apply Hmin|apply Hmax]; exact Ht. }
  apply dle_trans with (price prices i); [apply Hmin; exact Hi|apply Hmax; exact Hi].
Qed.

Lemma tree_nodes_sound_witness :
  st_nodes tree3 !! 0%nat = Some None /\
  forall k, 1 <= k < 2 * 3 ->
    exists node L,
      st_nodes tree3 !! Z.to_nat k = Some (Some node) /\
      L <> [] /\ List.NoDup L /\ (forall i, In i L -> 0 <= i < 3) /\
      tn_count node = Z.of_nat (length L) /\
      (exists i, In i L /\ tn_min node = price [1; 2; 3]%float i) /\
      (exists i, In i L /\ tn_max node = price [1; 2; 3]%float i) /\
      (forall i, In i L ->
         dle (tn_min node) (price [1; 2; 3]%float i) = true /\
         dle (price [1; 2; 3]%float i) (tn_max node) = true) /\
      dle (tn_min node) (tn_max node) = true.
Proof.
  apply (tree_nodes_sound [1; 2; 3]%float (Some None) None 0 w0 tree3 None w0).
  vm_compute. reflexivity.
Defined.

End SegTreeFacts.

(** * segment_tree.c: queries compared, and the length of the query loop *)

Module QueryFacts.
Import SegTree StockSpanSpec StockSpanProofs SegTreeSpec SegTreeProofs.

(** The extrema a query reports, for any selection of outputs. *)
Lemma query_extrema prices tree ql qr :
  built prices tree -> all_valid prices ->
  Z.of_nat (length prices) <= MAX_ARRAY_SIZE ->
  0 <= ql <= qr -> qr < Z.of_nat (length prices) ->
  exists node,
    is_min prices ql qr (tn_min node) /\ is_max prices ql qr (tn_max node) /\
    tn_count node = qr - ql + 1 /\
    forall outs err_buf err_buf_len w,
      querySegmentTree (Some tree) ql qr outs err_buf err_buf_len w
      = Ok ((0, compute_outputs node outs, err_buf), w).
Proof.
  intros Hb Hv Hlen Hq Hqr.
  destruct (query_result_any_world prices tree ql qr Hb Hlen Hq Hqr)
    as (l & r & e & Hp & Hloop).
  exists (eval prices e).
  assert (Hin : forall i, In i (leaves e) <-> ql <= i <= qr).
  { intros i. rewrite <- list_elem_of_In, Hp, list_elem_of_In, in_positions. lia. }
  assert (Hvl : forall i, In i (leaves e) -> valid_price (price prices i) = true).
  { intros i Hi. apply Hin in Hi. apply all_valid_price; [assumption|lia]. }
  split.
  { destruct (eval_min prices e Hvl) as ((i & Hi & Ei) & Hle).
    split; [exists i; split; [apply Hin; exact Hi|exact Ei]|].
    intros j Hj. apply Hle, Hin. exact Hj. }
  split.
  { destruct (eval_max prices e Hvl) as ((i & Hi & Ei) & Hle).
    split; [exists i; split; [apply Hin; exact Hi|exact Ei]|].
    intros j Hj. apply Hle, Hin. exact Hj. }
  split.
  { unfold MAX_ARRAY_SIZE in Hlen. assert (Hl := Permutation_length Hp).
    rewrite length_positions in Hl. rewrite eval_count; lia. }
  intros outs err_buf err_buf_len w.
  unfold querySegmentTree. pose proof Hb as (Hl & _). rewrite Hl.
  destruct (qr <? ql) eqn:E1; [apply Z.ltb_lt in E1; lia|].
  destruct (Z.of_nat (length prices) <=? qr) eqn:E2; [apply Z.leb_le in E2; lia|].
  change (false || false) with false. cbv iota. rewrite <- Hl.
  rewrite (bind_ok _ _ _ _ _ (Hloop w)). reflexivity.
Qed.

(** X7: queries over nested ranges are consistent: the wider range reports a
    [min] that is no greater and a [max] that is no smaller, and every
    query reports [min <= max]. *)
Theorem query_nested prices out_tree_handle eb0 el0 wb tree eb1 wb'
    ql qr ql' qr' :
  buildSegmentTree (Some prices) (Z.of_nat (length prices)) out_tree_handle
    eb0 el0 wb = Ok ((0, Some (Some tree), eb1), wb') ->
  0 <= ql' <= ql -> ql <= qr -> qr <= qr' -> qr' < Z.of_nat (length prices) ->
  exists mn mx avg var mn' mx' avg' var',
    (forall o1 o2 o3 o4 err_buf err_buf_len w,
       querySegmentTree (Some tree) ql qr
         (mkOutputs (Some o1) (Some o2) (Some o3) (Some o4)) err_buf err_buf_len w
       = Ok ((0, mkOutputs (Some mn) (Some mx) (Some avg) (Some var), err_buf), w)) /\
    (forall o1 o2 o3 o4 err_buf err_buf_len w,
       querySegmentTree (Some tree) ql' qr'
         (mkOutputs (Some o1) (Some o2) (Some o3) (Some o4)) err_buf err_buf_len w
       = Ok ((0, mkOutputs (Some mn') (Some mx') (Some avg') (Some var'), err_buf), w)) /\
    dle mn' mn = true /\ dle mn mx = true /\ dle mx mx' = true.
Proof.
  intros Hbuild Hl Hlr Hr Hn.
  destruct (buildSegmentTree_success _ _ _ _ _ _ _ _ Hbuild)
    as (Hv & Hlen & tree' & Et & Hb).
  inversion Et; subst tree'; clear Et.
  destruct (query_extrema prices tree ql qr Hb Hv ltac:(lia) ltac:(lia) ltac:(lia))
    as (nd & Hmin & Hmax & Hcnt & Hq).
  destruct (query_extrema prices tree ql' qr' Hb Hv ltac:(lia) ltac:(lia) ltac:(lia))
    as (nd' & Hmin' & Hmax' & Hcnt' & Hq').
  pose (outs_of := fun node : TreeNode =>
    compute_outputs node (mkOutputs (Some 0%float) (Some 0%float) (Some 0%float)
                            (Some 0%float))).
  exists (tn_min nd), (tn_max nd),
    (default 0%float (out_avg (outs_of nd))),
    (default 0%float (out_variance (outs_of nd))),
    (tn_min nd'), (tn_max nd'),
    (default 0%float (out_avg (outs_of nd'))),
    (default 0%float (out_variance (outs_of nd'))).
  split.
  { intros. rewrite Hq. unfold outs_of, compute_outputs. simpl.
    destruct (0 <? tn_count nd); reflexivity. }
  split.
  { intros. rewrite Hq'. unfold outs_of, compute_outputs. simpl.
    destruct (0 <? tn_count nd'); reflexivity. }
  destruct Hmin as ((i & Hi & Ei) & Hle), Hmax as ((j & Hj & Ej) & Hge).
  destruct Hmin' as (_ & Hle'), Hmax' as (_ & Hge').
  split; [rewrite Ei; apply Hle'; lia|].
  split; [|rewrite Ej; apply Hge'; lia].
  apply dle_trans with (price prices i); [apply Hle; lia|apply Hge; lia].
Qed.

Lemma query_nested_witness :
  exists mn mx avg var mn' mx' avg' var',
    (forall o1 o2 o3 o4 err_buf err_buf_len w,
       querySegmentTree (Some tree3) 1 1
         (mkOutputs (Some o1) (Some o2) (Some o3) (Some o4)) err_buf err_buf_len w
       = Ok ((0, mkOutputs (Some mn) (Some mx) (Some avg) (Some var), err_buf), w)) /\
    (forall o1 o2 o3 o4 err_buf err_buf_len w,
       querySegmentTree (Some tree3) 0 2
         (mkOutputs (Some o1) (Some o2) (Some o3) (Some o4)) err_buf err_buf_len w
       = Ok ((0, mkOutputs (Some mn') (Some mx') (Some avg') (Some var'), err_buf), w)) /\
    dle mn' mn = true /\ dle mn mx = true /\ dle mx mx' = true.
Proof.
  apply (query_nested [1; 2; 3]%float (Some None) None 0 w0 tree3 None w0 1 1 0 2).
  - vm_compute. reflexivity.
  - lia.
  - lia.
  - lia.
  - simpl. lia.
Defined.

(** ** The query loop is logarithmic *)

Lemma while_more_fuel {St} (cond : St -> M bool) (body : St -> M St) fuel :
  forall s w r (extra : nat),
    while fuel cond body s w = Ok r ->
    while (fuel + extra) cond body s w = Ok r.
Proof.
  induction fuel as [|fuel IH]; intros s w r extra H; [discriminate H|].
  simpl in *. unfold bind in *.
  destruct (cond s w) as [[b w1]| |]; try discriminate. destruct b; [|exact H].
  destruct (body s w1) as [[s1 w2]| |]; try discriminate.
  apply IH. exact H.
Qed.

(** X8: the query loop is logarithmic, as segment_tree.h documents: for a
    valid query over a tree of [n] prices the body of
    [while (left <= right)] runs at most [log2 n + 2] times.  ([while fuel]
    answers [OutOfFuel] unless the loop condition fails within [fuel]
    evaluations, that is after at most [fuel - 1] runs of the body.)  The
    accumulator the loop leaves is the one [querySegmentTree] computes its
    outputs from. *)
Theorem query_loop_logarithmic prices out_tree_handle eb0 el0 wb tree eb1 wb'
    ql qr w :
  buildSegmentTree (Some prices) (Z.of_nat (length prices)) out_tree_handle
    eb0 el0 wb = Ok ((0, Some (Some tree), eb1), wb') ->
  0 <= ql <= qr -> qr < Z.of_nat (length prices) ->
  let iterations := Z.to_nat (Z.log2 (Z.of_nat (length prices)) + 2) in
  let start := (sz (ql + st_length tree), sz (qr + st_length tree),
                initial_result, true) in
  exists left_ right_ result first,
    while (S iterations) query_cond (query_body (st_nodes tree)) start w
    = Ok ((left_, right_, result, first), w) /\
    forall outs err_buf err_buf_len,
      querySegmentTree (Some tree) ql qr outs err_buf err_buf_len w
      = Ok ((0, compute_outputs result outs, err_buf), w).
Proof.
  intros Hbuild Hq Hqr iterations start.
  destruct (buildSegmentTree_success _ _ _ _ _ _ _ _ Hbuild)
    as (Hv & Hlen & tree' & Et & Hb).
  inversion Et; subst tree'; clear Et.
  set (n := Z.of_nat (length prices)) in *.
  set (target := positions ql (Z.to_nat (qr - ql + 1))).
  pose proof Hb as (Hl & _). fold n in Hl.
  assert (Hstart : start = (ql + n, qr + n, initial_result, true)).
  { unfold start. rewrite Hl. unfold MAX_ARRAY_SIZE in Hlen.
    rewrite !sz_small by lia. reflexivity. }
  assert (Hrun : exists s' w',
             while (S iterations) query_cond (query_body (st_nodes tree)) start w
             = Ok (s', w') /\ query_post prices target w s' w').
  { rewrite Hstart.
    apply (while_inv (query_inv prices target w) (query_post prices target w)
             (fun s => Z.to_nat (Z.log2 (2 * (snd (fst (fst s))) + 1)))).
    - intros s w1 HI. assert (w1 = w) as ->.
      { destruct s as (((l, r), result), first). destruct HI. assumption. }
      destruct s as (((l, r), result), first) eqn:Es.
      exists (l <=? r), w. split; [reflexivity|]. split.
      + intros Hle. apply Z.leb_le in Hle.
        destruct (query_body_inv prices tree target w s Hb ltac:(fold n; lia))
          as (s' & Eb & HI' & Hdec).
        * rewrite Es. exact HI.
        * rewrite Es. exact Hle.
        * rewrite Es in *. exists s', w. split; [exact Eb|]. split; [exact HI'|].
          simpl in Hdec. simpl snd at 2.
          assert (0 <= Z.log2 (2 * snd (fst (fst s')) + 1)) by apply Z.log2_nonneg.
          lia.
      + intros Hgt. apply Z.leb_gt in Hgt.
        destruct HI as (_ & Hl1 & Hr1 & acc & rem & Hacc & Hc & Hp).
        split; [reflexivity|]. exists acc. split; [exact Hacc|].
        rewrite (range_cover_empty _ _ _ _ Hc Hgt), app_nil_r in Hp. exact Hp.
    - split; [reflexivity|]. split; [lia|]. split; [fold n; lia|].
      exists [], target. split; [reflexivity|]. split; [|reflexivity].
      unfold target. fold n.
      pose proof (range_cover_leaves n (ql + n) (Z.to_nat (qr - ql + 1))
                    ltac:(lia) ltac:(lia)) as H.
      replace (ql + n + Z.of_nat (Z.to_nat (qr - ql + 1)) - 1) with (qr + n) in H by lia.
      replace (ql + n - n) with ql in H by lia. exact H.
    - simpl. unfold iterations.
      assert (Hlog : Z.log2 (2 * (qr + n) + 1) < Z.log2 n + 3).
      { apply Z.log2_lt_pow2; [lia|].
        pose proof (Z.log2_spec n ltac:(lia)) as (_ & Hup).
        pose proof (Z.log2_nonneg n).
        replace (Z.log2 n + 3) with (Z.succ (Z.log2 n) + 2) by lia.
        rewrite Z.pow_add_r by lia. change (2 ^ 2) with 4. lia. }
      assert (0 <= Z.log2 (2 * (qr + n) + 1)) by apply Z.log2_nonneg.
      pose proof (Z.log2_nonneg n). lia. }
  destruct Hrun as (s' & w'' & Erun & Hpost).
  destruct s' as (((l, r), result), first).
  assert (w'' = w) as -> by (destruct Hpost; assumption).
  exists l, r, result, first. split; [exact Erun|].
  intros outs err_buf err_buf_len.
  unfold querySegmentTree. rewrite Hl.
  destruct (qr <? ql) eqn:E1; [apply Z.ltb_lt in E1; lia|].
  destruct (n <=? qr) eqn:E2; [apply Z.leb_le in E2; lia|].
  change (false || false) with false. cbv iota.
  assert (E65 : while 65 query_cond (query_body (st_nodes tree)) start w
                = Ok ((l, r, result, first), w)).
  { assert (Hfuel : (S iterations <= 65)%nat).
    { unfold iterations. unfold MAX_ARRAY_SIZE in Hlen.
      assert (Z.log2 n < 24) by (apply Z.log2_lt_pow2; lia).
      pose proof (Z.log2_nonneg n). lia. }
    replace 65%nat with (S iterations + (65 - S iterations))%nat by lia.
    apply while_more_fuel. exact Erun. }
  unfold start in E65. rewrite Hl in E65.
  rewrite (bind_ok _ _ _ _ _ E65). reflexivity.
Qed.

Lemma query_loop_logarithmic_witness :
  exists left_ right_ result first,
    while 4 query_cond (query_body (st_nodes tree3))
      (sz (0 + st_length tree3), sz (2 + st_length tree3), initial_result, true) w0
    = Ok ((left_, right_, result, first), w0) /\
    forall outs err_buf err_buf_len,
      querySegmentTree (Some tree3) 0 2 outs err_buf err_buf_len w0
      = Ok ((0, compute_outputs result outs, err_buf), w0).
Proof.
  apply (query_loop_logarithmic [1; 2; 3]%float (Some None) None 0 w0 tree3 None w0
           0 2 w0).
  - vm_compute. reflexivity.
  - lia.
  - simpl. lia.
Defined.

End QueryFacts.
(** * sliding_window.c: the deque as a data structure *)

Module DequeFacts.
Import SlidingWindow DequeSpec DequeProofs DequeDrivers.

Lemma createDeque_created capacity w dq w' :
  0 <= capacity < 2 ^ 61 ->
  createDeque capacity w = Ok (Some dq, w') ->
  dq = {| dq_indices := replicate (Z.to_nat capacity) None;
          dq_front := 0; dq_back := 0; dq_capacity := capacity |}.
Proof.
  intros Hc. unfold createDeque, malloc_array, bind, ret. intros H.
  destruct (malloc w) as [[[|] w1]| |]; simpl in H; try discriminate.
  destruct (malloc w1) as [[[|] w2]| |]; simpl in H; try discriminate.
  inversion H.
  rewrite malloc_slots by (unfold sizeof_size_t; lia). reflexivity.
Qed.

Lemma created_deque_rep capacity :
  1 <= capacity < 2 ^ 63 ->
  dq_rep capacity
    {| dq_indices := replicate (Z.to_nat capacity) None;
       dq_front := 0; dq_back := 0; dq_capacity := capacity |} [].
Proof.
  intros Hcap. split; [reflexivity|]. split; [exact Hcap|].
  split; [simpl; rewrite length_replicate; lia|].
  exists 0, 0. simpl. rewrite Z.mod_0_l by lia.
  repeat split; try lia. intros k' v Hk. rewrite lookup_nil in Hk. discriminate.
Qed.

Lemma pushBack_all_rep cap vs : forall dq items w,
  dq_rep cap dq items ->
  Z.of_nat (length items) + Z.of_nat (length vs) <= cap - 1 ->
  exists dq' w',
    pushBack_all vs dq w = Ok (dq', w') /\ dq_rep cap dq' (rev vs ++ items).
Proof.
  induction vs as [|v vs IH]; intros dq items w Hrep Hlen.
  - exists dq, w. simpl. auto.
  - simpl length in Hlen.
    destruct (pushBack_rep cap dq items v w Hrep ltac:(lia)) as (dq1 & E1 & Hrep1).
    destruct (IH dq1 (v :: items) (logged w (EvDeque (OpPushBack v) dq)) Hrep1)
      as (dq2 & w2 & E2 & Hrep2).
    { simpl length. lia. }
    exists dq2, w2. simpl. rewrite (bind_ok _ _ _ _ _ E1).
    split; [exact E2|]. rewrite <- app_assoc. exact Hrep2.
Qed.

Lemma drain_front_rep cap vs : forall dq w,
  dq_rep cap dq (rev vs) ->
  exists dq' w',
    drain_front (length vs) dq w = Ok ((vs, dq'), w') /\ dq_rep cap dq' [].
Proof.
  induction vs as [|v vs IH]; intros dq w Hrep.
  - exists dq, w. simpl. auto.
  - simpl rev in Hrep.
    assert (Hlast : last (rev vs ++ [v]) = Some v) by apply last_snoc.
    pose proof (front_rep cap dq _ v w Hrep Hlast) as E1.
    destruct (popFront_rep cap dq _ v (logged w (EvDeque OpFront dq)) Hrep Hlast)
      as (dq1 & E2 & Hrep1).
    rewrite removelast_last in Hrep1.
    destruct (IH dq1 (logged (logged w (EvDeque OpFront dq)) (EvDeque OpPopFront dq))
                Hrep1) as (dq2 & w2 & E3 & Hrep2).
    exists dq2, w2. simpl. rewrite (bind_ok _ _ _ _ _ E1), (bind_ok _ _ _ _ _ E2).
    rewrite (bind_ok _ _ _ _ _ E3). split; [reflexivity|exact Hrep2].
Qed.

Lemma drain_back_rep cap items : forall dq w,
  dq_rep cap dq items ->
  exists dq' w',
    drain_back (length items) dq w = Ok ((items, dq'), w') /\ dq_rep cap dq' [].
Proof.
  induction items as [|b items IH]; intros dq w Hrep.
  - exists dq, w. simpl. auto.
  - pose proof (back_rep cap dq b items w Hrep) as E1.
    destruct (popBack_rep cap dq b items (logged w (EvDeque OpBack dq)) Hrep)
      as (dq1 & E2 & Hrep1).
    destruct (IH dq1 (logged (logged w (EvDeque OpBack dq)) (EvDeque OpPopBack dq))
                Hrep1) as (dq2 & w2 & E3 & Hrep2).
    exists dq2, w2. simpl. rewrite (bind_ok _ _ _ _ _ E1), (bind_ok _ _ _ _ _ E2).
    rewrite (bind_ok _ _ _ _ _ E3). split; [reflexivity|exact Hrep2].
Qed.

(** A push onto a deque that already holds [capacity - 1] entries succeeds
    and leaves a deque that reports itself empty. *)
Lemma pushBack_full cap dq items idx w :
  dq_rep cap dq items -> Z.of_nat (length items) = cap - 1 ->
  exists dq' w', pushBack dq idx w = Ok (dq', w') /\ isEmpty dq' = true.
Proof.
  intros (Hc & Hcap & Hl & F & B & HF & HLen & HLc & Hf & Hb & Hs) Hfull.
  assert (Hbk : 0 <= dq_back dq < cap) by (rewrite Hb; apply Z.mod_pos_bound; lia).
  eexists _, _. unfold pushBack. rewrite (bind_ok _ _ _ _ _ (log_ok _ w)).
  rewrite (bind_ok _ _ _ _ _ (store_ok (dq_indices dq) (dq_back dq) idx _ ltac:(lia))).
  rewrite (bind_ok _ _ _ _ _ (sz_rem_ok _ (dq_capacity dq) _ ltac:(lia))).
  split; [reflexivity|]. unfold isEmpty. simpl. apply Z.eqb_eq.
  rewrite Hc, Hb, Hf. rewrite sz_succ_mod by (try apply Z.mod_pos_bound; lia).
  rewrite Zplus_mod_idemp_l. replace (B + 1) with (F + 1 * cap) by lia.
  rewrite Z_mod_plus_full. reflexivity.
Qed.

(** X9: the deque of sliding_window.c is a double-ended queue on a circular
    buffer, without checks of its own.  On a deque obtained from
    [createDeque capacity], for [capacity >= 2] whose byte count
    [capacity * sizeof(size_t)] does not wrap ([capacity < 2^61]):
    - it is empty, and [popFront] or [popBack] on it do not fail but leave
      a deque that reports itself non-empty;
    - any [vs] of at most [capacity - 1] indices can be pushed at the back;
      the deque is then non-empty unless [vs] is;
    - once [capacity - 1] indices are in it, one more push makes it report
      itself empty: it holds at most [capacity - 1] entries;
    - reading and popping at the front returns [vs] in the order pushed,
      reading and popping at the back returns it reversed; either way the
      deque ends empty. *)
Theorem deque_round_trip capacity vs v w dq w1 :
  2 <= capacity < 2 ^ 61 ->
  createDeque capacity w = Ok (Some dq, w1) ->
  Z.of_nat (length vs) <= capacity - 1 ->
  isEmpty dq = true /\
  (exists dq' w', popFront dq w1 = Ok (dq', w') /\ isEmpty dq' = false) /\
  (exists dq' w', popBack dq w1 = Ok (dq', w') /\ isEmpty dq' = false) /\
  exists dq1 w2,
    pushBack_all vs dq w1 = Ok (dq1, w2) /\
    isEmpty dq1 = match vs with [] => true | _ => false end /\
    (Z.of_nat (length vs) = capacity - 1 ->
     exists dq2 w3, pushBack dq1 v w2 = Ok (dq2, w3) /\ isEmpty dq2 = true) /\
    (exists dq3 w3,
       drain_front (length vs) dq1 w2 = Ok ((vs, dq3), w3) /\ isEmpty dq3 = true) /\
    (exists dq3 w3,
       drain_back (length vs) dq1 w2 = Ok ((rev vs, dq3), w3) /\ isEmpty dq3 = true).
Proof.
  intros Hcap Hcreate Hlen. apply createDeque_created in Hcreate; [|lia].
  subst dq.
  pose proof (created_deque_rep capacity ltac:(lia)) as Hrep.
  split; [reflexivity|]. split.
  { eexists _, _. unfold popFront. rewrite (bind_ok _ _ _ _ _ (log_ok _ w1)).
    cbn [dq_front dq_capacity].
    rewrite (bind_ok _ _ _ _ _ (sz_rem_ok _ capacity _ ltac:(lia))).
    split; [reflexivity|]. unfold isEmpty. cbn [dq_front dq_back].
    apply Z.eqb_neq. change (sz (0 + 1)) with 1. rewrite Z.mod_small; lia. }
  split.
  { eexists _, _. unfold popBack. rewrite (bind_ok _ _ _ _ _ (log_ok _ w1)).
    cbn [dq_back dq_capacity].
    rewrite (bind_ok _ _ _ _ _ (sz_rem_ok _ capacity _ ltac:(lia))).
    split; [reflexivity|]. unfold isEmpty. cbn [dq_front dq_back].
    apply Z.eqb_neq. rewrite sz_pred_mod by lia.
    replace (0 - 1) with (capacity - 1 + (-1) * capacity) by lia.
    rewrite Z_mod_plus_full, Z.mod_small; lia. }
  destruct (pushBack_all_rep capacity vs _ [] w1 Hrep) as (dq1 & w2 & E1 & Hrep1).
  { simpl. lia. }
  rewrite app_nil_r in Hrep1. exists dq1, w2. split; [exact E1|]. split.
  { rewrite (deque_isEmpty_rep _ _ _ Hrep1).
    destruct vs as [|a vs]; [reflexivity|]. simpl.
    destruct (rev vs ++ [a]) eqn:E; [|reflexivity].
    apply app_eq_nil in E. destruct E; discriminate. }
  split.
  { intros Hfull. apply (pushBack_full capacity dq1 (rev vs)); [exact Hrep1|].
    rewrite length_rev. exact Hfull. }
  split.
  { destruct (drain_front_rep capacity vs dq1 w2 Hrep1) as (dq3 & w3 & E3 & Hrep3).
    exists dq3, w3. split; [exact E3|].
    rewrite (deque_isEmpty_rep _ _ _ Hrep3). reflexivity. }
  destruct (drain_back_rep capacity (rev vs) dq1 w2 Hrep1) as (dq3 & w3 & E3 & Hrep3).
  rewrite length_rev in E3. exists dq3, w3. split; [exact E3|].
  rewrite (deque_isEmpty_rep _ _ _ Hrep3). reflexivity.
Qed.

Lemma deque_round_trip_witness :
  exists dq,
    createDeque 4 w0 = Ok (Some dq, w0) /\
    isEmpty dq = true /\
    (exists dq' w', popFront dq w0 = Ok (dq', w') /\ isEmpty dq' = false) /\
    (exists dq' w', popBack dq w0 = Ok (dq', w') /\ isEmpty dq' = false) /\
    exists dq1 w2,
      pushBack_all [7; 8; 9] dq w0 = Ok (dq1, w2) /\
      isEmpty dq1 = false /\
      (exists dq2 w3, pushBack dq1 10 w2 = Ok (dq2, w3) /\ isEmpty dq2 = true) /\
      (exists dq3 w3,
         drain_front 3 dq1 w2 = Ok (([7; 8; 9], dq3), w3) /\ isEmpty dq3 = true) /\
      (exists dq3 w3,
         drain_back 3 dq1 w2 = Ok (([9; 8; 7], dq3), w3) /\ isEmpty dq3 = true).
Proof.
  assert (E : exists dq, createDeque 4 w0 = Ok (Some dq, w0))
    by (eexists; vm_compute; reflexivity).
  destruct E as (dq & E). exists dq. split; [exact E|].
  destruct (deque_round_trip 4 [7; 8; 9] 10 w0 dq w0 ltac:(lia) E ltac:(simpl; lia))
    as (H1 & H2 & H3 & dq1 & w2 & H4 & H5 & H6 & H7 & H8).
  split; [exact H1|]. split; [exact H2|]. split; [exact H3|].
  exists dq1, w2. split; [exact H4|]. split; [exact H5|].
  split; [apply H6; reflexivity|]. split; [exact H7|exact H8].
Defined.

End DequeFacts.

(** * sliding_window.c: the analysis is linear in the number of prices *)

Module CostFacts.
Import SlidingWindow DequeSpec DequeProofs WindowSpec WindowProofs CostSpec.
Import StockSpanSpec (all_valid).

Lemma deque_ops_app evs1 evs2 :
  deque_ops (evs1 ++ evs2) = deque_ops evs1 + deque_ops evs2.
Proof.
  induction evs1 as [|[op dq|i mx mn] evs1 IH]; simpl; lia.
Qed.

Lemma deque_ops_nonneg evs : 0 <= deque_ops evs.
Proof. induction evs as [|[op dq|i mx mn] evs IH]; simpl; lia. Qed.

(** ** What the memory accesses leave of the world *)

Lemma load_world {T} (a : list (option T)) i w v w' :
  load a i w = Ok (v, w') -> w' = w.
Proof.
  unfold load, ret, fault. destruct (i <? 0); [discriminate|].
  destruct (a !! Z.to_nat i) as [[x|]|]; intros H; inversion H; reflexivity.
Qed.

Lemma store_world {T} (a : list (option T)) i v w a' w' :
  store a i v w = Ok (a', w') -> w' = w.
Proof.
  unfold store, ret, fault.
  destruct ((0 <=? i) && (i <? Z.of_nat (length a))); intros H; inversion H; reflexivity.
Qed.

Lemma load_price_world prices i w v w' :
  load_price prices i w = Ok (v, w') -> w' = w.
Proof.
  unfold load_price, ret, fault. destruct (i <? 0); [discriminate|].
  destruct (prices !! Z.to_nat i); intros H; inversion H; reflexivity.
Qed.

Lemma sz_rem_inv a b w r w' :
  sz_rem a b w = Ok (r, w') -> r = a mod b /\ w' = w.
Proof.
  unfold sz_rem, ret, fault. destruct (b =? 0); intros H; inversion H; auto.
Qed.

Lemma log_inv e w u w' :
  log e w = Ok (u, w') -> trace w' = trace w ++ [e] /\ oracle w' = oracle w.
Proof. unfold log. intros H. inversion H. simpl. auto. Qed.

(** ** The five primitives *)

Lemma occupancy_bounds dq : deque_wf dq -> 0 <= occupancy dq < dq_capacity dq.
Proof. intros (Hc & _). apply Z.mod_pos_bound. lia. Qed.

Lemma nonempty_occupancy dq :
  deque_wf dq -> isEmpty dq = false -> 1 <= occupancy dq.
Proof.
  intros Hwf He. pose proof (occupancy_bounds dq Hwf) as Hb.
  destruct Hwf as (Hc & Hf & Hk). unfold isEmpty in He. apply Z.eqb_neq in He.
  destruct (Z.eq_dec (occupancy dq) 0) as [E|]; [|lia]. exfalso.
  unfold occupancy in E. apply Z.mod_divide in E; [|lia].
  destruct E as (q & E). assert (q = 0) by nia. subst q. lia.
Qed.

Lemma front_cost dq w v w' :
  front dq w = Ok (v, w') ->
  deque_ops (trace w') = deque_ops (trace w) + 1.
Proof.
  unfold front. intros H. apply bind_inv in H. destruct H as (u & w1 & El & H).
  apply log_inv in El. destruct El as (El & _). apply load_world in H. subst w'.
  rewrite El, deque_ops_app. simpl. lia.
Qed.

Lemma back_cost dq w v w' :
  back dq w = Ok (v, w') ->
  deque_ops (trace w') = deque_ops (trace w) + 1.
Proof.
  unfold back. intros H. apply bind_inv in H. destruct H as (u & w1 & El & H).
  apply log_inv in El. destruct El as (El & _).
  apply bind_inv in H. destruct H as (idx & w2 & Er & H).
  apply sz_rem_inv in Er. destruct Er as (_ & ->). apply load_world in H. subst w'.
  rewrite El, deque_ops_app. simpl. lia.
Qed.

Lemma pushBack_cost dq idx w dq' w' :
  deque_wf dq -> pushBack dq idx w = Ok (dq', w') ->
  deque_wf dq' /\
  deque_ops (trace w') = deque_ops (trace w) + 1 /\
  occupancy dq' <= occupancy dq + 1.
Proof.
  intros Hwf H. pose proof (occupancy_bounds dq Hwf) as Hocc.
  destruct Hwf as (Hc & Hf & Hk). unfold pushBack in H.
  apply bind_inv in H. destruct H as (u & w1 & El & H).
  apply log_inv in El. destruct El as (El & _).
  apply bind_inv in H. destruct H as (ind & w2 & Es & H).
  apply store_world in Es. subst w2.
  apply bind_inv in H. destruct H as (bk & w3 & Er & H).
  apply sz_rem_inv in Er. destruct Er as (-> & ->).
  inversion H; subst; clear H.
  rewrite sz_succ_mod by lia.
  split.
  { unfold deque_wf. simpl. split; [lia|]. split; [lia|].
    apply Z.mod_pos_bound. lia. }
  split; [rewrite El, deque_ops_app; simpl; lia|].
  unfold occupancy in *. simpl.
  rewrite Zminus_mod_idemp_l.
  replace (dq_back dq + 1 - dq_front dq) with (dq_back dq - dq_front dq + 1) by lia.
  rewrite <- Zplus_mod_idemp_l. apply Z.mod_le; lia.
Qed.

Lemma popBack_cost dq w dq' w' :
  deque_wf dq -> isEmpty dq = false -> popBack dq w = Ok (dq', w') ->
  deque_wf dq' /\
  deque_ops (trace w') = deque_ops (trace w) + 1 /\
  occupancy dq' = occupancy dq - 1.
Proof.
  intros Hwf He H. pose proof (occupancy_bounds dq Hwf) as Hocc.
  pose proof (nonempty_occupancy dq Hwf He) as Hne.
  destruct Hwf as (Hc & Hf & Hk). unfold popBack in H.
  apply bind_inv in H. destruct H as (u & w1 & El & H).
  apply log_inv in El. destruct El as (El & _).
  apply bind_inv in H. destruct H as (bk & w3 & Er & H).
  apply sz_rem_inv in Er. destruct Er as (-> & ->).
  inversion H; subst; clear H.
  rewrite sz_pred_mod by lia.
  split.
  { unfold deque_wf. simpl. split; [lia|]. split; [lia|].
    apply Z.mod_pos_bound. lia. }
  split; [rewrite El, deque_ops_app; simpl; lia|].
  unfold occupancy in *. simpl.
  rewrite Zminus_mod_idemp_l.
  replace (dq_back dq - 1 - dq_front dq) with (dq_back dq - dq_front dq - 1) by lia.
  rewrite <- Zminus_mod_idemp_l. apply Z.mod_small. lia.
Qed.

Lemma popFront_cost dq w dq' w' :
  deque_wf dq -> isEmpty dq = false -> popFront dq w = Ok (dq', w') ->
  deque_wf dq' /\
  deque_ops (trace w') = deque_ops (trace w) + 1 /\
  occupancy dq' = occupancy dq - 1.
Proof.
  intros Hwf He H. pose proof (occupancy_bounds dq Hwf) as Hocc.
  pose proof (nonempty_occupancy dq Hwf He) as Hne.
  destruct Hwf as (Hc & Hf & Hk). unfold popFront in H.
  apply bind_inv in H. destruct H as (u & w1 & El & H).
  apply log_inv in El. destruct El as (El & _).
  apply bind_inv in H. destruct H as (bk & w3 & Er & H).
  apply sz_rem_inv in Er. destruct Er as (-> & ->).
  inversion H; subst; clear H.
  rewrite sz_succ_mod by lia.
  split.
  { unfold deque_wf. simpl. split; [lia|]. split; [|lia].
    apply Z.mod_pos_bound. lia. }
  split; [rewrite El, deque_ops_app; simpl; lia|].
  unfold occupancy in *. simpl.
  rewrite Zminus_mod_idemp_r.
  replace (dq_back dq - (dq_front dq + 1)) with (dq_back dq - dq_front dq - 1) by lia.
  rewrite <- Zminus_mod_idemp_l. apply Z.mod_small. lia.
Qed.

(** ** The loops over one deque *)

Section OneDeque.

Variable prices : list float.
Variable le : float -> float -> bool.

Lemma back_cond_cost i dq w b w1 :
  DequeSpec.back_cond prices le i dq w = Ok (b, w1) ->
  deque_ops (trace w1) <= deque_ops (trace w) + 1 /\
  (b = true ->
   isEmpty dq = false /\ deque_ops (trace w1) = deque_ops (trace w) + 1).
Proof.
  unfold DequeSpec.back_cond. destruct (isEmpty dq) eqn:He.
  - intros H. inversion H; subst. split; [lia|discriminate].
  - intros H. apply bind_inv in H. destruct H as (v & w2 & Eb & H).
    apply back_cost in Eb.
    apply bind_inv in H. destruct H as (pb & w3 & E1 & H).
    apply load_price_world in E1. subst w3.
    apply bind_inv in H. destruct H as (pi & w4 & E2 & H).
    apply load_price_world in E2. subst w4.
    inversion H; subst. split; [lia|]. intros _. split; [reflexivity|lia].
Qed.

(** Entering one position costs at most four primitives beyond the two
    each removed entry pays for. *)
Lemma enter_cost i dq w dq' w' :
  deque_wf dq -> DequeSpec.enter prices le i dq w = Ok (dq', w') ->
  deque_wf dq' /\
  deque_ops (trace w') + 2 * occupancy dq'
  <= deque_ops (trace w) + 2 * occupancy dq + 4.
Proof.
  intros Hwf H. unfold DequeSpec.enter in H.
  apply bind_inv in H. destruct H as (dq1 & w1 & Eloop & Hpush).
  set (C := deque_ops (trace w) + 2 * occupancy dq).
  assert (Hloop : deque_wf dq1 /\
                  deque_ops (trace w1) + 2 * occupancy dq1 <= C + 1).
  { refine (while_post
              (fun d x => deque_wf d /\ deque_ops (trace x) + 2 * occupancy d <= C)
              (fun d x => deque_wf d /\ deque_ops (trace x) + 2 * occupancy d <= C + 1)
              _ _ _ _ _ _ _ _ Eloop _); [|split; [exact Hwf|unfold C; lia]].
    intros d x b x1 Ec (Hwfd & Hpot).
    destruct (back_cond_cost i d x b x1 Ec) as (Hle & Htrue). split.
    - intros _. split; [exact Hwfd|lia].
    - intros Hb d' x' Epop. destruct (Htrue Hb) as (Hne & Heq).
      destruct (popBack_cost d x1 d' x' Hwfd Hne Epop) as (Hwf' & Hops & Hocc).
      split; [exact Hwf'|lia]. }
  destruct Hloop as (Hwf1 & Hpot1).
  destruct (pushBack_cost dq1 i w1 dq' w' Hwf1 Hpush) as (Hwf' & Hops & Hocc).
  split; [exact Hwf'|]. fold C. lia.
Qed.

End OneDeque.

Lemma front_cond_cost out_idx dq w b w1 :
  front_cond out_idx dq w = Ok (b, w1) ->
  deque_ops (trace w1) <= deque_ops (trace w) + 1 /\
  (b = true ->
   isEmpty dq = false /\ deque_ops (trace w1) = deque_ops (trace w) + 1).
Proof.
  unfold front_cond. destruct (isEmpty dq) eqn:He.
  - intros H. inversion H; subst. split; [lia|discriminate].
  - intros H. apply bind_inv in H. destruct H as (v & w2 & Eb & H).
    apply front_cost in Eb. inversion H; subst.
    split; [lia|]. intros _. split; [reflexivity|lia].
Qed.

(** Expiring costs at most one primitive beyond the two each removed entry
    pays for. *)
Lemma expire_cost out_idx dq w dq' w' :
  deque_wf dq -> expire out_idx dq w = Ok (dq', w') ->
  deque_wf dq' /\
  deque_ops (trace w') + 2 * occupancy dq'
  <= deque_ops (trace w) + 2 * occupancy dq + 1.
Proof.
  intros Hwf H. unfold expire in H.
  set (C := deque_ops (trace w) + 2 * occupancy dq).
  refine (while_post
            (fun d x => deque_wf d /\ deque_ops (trace x) + 2 * occupancy d <= C)
            (fun d x => deque_wf d /\ deque_ops (trace x) + 2 * occupancy d <= C + 1)
            _ _ _ _ _ _ _ _ H _); [|split; [exact Hwf|unfold C; lia]].
  intros d x b x1 Ec (Hwfd & Hpot).
  destruct (front_cond_cost out_idx d x b x1 Ec) as (Hle & Htrue). split.
  - intros _. split; [exact Hwfd|lia].
  - intros Hb d' x' Epop. destruct (Htrue Hb) as (Hne & Heq).
    destruct (popFront_cost d x1 d' x' Hwfd Hne Epop) as (Hwf' & Hops & Hocc).
    split; [exact Hwf'|lia].
Qed.

(** ** The analysis *)

Lemma first_window_step_cost prices i s w s' w' C :
  first_window_step prices i s w = Ok (s', w') ->
  potential_ok C s w -> potential_ok (C + 8) s' w'.
Proof.
  intros H (Hmx & Hmn & Hpot). unfold first_window_step in H.
  apply bind_inv in H. destruct H as (p & w1 & Ep & H).
  apply load_price_world in Ep. subst w1.
  apply bind_inv in H. destruct H as (mx & w2 & Emx & H).
  apply bind_inv in H. destruct H as (mn & w3 & Emn & H).
  inversion H; subst; clear H.
  rewrite enter_max_eq in Emx. rewrite enter_min_eq in Emn.
  destruct (enter_cost _ _ _ _ _ _ _ Hmx Emx) as (Hmx' & Hc1).
  destruct (enter_cost _ _ _ _ _ _ _ Hmn Emn) as (Hmn' & Hc2).
  split; [exact Hmx'|]. split; [exact Hmn'|]. simpl. lia.
Qed.

Lemma store_window_cost prices W i last_idx s w s' w' C :
  store_window prices W i last_idx s w = Ok (s', w') ->
  potential_ok C s w -> potential_ok (C + 2) s' w'.
Proof.
  intros H (Hmx & Hmn & Hpot). unfold store_window in H.
  apply bind_inv in H. destruct H as (u & w1 & El & H).
  apply log_inv in El. destruct El as (El & _).
  apply bind_inv in H. destruct H as (fmax & w2 & E1 & H). apply front_cost in E1.
  apply bind_inv in H. destruct H as (mx & w3 & E2 & H).
  apply load_price_world in E2. subst w3.
  apply bind_inv in H. destruct H as (fmin & w4 & E3 & H). apply front_cost in E3.
  apply bind_inv in H. destruct H as (mn & w5 & E4 & H).
  apply load_price_world in E4. subst w5.
  apply bind_inv in H. destruct H as (first & w6 & E5 & H).
  apply load_price_world in E5. subst w6.
  apply bind_inv in H. destruct H as (last & w7 & E6 & H).
  apply load_price_world in E6. subst w7.
  apply bind_inv in H. destruct H as (wins & w8 & E7 & H).
  apply store_world in E7. subst w8.
  inversion H; subst; clear H.
  assert (deque_ops (trace w1) = deque_ops (trace w)).
  { rewrite El, deque_ops_app. simpl. lia. }
  split; [exact Hmx|]. split; [exact Hmn|]. simpl. lia.
Qed.

Lemma slide_step_cost prices W i s w s' w' C :
  slide_step prices W i s w = Ok (s', w') ->
  potential_ok C s w -> potential_ok (C + 12) s' w'.
Proof.
  intros H (Hmx & Hmn & Hpot). unfold slide_step in H.
  apply bind_inv in H. destruct H as (po & w1 & E1 & H).
  apply load_price_world in E1. subst w1.
  apply bind_inv in H. destruct H as (pin & w2 & E2 & H).
  apply load_price_world in E2. subst w2.
  apply bind_inv in H. destruct H as (mx1 & w3 & Ex1 & H).
  apply bind_inv in H. destruct H as (mn1 & w4 & Ex2 & H).
  apply bind_inv in H. destruct H as (mx2 & w5 & En1 & H).
  apply bind_inv in H. destruct H as (mn2 & w6 & En2 & H).
  rewrite enter_max_eq in En1. rewrite enter_min_eq in En2.
  destruct (expire_cost _ _ _ _ _ Hmx Ex1) as (Hmx1 & Hc1).
  destruct (expire_cost _ _ _ _ _ Hmn Ex2) as (Hmn1 & Hc2).
  destruct (enter_cost _ _ _ _ _ _ _ Hmx1 En1) as (Hmx2 & Hc3).
  destruct (enter_cost _ _ _ _ _ _ _ Hmn1 En2) as (Hmn2 & Hc4).
  replace (C + 12) with (C + 10 + 2) by lia.
  apply (store_window_cost _ _ _ _ _ _ _ _ _ H).
  split; [exact Hmx2|]. split; [exact Hmn2|]. simpl. lia.
Qed.

Lemma createDeque_wf capacity w dq w' :
  1 <= capacity < 2 ^ 63 ->
  createDeque capacity w = Ok (Some dq, w') ->
  deque_wf dq /\ occupancy dq = 0.
Proof.
  intros Hc H. unfold createDeque, malloc_array, bind, ret in H.
  destruct (malloc w) as [[[|] w1]| |]; simpl in H; try discriminate.
  destruct (malloc w1) as [[[|] w2]| |]; simpl in H; try discriminate.
  inversion H; subst. unfold deque_wf, occupancy. simpl.
  rewrite Z.mod_0_l by lia. lia.
Qed.

Lemma analysis_cost prices W out_handle err_buf err_buf_len w r e w' :
  analyzeSlidingWindow (Some prices) (Z.of_nat (length prices)) W out_handle
    err_buf err_buf_len w = Ok ((0, r, e), w') ->
  0 <= W ->
  deque_ops (trace w') <= deque_ops (trace w) + 12 * Z.of_nat (length prices).
Proof.
  intros H HW0.
  destruct (analyzeSlidingWindow_success _ _ _ _ _ _ _ _ _ H HW0)
    as (Hv & HW & Hmax & Hok & out & ->).
  unfold MAX_ARRAY_SIZE in Hmax.
  set (n := Z.of_nat (length prices)) in *.
  unfold analyzeSlidingWindow in H. fold n in H.
  destruct (n =? 0) eqn:E0; [apply Z.eqb_eq in E0; lia|].
  destruct (MAX_ARRAY_SIZE <? n) eqn:E1; [apply Z.ltb_lt in E1; unfold MAX_ARRAY_SIZE in E1; lia|].
  destruct (W =? 0) eqn:E2; [apply Z.eqb_eq in E2; lia|].
  destruct (n <? W) eqn:E3; [apply Z.ltb_lt in E3; lia|].
  simpl orb in H. cbv iota in H.
  apply bind_inv in H. destruct H as (bad & w1 & Ebad & H).
  assert (w1 = w) as ->.
  { unfold n in Ebad. rewrite Nat2Z.id in Ebad.
    rewrite has_invalid_price_spec in Ebad by lia. inversion Ebad; reflexivity. }
  destruct bad; [inversion H|].
  apply bind_inv in H. destruct H as (got & w2 & Em & H).
  pose proof (proj1 (malloc_inv _ _ _ Em)) as T2.
  destruct got; [|inversion H]. simpl negb in H. cbv iota in H.
  apply bind_inv in H. destruct H as (wins & w3 & Ea & H).
  pose proof (proj1 (malloc_array_inv _ _ _ _ _ Ea)) as T3.
  destruct wins as [wins|]; [|inversion H].
  apply bind_inv in H. destruct H as (mx & w4 & Ec1 & H).
  pose proof (proj1 (createDeque_inv _ _ _ _ Ec1)) as T4.
  apply bind_inv in H. destruct H as (mn & w5 & Ec2 & H).
  pose proof (proj1 (createDeque_inv _ _ _ _ Ec2)) as T5.
  destruct mx as [mx|]; [|inversion H]. destruct mn as [mn|]; [|inversion H].
  rewrite (sz_small (W + 1)) in Ec1, Ec2 by lia.
  destruct (createDeque_wf (W + 1) w3 mx w4 ltac:(lia) Ec1) as (Hwmx & Homx).
  destruct (createDeque_wf (W + 1) w4 mn w5 ltac:(lia) Ec2) as (Hwmn & Homn).
  apply bind_inv in H. destruct H as (s1 & w6 & Efirst & H).
  apply bind_inv in H. destruct H as (s2 & w7 & Estore & H).
  apply bind_inv in H. destruct H as (s3 & w8 & Eslide & H).
  inversion H; subst; clear H.
  set (C := deque_ops (trace w)).
  assert (P0 : potential_ok (C + 8 * 0)
                 {| max_dq := mx; min_dq := mn; sum := 0; sum_sq := 0;
                    windows := wins |} w5).
  { split; [exact Hwmx|]. split; [exact Hwmn|]. simpl.
    rewrite Homx, Homn, T5, T4, T3, T2. unfold C. lia. }
  assert (P1 : potential_ok (C + 8 * (0 + Z.of_nat (Z.to_nat W))) s1 w6).
  { refine (for_up_post (fun i s x => potential_ok (C + 8 * i) s x)
              _ _ _ _ _ _ _ _ Efirst P0).
    intros k s x s' x' Hk Hb HP. cbv beta in *.
    replace (C + 8 * (0 + k + 1)) with (C + 8 * (0 + k) + 8) by lia.
    exact (first_window_step_cost _ _ _ _ _ _ _ Hb HP). }
  rewrite Z2Nat.id in P1 by lia.
  pose proof (store_window_cost _ _ _ _ _ _ _ _ _ Estore P1) as P2.
  rewrite (sz_small (n - W)), (sz_small (n - W + 1)) in Eslide by lia.
  set (C2 := C + 8 * (0 + W) + 2) in *.
  assert (P3 : potential_ok (C2 + 12 * (1 + Z.of_nat (Z.to_nat (n - W + 1 - 1)) - 1))
                 s3 w').
  { refine (for_up_post (fun i s x => potential_ok (C2 + 12 * (i - 1)) s x)
              _ _ _ _ _ _ _ _ Eslide _).
    - intros k s x s' x' Hk Hb HP. cbv beta in *.
      replace (C2 + 12 * (1 + k + 1 - 1)) with (C2 + 12 * (1 + k - 1) + 12) by lia.
      exact (slide_step_cost _ _ _ _ _ _ _ _ Hb HP).
    - cbv beta. replace (C2 + 12 * (1 - 1)) with C2 by lia. exact P2. }
  destruct P3 as (Hw1 & Hw2 & Hpot).
  pose proof (occupancy_bounds _ Hw1). pose proof (occupancy_bounds _ Hw2).
  unfold C2, C in Hpot. lia.
Qed.

(** X10: the analysis is linear, as sliding_window.h documents: a successful run
    over [n] prices performs at most [12 * n] deque primitives, whatever the
    window size.  (Each position is pushed once onto each deque and removed
    at most once; the log counts every [pushBack], [popBack], [popFront],
    [front] and [back].) *)
Theorem analysis_linear prices W out err_buf err_buf_len w :
  all_valid prices ->
  1 <= W <= Z.of_nat (length prices) ->
  Z.of_nat (length prices) <= MAX_ARRAY_SIZE ->
  allocs_succeed 6 w ->
  exists result w',
    analyzeSlidingWindow (Some prices) (Z.of_nat (length prices)) W (Some out)
      err_buf err_buf_len w
    = Ok ((0, Some (Some result), err_buf), w') /\
    deque_ops (trace w') <= deque_ops (trace w) + 12 * Z.of_nat (length prices).
Proof.
  intros Hv HW Hmax Hok.
  destruct (analyzeSlidingWindow_run prices W out err_buf err_buf_len w Hv HW Hmax Hok)
    as (result & w' & evs & E & _).
  exists result, w'. split; [exact E|].
  exact (analysis_cost _ _ _ _ _ _ _ _ _ E ltac:(lia)).
Qed.

Lemma analysis_linear_witness :
  exists result w',
    analyzeSlidingWindow (Some five_prices) 5 3 (Some None) None 0 w0
    = Ok ((0, Some (Some result), None), w') /\
    deque_ops (trace w') <= deque_ops (trace w0) + 12 * 5.
Proof.
  apply (analysis_linear five_prices 3 None None 0 w0).
  - vm_compute. reflexivity.
  - vm_compute. split; discriminate.
  - vm_compute. discriminate.
  - constructor.
Defined.

End CostFacts.

(** * sliding_window.c: reading the results back *)

Module WindowFacts.
Import SlidingWindow DequeSpec DequeProofs WindowSpec WindowProofs.
Import StockSpanSpec (all_valid).
Import SegTreeSpec (is_min, is_max).

Lemma substring_all (s : string) (n : nat) :
  (String.length s <= n)%nat -> String.substring 0 n s = s.
Proof.
  revert n. induction s as [|c s IH]; intros n Hn.
  - destruct n; reflexivity.
  - destruct n as [|n]; [simpl in Hn; lia|]. simpl. f_equal. apply IH.
    simpl in Hn. lia.
Qed.

Lemma label_length first last variance mean :
  (String.length (pattern_spec first last variance mean) <= 8)%nat.
Proof.
  destruct (pattern_spec_labels first last variance mean) as [<-|[<-|[<-|[<-|[]]]]];
    simpl; lia.
Qed.

(** X11: what [getWindowResult] hands back for window [idx] of a successful
    analysis: the maximum and the minimum of [prices[idx .. idx+W-1]], the
    running average, and the window's label cut to [out_pattern_len - 1]
    characters, which is the whole label as soon as the buffer has 9 bytes;
    a zero-length pattern buffer is left as it was. *)
Theorem window_round_trip prices W out_handle eb el w result e w'
    idx o1 o2 o3 o4 out_pattern_len err_buf err_len w2 :
  analyzeSlidingWindow (Some prices) (Z.of_nat (length prices)) W out_handle
    eb el w = Ok ((0, Some (Some result), e), w') ->
  0 <= W ->
  0 <= idx < Z.of_nat (length prices) - W + 1 ->
  0 <= out_pattern_len < 2 ^ 64 ->
  exists mx mn label,
    is_max prices idx (idx + W - 1) mx /\
    is_min prices idx (idx + W - 1) mn /\
    label = pattern_spec (price prices idx) (price prices (idx + W - 1))
              (window_variance prices W (Z.to_nat idx))
              (window_avg prices W (Z.to_nat idx)) /\
    In label ["bullish"; "bearish"; "volatile"; "stable"]%string /\
    getWindowResult (Some result) idx
      (mkWindowOutputs (Some o1) (Some o2) (Some o3) (Some o4))
      out_pattern_len err_buf err_len w2
    = Ok ((0,
           mkWindowOutputs (Some mx) (Some mn)
             (Some (window_avg prices W (Z.to_nat idx)))
             (Some (if out_pattern_len =? 0 then o4
                    else if 9 <=? out_pattern_len then label
                    else String.substring 0 (Z.to_nat (out_pattern_len - 1)) label)),
           err_buf), w2).
Proof.
  intros H HW0 Hidx Hlen.
  destruct (stored_windows _ _ _ _ _ _ _ _ _ H HW0) as (result' & Er & Hnum & Hst).
  inversion Er; subst result'; clear Er.
  destruct (Hst idx ltac:(lia)) as (st & L & Hmx & Hmn & Havg & Hpat).
  rewrite classifyPattern_spec in Hpat.
  exists (ws_max st), (ws_min st), (ws_pattern st).
  split; [exact Hmx|]. split; [exact Hmn|]. split; [exact Hpat|].
  split; [rewrite Hpat; apply pattern_spec_labels|].
  assert (Hp : (if 0 <? out_pattern_len
                then Some (strncpy_terminated (ws_pattern st) (sz (out_pattern_len - 1)))
                else Some o4)
               = Some (if out_pattern_len =? 0 then o4
                       else if 9 <=? out_pattern_len then ws_pattern st
                       else String.substring 0 (Z.to_nat (out_pattern_len - 1))
                              (ws_pattern st))).
  { destruct (out_pattern_len =? 0) eqn:E0.
    - apply Z.eqb_eq in E0. subst. reflexivity.
    - apply Z.eqb_neq in E0.
      destruct (0 <? out_pattern_len) eqn:E1; [|apply Z.ltb_ge in E1; lia].
      unfold strncpy_terminated. rewrite sz_small by lia.
      destruct (9 <=? out_pattern_len) eqn:E9; [|reflexivity].
      apply Z.leb_le in E9. f_equal. apply substring_all.
      rewrite Hpat. pose proof (label_length (price prices idx)
        (price prices (idx + W - 1)) (window_variance prices W (Z.to_nat idx))
        (window_avg prices W (Z.to_nat idx))). lia. }
  rewrite (get_any_outputs result idx st ltac:(lia) L).
  cbn [written out_max out_min out_avg out_pattern].
  rewrite Havg, <- Hp. reflexivity.
Qed.

Lemma window_round_trip_witness :
  exists result e w' mx mn label,
    analyzeSlidingWindow (Some five_prices) 5 3 (Some None) None 0 w0
    = Ok ((0, Some (Some result), e), w') /\
    is_max five_prices 1 (1 + 3 - 1) mx /\
    is_min five_prices 1 (1 + 3 - 1) mn /\
    label = pattern_spec (price five_prices 1) (price five_prices (1 + 3 - 1))
              (window_variance five_prices 3 (Z.to_nat 1))
              (window_avg five_prices 3 (Z.to_nat 1)) /\
    In label ["bullish"; "bearish"; "volatile"; "stable"]%string /\
    getWindowResult (Some result) 1
      (mkWindowOutputs (Some 0%float) (Some 0%float) (Some 0%float) (Some ""%string))
      64 None 0 w0
    = Ok ((0,
           mkWindowOutputs (Some mx) (Some mn)
             (Some (window_avg five_prices 3 (Z.to_nat 1)))
             (Some (if 64 =? 0 then ""%string
                    else if 9 <=? 64 then label
                    else String.substring 0 (Z.to_nat (64 - 1)) label)),
           None), w0).
Proof.
  assert (E : exists result e w',
             analyzeSlidingWindow (Some five_prices) (Z.of_nat (length five_prices)) 3
               (Some None) None 0 w0 = Ok ((0, Some (Some result), e), w'))
    by (do 3 eexists; vm_compute; reflexivity).
  destruct E as (result & e & w' & E).
  destruct (window_round_trip five_prices 3 (Some None) None 0 w0 result e w'
              1 0%float 0%float 0%float ""%string 64 None 0 w0 E
              ltac:(lia) ltac:(simpl; lia) ltac:(lia))
    as (mx & mn & label & H1 & H2 & H3 & H4 & H5).
  exists result, e, w', mx, mn, label.
  split; [exact E|]. split; [exact H1|]. split; [exact H2|].
  split; [exact H3|]. split; [exact H4|exact H5].
Defined.

End WindowFacts.
(** * Diagnostics: what is left in the error buffer *)

Module MessageFacts.
Import StockSpanSpec StockSpanProofs StatusSpec StatusProofs MessageSpec.

(** ** [setError] *)

Lemma substring_length (s : string) (n : nat) :
  (String.length (String.substring 0 n s) <= n)%nat.
Proof.
  revert n. induction s as [|c s IH]; intros n.
  - destruct n; simpl; lia.
  - destruct n as [|n]; simpl; [lia|]. specialize (IH n). lia.
Qed.

Lemma substring_prefix (s : string) (n : nat) :
  String.prefix (String.substring 0 n s) s = true.
Proof.
  revert n. induction s as [|c s IH]; intros n.
  - destruct n; reflexivity.
  - destruct n as [|n]; simpl; [reflexivity|].
    destruct (Ascii.ascii_dec c c) as [_|Hne]; [apply IH|congruence].
Qed.

Lemma substring_whole (s : string) (n : nat) :
  (String.length s <= n)%nat -> String.substring 0 n s = s.
Proof.
  revert n. induction s as [|c s IH]; intros n Hn.
  - destruct n; reflexivity.
  - destruct n as [|n]; [simpl in Hn; lia|]. simpl. f_equal. apply IH.
    simpl in Hn. lia.
Qed.

(** X12: [setError] never writes past the buffer: a NULL buffer or one of length
    0 is left alone; otherwise the buffer receives a prefix of the message
    of at most [err_buf_len - 1] characters (the terminating NUL takes the
    last byte), the whole message when it fits. *)
Theorem setError_bounded (err_buf : ptr string) (err_buf_len : Z) (msg : string) :
  0 <= err_buf_len < 2 ^ 64 ->
  (err_buf = None -> setError err_buf err_buf_len msg = None) /\
  (err_buf_len = 0 -> setError err_buf err_buf_len msg = err_buf) /\
  (forall old, err_buf = Some old -> 0 < err_buf_len ->
     exists s,
       setError err_buf err_buf_len msg = Some s /\
       Z.of_nat (String.length s) <= err_buf_len - 1 /\
       String.prefix s msg = true /\
       (Z.of_nat (String.length msg) < err_buf_len -> s = msg)).
Proof.
  intros Hlen. split; [intros ->; reflexivity|]. split.
  - intros ->. destruct err_buf; reflexivity.
  - intros old -> Hpos. unfold setError.
    destruct (0 <? err_buf_len) eqn:E; [|apply Z.ltb_ge in E; lia].
    unfold strncpy_terminated. rewrite sz_small by lia.
    eexists. split; [reflexivity|]. split.
    + pose proof (substring_length msg (Z.to_nat (err_buf_len - 1))). lia.
    + split; [apply substring_prefix|].
      intros Hfit. apply substring_whole. lia.
Qed.

Lemma setError_bounded_witness :
  exists s,
    setError (Some ""%string) 8 "Invalid query range" = Some s /\
    Z.of_nat (String.length s) <= 8 - 1 /\
    String.prefix s "Invalid query range" = true.
Proof.
  destruct (setError_bounded (Some ""%string) 8 "Invalid query range" ltac:(lia))
    as (_ & _ & H).
  destruct (H ""%string eq_refl ltac:(lia)) as (s & H1 & H2 & H3 & _).
  exists s. split; [exact H1|]. split; [exact H2|exact H3].
Defined.

(** ** The allocation oracle *)

Lemma malloc_answer w b w' :
  malloc w = Ok (b, w') ->
  b = alloc_answer 0 w /\ forall k, alloc_answer k w' = alloc_answer (S k) w.
Proof.
  unfold malloc, alloc_answer. destruct (oracle w) as [|a rest] eqn:E;
    intros H; inversion H; subst; simpl.
  - rewrite E. split; [reflexivity|]. intros k. destruct k; reflexivity.
  - split; [reflexivity|]. intros k. reflexivity.
Qed.

Lemma malloc_array_answer {T} size n w (r : option (list (option T))) w' :
  malloc_array size n w = Ok (r, w') ->
  (r = None <-> alloc_answer 0 w = false) /\
  forall k, alloc_answer k w' = alloc_answer (S k) w.
Proof.
  unfold malloc_array. intros H. apply bind_inv in H.
  destruct H as (b & w1 & Em & H). apply malloc_answer in Em.
  destruct Em as (-> & Hk). inversion H; subst. split; [|exact Hk].
  destruct (alloc_answer 0 w); split; congruence.
Qed.

Lemma has_invalid_price_world n : forall i prices w b w',
  has_invalid_price n i prices w = Ok (b, w') -> w' = w.
Proof.
  induction n as [|n IH]; intros i prices w b w' H; simpl in H.
  - inversion H; reflexivity.
  - apply bind_inv in H. destruct H as (p & w1 & Ep & H).
    assert (w1 = w) as ->.
    { unfold load_price, ret, fault in Ep. destruct (i <? 0); [discriminate|].
      destruct (prices !! Z.to_nat i); inversion Ep; reflexivity. }
    destruct (isnan p || isinf p); [inversion H; reflexivity|].
    eapply IH. exact H.
Qed.

(** ** What each entry point leaves in the buffer *)

Lemma span_reports prices length out_spans err_buf err_buf_len w status out' err' w' :
  StockSpan.calculateStockSpan prices length out_spans err_buf err_buf_len w
  = Ok ((status, out', err'), w') ->
  err' = reported status err_buf err_buf_len (span_message status w).
Proof.
  unfold StockSpan.calculateStockSpan, reported. intros H.
  destruct prices as [ps|]; [|inversion H; reflexivity].
  destruct out_spans as [out|]; [|inversion H; reflexivity].
  destruct ((length =? 0) || (MAX_ARRAY_SIZE <? length)); [inversion H; reflexivity|].
  apply bind_inv in H. destruct H as (bad & w1 & Ebad & H).
  apply has_invalid_price_world in Ebad. subst w1.
  destruct bad; [inversion H; reflexivity|].
  apply bind_inv in H. destruct H as (spans & w2 & Ea & H).
  apply malloc_array_answer in Ea. destruct Ea as (Hnone & _).
  destruct spans as [spans|].
  - assert (Ha : alloc_answer 0 w = true).
    { destruct (alloc_answer 0 w) eqn:Ha0; [reflexivity|].
      discriminate (proj2 Hnone eq_refl). }
    apply bind_inv in H. destruct H as (stack & w3 & _ & H).
    destruct stack as [stack|].
    + apply bind_inv in H. destruct H as ((stk & sp) & w4 & _ & H).
      inversion H; reflexivity.
    + inversion H; subst. unfold span_message. rewrite Ha. reflexivity.
  - inversion H; subst. unfold span_message.
    rewrite (proj1 Hnone eq_refl). reflexivity.
Qed.

Lemma build_reports prices length out err_buf err_buf_len w status out' err' w' :
  SegTree.buildSegmentTree prices length out err_buf err_buf_len w
  = Ok ((status, out', err'), w') ->
  err' = reported status err_buf err_buf_len (build_message status w).
Proof.
  unfold SegTree.buildSegmentTree, reported. intros H.
  destruct prices as [ps|]; [|inversion H; reflexivity].
  destruct out as [out|]; [|inversion H; reflexivity].
  destruct ((length =? 0) || (MAX_ARRAY_SIZE <? length)); [inversion H; reflexivity|].
  apply bind_inv in H. destruct H as (bad & w1 & Ebad & H).
  apply has_invalid_price_world in Ebad. subst w1.
  destruct bad; [inversion H; reflexivity|].
  apply bind_inv in H. destruct H as (got & w2 & Em & H).
  apply malloc_answer in Em. destruct Em as (-> & _).
  destruct (alloc_answer 0 w) eqn:Ha; simpl negb in H; cbv iota in H.
  - apply bind_inv in H. destruct H as (nodes & w3 & _ & H).
    destruct nodes as [nodes|].
    + apply bind_inv in H. destruct H as (n1 & w4 & _ & H).
      apply bind_inv in H. destruct H as (n2 & w5 & _ & H).
      inversion H; reflexivity.
    + inversion H; subst. unfold build_message. rewrite Ha. reflexivity.
  - inversion H; subst. unfold build_message. rewrite Ha. reflexivity.
Qed.

Lemma analyze_reports prices length W out err_buf err_buf_len w status out' err' w' :
  SlidingWindow.analyzeSlidingWindow prices length W out err_buf err_buf_len w
  = Ok ((status, out', err'), w') ->
  err' = reported status err_buf err_buf_len (analyze_message status w).
Proof.
  unfold SlidingWindow.analyzeSlidingWindow, reported. intros H.
  destruct prices as [ps|]; [|inversion H; reflexivity].
  destruct out as [out|]; [|inversion H; reflexivity].
  destruct ((length =? 0) || (MAX_ARRAY_SIZE <? length) || (W =? 0) || (length <? W));
    [inversion H; reflexivity|].
  apply bind_inv in H. destruct H as (bad & w1 & Ebad & H).
  apply has_invalid_price_world in Ebad. subst w1.
  destruct bad; [inversion H; reflexivity|].
  apply bind_inv in H. destruct H as (got & w2 & Em & H).
  apply malloc_answer in Em. destruct Em as (-> & Hk).
  destruct (alloc_answer 0 w) eqn:Ha; simpl negb in H; cbv iota in H.
  - apply bind_inv in H. destruct H as (wins & w3 & Ea & H).
    apply malloc_array_answer in Ea. destruct Ea as (Hnone & _).
    rewrite Hk in Hnone.
    destruct wins as [wins|].
    + assert (Ha1 : alloc_answer 1 w = true).
      { destruct (alloc_answer 1 w) eqn:Ha0; [reflexivity|].
        discriminate (proj2 Hnone eq_refl). }
      apply bind_inv in H. destruct H as (mx & w4 & _ & H).
      apply bind_inv in H. destruct H as (mn & w5 & _ & H).
      destruct mx as [mx|];
        [|inversion H; subst; unfold analyze_message; rewrite Ha, Ha1; reflexivity].
      destruct mn as [mn|];
        [|inversion H; subst; unfold analyze_message; rewrite Ha, Ha1; reflexivity].
      apply bind_inv in H. destruct H as (s1 & w6 & _ & H).
      apply bind_inv in H. destruct H as (s2 & w7 & _ & H).
      apply bind_inv in H. destruct H as (s3 & w8 & _ & H).
      inversion H; reflexivity.
    + inversion H; subst. unfold analyze_message.
      rewrite Ha, (proj1 Hnone eq_refl). reflexivity.
  - inversion H; subst. unfold analyze_message. rewrite Ha. reflexivity.
Qed.

Lemma query_reports tree_handle ql qr outs err_buf err_buf_len w status outs' err' w' :
  SegTree.querySegmentTree tree_handle ql qr outs err_buf err_buf_len w
  = Ok ((status, outs', err'), w') ->
  err' = reported status err_buf err_buf_len (query_message status).
Proof.
  unfold SegTree.querySegmentTree, reported. intros H.
  destruct tree_handle as [tree|]; [|inversion H; reflexivity].
  destruct ((qr <? ql) || (st_length tree <=? qr)); [inversion H; reflexivity|].
  apply bind_inv in H. destruct H as ((((l & r) & res) & first) & w1 & _ & H).
  inversion H; reflexivity.
Qed.

Lemma get_reports window_handle idx outs plen err_buf err_len w status outs' err' w' :
  SlidingWindow.getWindowResult window_handle idx outs plen err_buf err_len w
  = Ok ((status, outs', err'), w') ->
  err' = reported status err_buf err_len (get_message status).
Proof.
  unfold SlidingWindow.getWindowResult, reported. intros H.
  destruct window_handle as [result|]; [|inversion H; reflexivity].
  destruct (wr_num_windows result <=? idx); [inversion H; reflexivity|].
  apply bind_inv in H. destruct H as (st & w1 & _ & H).
  inversion H; reflexivity.
Qed.

(** X13: [calculateStockSpan] leaves the error buffer untouched when it succeeds
    and otherwise reports, through [setError], the text that goes with the
    status: "NULL pointer argument" (-1), "Invalid array length" (-2),
    "Invalid price value (NaN or infinite)" (-4), and for -3 the allocation
    that failed, the spans array or the stack. *)
Theorem span_diagnostics prices length out_spans err_buf err_buf_len w :
  (forall ps, prices = Some ps -> length = Z.of_nat (List.length ps)) ->
  let status :=
    documented_status (is_null prices || is_null out_spans)
      (invalid_length length) (has_bad_price (default [] prices))
      (alloc_fails 3 w) in
  exists out' w',
    StockSpan.calculateStockSpan prices length out_spans err_buf err_buf_len w
    = Ok ((status, out',
           reported status err_buf err_buf_len (span_message status w)), w').
Proof.
  intros Hwf status.
  destruct (span_status prices length out_spans err_buf err_buf_len w Hwf)
    as (out' & err' & w' & E & _).
  fold status in E. exists out', w'.
  rewrite <- (span_reports _ _ _ _ _ _ _ _ _ _ E). exact E.
Qed.

Lemma span_diagnostics_witness :
  exists out' w',
    StockSpan.calculateStockSpan (Some [1; PrimFloat.nan]%float) 2 (Some None)
      (Some ""%string) 256 w0
    = Ok ((-4, out', Some "Invalid price value (NaN or infinite)"%string), w').
Proof.
  apply (span_diagnostics (Some [1; PrimFloat.nan]%float) 2 (Some None)
           (Some ""%string) 256 w0).
  intros ps H. inversion H. reflexivity.
Defined.

(** X14: [buildSegmentTree] and [querySegmentTree] leave the error buffer
    untouched when they succeed and otherwise report the text that goes with
    the status; a failed allocation of the node array is told from that of
    the tree structure. *)
Theorem tree_diagnostics :
  (forall prices length out_tree_handle err_buf err_buf_len w,
     (forall ps, prices = Some ps -> length = Z.of_nat (List.length ps)) ->
     let status :=
       documented_status (is_null prices || is_null out_tree_handle)
         (invalid_length length) (has_bad_price (default [] prices))
         (alloc_fails 2 w) in
     exists out' w',
       SegTree.buildSegmentTree prices length out_tree_handle err_buf err_buf_len w
       = Ok ((status, out',
              reported status err_buf err_buf_len (build_message status w)), w')) /\
  (forall tree_handle ql qr outs err_buf err_buf_len w,
     tree_handle_ok tree_handle -> 0 <= ql ->
     let status :=
       documented_status (is_null tree_handle) (invalid_range tree_handle ql qr)
         false false in
     exists outs',
       SegTree.querySegmentTree tree_handle ql qr outs err_buf err_buf_len w
       = Ok ((status, outs',
              reported status err_buf err_buf_len (query_message status)), w)).
Proof.
  split.
  - intros prices length out err_buf err_buf_len w Hwf status.
    destruct (build_status prices length out err_buf err_buf_len w Hwf)
      as (out' & err' & w' & E & _).
    fold status in E. exists out', w'.
    rewrite <- (build_reports _ _ _ _ _ _ _ _ _ _ E). exact E.
  - intros tree_handle ql qr outs err_buf err_buf_len w Hok Hql status.
    destruct (query_status tree_handle ql qr outs err_buf err_buf_len w Hok Hql)
      as (outs' & err' & E & _).
    fold status in E. exists outs'.
    rewrite <- (query_reports _ _ _ _ _ _ _ _ _ _ _ E). exact E.
Qed.

Lemma tree_diagnostics_witness :
  (exists out' w',
     SegTree.buildSegmentTree (Some []) 0 (Some None) (Some ""%string) 256 w0
     = Ok ((-2, out', Some "Invalid array length"%string), w')) /\
  (exists outs',
     SegTree.querySegmentTree (Some SegTreeSpec.tree3) 2 1
       (SegTree.mkOutputs None None None None) (Some ""%string) 8 w0
     = Ok ((-2, outs', Some "Invalid"%string), w0)).
Proof.
  destruct tree_diagnostics as (Hbuild & Hquery). split.
  - apply (Hbuild (Some []) 0 (Some None) (Some ""%string) 256 w0).
    intros ps H. inversion H. reflexivity.
  - apply (Hquery (Some SegTreeSpec.tree3) 2 1 (SegTree.mkOutputs None None None None)
             (Some ""%string) 8 w0); [|lia].
    intros tree H. inversion H; subst tree.
    exists [1; 2; 3]%float, (Some None), None, 0, w0, None, w0.
    vm_compute. reflexivity.
Defined.

(** X15: [analyzeSlidingWindow] and [getWindowResult] leave the error buffer
    untouched when they succeed and otherwise report the text that goes with
    the status; for -3 the analysis tells the result structure, the windows
    array and the deques apart. *)
Theorem window_diagnostics :
  (forall prices length W out_handle err_buf err_buf_len w,
     (forall ps, prices = Some ps -> length = Z.of_nat (List.length ps)) ->
     0 <= W ->
     let status :=
       documented_status (is_null prices || is_null out_handle)
         (invalid_window length W) (has_bad_price (default [] prices))
         (alloc_fails 6 w) in
     exists out' w',
       SlidingWindow.analyzeSlidingWindow prices length W out_handle
         err_buf err_buf_len w
       = Ok ((status, out',
              reported status err_buf err_buf_len (analyze_message status w)), w')) /\
  (forall window_handle idx outs out_pattern_len err_buf err_len w,
     window_handle_ok window_handle -> 0 <= idx ->
     let status :=
       documented_status (is_null window_handle) (invalid_index window_handle idx)
         false false in
     exists outs',
       SlidingWindow.getWindowResult window_handle idx outs out_pattern_len
         err_buf err_len w
       = Ok ((status, outs',
              reported status err_buf err_len (get_message status)), w)).
Proof.
  split.
  - intros prices length W out err_buf err_buf_len w Hwf HW status.
    destruct (analyze_status prices length W out err_buf err_buf_len w Hwf HW)
      as (out' & err' & w' & E & _).
    fold status in E. exists out', w'.
    rewrite <- (analyze_reports _ _ _ _ _ _ _ _ _ _ _ E). exact E.
  - intros window_handle idx outs plen err_buf err_len w Hok Hidx status.
    destruct (get_status window_handle idx outs plen err_buf err_len w Hok Hidx)
      as (outs' & err' & E & _).
    fold status in E. exists outs'.
    rewrite <- (get_reports _ _ _ _ _ _ _ _ _ _ _ E). exact E.
Qed.

Lemma window_diagnostics_witness :
  (exists out' w',
     SlidingWindow.analyzeSlidingWindow (Some [1; 2; 3]%float) 3 3 (Some None)
       (Some ""%string) 256 {| oracle := [true; true; true; false]; trace := [] |}
     = Ok ((-3, out', Some "Memory allocation failed for deques"%string), w')) /\
  (exists outs',
     SlidingWindow.getWindowResult None 0
       (SlidingWindow.mkWindowOutputs None None None None) 0 (Some ""%string) 256 w0
     = Ok ((-1, outs', Some "NULL window handle"%string), w0)).
Proof.
  destruct window_diagnostics as (Han & Hget). split.
  - apply (Han (Some [1; 2; 3]%float) 3 3 (Some None) (Some ""%string) 256
             {| oracle := [true; true; true; false]; trace := [] |}); [|lia].
    intros ps H. inversion H. reflexivity.
  - apply (Hget None 0 (SlidingWindow.mkWindowOutputs None None None None) 0
             (Some ""%string) 256 w0); [|lia].
    intros result H. discriminate H.
Defined.

End MessageFacts.
(** * Exact cases of binary64 arithmetic *)

Module FloatFacts.

Local Open Scope float_scope.

(** A valid price is a zero or a finite number. *)
Lemma valid_price_cases p :
  valid_price p = true ->
  (exists s, Prim2SF p = S754_zero s) \/ (exists s m e, Prim2SF p = S754_finite s m e).
Proof.
  unfold valid_price, isnan, isinf, PrimFloat.is_nan, PrimFloat.is_infinity.
  rewrite !FloatAxioms.eqb_spec, abs_spec.
  change (Prim2SF infinity) with (S754_infinity false).
  destruct (Prim2SF p) as [s|s| |s m e]; simpl; intros H.
  - left. eauto.
  - destruct s; discriminate H.
  - discriminate H.
  - right. eauto.
Qed.

Lemma sf_sub_self s m e :
  SF64sub (S754_finite s m e) (S754_finite s m e) = S754_zero false.
Proof. unfold SF64sub, SFsub. cbv zeta. rewrite Z.sub_diag. reflexivity. Qed.

(** [0 + x - x] is [+0] for every valid price [x]. *)
Lemma add_zero_sub x : valid_price x = true -> 0 + x - x = 0.
Proof.
  intros Hv. apply Prim2SF_inj. rewrite sub_spec, add_spec.
  change (Prim2SF 0) with (S754_zero false).
  destruct (valid_price_cases x Hv) as [(s & ->)|(s & m & e & ->)].
  - destruct s; reflexivity.
  - change (SF64add (S754_zero false) (S754_finite s m e)) with (S754_finite s m e).
    apply sf_sub_self.
Qed.

(** [0 + x == x] for every valid price (they differ only when [x] is [-0]). *)
Lemma add_zero_eqb x : valid_price x = true -> PrimFloat.eqb (0 + x) x = true.
Proof.
  intros Hv. rewrite FloatAxioms.eqb_spec, add_spec.
  change (Prim2SF 0) with (S754_zero false).
  destruct (valid_price_cases x Hv) as [(s & ->)|(s & m & e & ->)].
  - destruct s; reflexivity.
  - change (SF64add (S754_zero false) (S754_finite s m e)) with (S754_finite s m e).
    unfold SFeqb, SFcompare.
    destruct s; rewrite Z.compare_refl, Pos.compare_cont_refl; reflexivity.
Qed.

(** Finite numbers that compare [==] are the same number. *)
Lemma sf_eqb_finite s m e s' m' e' :
  SFeqb (S754_finite s m e) (S754_finite s' m' e') = true ->
  s = s' /\ e = e' /\ m = m'.
Proof.
  unfold SFeqb, SFcompare.
  change (PosDef.Pos.compare_cont Eq m m') with (Pos.compare m m').
  destruct s, s'; try discriminate;
    destruct (Z.compare_spec e e') as [->|?|?]; try discriminate;
    destruct (Pos.compare_spec m m') as [->|?|?]; try discriminate; auto.
Qed.

(** Two valid prices that compare [==] are at distance exactly [+0]. *)
Lemma eqb_sub_zero x y :
  valid_price x = true -> valid_price y = true ->
  PrimFloat.eqb x y = true -> PrimFloat.abs (x - y) = 0.
Proof.
  intros Hx Hy. rewrite FloatAxioms.eqb_spec. intros He.
  apply Prim2SF_inj. rewrite abs_spec, sub_spec.
  change (Prim2SF 0) with (S754_zero false).
  destruct (valid_price_cases x Hx) as [(s & Ex)|(s & m & e & Ex)];
    destruct (valid_price_cases y Hy) as [(s' & Ey)|(s' & m' & e' & Ey)];
    rewrite Ex, Ey in *.
  - destruct s, s'; reflexivity.
  - destruct s'; discriminate He.
  - destruct s; discriminate He.
  - destruct (sf_eqb_finite _ _ _ _ _ _ He) as (<- & <- & <-).
    rewrite sf_sub_self. reflexivity.
Qed.

(** A window that ends where it starts has no relative change above a
    positive threshold. *)
Lemma no_change x c :
  valid_price x = true ->
  PrimFloat.ltb 0 c = true ->
  PrimFloat.ltb c (PrimFloat.abs ((x - x) / x)) = false.
Proof.
  intros Hv Hc. rewrite ltb_spec, abs_spec, div_spec, sub_spec.
  rewrite ltb_spec in Hc. change (Prim2SF 0) with (S754_zero false) in Hc.
  destruct (valid_price_cases x Hv) as [(s & ->)|(s & m & e & ->)].
  - assert (E : SF64sub (S754_zero s) (S754_zero s) = S754_zero false)
      by (destruct s; reflexivity).
    rewrite E. simpl. unfold SFltb.
    destruct (Prim2SF c) as [b|b| |b k e']; reflexivity.
  - rewrite sf_sub_self. simpl. unfold SFltb in *.
    destruct (Prim2SF c) as [b|b| |b k e']; simpl in *; try reflexivity;
      try discriminate; destruct b; try reflexivity; discriminate.
Qed.

End FloatFacts.
(** * sliding_window.c: windows of one price *)

Module SingleWindowFacts.
Import SlidingWindow WindowSpec WindowProofs FloatFacts.
Import StockSpanSpec (all_valid).
Import StockSpanProofs (all_valid_price).
Import SegTreeSpec (is_min, is_max).

(** With window size 1 the running sum of window [k] is [0 + prices[k]]
    exactly: what left the window is subtracted without error. *)
Lemma run_sums_one prices (k : nat) :
  all_valid prices -> Z.of_nat k < Z.of_nat (length prices) ->
  fst (run_sums prices 1 k) = (0 + price prices (Z.of_nat k))%float.
Proof.
  intros Hv. induction k as [|k IH]; intros Hk.
  - reflexivity.
  - pose proof (IH ltac:(lia)) as Hs.
    change (run_sums prices 1 (S k)) with
      (let '(s, q) := run_sums prices 1 k in
       let po := price prices (Z.of_nat k) in
       let pin := price prices (Z.of_nat k + 1) in
       (s - po + pin, q - po * po + pin * pin)%float).
    destruct (run_sums prices 1 k) as (s, q). simpl fst in *.
    replace (Z.of_nat (S k)) with (Z.of_nat k + 1) by lia.
    assert (Hvk : valid_price (price prices (Z.of_nat k)) = true)
      by (apply all_valid_price; [exact Hv|lia]).
    rewrite Hs, (add_zero_sub _ Hvk). reflexivity.
Qed.

(** X16: with window size 1 there is one window per price; its [max] and [min]
    are that price, its average is [0 + price] (equal to the price under
    [==]: the running sum carries no error), and its label is never
    "bullish" or "bearish": the first and the last price of the window are
    the same price, so the relative change is zero or NaN and the label is
    the one the coefficient of variation selects, "volatile" or "stable". *)
Theorem window_size_one prices out_handle err_buf err_buf_len w result e w' :
  analyzeSlidingWindow (Some prices) (Z.of_nat (length prices)) 1 out_handle
    err_buf err_buf_len w = Ok ((0, Some (Some result), e), w') ->
  wr_num_windows result = Z.of_nat (length prices) /\
  forall j, 0 <= j < Z.of_nat (length prices) ->
    exists st,
      wr_windows result !! Z.to_nat j = Some (Some st) /\
      ws_max st = price prices j /\
      ws_min st = price prices j /\
      ws_avg st = (0 + price prices j)%float /\
      PrimFloat.eqb (ws_avg st) (price prices j) = true /\
      (ws_pattern st = "volatile"%string \/ ws_pattern st = "stable"%string).
Proof.
  intros H.
  destruct (analyzeSlidingWindow_success _ _ _ _ _ _ _ _ _ H ltac:(lia))
    as (Hv & HW & _).
  destruct (stored_windows _ _ _ _ _ _ _ _ _ H ltac:(lia)) as (result' & Er & Hnum & Hst).
  inversion Er; subst result'; clear Er.
  split; [lia|]. intros j Hj.
  destruct (Hst j ltac:(lia)) as (st & L & Hmx & Hmn & Havg & Hpat).
  exists st. split; [exact L|].
  assert (Hvj : valid_price (price prices j) = true)
    by (apply all_valid_price; [exact Hv|lia]).
  pose proof (run_sums_one prices (Z.to_nat j) Hv ltac:(lia)) as Hs.
  rewrite Z2Nat.id in Hs by lia.
  assert (Ea : window_avg prices 1 (Z.to_nat j) = (0 + price prices j)%float).
  { unfold window_avg. rewrite Hs.
    change (double_of_size_t 1) with 1%float. apply div_one. }
  split.
  { destruct Hmx as ((t & Ht & ->) & _). f_equal. lia. }
  split.
  { destruct Hmn as ((t & Ht & ->) & _). f_equal. lia. }
  split; [rewrite Havg; exact Ea|].
  split; [rewrite Havg, Ea; apply add_zero_eqb; exact Hvj|].
  rewrite Hpat, classifyPattern_spec. unfold pattern_spec.
  replace (j + 1 - 1) with j by lia.
  rewrite (no_change (price prices j) 0.05%float Hvj eq_refl).
  cbn [andb].
  destruct (PrimFloat.ltb 0.1 _); [left|right]; reflexivity.
Qed.

Lemma window_size_one_witness :
  exists result e w',
    analyzeSlidingWindow (Some five_prices) 5 1 (Some None) None 0 w0
    = Ok ((0, Some (Some result), e), w') /\
    wr_num_windows result = 5 /\
    forall j, 0 <= j < 5 ->
      exists st,
        wr_windows result !! Z.to_nat j = Some (Some st) /\
        ws_max st = price five_prices j /\
        ws_min st = price five_prices j /\
        ws_avg st = (0 + price five_prices j)%float /\
        PrimFloat.eqb (ws_avg st) (price five_prices j) = true /\
        (ws_pattern st = "volatile"%string \/ ws_pattern st = "stable"%string).
Proof.
  assert (E : exists result e w',
             analyzeSlidingWindow (Some five_prices) (Z.of_nat (length five_prices)) 1
               (Some None) None 0 w0 = Ok ((0, Some (Some result), e), w'))
    by (do 3 eexists; vm_compute; reflexivity).
  destruct E as (result & e & w' & E).
  exists result, e, w'. split; [exact E|].
  exact (window_size_one five_prices (Some None) None 0 w0 result e w' E).
Defined.

End SingleWindowFacts.

(** * segment_tree.c: queries for a single price, and against the scan *)

Module SinglePriceFacts.
Import SegTree StockSpanSpec StockSpanProofs SegTreeSpec SegTreeProofs FloatFacts.

(** X17: a query for a single position [i] of a built tree returns
    [prices[i]] itself as min, as max and as average, bit for bit, whatever
    the size of the tree: the loop takes the leaf of [i] and nothing else,
    and the average is that price divided by 1. *)
Theorem single_price_query prices out_tree_handle eb0 el0 wb tree eb1 wb' i :
  buildSegmentTree (Some prices) (Z.of_nat (length prices)) out_tree_handle
    eb0 el0 wb = Ok ((0, Some (Some tree), eb1), wb') ->
  0 <= i < Z.of_nat (length prices) ->
  let p := price prices i in
  exists var,
    forall o1 o2 o3 o4 err_buf err_buf_len w,
      querySegmentTree (Some tree) i i
        (mkOutputs (Some o1) (Some o2) (Some o3) (Some o4)) err_buf err_buf_len w
      = Ok ((0, mkOutputs (Some p) (Some p) (Some p) (Some var), err_buf), w).
Proof.
  intros Hbuild Hi p.
  destruct (buildSegmentTree_success _ _ _ _ _ _ _ _ Hbuild)
    as (Hv & Hlen & tree' & Et & Hb).
  inversion Et; subst tree'; clear Et.
  destruct (query_result_any_world prices tree i i Hb ltac:(lia) ltac:(lia) ltac:(lia))
    as (l & r & e & Hp & Hloop).
  replace (i - i + 1) with 1 in Hp by lia.
  change (Z.to_nat 1) with 1%nat in Hp. change (positions i 1) with [i + 0] in Hp.
  rewrite Z.add_0_r in Hp. apply Permutation_sym, Permutation_length_1_inv in Hp.
  apply leaves_singleton in Hp. subst e. simpl eval in Hloop. fold p in Hloop.
  exists (p * p - p * p)%float.
  intros. unfold querySegmentTree. pose proof Hb as (Hl & _). rewrite Hl.
  destruct (i <? i) eqn:E1; [apply Z.ltb_lt in E1; lia|].
  destruct (Z.of_nat (length prices) <=? i) eqn:E2; [apply Z.leb_le in E2; lia|].
  change (false || false) with false. cbv iota. rewrite <- Hl.
  rewrite (bind_ok _ _ _ _ _ (Hloop w)). cbv beta iota.
  unfold compute_outputs, leafNode, ret. cbn.
  change (double_of_size_t 1) with 1%float. rewrite !div_one. reflexivity.
Qed.

Lemma single_price_query_witness :
  exists tree var,
    buildSegmentTree (Some example_prices) 7 (Some None) None 0 w0
    = Ok ((0, Some (Some tree), None), w0) /\
    forall o1 o2 o3 o4 err_buf err_buf_len w,
      querySegmentTree (Some tree) 3 3
        (mkOutputs (Some o1) (Some o2) (Some o3) (Some o4)) err_buf err_buf_len w
      = Ok ((0, mkOutputs (Some 70%float) (Some 70%float) (Some 70%float)
                  (Some var), err_buf), w).
Proof.
  assert (Eb : exists tree,
             buildSegmentTree (Some example_prices) (Z.of_nat (length example_prices))
               (Some None) None 0 w0 = Ok ((0, Some (Some tree), None), w0))
    by (eexists; vm_compute; reflexivity).
  destruct Eb as (tree & Eb).
  destruct (single_price_query example_prices (Some None) None 0 w0 tree None w0 3 Eb
              ltac:(simpl; lia)) as (var & Hq).
  exists tree, var. split; [exact Eb|exact Hq].
Defined.

End SinglePriceFacts.

(** * The two range algorithms agree *)

Module CrossFacts.
Import SegTree SlidingWindow SegTreeSpec SegTreeProofs WindowSpec WindowProofs QueryFacts.

(** X18: the sliding-window analysis and the segment tree answer the same
    question for a window: the [min] and [max] stored for window [j] are
    [==] to those [querySegmentTree] reports for the range
    [j .. j + W - 1] of a tree built over the same prices. *)
Theorem window_matches_query prices W out_tree eb0 el0 wb tree eb1 wb'
    out_handle eb2 el2 wa result eb3 wa' j :
  buildSegmentTree (Some prices) (Z.of_nat (length prices)) out_tree
    eb0 el0 wb = Ok ((0, Some (Some tree), eb1), wb') ->
  analyzeSlidingWindow (Some prices) (Z.of_nat (length prices)) W out_handle
    eb2 el2 wa = Ok ((0, Some (Some result), eb3), wa') ->
  0 <= W ->
  0 <= j < Z.of_nat (length prices) - W + 1 ->
  exists st mn mx avg var,
    wr_windows result !! Z.to_nat j = Some (Some st) /\
    (forall o1 o2 o3 o4 err_buf err_buf_len w,
       querySegmentTree (Some tree) j (j + W - 1)
         (mkOutputs (Some o1) (Some o2) (Some o3) (Some o4)) err_buf err_buf_len w
       = Ok ((0, mkOutputs (Some mn) (Some mx) (Some avg) (Some var), err_buf), w)) /\
    PrimFloat.eqb (ws_min st) mn = true /\
    PrimFloat.eqb (ws_max st) mx = true.
Proof.
  intros Hbuild Hrun HW0 Hj.
  destruct (buildSegmentTree_success _ _ _ _ _ _ _ _ Hbuild)
    as (Hv & Hlen & tree' & Et & Hb).
  inversion Et; subst tree'; clear Et.
  destruct (analyzeSlidingWindow_success _ _ _ _ _ _ _ _ _ Hrun HW0)
    as (_ & HW & _).
  destruct (stored_windows _ _ _ _ _ _ _ _ _ Hrun HW0) as (result' & Er & Hnum & Hst).
  inversion Er; subst result'; clear Er.
  destruct (Hst j ltac:(lia)) as (st & L & Hmx & Hmn & _).
  destruct (query_extrema prices tree j (j + W - 1) Hb Hv ltac:(lia) ltac:(lia)
              ltac:(lia)) as (nd & Hmin & Hmax & Hcnt & Hq).
  pose (outs := compute_outputs nd
                  (mkOutputs (Some 0%float) (Some 0%float) (Some 0%float)
                     (Some 0%float))).
  exists st, (tn_min nd), (tn_max nd),
    (default 0%float (SegTree.out_avg outs)),
    (default 0%float (SegTree.out_variance outs)).
  split; [exact L|]. split.
  { intros. rewrite Hq. unfold outs, compute_outputs. simpl.
    destruct (0 <? tn_count nd); reflexivity. }
  split; [exact (is_min_unique _ _ _ _ _ Hmn Hmin)|
          exact (is_max_unique _ _ _ _ _ Hmx Hmax)].
Qed.

Lemma window_matches_query_witness :
  exists tree result eb3 wa' st mn mx avg var,
    buildSegmentTree (Some five_prices) 5 (Some None) None 0 w0
    = Ok ((0, Some (Some tree), None), w0) /\
    analyzeSlidingWindow (Some five_prices) 5 3 (Some None) None 0 w0
    = Ok ((0, Some (Some result), eb3), wa') /\
    wr_windows result !! Z.to_nat 2 = Some (Some st) /\
    (forall o1 o2 o3 o4 err_buf err_buf_len w,
       querySegmentTree (Some tree) 2 (2 + 3 - 1)
         (mkOutputs (Some o1) (Some o2) (Some o3) (Some o4)) err_buf err_buf_len w
       = Ok ((0, mkOutputs (Some mn) (Some mx) (Some avg) (Some var), err_buf), w)) /\
    PrimFloat.eqb (ws_min st) mn = true /\
    PrimFloat.eqb (ws_max st) mx = true.
Proof.
  assert (Eb : exists tree,
             buildSegmentTree (Some five_prices) (Z.of_nat (length five_prices))
               (Some None) None 0 w0 = Ok ((0, Some (Some tree), None), w0))
    by (eexists; vm_compute; reflexivity).
  destruct Eb as (tree & Eb).
  assert (Ea : exists result eb3 wa',
             analyzeSlidingWindow (Some five_prices) (Z.of_nat (length five_prices)) 3
               (Some None) None 0 w0 = Ok ((0, Some (Some result), eb3), wa'))
    by (do 3 eexists; vm_compute; reflexivity).
  destruct Ea as (result & eb3 & wa' & Ea).
  destruct (window_matches_query five_prices 3 (Some None) None 0 w0 tree None w0
              (Some None) None 0 w0 result eb3 wa' 2 Eb Ea ltac:(lia)
              ltac:(simpl; lia))
    as (st & mn & mx & avg & var & H1 & H2 & H3 & H4).
  exists tree, result, eb3, wa', st, mn, mx, avg, var.
  split; [exact Eb|]. split; [exact Ea|]. split; [exact H1|].
  split; [exact H2|]. split; [exact H3|exact H4].
Defined.

End CrossFacts.

(** * classifyPattern at a zero first price *)

Module ClassifyFacts.
Import SlidingWindow WindowSpec WindowProofs FloatFacts.

(** X19: [classifyPattern] divides by the first price unguarded.  When the first
    price is zero and the last is not, the relative change is infinite, so
    the window is "bullish" or "bearish" by the sign of its last price
    alone, whatever its variance and mean. *)
Theorem classify_from_zero first last variance mean :
  PrimFloat.eqb first 0 = true ->
  valid_price last = true ->
  PrimFloat.eqb last 0 = false ->
  classifyPattern first last variance mean PATTERN_SIZE
  = if dgt last first then "bullish"%string else "bearish"%string.
Proof.
  intros Hz Hv Hnz. rewrite classifyPattern_spec. unfold pattern_spec, dgt.
  rewrite !ltb_spec, abs_spec, div_spec, sub_spec.
  rewrite FloatAxioms.eqb_spec in Hz, Hnz.
  change (Prim2SF 0) with (S754_zero false) in Hz, Hnz.
  change (Prim2SF 0.05) with
    (S754_finite false 7205759403792794 (-57)).
  destruct (Prim2SF first) as [s0|s0| |s0 m0 e0]; simpl in Hz;
    try discriminate Hz; try (destruct s0; discriminate Hz).
  destruct (valid_price_cases last Hv) as [(s & E)|(s & m & e & E)]; rewrite E in *.
  - discriminate Hnz.
  - destruct s, s0; reflexivity.
Qed.

Lemma classify_from_zero_witness :
  classifyPattern 0 (-3) 4 2 PATTERN_SIZE
  = if dgt (-3) 0 then "bullish"%string else "bearish"%string.
Proof.
  apply (classify_from_zero 0 (-3) 4 2); vm_compute; reflexivity.
Defined.

End ClassifyFacts.

(** * The spans against the segment tree *)

Module SpanTreeFacts.
Import StockSpan SegTree StockSpanSpec StockSpanProofs SegTreeSpec SegTreeProofs QueryFacts.

(** X20: the span and the tree agree: over the [span[i]] positions that end at
    [i], the maximum [querySegmentTree] reports is [==] to [prices[i]]. *)
Theorem span_range_max prices out_tree eb0 el0 wb tree eb1 wb'
    out eb2 el2 wa spans eb3 wa' i :
  buildSegmentTree (Some prices) (Z.of_nat (length prices)) out_tree
    eb0 el0 wb = Ok ((0, Some (Some tree), eb1), wb') ->
  calculateStockSpan (Some prices) (Z.of_nat (length prices)) (Some out)
    eb2 el2 wa = Ok ((0, Some (Some spans), eb3), wa') ->
  0 <= i < Z.of_nat (length prices) ->
  exists s mn mx avg var,
    spans !! Z.to_nat i = Some (Some s) /\
    1 <= s <= i + 1 /\
    (forall o1 o2 o3 o4 err_buf err_buf_len w,
       querySegmentTree (Some tree) (i - s + 1) i
         (mkOutputs (Some o1) (Some o2) (Some o3) (Some o4)) err_buf err_buf_len w
       = Ok ((0, mkOutputs (Some mn) (Some mx) (Some avg) (Some var), err_buf), w)) /\
    PrimFloat.eqb mx (price prices i) = true.
Proof.
  intros Hbuild Hspan Hi.
  destruct (buildSegmentTree_success _ _ _ _ _ _ _ _ Hbuild)
    as (Hv & Hlen & tree' & Et & Hb).
  inversion Et; subst tree'; clear Et.
  assert (Hok : allocs_succeed 3 wa).
  { unfold calculateStockSpan in Hspan.
    destruct (Z.of_nat (length prices) =? 0) eqn:E0; [inversion Hspan|].
    destruct (MAX_ARRAY_SIZE <? Z.of_nat (length prices)) eqn:E1; [inversion Hspan|].
    simpl orb in Hspan. cbv iota in Hspan.
    apply bind_inv in Hspan. destruct Hspan as (bad & w1 & Ebad & H).
    rewrite Nat2Z.id in Ebad. rewrite has_invalid_price_spec in Ebad by lia.
    inversion Ebad; subst; clear Ebad.
    destruct (negb _); [inversion H|].
    apply bind_inv in H. destruct H as (sp & w2 & Ea & H).
    destruct sp as [sp|]; [|inversion H].
    apply bind_inv in H. destruct H as (stk & w3 & Es & H).
    destruct stk as [stk|]; [|inversion H].
    apply (proj2 (malloc_array_inv _ _ _ _ _ Ea)); [discriminate|].
    unfold createStack in Es.
    apply bind_inv in Es. destruct Es as (got & w4 & Em & Es).
    destruct got; [|inversion Es]. simpl negb in Es. cbv iota in Es.
    apply bind_inv in Es. destruct Es as (data & w5 & Ed & Es).
    destruct data as [data|]; [|inversion Es].
    apply (proj2 (malloc_inv _ _ _ Em) eq_refl).
    apply (proj2 (malloc_array_inv _ _ _ _ _ Ed)); [discriminate|].
    apply allocs_succeed_0. }
  destruct (calculateStockSpan_run prices out eb2 el2 wa Hv Hlen Hok)
    as (spans' & w' & Erun & _ & Hsp).
  rewrite Erun in Hspan. inversion Hspan; subst spans' w'; clear Hspan.
  destruct (Hsp i Hi) as (b & (Hb1 & Hle & Hgt) & L).
  destruct (query_extrema prices tree (i - (i - b) + 1) i Hb Hv ltac:(lia) ltac:(lia)
              ltac:(lia)) as (nd & Hmin & Hmax & Hcnt & Hq).
  pose (outs := compute_outputs nd
                  (mkOutputs (Some 0%float) (Some 0%float) (Some 0%float)
                     (Some 0%float))).
  exists (i - b), (tn_min nd), (tn_max nd),
    (default 0%float (SegTree.out_avg outs)),
    (default 0%float (SegTree.out_variance outs)).
  split; [exact L|]. split; [lia|]. split.
  { intros. rewrite Hq. unfold outs, compute_outputs. simpl.
    destruct (0 <? tn_count nd); reflexivity. }
  apply (is_max_unique prices (i - (i - b) + 1) i); [exact Hmax|].
  split.
  - exists i. split; [lia|reflexivity].
  - intros j Hj. destruct (Z.eq_dec j i) as [->|Hne].
    + apply dle_refl. apply all_valid_price; [exact Hv|lia].
    + apply Hle. lia.
Qed.

Lemma span_range_max_witness :
  exists tree spans s mn mx avg var,
    buildSegmentTree (Some example_prices) 7 (Some None) None 0 w0
    = Ok ((0, Some (Some tree), None), w0) /\
    calculateStockSpan (Some example_prices) 7 (Some None) None 0 w0
    = Ok ((0, Some (Some spans), None), w0) /\
    spans !! Z.to_nat 5 = Some (Some s) /\
    1 <= s <= 5 + 1 /\
    (forall o1 o2 o3 o4 err_buf err_buf_len w,
       querySegmentTree (Some tree) (5 - s + 1) 5
         (mkOutputs (Some o1) (Some o2) (Some o3) (Some o4)) err_buf err_buf_len w
       = Ok ((0, mkOutputs (Some mn) (Some mx) (Some avg) (Some var), err_buf), w)) /\
    PrimFloat.eqb mx (price example_prices 5) = true.
Proof.
  assert (Eb : exists tree,
             buildSegmentTree (Some example_prices) (Z.of_nat (length example_prices))
               (Some None) None 0 w0 = Ok ((0, Some (Some tree), None), w0))
    by (eexists; vm_compute; reflexivity).
  destruct Eb as (tree & Eb).
  assert (Es : exists spans,
             calculateStockSpan (Some example_prices) (Z.of_nat (length example_prices))
               (Some None) None 0 w0 = Ok ((0, Some (Some spans), None), w0))
    by (eexists; vm_compute; reflexivity).
  destruct Es as (spans & Es).
  destruct (span_range_max example_prices (Some None) None 0 w0 tree None w0
              None None 0 w0 spans None w0 5 Eb Es ltac:(simpl; lia))
    as (s & mn & mx & avg & var & H1 & H2 & H3 & H4).
  exists tree, spans, s, mn, mx, avg, var.
  split; [exact Eb|]. split; [exact Es|]. split; [exact H1|].
  split; [exact H2|]. split; [exact H3|exact H4].
Defined.

End SpanTreeFacts.

(** * stock_span.c: the spans are computed online *)

Module SpanPrefixFacts.
Import StockSpan StockSpanSpec StockSpanProofs.

Lemma blocker_unique prices i b b' :
  blocker prices i b -> blocker prices i b' -> b = b'.
Proof.
  intros (Hb & Hle & Hgt) (Hb' & Hle' & Hgt').
  destruct (Z.lt_trichotomy b b') as [Hlt|[Heq|Hlt]]; [|exact Heq|]; exfalso.
  - specialize (Hle b' ltac:(lia)). rewrite Hgt' in Hle by lia. discriminate.
  - specialize (Hle' b ltac:(lia)). rewrite Hgt in Hle' by lia. discriminate.
Qed.

Lemma price_take prices (k : nat) j :
  0 <= j < Z.of_nat k -> price (take k prices) j = price prices j.
Proof.
  intros Hj. unfold price. rewrite lookup_take_lt by lia. reflexivity.
Qed.

Lemma blocker_take prices (k : nat) i b :
  0 <= i < Z.of_nat k -> blocker (take k prices) i b -> blocker prices i b.
Proof.
  intros Hi (Hb & Hle & Hgt). split; [exact Hb|]. split.
  - intros j Hj. rewrite <- (price_take prices k j), <- (price_take prices k i) by lia.
    apply Hle. exact Hj.
  - intros Hb0. rewrite <- (price_take prices k b), <- (price_take prices k i) by lia.
    apply Hgt. exact Hb0.
Qed.

(** X21: the spans are computed online: [span[i]] depends on the prices up
    to day [i] only, so the spans of the first [k] prices are the first [k]
    spans of the whole sequence. *)
Theorem span_prefix prices (k : nat) out err_buf err_buf_len w :
  all_valid prices ->
  1 <= Z.of_nat k <= Z.of_nat (length prices) ->
  Z.of_nat (length prices) <= MAX_ARRAY_SIZE ->
  allocs_succeed 3 w ->
  exists spans spans_k w1 w2,
    calculateStockSpan (Some prices) (Z.of_nat (length prices)) (Some out)
      err_buf err_buf_len w
    = Ok ((0, Some (Some spans), err_buf), w1) /\
    calculateStockSpan (Some (take k prices)) (Z.of_nat k) (Some out)
      err_buf err_buf_len w
    = Ok ((0, Some (Some spans_k), err_buf), w2) /\
    length spans_k = k /\
    forall i, (i < k)%nat -> spans_k !! i = spans !! i.
Proof.
  intros Hv Hk Hmax Hok.
  assert (Hlk : length (take k prices) = k) by (rewrite length_take; lia).
  assert (Hvk : all_valid (take k prices)).
  { pose proof (all_valid_forallb prices k Hv) as H. rewrite drop_0 in H. exact H. }
  destruct (calculateStockSpan_run prices out err_buf err_buf_len w Hv ltac:(lia) Hok)
    as (spans & w1 & E & Hl & Hsp).
  destruct (calculateStockSpan_run (take k prices) out err_buf err_buf_len w Hvk
              ltac:(rewrite Hlk; lia) Hok) as (spans_k & w2 & Ek & Hlk' & Hspk).
  rewrite Hlk in Ek, Hlk', Hspk.
  exists spans, spans_k, w1, w2. split; [exact E|]. split; [exact Ek|].
  split; [exact Hlk'|].
  intros i Hi.
  destruct (Hspk (Z.of_nat i) ltac:(lia)) as (b' & Hb' & L').
  destruct (Hsp (Z.of_nat i) ltac:(lia)) as (b & Hb & L).
  rewrite Nat2Z.id in L, L'.
  apply (blocker_take prices k) in Hb'; [|lia].
  rewrite (blocker_unique _ _ _ _ Hb' Hb) in L'. congruence.
Qed.

Lemma span_prefix_witness :
  exists spans spans_k w1 w2,
    calculateStockSpan (Some example_prices) 7 (Some None) None 0 w0
    = Ok ((0, Some (Some spans), None), w1) /\
    calculateStockSpan (Some (take 4 example_prices)) 4 (Some None) None 0 w0
    = Ok ((0, Some (Some spans_k), None), w2) /\
    length spans_k = 4%nat /\
    forall i, (i < 4)%nat -> spans_k !! i = spans !! i.
Proof.
  apply (span_prefix example_prices 4 None None 0 w0).
  - vm_compute. reflexivity.
  - vm_compute. split; discriminate.
  - vm_compute. discriminate.
  - constructor.
Defined.

End SpanPrefixFacts.

(** * sliding_window.c: the windows are computed online *)

Module WindowPrefixFacts.
Import SlidingWindow StockSpanSpec StockSpanProofs WindowSpec WindowProofs SegTreeSpec SegTreeProofs.
Import SpanPrefixFacts.

Lemma first_sums_take prices (k i : nat) :
  (i <= k)%nat -> first_sums (take k prices) i = first_sums prices i.
Proof.
  induction i as [|i IH]; intros Hi; [reflexivity|].
  cbn [first_sums]. rewrite IH by lia.
  rewrite price_take by lia. reflexivity.
Qed.

Lemma run_sums_take prices (k : nat) W (j : nat) :
  0 <= W -> Z.of_nat j + W <= Z.of_nat k ->
  run_sums (take k prices) W j = run_sums prices W j.
Proof.
  intros HW. induction j as [|j IH]; intros Hj.
  - cbn [run_sums]. apply first_sums_take. lia.
  - cbn [run_sums]. rewrite IH by lia.
    rewrite !price_take by lia. reflexivity.
Qed.

Lemma is_max_take prices (k : nat) lo hi v :
  0 <= lo -> hi < Z.of_nat k ->
  is_max (take k prices) lo hi v -> is_max prices lo hi v.
Proof.
  intros Hlo Hhi [(j & Hj & Hv) Hall]. split.
  - exists j. split; [exact Hj|]. rewrite <- (price_take prices k j) by lia. exact Hv.
  - intros i Hi. rewrite <- (price_take prices k i) by lia. apply Hall. exact Hi.
Qed.

Lemma is_min_take prices (k : nat) lo hi v :
  0 <= lo -> hi < Z.of_nat k ->
  is_min (take k prices) lo hi v -> is_min prices lo hi v.
Proof.
  intros Hlo Hhi [(j & Hj & Hv) Hall]. split.
  - exists j. split; [exact Hj|]. rewrite <- (price_take prices k j) by lia. exact Hv.
  - intros i Hi. rewrite <- (price_take prices k i) by lia. apply Hall. exact Hi.
Qed.

(** X22: the window statistics are computed online: window [j] depends
    on the prices up to its last day only.  Analysing the first [k] prices
    gives the first [k - W + 1] windows of the whole analysis: average and
    pattern are the same values, maximum and minimum compare equal. *)
Theorem window_prefix prices (k : nat) W out err_buf err_buf_len w :
  all_valid prices ->
  1 <= W <= Z.of_nat k ->
  Z.of_nat k <= Z.of_nat (length prices) ->
  Z.of_nat (length prices) <= MAX_ARRAY_SIZE ->
  allocs_succeed 6 w ->
  exists result result_k w1 w2,
    analyzeSlidingWindow (Some prices) (Z.of_nat (length prices)) W (Some out)
      err_buf err_buf_len w
    = Ok ((0, Some (Some result), err_buf), w1) /\
    analyzeSlidingWindow (Some (take k prices)) (Z.of_nat k) W (Some out)
      err_buf err_buf_len w
    = Ok ((0, Some (Some result_k), err_buf), w2) /\
    wr_num_windows result_k = Z.of_nat k - W + 1 /\
    forall j, 0 <= j < Z.of_nat k - W + 1 ->
      exists st st_k,
        wr_windows result !! Z.to_nat j = Some (Some st) /\
        wr_windows result_k !! Z.to_nat j = Some (Some st_k) /\
        ws_avg st_k = ws_avg st /\
        ws_pattern st_k = ws_pattern st /\
        PrimFloat.eqb (ws_max st_k) (ws_max st) = true /\
        PrimFloat.eqb (ws_min st_k) (ws_min st) = true.
Proof.
  intros Hv HW Hk Hmax Hok.
  assert (Hlk : length (take k prices) = k) by (rewrite length_take; lia).
  assert (Hvk : all_valid (take k prices)).
  { pose proof (all_valid_forallb prices k Hv) as H. rewrite drop_0 in H. exact H. }
  destruct (analyzeSlidingWindow_run prices W out err_buf err_buf_len w Hv
              ltac:(lia) Hmax Hok)
    as (result & w1 & evs & E & _ & _ & _ & _ & _ & Hst).
  destruct (analyzeSlidingWindow_run (take k prices) W out err_buf err_buf_len w Hvk
              ltac:(rewrite Hlk; lia) ltac:(rewrite Hlk; lia) Hok)
    as (result_k & w2 & evs_k & Ek & _ & _ & Hnum & _ & _ & Hstk).
  rewrite Hlk in Ek, Hnum, Hstk.
  exists result, result_k, w1, w2. split; [exact E|]. split; [exact Ek|].
  split; [exact Hnum|].
  intros j Hj.
  destruct (Hst j ltac:(lia)) as (st & L & Hmx & Hmn & Havg & Hpat).
  destruct (Hstk j Hj) as (st_k & Lk & Hmxk & Hmnk & Havgk & Hpatk).
  exists st, st_k. split; [exact L|]. split; [exact Lk|].
  assert (Hrs : run_sums (take k prices) W (Z.to_nat j) = run_sums prices W (Z.to_nat j))
    by (apply run_sums_take; lia).
  assert (Ha : window_avg (take k prices) W (Z.to_nat j) = window_avg prices W (Z.to_nat j))
    by (unfold window_avg; rewrite Hrs; reflexivity).
  split; [rewrite Havgk, Havg; exact Ha|].
  split.
  - rewrite Hpatk, Hpat. unfold window_variance. rewrite Ha, Hrs.
    rewrite !price_take by lia. reflexivity.
  - split.
    + apply (is_max_unique prices j (j + W - 1)); [|exact Hmx].
      apply (is_max_take prices k); [lia|lia|exact Hmxk].
    + apply (is_min_unique prices j (j + W - 1)); [|exact Hmn].
      apply (is_min_take prices k); [lia|lia|exact Hmnk].
Qed.

Lemma window_prefix_witness :
  exists result result_k w1 w2,
    analyzeSlidingWindow (Some example_prices) 7 3 (Some None) None 0 w0
    = Ok ((0, Some (Some result), None), w1) /\
    analyzeSlidingWindow (Some (take 5 example_prices)) 5 3 (Some None) None 0 w0
    = Ok ((0, Some (Some result_k), None), w2) /\
    wr_num_windows result_k = 3 /\
    forall j, 0 <= j < 3 ->
      exists st st_k,
        wr_windows result !! Z.to_nat j = Some (Some st) /\
        wr_windows result_k !! Z.to_nat j = Some (Some st_k) /\
        ws_avg st_k = ws_avg st /\
        ws_pattern st_k = ws_pattern st /\
        PrimFloat.eqb (ws_max st_k) (ws_max st) = true /\
        PrimFloat.eqb (ws_min st_k) (ws_min st) = true.
Proof.
  apply (window_prefix example_prices 5 3 None None 0 w0).
  - vm_compute. reflexivity.
  - vm_compute. split; discriminate.
  - vm_compute. discriminate.
  - vm_compute. discriminate.
  - constructor.
Defined.

End WindowPrefixFacts.

(** * segment_tree.c against the direct scan of the harness *)

Module ScanFacts.
Import SegTree StockSpanSpec StockSpanProofs SegTreeSpec SegTreeProofs FloatFacts.
Import WindowSpec (written).

(** X23: called as the test harness calls it (no variance requested), a
    query on a built tree returns status 0 with the extrema of the range,
    and these are at distance exactly 0 from the extrema of the direct scan
    [bruteForceRange]: the minimum and maximum comparisons of the harness
    never report, and its verdict is that of the average comparison
    alone. *)
Theorem query_extrema_pass_scan prices out_tree_handle eb0 el0 wb tree eb1 wb'
    ql qr o1 o2 o3 err_buf err_buf_len w :
  buildSegmentTree (Some prices) (Z.of_nat (length prices)) out_tree_handle
    eb0 el0 wb = Ok ((0, Some (Some tree), eb1), wb') ->
  0 <= ql <= qr -> qr < Z.of_nat (length prices) ->
  exists mn mx avg mn' mx' avg',
    querySegmentTree (Some tree) ql qr
      (mkOutputs (Some o1) (Some o2) (Some o3) None) err_buf err_buf_len w
    = Ok ((0, mkOutputs (Some mn) (Some mx) (Some avg) None, err_buf), w) /\
    bruteForceRange prices ql qr w = Ok ((mn', mx', avg'), w) /\
    is_min prices ql qr mn /\ is_max prices ql qr mx /\
    PrimFloat.abs (mn - mn') = 0%float /\
    PrimFloat.abs (mx - mx') = 0%float /\
    query_mismatch mn mx avg mn' mx' avg'
    = dgt (PrimFloat.abs (avg - avg')) 1e-6.
Proof.
  intros Hbuild Hq Hqr.
  destruct (buildSegmentTree_success _ _ _ _ _ _ _ _ Hbuild)
    as (Hv & Hlen & tree' & Et & Hb).
  inversion Et; subst tree'; clear Et.
  destruct (querySegmentTree_range prices out_tree_handle eb0 el0 wb tree eb1 wb'
              ql qr o1 o2 o3 0%float err_buf err_buf_len w Hbuild Hq Hqr)
    as (e & mn' & mx' & avg' & _ & Eq4 & Hmin & Hmax & Ebf & Emn & Emx & _).
  cbv zeta in Eq4.
  destruct (WindowProofs.query_any_outputs prices tree ql qr Hb ltac:(lia) Hq Hqr)
    as (mn & mx & avg & var & Hany).
  pose proof (Hany (mkOutputs (Some o1) (Some o2) (Some o3) (Some 0%float))
                err_buf err_buf_len w) as E4.
  rewrite Eq4 in E4. cbn [written out_min out_max out_avg out_variance] in E4.
  inversion E4 as [[Hmn Hmx Havg Hvar]]. clear E4.
  pose proof (Hany (mkOutputs (Some o1) (Some o2) (Some o3) None)
                err_buf err_buf_len w) as E3.
  cbn [written out_min out_max out_avg out_variance] in E3.
  rewrite <- Hmn, <- Hmx, <- Havg in E3.
  eexists _, _, _, mn', mx', avg'. split; [exact E3|].
  split; [exact Ebf|]. split; [exact Hmin|]. split; [exact Hmax|].
  assert (Hvp : forall v lo hi, lo <= hi -> 0 <= lo -> hi < Z.of_nat (length prices) ->
            (exists j, lo <= j <= hi /\ v = price prices j) -> valid_price v = true).
  { intros v lo hi _ Hlo Hhi (j & Hj & ->). apply all_valid_price; [exact Hv|lia]. }
  destruct (bruteForceRange_spec prices ql qr w Hv Hq Hqr)
    as (mn2 & mx2 & avg2 & Ebf2 & Hmin' & Hmax').
  rewrite Ebf in Ebf2. inversion Ebf2; subst mn2 mx2 avg2; clear Ebf2.
  assert (Dmn : PrimFloat.abs (tn_min (eval prices e) - mn') = 0%float).
  { apply eqb_sub_zero; [ | | exact Emn].
    - apply (Hvp _ ql qr); [lia|lia|lia|exact (proj1 Hmin)].
    - apply (Hvp _ ql qr); [lia|lia|lia|exact (proj1 Hmin')]. }
  assert (Dmx : PrimFloat.abs (tn_max (eval prices e) - mx') = 0%float).
  { apply eqb_sub_zero; [ | | exact Emx].
    - apply (Hvp _ ql qr); [lia|lia|lia|exact (proj1 Hmax)].
    - apply (Hvp _ ql qr); [lia|lia|lia|exact (proj1 Hmax')]. }
  split; [exact Dmn|]. split; [exact Dmx|].
  unfold query_mismatch. rewrite Dmn, Dmx. reflexivity.
Qed.

Lemma query_extrema_pass_scan_witness :
  exists tree mn mx avg mn' mx' avg',
    buildSegmentTree (Some uneven_prices) 3 (Some None) None 0 w0
    = Ok ((0, Some (Some tree), None), w0) /\
    querySegmentTree (Some tree) 0 2
      (mkOutputs (Some 0%float) (Some 0%float) (Some 0%float) None) None 0 w0
    = Ok ((0, mkOutputs (Some mn) (Some mx) (Some avg) None, None), w0) /\
    bruteForceRange uneven_prices 0 2 w0 = Ok ((mn', mx', avg'), w0) /\
    is_min uneven_prices 0 2 mn /\ is_max uneven_prices 0 2 mx /\
    PrimFloat.abs (mn - mn') = 0%float /\
    PrimFloat.abs (mx - mx') = 0%float /\
    query_mismatch mn mx avg mn' mx' avg'
    = dgt (PrimFloat.abs (avg - avg')) 1e-6.
Proof.
  assert (Eb : exists tree,
             buildSegmentTree (Some uneven_prices) (Z.of_nat (length uneven_prices))
               (Some None) None 0 w0 = Ok ((0, Some (Some tree), None), w0))
    by (eexists; vm_compute; reflexivity).
  destruct Eb as (tree & Eb).
  destruct (query_extrema_pass_scan uneven_prices (Some None) None 0 w0 tree None w0
              0 2 0%float 0%float 0%float None 0 w0 Eb ltac:(lia) ltac:(simpl; lia))
    as (mn & mx & avg & mn' & mx' & avg' & H).
  exists tree, mn, mx, avg, mn', mx', avg'. split; [exact Eb|exact H].
Defined.

End ScanFacts.
